(** * PopSim: router, actor and courier state machines

    A shallow embedding of [js/pathfinding.js], [js/agent.js], the
    [DeliveryDriver] class and the tick body of [js/simulation.js], with the
    properties of the design document checked against it; then of the city
    generator ([js/city.js], [js/names.js]) and of the pause, record and
    replay functions of [js/simulation.js], with properties of their own.

    Conventions of the embedding.
    - Tile coordinates are integers ([Z]); a cell is a pair [(x, y)].
    - JavaScript numbers that hold times, speeds and fractional positions are
      modelled as exact rationals ([Q]); [Infinity] and [undefined] are added
      where a field can hold them.  The sums of [_decideLeisure], whose
      comparison with [curfew] the design document spells out, are rounded
      to double precision ([fl]) as the code rounds them.  The schedule of
      the constructor and the progress along a path are exact; what is
      stated of them on their own (the bounds of the schedule, the outcome
      of a move, the way to work) is stated so that it holds of the rounded
      values as well.
    - [Math.random()] is an input: every function that draws random numbers
      takes the drawn values as arguments.
    - A [City] is what the [City] constructor builds: [rows] rows of [cols]
      tiles each ([wf_city]); [grid[y][x]] is only read inside these bounds. *)

From Stdlib Require Import ZArith QArith Qround Qabs String List Lia Lqa DecimalString.
From stdpp Require Import functions gmap list.

Local Open Scope Z_scope.

(** ** js/city.js: tiles and the city record *)

Inductive tile : Type := EMPTY | ROAD | HOUSE | BUSINESS | LEISURE | EATERY.

#[global] Instance tile_eq_dec : EqDecision tile.
Proof. solve_decision. Defined.

Abbreviation cell := (Z * Z)%type.

Record City : Type := mkCity {
  cols : Z;
  rows : Z;
  grid : list (list tile);
  houses : list cell;
  businesses : list cell;
  leisureSpots : list cell;
  eateries : list cell;
  tileNames : gmap (Z * Z) string
}.

(** The shape the constructor guarantees. *)
Definition wf_city (c : City) : Prop :=
  length (grid c) = Z.to_nat (rows c) /\
  Forall (fun r => length r = Z.to_nat (cols c)) (grid c).

(** [city.grid[y][x]] for indices inside the grid. *)
Definition grid_at (c : City) (x y : Z) : tile :=
  nth (Z.to_nat x) (nth (Z.to_nat y) (grid c) []) EMPTY.

Definition in_bounds (c : City) (p : cell) : Prop :=
  0 <= p.1 < cols c /\ 0 <= p.2 < rows c.

Definition out_of_bounds (c : City) (x y : Z) : bool :=
  (x <? 0) || (x >=? cols c) || (y <? 0) || (y >=? rows c).

(** [City.getTile] *)
Definition getTile (c : City) (cx cy : Z) : tile :=
  if out_of_bounds c cx cy then EMPTY else grid_at c cx cy.

(** [City.getNameAt]: [tileNames.get(..) || null]; the empty string is falsy. *)
Definition getNameAt (c : City) (cx cy : Z) : option string :=
  match tileNames c !! (cx, cy) with
  | Some s => if String.eqb s EmptyString then None else Some s
  | None => None
  end.

(** ** js/pathfinding.js: breadth-first search *)

Definition dirs : list (Z * Z) := [(0, -1); (0, 1); (-1, 0); (1, 0)].

(** Result of expanding one dequeued cell: the destination was reached
    ([Found]), the four neighbours were handled ([Cont]), or the walk back
    through [cameFrom] did not end ([Stuck]). *)
Inductive expansion : Type :=
  | Found (path : list cell)
  | Cont (cameFrom : gmap Z (option Z)) (queue : list cell)
  | Stuck.

Section FindPath.
Variable city : City.
Variables sx sy ex ey : Z.

Definition key (px py : Z) : Z := py * cols city + px.

(** The [while (ck !== null)] loop that rebuilds the path.  [path.unshift]
    prepends.  [cameFrom.get] of an absent key is [undefined], which is not
    [null]: the JavaScript loop would go on for ever, the model runs out of
    fuel. *)
Fixpoint reconstruct (fuel : nat) (cameFrom : gmap Z (option Z)) (ck : Z)
    (path : list cell) : option (list cell) :=
  match fuel with
  | O => None
  | S fuel' =>
      let path' := (Z.rem ck (cols city), ck / cols city) :: path in
      match cameFrom !! ck with
      | Some (Some parent) => reconstruct fuel' cameFrom parent path'
      | Some None => Some path'
      | None => None
      end
  end.

(** The [for (const [dx, dy] of dirs)] loop for the cell [(cx, cy)]. *)
Fixpoint expand (ds : list (Z * Z)) (cx cy : Z)
    (cameFrom : gmap Z (option Z)) (queue : list cell) : expansion :=
  match ds with
  | [] => Cont cameFrom queue
  | (dx, dy) :: ds' =>
      let nx := cx + dx in
      let ny := cy + dy in
      if out_of_bounds city nx ny then expand ds' cx cy cameFrom queue
      else
        let k := key nx ny in
        if bool_decide (is_Some (cameFrom !! k)) then expand ds' cx cy cameFrom queue
        else if bool_decide (grid_at city nx ny <> ROAD)
                && negb ((nx =? ex) && (ny =? ey))
        then expand ds' cx cy cameFrom queue
        else
          let cameFrom' := <[k := Some (key cx cy)]> cameFrom in
          if (nx =? ex) && (ny =? ey) then
            match reconstruct (S (length queue)) cameFrom' k [] with
            | Some path => Found path
            | None => Stuck
            end
          else expand ds' cx cy cameFrom' (queue ++ [(nx, ny)])
  end.

(** The [while (head < queue.length)] loop.  The outer [None] is fuel
    exhaustion; [Some None] is the [return null] after the loop. *)
Fixpoint bfs (fuel : nat) (cameFrom : gmap Z (option Z)) (queue : list cell)
    (head : nat) : option (option (list cell)) :=
  match fuel with
  | O => None
  | S fuel' =>
      match queue !! head with
      | None => Some None
      | Some (cx, cy) =>
          match expand dirs cx cy cameFrom queue with
          | Found path => Some (Some path)
          | Stuck => None
          | Cont cameFrom' queue' => bfs fuel' cameFrom' queue' (S head)
          end
      end
  end.

(** Every queued cell other than the start has a distinct key below
    [cols * rows], so the loop body runs at most [cols * rows + 1] times. *)
Definition bfs_fuel : nat := S (S (Z.to_nat (cols city * rows city))).

Definition findPath_fuel : option (option (list cell)) :=
  if (sx =? ex) && (sy =? ey) then Some (Some [(sx, sy)])
  else bfs bfs_fuel {[ key sx sy := None ]} [(sx, sy)] 0%nat.

(** [findPath]: [None] is JavaScript's [null]. *)
Definition findPath : option (list cell) :=
  match findPath_fuel with
  | Some r => r
  | None => None
  end.
End FindPath.

(** ** Numbers

    Times are rationals; [lunchStart], [lunchEnd] and the courier's
    [departureTime] can also hold [Infinity]; fields assigned later
    ([orderTime], [_leisureDepartureTime], [_leisureEndTime]) are [undefined]
    ([None]) until then, and every comparison with [undefined] is false. *)

Inductive xnum : Type := Fin (q : Q) | Infinity.

(** [h >= t] *)
Definition geq (h t : Q) : bool := Qle_bool t h.

Definition geq_x (h : Q) (t : xnum) : bool :=
  match t with Fin q => geq h q | Infinity => false end.

Definition geq_u (h : Q) (t : option Q) : bool :=
  match t with Some q => geq h q | None => false end.

(** [Math.round]: the nearest integer, halves rounded up. *)
Definition round (q : Q) : Z := Qfloor (q + (1 # 2)).

(** [Math.max] and [Math.min] on two finite numbers. *)
Definition Math_max (a b : Q) : Q := if Qle_bool a b then b else a.
Definition Math_min (a b : Q) : Q := if Qle_bool a b then a else b.

Definition Qz (z : Z) : Q := inject_Z z.

(** *** Double precision

    A double is a rational of the form [m * 2^e] with [|m| < 2^53] and
    [e >= -1074].  [fl q] is the double nearest [q], a tie going to the
    even [m] (IEEE 754 binary64, the rounding of every JavaScript
    operation); overflow to [Infinity] is left out, the numbers of a
    simulation being far below [2^1024]. *)

Definition pow2 (e : Z) : Q :=
  if 0 <=? e then inject_Z (2 ^ e) else 1 # Z.to_pos (2 ^ (- e)).

(** The integer part of the binary logarithm of a positive rational. *)
Definition ilog2 (q : Q) : Z :=
  let e := Z.log2 (Qnum q) - Z.log2 (Z.pos (Qden q)) in
  if Qle_bool (pow2 e) q then e else e - 1.

(** The nearest integer, a tie going to the even one. *)
Definition round_even (q : Q) : Z :=
  let f := Qfloor q in
  match (q - inject_Z f ?= 1 # 2)%Q with
  | Lt => f
  | Gt => f + 1
  | Eq => if Z.even f then f else f + 1
  end.

Definition fl (q : Q) : Q :=
  if Qeq_bool q 0 then 0%Q
  else
    let e := Z.max (ilog2 (Qabs q) - 52) (-1074) in
    Qred (inject_Z (round_even (q / pow2 e)) * pow2 e).

Arguments fl : simpl never.

(** [a + b] and [a * b] as JavaScript computes them. *)
Definition fadd (a b : Q) : Q := fl (a + b).
Definition fmul (a b : Q) : Q := fl (a * b).

Arguments fadd : simpl never.
Arguments fmul : simpl never.

(** The shared [while (moveProgress >= 1 && pathIndex < path.length - 1)]
    loop of [_moveAlongPath]; [remaining] is [path.length - 1 - pathIndex],
    the number of times the second test can still succeed. *)
Fixpoint advance (remaining : nat) (pathIndex : nat) (moveProgress : Q) : nat * Q :=
  match remaining with
  | O => (pathIndex, moveProgress)
  | S remaining' =>
      if geq moveProgress 1
      then advance remaining' (S pathIndex) (moveProgress - 1)%Q
      else (pathIndex, moveProgress)
  end.

(** [path[i]]; indices used by the code are always in range. *)
Definition cell_at (path : list cell) (i : nat) : cell := nth i path (0, 0).

(** One call of [findPath] made during a tick: endpoints and result. *)
Record route_call : Type := mkCall {
  call_from : cell;
  call_to : cell;
  call_result : option (list cell)
}.

(** ** js/agent.js *)

Module Agent.

(** The visible state (a string in the source). *)
Inductive state : Type := S_sleeping | S_home | S_traveling | S_working | S_leisure.

(** The phase (a string in the source). *)
Inductive phase : Type :=
  | sleeping | waiting_for_work | commuting_to_work | at_work
  | commuting_to_lunch | at_lunch | returning_from_lunch
  | commuting_home_from_work | at_home_considering_leisure
  | commuting_to_leisure | at_leisure | commuting_home_from_leisure
  | at_home_evening | asleep_night.

#[global] Instance phase_eq_dec : EqDecision phase.
Proof. solve_decision. Defined.

Record entry : Type := mkEntry {
  event : string;
  time : Q;
  location : option string
}.

Record t : Type := mk {
  id : nat;
  home : cell;
  workplace : cell;
  leisureSpot : option cell;
  eatery : option cell;
  city : City;
  x : Q;
  y : Q;
  state_ : state;
  path : option (list cell);
  pathIndex : nat;
  moveProgress : Q;
  speed : Q;
  workStart : Q;
  wakeUpTime : Q;
  workDuration : Q;
  workEnd : Q;
  takesLunch : bool;
  lunchDuration : Q;
  lunchStart : xnum;
  lunchEnd : xnum;
  _hadLunch : bool;
  ordersDelivery : bool;
  _orderedDelivery : bool;
  orderTime : option Q;
  wantsLeisure : bool;
  leisureDuration : Q;
  bedTime : Q;
  curfew : Q;
  log : list entry;
  pathHistory : list (list cell * tile);
  phase_ : phase;
  _leisureDepartureTime : option Q;
  _leisureEndTime : option Q
}.

(** Assignments to the mutable fields. *)
Definition set_pos (x' y' : Q) (a : t) : t :=
  mk (id a) (home a) (workplace a) (leisureSpot a) (eatery a) (city a) x' y'
    (state_ a) (path a) (pathIndex a) (moveProgress a) (speed a) (workStart a)
    (wakeUpTime a) (workDuration a) (workEnd a) (takesLunch a) (lunchDuration a)
    (lunchStart a) (lunchEnd a) (_hadLunch a) (ordersDelivery a)
    (_orderedDelivery a) (orderTime a) (wantsLeisure a) (leisureDuration a)
    (bedTime a) (curfew a) (log a) (pathHistory a) (phase_ a)
    (_leisureDepartureTime a) (_leisureEndTime a).

Definition set_state (s : state) (a : t) : t :=
  mk (id a) (home a) (workplace a) (leisureSpot a) (eatery a) (city a) (x a) (y a)
    s (path a) (pathIndex a) (moveProgress a) (speed a) (workStart a)
    (wakeUpTime a) (workDuration a) (workEnd a) (takesLunch a) (lunchDuration a)
    (lunchStart a) (lunchEnd a) (_hadLunch a) (ordersDelivery a)
    (_orderedDelivery a) (orderTime a) (wantsLeisure a) (leisureDuration a)
    (bedTime a) (curfew a) (log a) (pathHistory a) (phase_ a)
    (_leisureDepartureTime a) (_leisureEndTime a).

Definition set_movement (p : option (list cell)) (i : nat) (m : Q) (a : t) : t :=
  mk (id a) (home a) (workplace a) (leisureSpot a) (eatery a) (city a) (x a) (y a)
    (state_ a) p i m (speed a) (workStart a)
    (wakeUpTime a) (workDuration a) (workEnd a) (takesLunch a) (lunchDuration a)
    (lunchStart a) (lunchEnd a) (_hadLunch a) (ordersDelivery a)
    (_orderedDelivery a) (orderTime a) (wantsLeisure a) (leisureDuration a)
    (bedTime a) (curfew a) (log a) (pathHistory a) (phase_ a)
    (_leisureDepartureTime a) (_leisureEndTime a).

Definition set_hadLunch (b : bool) (a : t) : t :=
  mk (id a) (home a) (workplace a) (leisureSpot a) (eatery a) (city a) (x a) (y a)
    (state_ a) (path a) (pathIndex a) (moveProgress a) (speed a) (workStart a)
    (wakeUpTime a) (workDuration a) (workEnd a) (takesLunch a) (lunchDuration a)
    (lunchStart a) (lunchEnd a) b (ordersDelivery a)
    (_orderedDelivery a) (orderTime a) (wantsLeisure a) (leisureDuration a)
    (bedTime a) (curfew a) (log a) (pathHistory a) (phase_ a)
    (_leisureDepartureTime a) (_leisureEndTime a).

Definition set_orderedDelivery (b : bool) (a : t) : t :=
  mk (id a) (home a) (workplace a) (leisureSpot a) (eatery a) (city a) (x a) (y a)
    (state_ a) (path a) (pathIndex a) (moveProgress a) (speed a) (workStart a)
    (wakeUpTime a) (workDuration a) (workEnd a) (takesLunch a) (lunchDuration a)
    (lunchStart a) (lunchEnd a) (_hadLunch a) (ordersDelivery a)
    b (orderTime a) (wantsLeisure a) (leisureDuration a)
    (bedTime a) (curfew a) (log a) (pathHistory a) (phase_ a)
    (_leisureDepartureTime a) (_leisureEndTime a).

Definition set_log (l : list entry) (a : t) : t :=
  mk (id a) (home a) (workplace a) (leisureSpot a) (eatery a) (city a) (x a) (y a)
    (state_ a) (path a) (pathIndex a) (moveProgress a) (speed a) (workStart a)
    (wakeUpTime a) (workDuration a) (workEnd a) (takesLunch a) (lunchDuration a)
    (lunchStart a) (lunchEnd a) (_hadLunch a) (ordersDelivery a)
    (_orderedDelivery a) (orderTime a) (wantsLeisure a) (leisureDuration a)
    (bedTime a) (curfew a) l (pathHistory a) (phase_ a)
    (_leisureDepartureTime a) (_leisureEndTime a).

Definition set_pathHistory (h : list (list cell * tile)) (a : t) : t :=
  mk (id a) (home a) (workplace a) (leisureSpot a) (eatery a) (city a) (x a) (y a)
    (state_ a) (path a) (pathIndex a) (moveProgress a) (speed a) (workStart a)
    (wakeUpTime a) (workDuration a) (workEnd a) (takesLunch a) (lunchDuration a)
    (lunchStart a) (lunchEnd a) (_hadLunch a) (ordersDelivery a)
    (_orderedDelivery a) (orderTime a) (wantsLeisure a) (leisureDuration a)
    (bedTime a) (curfew a) (log a) h (phase_ a)
    (_leisureDepartureTime a) (_leisureEndTime a).

Definition set_phase (p : phase) (a : t) : t :=
  mk (id a) (home a) (workplace a) (leisureSpot a) (eatery a) (city a) (x a) (y a)
    (state_ a) (path a) (pathIndex a) (moveProgress a) (speed a) (workStart a)
    (wakeUpTime a) (workDuration a) (workEnd a) (takesLunch a) (lunchDuration a)
    (lunchStart a) (lunchEnd a) (_hadLunch a) (ordersDelivery a)
    (_orderedDelivery a) (orderTime a) (wantsLeisure a) (leisureDuration a)
    (bedTime a) (curfew a) (log a) (pathHistory a) p
    (_leisureDepartureTime a) (_leisureEndTime a).

Definition set_leisureTimes (dep fin : option Q) (a : t) : t :=
  mk (id a) (home a) (workplace a) (leisureSpot a) (eatery a) (city a) (x a) (y a)
    (state_ a) (path a) (pathIndex a) (moveProgress a) (speed a) (workStart a)
    (wakeUpTime a) (workDuration a) (workEnd a) (takesLunch a) (lunchDuration a)
    (lunchStart a) (lunchEnd a) (_hadLunch a) (ordersDelivery a)
    (_orderedDelivery a) (orderTime a) (wantsLeisure a) (leisureDuration a)
    (bedTime a) (curfew a) (log a) (pathHistory a) (phase_ a) dep fin.

(** The random numbers drawn by the constructor, each in [0, 1). *)
Record draws : Type := mkDraws {
  r_speed : Q;
  r_workStart : Q;
  r_wakeUp : Q;
  r_workDuration : Q;
  r_lunch : Q;
  r_lunchShare : Q;
  r_lunchDuration : Q;
  r_order : Q;
  r_wantsLeisure : Q;
  r_leisureDuration : Q;
  r_bedTime : Q
}.

Definition chebyshev (a b : cell) : Z :=
  Z.max (Z.abs (a.1 - b.1)) (Z.abs (a.2 - b.2)).

(** [new Agent(id, home, workplace, leisureSpot, eatery, city)]; the
    sums and products of the schedule are exact. *)
Definition constructor (id : nat) (home workplace : cell)
    (leisureSpot eatery : option cell) (city : City) (r : draws) : t :=
  let speed := (5 + r_speed r * 3)%Q in
  let workStart := (6 + r_workStart r * 3)%Q in
  let wakeUpTime := (workStart - ((1 # 2) + r_wakeUp r * (3 # 2)))%Q in
  let workDuration := (7 + r_workDuration r * 3)%Q in
  let workEnd := (workStart + workDuration)%Q in
  let takesLunch :=
    negb (geq (r_lunch r) ((4 # 10) + r_lunchShare r * (2 # 10))%Q)
    && bool_decide (eatery <> None) in
  let lunchDuration := ((1 # 2) + r_lunchDuration r * (1 # 2))%Q in
  let rawLunchTime := (workStart + workDuration / 2)%Q in
  let lunchStartQ := (Qz (round (rawLunchTime * 2)) / 2)%Q in
  let lunchStart := if takesLunch then Fin lunchStartQ else Infinity in
  let lunchEnd := if takesLunch then Fin (lunchStartQ + lunchDuration)%Q else Infinity in
  let far :=
    match eatery with
    | Some e => bool_decide (20 < chebyshev workplace e)
    | None => false
    end in
  let ordersDelivery := takesLunch && far in
  let orderTime :=
    if ordersDelivery
    then Some (lunchStartQ - (25 + r_order r * 10) / 60)%Q
    else None in
  let bedTime := (20 + r_bedTime r * 4)%Q in
  mk id home workplace leisureSpot eatery city
    (Qz home.1) (Qz home.2) S_sleeping None 0%nat 0%Q speed
    workStart wakeUpTime workDuration workEnd takesLunch lunchDuration
    lunchStart lunchEnd false ordersDelivery false orderTime
    (negb (geq (r_wantsLeisure r) (4 # 10)))
    (1 + r_leisureDuration r * 2)%Q bedTime (bedTime - 1)%Q
    [] [] sleeping None None.

(** [_nameAt] *)
Definition _nameAt (a : t) (pos : option cell) : option string :=
  match pos with
  | None => None
  | Some p => getNameAt (city a) p.1 p.2
  end.

(** [_logEvent]: [log.push].  A falsy [location] leaves the field out. *)
Definition _logEvent (event : string) (simHours : Q) (location : option string)
    (a : t) : t :=
  set_log (log a ++ [mkEntry event simHours location]) a.

(** [_decideLeisure]; [rnd] is the [Math.random()] of the rest time.  The
    sums are computed in double precision, operation by operation: the test
    against [curfew] can turn on the last bit of [estimatedReturn].  The
    literals [0.3], [0.4] and [0.2] are the doubles nearest to them. *)
Definition _decideLeisure (simHours rnd : Q) (a : t) : t :=
  if wantsLeisure a && bool_decide (leisureSpot a <> None) then
    let estimatedReturn :=
      fadd (fadd (fadd simHours (1 # 2)) (leisureDuration a)) (1 # 2) in
    if Qle_bool estimatedReturn (curfew a) then
      let dep := fadd (fadd simHours (fl (3 # 10))) (fmul rnd (fl (4 # 10))) in
      set_phase at_home_considering_leisure
        (set_leisureTimes (Some dep)
           (Some (fadd (fadd dep (fl (2 # 10))) (leisureDuration a))) a)
    else set_phase at_home_evening a
  else set_phase at_home_evening a.

(** [_navigateTo]; the call of [findPath] is returned beside the agent. *)
Definition _navigateTo (target : cell) (a : t) : t * route_call :=
  let sx := round (x a) in
  let sy := round (y a) in
  let p := findPath (city a) sx sy target.1 target.2 in
  let a1 := set_movement p 0%nat 0%Q a in
  let a2 :=
    match p with
    | Some l =>
        if bool_decide (1 < length l)%nat
        then set_pathHistory (pathHistory a1 ++ [(l, getTile (city a) sx sy)]) a1
        else a1
    | None => a1
    end in
  (a2, mkCall (sx, sy) target p).

(** [_headHome] *)
Definition _headHome (simHours rnd : Q) (nextPhase : phase) (a : t) : t * route_call :=
  let '(a1, c) := _navigateTo (home a) a in
  match path a1 with
  | Some _ => (set_state S_traveling (set_phase nextPhase a1), c)
  | None =>
      let a2 := set_state S_home (set_pos (Qz (home a1).1) (Qz (home a1).2) a1) in
      let a3 := _logEvent "Arrived home" simHours (_nameAt a2 (Some (home a2))) a2 in
      if bool_decide (nextPhase = commuting_home_from_work)
      then (_decideLeisure simHours rnd a3, c)
      else (set_phase at_home_evening a3, c)
  end.

(** [_moveAlongPath]: the returned boolean is "arrived"; the progress is
    added up exactly. *)
Definition _moveAlongPath (deltaSeconds : Q) (a : t) : bool * t :=
  match path a with
  | None => (true, a)
  | Some p =>
      if bool_decide (length p <= 1)%nat then (true, a)
      else
        let '(i, m) := advance (length p - 1 - pathIndex a)%nat (pathIndex a)
                         (moveProgress a + speed a * deltaSeconds)%Q in
        if bool_decide (length p - 1 <= i)%nat then
          let e := cell_at p (length p - 1) in
          (true, set_movement None i m (set_pos (Qz e.1) (Qz e.2) a))
        else
          let curr := cell_at p i in
          let next := cell_at p (S i) in
          let t := Math_min m 1 in
          (false,
           set_pos (Qz curr.1 + (Qz next.1 - Qz curr.1) * t)%Q
                   (Qz curr.2 + (Qz next.2 - Qz curr.2) * t)%Q
                   (set_movement (Some p) i m a))
  end.

(** [when_arrived]: the pattern [if (this._moveAlongPath(dt)) { ... }]. *)
Definition when_arrived (deltaSeconds : Q) (a : t) (k : t -> t) : t :=
  let '(arrived, a1) := _moveAlongPath deltaSeconds a in
  if arrived then k a1 else a1.

(** [update], with the calls of [findPath] it made (at most one). *)
Definition update_calls (a : t) (simHours deltaSeconds rnd : Q) : t * list route_call :=
  match phase_ a with
  | sleeping =>
      if geq simHours (wakeUpTime a) then
        (_logEvent "Wake up" simHours (_nameAt a (Some (home a)))
           (set_state S_home (set_phase waiting_for_work a)), [])
      else (a, [])
  | waiting_for_work =>
      if geq simHours (workStart a) then
        let '(a1, c) := _navigateTo (workplace a) a in
        match path a1 with
        | Some _ =>
            (_logEvent "Left home" simHours (_nameAt a1 (Some (home a1)))
               (set_state S_traveling (set_phase commuting_to_work a1)), [c])
        | None => (a1, [c])
        end
      else (a, [])
  | commuting_to_work =>
      (when_arrived deltaSeconds a (fun a1 =>
         _logEvent "Arrived work" simHours (_nameAt a1 (Some (workplace a1)))
           (set_state S_working (set_phase at_work a1))), [])
  | at_work =>
      let a1 :=
        if ordersDelivery a && negb (_orderedDelivery a) && geq_u simHours (orderTime a)
        then _logEvent "Ordered delivery" simHours (_nameAt a (eatery a))
               (set_orderedDelivery true a)
        else a in
      if negb (_hadLunch a1) && takesLunch a1 && geq_x simHours (lunchStart a1) then
        let a2 := set_hadLunch true a1 in
        if ordersDelivery a2 then (a2, [])
        else
          let a3 := _logEvent "Left for lunch" simHours
                      (_nameAt a2 (Some (workplace a2))) a2 in
          match eatery a3 with
          | None => (a3, [])
          | Some e =>
              let '(a4, c) := _navigateTo e a3 in
              match path a4 with
              | Some _ => (set_state S_traveling (set_phase commuting_to_lunch a4), [c])
              | None => (a4, [c])
              end
          end
      else if geq simHours (workEnd a1) then
        let a2 := _logEvent "Left work" simHours (_nameAt a1 (Some (workplace a1))) a1 in
        let '(a3, c) := _headHome simHours rnd commuting_home_from_work a2 in
        (a3, [c])
      else (a1, [])
  | commuting_to_lunch =>
      if geq simHours (workEnd a) then
        let a1 := _logEvent "Left work" simHours None a in
        let '(a2, c) := _headHome simHours rnd commuting_home_from_work a1 in
        (a2, [c])
      else
        (when_arrived deltaSeconds a (fun a1 =>
           _logEvent "Arrived eatery" simHours (_nameAt a1 (eatery a1))
             (set_state S_leisure (set_phase at_lunch a1))), [])
  | at_lunch =>
      if geq simHours (workEnd a) then
        let a1 := _logEvent "Left eatery (late)" simHours (_nameAt a (eatery a)) a in
        let '(a2, c) := _headHome simHours rnd commuting_home_from_work a1 in
        (a2, [c])
      else if geq_x simHours (lunchEnd a) then
        let a1 := _logEvent "Left eatery" simHours (_nameAt a (eatery a)) a in
        let '(a2, c) := _navigateTo (workplace a1) a1 in
        match path a2 with
        | Some _ => (set_state S_traveling (set_phase returning_from_lunch a2), [c])
        | None => (set_state S_working (set_phase at_work a2), [c])
        end
      else (a, [])
  | returning_from_lunch =>
      if geq simHours (workEnd a) && negb (bool_decide (is_Some (path a))) then
        let a1 := _logEvent "Left work" simHours None a in
        let '(a2, c) := _headHome simHours rnd commuting_home_from_work a1 in
        (a2, [c])
      else
        (when_arrived deltaSeconds a (fun a1 =>
           _logEvent "Returned to work" simHours (_nameAt a1 (Some (workplace a1)))
             (set_state S_working (set_phase at_work a1))), [])
  | commuting_home_from_work =>
      (when_arrived deltaSeconds a (fun a1 =>
         _decideLeisure simHours rnd
           (_logEvent "Arrived home" simHours (_nameAt a1 (Some (home a1)))
              (set_state S_home a1))), [])
  | at_home_considering_leisure =>
      if geq_u simHours (_leisureDepartureTime a) then
        match leisureSpot a with
        | None => (a, [])
        | Some l =>
            let '(a1, c) := _navigateTo l a in
            match path a1 with
            | Some _ =>
                (_logEvent "Left home" simHours (_nameAt a1 (Some (home a1)))
                   (set_state S_traveling (set_phase commuting_to_leisure a1)), [c])
            | None => (set_phase at_home_evening a1, [c])
            end
        end
      else (a, [])
  | commuting_to_leisure =>
      (when_arrived deltaSeconds a (fun a1 =>
         _logEvent "Arrived leisure" simHours (_nameAt a1 (leisureSpot a1))
           (set_state S_leisure (set_phase at_leisure a1))), [])
  | at_leisure =>
      if geq_u simHours (_leisureEndTime a) then
        let a1 := _logEvent "Left leisure" simHours (_nameAt a (leisureSpot a)) a in
        let '(a2, c) := _headHome simHours rnd commuting_home_from_leisure a1 in
        (a2, [c])
      else (a, [])
  | commuting_home_from_leisure =>
      (when_arrived deltaSeconds a (fun a1 =>
         _logEvent "Arrived home" simHours (_nameAt a1 (Some (home a1)))
           (set_state S_home (set_phase at_home_evening a1))), [])
  | at_home_evening =>
      if geq simHours (bedTime a) then
        (_logEvent "Went to sleep" simHours (_nameAt a (Some (home a)))
           (set_state S_sleeping (set_phase asleep_night a)), [])
      else (a, [])
  | asleep_night => (a, [])
  end.

(** [update(simHours, deltaSeconds)] *)
Definition update (a : t) (simHours deltaSeconds rnd : Q) : t :=
  (update_calls a simHours deltaSeconds rnd).1.

End Agent.

(** ** DeliveryDriver (the courier class imported by js/simulation.js) *)

Module DeliveryDriver.

Inductive phase : Type := waiting | delivering | dropping_off | returning | done.

#[global] Instance phase_eq_dec : EqDecision phase.
Proof. solve_decision. Defined.

(** [agent] is the reference to the ordering agent: its index in the
    simulation's [agents] array, which is the store the courier writes to. *)
Record t : Type := mk {
  eatery : cell;
  business : cell;
  agent : nat;
  city : City;
  simHoursPerSec : Q;
  x : Q;
  y : Q;
  speed : Q;
  phase_ : phase;
  path : option (list cell);
  pathIndex : nat;
  moveProgress : Q;
  _dropOffEnd : Q;
  _deliveryPath : option (list cell);
  departureTime : xnum
}.

Definition set_pos (x' y' : Q) (d : t) : t :=
  mk (eatery d) (business d) (agent d) (city d) (simHoursPerSec d) x' y' (speed d)
    (phase_ d) (path d) (pathIndex d) (moveProgress d) (_dropOffEnd d)
    (_deliveryPath d) (departureTime d).

Definition set_phase (p : phase) (d : t) : t :=
  mk (eatery d) (business d) (agent d) (city d) (simHoursPerSec d) (x d) (y d) (speed d)
    p (path d) (pathIndex d) (moveProgress d) (_dropOffEnd d)
    (_deliveryPath d) (departureTime d).

Definition set_movement (p : option (list cell)) (i : nat) (m : Q) (d : t) : t :=
  mk (eatery d) (business d) (agent d) (city d) (simHoursPerSec d) (x d) (y d) (speed d)
    (phase_ d) p i m (_dropOffEnd d) (_deliveryPath d) (departureTime d).

Definition set_dropOffEnd (e : Q) (d : t) : t :=
  mk (eatery d) (business d) (agent d) (city d) (simHoursPerSec d) (x d) (y d) (speed d)
    (phase_ d) (path d) (pathIndex d) (moveProgress d) e
    (_deliveryPath d) (departureTime d).

Definition set_deliveryPath (p : option (list cell)) (d : t) : t :=
  mk (eatery d) (business d) (agent d) (city d) (simHoursPerSec d) (x d) (y d) (speed d)
    (phase_ d) (path d) (pathIndex d) (moveProgress d) (_dropOffEnd d)
    p (departureTime d).

(** Travel time in simulated hours of a route of [steps] hops. *)
Definition travelSimHours (steps : nat) (speed simHoursPerSec : Q) : Q :=
  (Qz (Z.of_nat steps) / speed * simHoursPerSec)%Q.

(** [Math.max(0, agent.lunchStart - travelSimHours)] *)
Definition departure (lunchStart : xnum) (travel : Q) : xnum :=
  match lunchStart with
  | Fin ls => Fin (Math_max 0 (ls - travel))
  | Infinity => Infinity
  end.

(** [new DeliveryDriver(eatery, business, agent, city, simHoursPerSec)];
    [a] is the agent object behind the reference [agent], [r_speed] the
    random number drawn for the speed. *)
Definition constructor (eatery business : cell) (agent : nat) (a : Agent.t)
    (city : City) (simHoursPerSec : Q) (r_speed : Q) : t :=
  let speed := (7 + r_speed * 2)%Q in
  let deliveryPath := findPath city eatery.1 eatery.2 business.1 business.2 in
  let scheduled :=
    match deliveryPath with
    | Some l => bool_decide (1 < length l)%nat
    | None => false
    end in
  let steps := (length (default [] deliveryPath) - 1)%nat in
  mk eatery business agent city simHoursPerSec (Qz eatery.1) (Qz eatery.2) speed
    (if scheduled then waiting else done) None 0%nat 0%Q 0%Q deliveryPath
    (if scheduled
     then departure (Agent.lunchStart a) (travelSimHours steps speed simHoursPerSec)
     else Infinity).

(** [_navigateTo] *)
Definition _navigateTo (target : cell) (d : t) : t :=
  set_movement (findPath (city d) (round (x d)) (round (y d)) target.1 target.2)
    0%nat 0%Q d.

(** [_moveAlongPath] *)
Definition _moveAlongPath (deltaSeconds : Q) (d : t) : bool * t :=
  match path d with
  | None => (true, d)
  | Some p =>
      if bool_decide (length p <= 1)%nat then (true, d)
      else
        let '(i, m) := advance (length p - 1 - pathIndex d)%nat (pathIndex d)
                         (moveProgress d + speed d * deltaSeconds)%Q in
        if bool_decide (length p - 1 <= i)%nat then
          let e := cell_at p (length p - 1) in
          (true, set_movement None i m (set_pos (Qz e.1) (Qz e.2) d))
        else
          let curr := cell_at p i in
          let next := cell_at p (S i) in
          let t := Math_min m 1 in
          (false,
           set_pos (Qz curr.1 + (Qz next.1 - Qz curr.1) * t)%Q
                   (Qz curr.2 + (Qz next.2 - Qz curr.2) * t)%Q
                   (set_movement (Some p) i m d))
  end.

(** [getNameAt(eatery.x, eatery.y) || 'Eatery'] *)
Definition eateryName (d : t) : string :=
  default "Eatery"%string (getNameAt (city d) (eatery d).1 (eatery d).2).

(** [update(simHours, deltaSeconds)]; [agents] is the store that holds the
    ordering agent, whose log the courier appends to. *)
Definition update (d : t) (agents : list Agent.t) (simHours deltaSeconds : Q)
    : t * list Agent.t :=
  match phase_ d with
  | waiting =>
      if geq_x simHours (departureTime d) then
        (set_phase delivering
           (set_deliveryPath None (set_movement (_deliveryPath d) 0%nat 0%Q d)),
         agents)
      else (d, agents)
  | delivering =>
      let '(arrived, d1) := _moveAlongPath deltaSeconds d in
      if arrived then
        let d2 := set_pos (Qz (business d1).1) (Qz (business d1).2) d1 in
        let d3 := set_phase dropping_off
                    (set_dropOffEnd (simHours + (10 # 60))%Q d2) in
        let name := eateryName d3 in
        (d3,
         alter (Agent._logEvent ("Delivery by " ++ name) simHours
                  (if String.eqb name EmptyString then None else Some name))
               (agent d3) agents)
      else (d1, agents)
  | dropping_off =>
      if geq simHours (_dropOffEnd d) then
        let d1 := _navigateTo (eatery d) d in
        (set_phase (match path d1 with Some _ => returning | None => done end) d1,
         agents)
      else (d, agents)
  | returning =>
      let '(arrived, d1) := _moveAlongPath deltaSeconds d in
      (if arrived then set_phase done d1 else d1, agents)
  | done => (d, agents)
  end.

End DeliveryDriver.

(** ** js/simulation.js: agent creation and the tick *)

Module Simulation.

Definition SIM_DURATION_REAL : Q := 180.
Definition SIM_DURATION_HOURS : Q := 24.
Definition MAX_AGENTS : nat := 150.

(** [startTime] and [lastFrameTime] are readings of [performance.now()],
    in milliseconds.  [pause] and [resume] are not modelled, so
    [_pausedTotal] keeps the value [start] gives it. *)
Record t : Type := mk {
  city : City;
  agents : list Agent.t;
  drivers : list DeliveryDriver.t;
  running : bool;
  startTime : Q;
  lastFrameTime : Q;
  _pausedTotal : Q
}.

(** The state left by the constructor and by [generateCity]. *)
Definition generateCity (c : City) : t := mk c [] [] false 0 0 0.

(** The random numbers drawn while one agent (and its courier, if any) is
    created. *)
Record spawn : Type := mkSpawn {
  r_workplace : Q;
  r_leisureSpot : Q;
  r_eatery : Q;
  r_agent : Agent.draws;
  r_driver : Q
}.

(** [arr[Math.floor(Math.random() * arr.length)]] *)
Definition pick (arr : list cell) (r : Q) : option cell :=
  arr !! Z.to_nat (Qfloor (r * Qz (Z.of_nat (length arr)))).

(** The [for (const home of pool)] loop; [idCounter] is the next id. *)
Fixpoint spawn_agents (c : City) (pool : list cell) (idCounter : nat)
    (rs : nat -> spawn) : list Agent.t :=
  match pool with
  | [] => []
  | home :: pool' =>
      let r := rs idCounter in
      let workplace := default (0, 0) (pick (businesses c) (r_workplace r)) in
      let leisureSpot := pick (leisureSpots c) (r_leisureSpot r) in
      let eatery := pick (eateries c) (r_eatery r) in
      Agent.constructor idCounter home workplace leisureSpot eatery c (r_agent r)
        :: spawn_agents c pool' (S idCounter) rs
  end.

(** The loop that creates a courier for every agent that orders in.
    [index] is the position of the head of [agents] in the full array. *)
Fixpoint spawn_drivers (c : City) (agents : list Agent.t) (index : nat)
    (rs : nat -> spawn) : list DeliveryDriver.t :=
  match agents with
  | [] => []
  | a :: agents' =>
      let rest := spawn_drivers c agents' (S index) rs in
      if negb (Agent.ordersDelivery a) then rest
      else
        match Agent.eatery a with
        | Some e =>
            DeliveryDriver.constructor e (Agent.workplace a) index a c
              (SIM_DURATION_HOURS / SIM_DURATION_REAL)%Q (r_driver (rs index))
              :: rest
        | None => rest
        end
  end.

(** [_createAgents]; [shuffled] is the result of [_shuffle([...houses])],
    used when there are more than [MAX_AGENTS] houses. *)
Definition _createAgents (s : t) (shuffled : list cell) (rs : nat -> spawn) : t :=
  let c := city s in
  if bool_decide (length (houses c) = 0%nat) || bool_decide (length (businesses c) = 0%nat)
  then mk c [] (drivers s) (running s) (startTime s) (lastFrameTime s) (_pausedTotal s)
  else
    let pool :=
      if bool_decide (MAX_AGENTS < length (houses c))%nat
      then take MAX_AGENTS shuffled else houses c in
    let agents := spawn_agents c pool 0%nat rs in
    mk c agents (spawn_drivers c agents 0%nat rs) (running s)
      (startTime s) (lastFrameTime s) (_pausedTotal s).

(** [start] up to its last statement, [this._loop()]: that call is the
    first frame of a run ([run]).  [now] is the reading of
    [performance.now()].  [Playback.start] below is the whole function, with
    the guard on [_replaying] and the call of [_loop]. *)
Definition start (s : t) (now : Q) (shuffled : list cell) (rs : nat -> spawn) : t :=
  if running s then s
  else
    let s1 := _createAgents s shuffled rs in
    if bool_decide (length (agents s1) = 0%nat) then s1
    else mk (city s1) (agents s1) (drivers s1) true now now 0.

(** The [for (const agent of this.agents)] loop; [index] is the position of
    the head of [agents] in the array, [rnd i] the random number agent [i]
    may draw in this tick. *)
Fixpoint update_agents (agents : list Agent.t) (index : nat)
    (simHours deltaSeconds : Q) (rnd : nat -> Q) : list Agent.t :=
  match agents with
  | [] => []
  | a :: agents' =>
      Agent.update a simHours deltaSeconds (rnd index)
        :: update_agents agents' (S index) simHours deltaSeconds rnd
  end.

(** The [for (const driver of this.drivers)] loop. *)
Fixpoint update_drivers (drivers : list DeliveryDriver.t) (agents : list Agent.t)
    (simHours deltaSeconds : Q) : list DeliveryDriver.t * list Agent.t :=
  match drivers with
  | [] => ([], agents)
  | d :: drivers' =>
      let '(d1, agents1) := DeliveryDriver.update d agents simHours deltaSeconds in
      let '(ds, agents2) := update_drivers drivers' agents1 simHours deltaSeconds in
      (d1 :: ds, agents2)
  end.

(** The two update loops of [_loop] at simulated hour [simHours]. *)
Definition tick (s : t) (simHours deltaSeconds : Q) (rnd : nat -> Q) : t :=
  let agents1 := update_agents (agents s) 0%nat simHours deltaSeconds rnd in
  let '(drivers1, agents2) := update_drivers (drivers s) agents1 simHours deltaSeconds in
  mk (city s) agents2 drivers1 (running s) (startTime s) (lastFrameTime s)
    (_pausedTotal s).

(** One animation frame: the clock reading and the random numbers the
    agents may draw. *)
Record frame : Type := mkFrame {
  now : Q;
  rnd : nat -> Q
}.

(** Elapsed real seconds at clock reading [now]. *)
Definition elapsedTotal (s : t) (now : Q) : Q :=
  ((now - startTime s - _pausedTotal s) / 1000)%Q.

(** The simulated hour at clock reading [now]. *)
Definition simHours (s : t) (now : Q) : Q :=
  (elapsedTotal s now / SIM_DURATION_REAL * SIM_DURATION_HOURS)%Q.

(** [_loop] (rendering and frame recording left out). *)
Definition _loop (s : t) (f : frame) : t :=
  if negb (running s) then s
  else
    let deltaSeconds := ((now f - lastFrameTime s) / 1000)%Q in
    let s1 := mk (city s) (agents s) (drivers s) (running s) (startTime s) (now f)
                (_pausedTotal s) in
    if geq (elapsedTotal s (now f)) SIM_DURATION_REAL
    then mk (city s1) (agents s1) (drivers s1) false (startTime s1) (lastFrameTime s1)
           (_pausedTotal s1)
    else tick s1 (simHours s (now f)) deltaSeconds (rnd f).

(** A run: [_loop] called once per animation frame. *)
Definition run (s : t) (frames : list frame) : t := fold_left _loop frames s.

End Simulation.

(** ** The transition graph of the design document (section 4.2)

    Written from the document, on its own phase names. *)

Module Design.

Inductive phase : Type :=
  | asleep | waiting_for_departure | commuting_to_work | at_work
  | commuting_to_lunch | at_lunch | returning_from_lunch
  | commuting_home | at_home_just_arrived | considering_leisure
  | commuting_to_leisure | at_leisure | commuting_home_from_leisure
  | evening_at_home.

Definition edge (p p' : phase) : bool :=
  match p, p' with
  | asleep, waiting_for_departure
  | waiting_for_departure, commuting_to_work
  | commuting_to_work, at_work
  | at_work, commuting_to_lunch
  | at_work, commuting_home
  | commuting_to_lunch, at_lunch
  | at_lunch, returning_from_lunch
  | returning_from_lunch, at_work
  | commuting_to_lunch, commuting_home
  | at_lunch, commuting_home
  | returning_from_lunch, commuting_home
  | commuting_home, at_home_just_arrived
  | at_home_just_arrived, considering_leisure
  | at_home_just_arrived, evening_at_home
  | considering_leisure, commuting_to_leisure
  | commuting_to_leisure, at_leisure
  | at_leisure, commuting_home_from_leisure
  | commuting_home_from_leisure, evening_at_home
  | evening_at_home, asleep => true
  | _, _ => false
  end.

(** The design's name for each phase of the code; the code has no phase
    for [at_home_just_arrived], and both of its sleeping phases are the
    design's [asleep]. *)
Definition of_phase (p : Agent.phase) : phase :=
  match p with
  | Agent.sleeping => asleep
  | Agent.waiting_for_work => waiting_for_departure
  | Agent.commuting_to_work => commuting_to_work
  | Agent.at_work => at_work
  | Agent.commuting_to_lunch => commuting_to_lunch
  | Agent.at_lunch => at_lunch
  | Agent.returning_from_lunch => returning_from_lunch
  | Agent.commuting_home_from_work => commuting_home
  | Agent.at_home_considering_leisure => considering_leisure
  | Agent.commuting_to_leisure => commuting_to_leisure
  | Agent.at_leisure => at_leisure
  | Agent.commuting_home_from_leisure => commuting_home_from_leisure
  | Agent.at_home_evening => evening_at_home
  | Agent.asleep_night => asleep
  end.

(** An edge, or the two edges through [at_home_just_arrived], which the
    code passes within the call that arrives home. *)
Definition edge_through_arrival (p p' : phase) : bool :=
  edge p p' || (edge p at_home_just_arrived && edge at_home_just_arrived p').

End Design.

(** The call of [update] that took [a] to [a'] brought the agent home after
    work: it was not out for leisure, and the call logged "Arrived home" last. *)
Definition arrived_home_after_work (a a' : Agent.t) : Prop :=
  Agent.phase_ a <> Agent.at_leisure /\
  Agent.phase_ a <> Agent.commuting_home_from_leisure /\
  exists es e, Agent.log a' = Agent.log a ++ es ++ [e] /\
    Agent.event e = "Arrived home"%string.

(** The phase changes the code makes when a requested route is not found:
    the travel phase is skipped. *)
Definition shortcut (p p' : Agent.phase) : bool :=
  match p, p' with
  | Agent.at_lunch, Agent.at_work
  | Agent.at_home_considering_leisure, Agent.at_home_evening
  | Agent.at_leisure, Agent.at_home_evening
  | Agent.at_work, Agent.at_home_considering_leisure
  | Agent.at_work, Agent.at_home_evening
  | Agent.commuting_to_lunch, Agent.at_home_considering_leisure
  | Agent.commuting_to_lunch, Agent.at_home_evening
  | Agent.at_lunch, Agent.at_home_considering_leisure
  | Agent.at_lunch, Agent.at_home_evening
  | Agent.returning_from_lunch, Agent.at_home_considering_leisure
  | Agent.returning_from_lunch, Agent.at_home_evening => true
  | _, _ => false
  end.

(** The phases in which the agent is on the road. *)
Definition travelling (p : Agent.phase) : bool :=
  match p with
  | Agent.commuting_to_work | Agent.commuting_to_lunch | Agent.returning_from_lunch
  | Agent.commuting_home_from_work | Agent.commuting_to_leisure
  | Agent.commuting_home_from_leisure => true
  | _ => false
  end.

(** ** Specification vocabulary *)

(** The schedule and the fixed places of an agent: set by the constructor. *)
Definition same_schedule (a a' : Agent.t) : Prop :=
  Agent.id a' = Agent.id a /\ Agent.home a' = Agent.home a /\
  Agent.workplace a' = Agent.workplace a /\
  Agent.leisureSpot a' = Agent.leisureSpot a /\
  Agent.eatery a' = Agent.eatery a /\ Agent.city a' = Agent.city a /\
  Agent.speed a' = Agent.speed a /\ Agent.workStart a' = Agent.workStart a /\
  Agent.wakeUpTime a' = Agent.wakeUpTime a /\
  Agent.workDuration a' = Agent.workDuration a /\
  Agent.workEnd a' = Agent.workEnd a /\ Agent.takesLunch a' = Agent.takesLunch a /\
  Agent.lunchDuration a' = Agent.lunchDuration a /\
  Agent.lunchStart a' = Agent.lunchStart a /\ Agent.lunchEnd a' = Agent.lunchEnd a /\
  Agent.ordersDelivery a' = Agent.ordersDelivery a /\
  Agent.orderTime a' = Agent.orderTime a /\
  Agent.wantsLeisure a' = Agent.wantsLeisure a /\
  Agent.leisureDuration a' = Agent.leisureDuration a /\
  Agent.bedTime a' = Agent.bedTime a /\ Agent.curfew a' = Agent.curfew a.

(** What the movement helpers leave alone. *)
Definition idle_fields (a a' : Agent.t) : Prop :=
  same_schedule a a' /\ Agent.phase_ a' = Agent.phase_ a /\
  Agent.log a' = Agent.log a /\ Agent.state_ a' = Agent.state_ a /\
  Agent._hadLunch a' = Agent._hadLunch a /\
  Agent._orderedDelivery a' = Agent._orderedDelivery a /\
  Agent._leisureDepartureTime a' = Agent._leisureDepartureTime a /\
  Agent._leisureEndTime a' = Agent._leisureEndTime a.

(** Number of entries of a log with the given event name. *)
Definition count_event (ev : string) (l : list Agent.entry) : nat :=
  length (filter (fun e => String.eqb (Agent.event e) ev = true) l).

(** The test that makes [update] log the order of a delivery. *)
Definition orders_now (a : Agent.t) (h : Q) : bool :=
  match Agent.phase_ a with
  | Agent.at_work =>
      Agent.ordersDelivery a && negb (Agent._orderedDelivery a)
      && geq_u h (Agent.orderTime a)
  | _ => false
  end.

(** The test of [_decideLeisure]: the agent wants leisure, has a leisure
    spot, and [t + 0.5 + leisureDuration + 0.5], added up from the left in
    double precision, is not after [curfew]. *)
Definition leisure_fits (a : Agent.t) (t : Q) : Prop :=
  Agent.wantsLeisure a = true /\ Agent.leisureSpot a <> None /\
  (fadd (fadd (fadd t (1 # 2)) (Agent.leisureDuration a)) (1 # 2) <= Agent.curfew a)%Q.


(** Two cells are 4-connected neighbours. *)
Definition step_to (c : cell) (d : Z * Z) : cell := (c.1 + d.1, c.2 + d.2).

Definition adjacent (a b : cell) : Prop := exists d, d ∈ dirs /\ b = step_to a d.

(** Consecutive cells of a sequence are neighbours. *)
Definition chain (p : list cell) : Prop :=
  forall i a b, p !! i = Some a -> p !! S i = Some b -> adjacent a b.

(** The cell is classified walkable-road. *)
Definition road (c : City) (p : cell) : Prop := getTile c p.1 p.2 = ROAD.

(** A route from [s] to [e]: starts at [s], ends at [e], moves between
    neighbours, and every cell other than [s] and [e] is road. *)
Definition is_route (c : City) (s e : cell) (p : list cell) : Prop :=
  head p = Some s /\ last p = Some e /\ chain p /\
  Forall (fun q => q = s \/ q = e \/ road c q) p.

Definition hops (p : list cell) : nat := (length p - 1)%nat.

(** ** Calls that reach one agent during a run *)

(** Its own [update], or the log entry its courier writes on delivery. *)
Inductive agent_call : Type :=
  | Updated (h dt r : Q)
  | Delivered (h : Q) (name : string).

Definition call_hour (c : agent_call) : Q :=
  match c with
  | Updated h _ _ => h
  | Delivered h _ => h
  end.

Definition apply_call (a : Agent.t) (c : agent_call) : Agent.t :=
  match c with
  | Updated h dt r => Agent.update a h dt r
  | Delivered h name =>
      Agent._logEvent ("Delivery by " ++ name) h
        (if String.eqb name EmptyString then None else Some name) a
  end.

(** Hours that never go back, starting from [h0]. *)
Fixpoint ascending_from (h0 : Q) (hs : list Q) : Prop :=
  match hs with
  | [] => True
  | h :: hs' => (h0 <= h)%Q /\ ascending_from h hs'
  end.

Definition ascending (hs : list Q) : Prop :=
  match hs with
  | [] => True
  | h :: hs' => ascending_from h hs'
  end.

(** The timestamps of a log never go back. *)
Definition log_sorted (l : list Agent.entry) : Prop :=
  forall i j ei ej, (i <= j)%nat -> l !! i = Some ei -> l !! j = Some ej ->
    (Agent.time ei <= Agent.time ej)%Q.

(** The log is in time order and holds nothing later than hour [h]. *)
Definition sorted_upto (h : Q) (a : Agent.t) : Prop :=
  log_sorted (Agent.log a) /\
  Forall (fun e => (Agent.time e <= h)%Q) (Agent.log a).

(** What the log of an agent that orders in looks like; [ot] is its order
    time. *)
Definition order_inv (ot : Q) (a : Agent.t) : Prop :=
  Agent.ordersDelivery a = true /\ Agent.orderTime a = Some ot /\
  count_event "Left for lunch" (Agent.log a) = 0%nat /\
  count_event "Ordered delivery" (Agent.log a)
    = (if Agent._orderedDelivery a then 1 else 0)%nat /\
  forall e, e ∈ Agent.log a -> Agent.event e = "Ordered delivery"%string ->
    (ot <= Agent.time e)%Q.

(** The entry was written by a courier. *)
Definition is_delivery (e : Agent.entry) : bool :=
  String.prefix "Delivery by " (Agent.event e).

(** The simulated hours of the frames of a run that starts in state [s]. *)
Definition frame_hours (s : Simulation.t) (frames : list Simulation.frame) : list Q :=
  map (fun f => Simulation.simHours s (Simulation.now f)) frames.

(** The part of [DeliveryDriver.update] that concerns the courier itself. *)
Definition courier_step (d : DeliveryDriver.t) (h dt : Q) : DeliveryDriver.t :=
  (DeliveryDriver.update d [] h dt).1.

(** ** The loop invariant of the search *)

Section BfsInvariant.
Variable city : City.
Variables sx sy ex ey : Z.

Definition ckey (c : cell) : Z := key city c.1 c.2.

(** [(x, y)] as recovered from a key by [ck % cols] and [floor(ck / cols)]. *)
Definition decode (k : Z) : cell := (Z.rem k (cols city), k / cols city).

(** A neighbour the search may step onto. *)
Definition walkable (n : cell) : Prop :=
  out_of_bounds city n.1 n.2 = false /\
  (grid_at city n.1 n.2 = ROAD \/ n = (ex, ey)).

(** State of the search while the cell at index [h] is being expanded and
    the directions [processed] have been handled; [d] is the depth of every
    key in the search tree (ghost). *)
Record bfs_inv (processed : list (Z * Z)) (cf : gmap Z (option Z))
    (q : list cell) (h : nat) (d : Z -> nat) : Prop := {
  inv_start : q !! 0%nat = Some (sx, sy);
  inv_root : cf !! key city sx sy = Some None;
  inv_depth0 : d (key city sx sy) = 0%nat;
  inv_dom : forall k, is_Some (cf !! k) <-> exists c, c ∈ q /\ ckey c = k;
  inv_pushed : forall i c, q !! S i = Some c ->
    out_of_bounds city c.1 c.2 = false /\ grid_at city c.1 c.2 = ROAD /\
    c <> (ex, ey) /\
    exists j c', (j <= h)%nat /\ (j <= i)%nat /\ q !! j = Some c' /\
      adjacent c' c /\ cf !! ckey c = Some (Some (ckey c')) /\
      d (ckey c) = S (d (ckey c'));
  inv_mono : forall i j ci cj, (i <= j)%nat ->
    q !! i = Some ci -> q !! j = Some cj -> (d (ckey ci) <= d (ckey cj))%nat;
  inv_band : forall ch j cj, q !! h = Some ch -> q !! j = Some cj ->
    (d (ckey cj) <= S (d (ckey ch)))%nat;
  inv_nodup : NoDup (ckey <$> q);
  inv_closed : forall i c dxy, q !! i = Some c -> dxy ∈ dirs ->
    (i < h)%nat \/ (i = h /\ dxy ∈ processed) ->
    walkable (step_to c dxy) ->
    is_Some (cf !! ckey (step_to c dxy)) /\
    (d (ckey (step_to c dxy)) <= S (d (ckey c)))%nat
}.

(** What holds when the destination is reached from [c] with the map [cf],
    before the destination is recorded in it. *)
Definition found_post (p : list cell) : Prop :=
  exists processed cf q h d c cs,
    bfs_inv processed cf q h d /\ q !! h = Some c /\
    adjacent c (ex, ey) /\ out_of_bounds city ex ey = false /\
    cf !! key city ex ey = None /\
    p = (decode ∘ ckey <$> cs) ++ [decode (key city ex ey)] /\
    head cs = Some (sx, sy) /\ last cs = Some c /\ chain cs /\
    Forall (fun x => x ∈ q) cs /\ length cs = S (d (ckey c)).

(** What holds when the queue runs empty. *)
Definition exhausted_post : Prop :=
  exists cf q d, bfs_inv [] cf q (length q) d.
End BfsInvariant.

(** ** Scenarios

    Small cities and runs on which the theorems are exercised. *)

Module Scenario.

(** Every random draw is 0: the agent takes lunch if it has an eatery. *)
Definition draws0 : Agent.draws := Agent.mkDraws 0 0 0 0 0 0 0 0 0 0 0.

(** The same, with a draw that makes the agent skip lunch. *)
Definition draws_no_lunch : Agent.draws := Agent.mkDraws 0 0 0 0 (1 # 2) 0 0 0 0 0 0.

Definition rs0 (_ : nat) : Simulation.spawn := Simulation.mkSpawn 0 0 0 draws0 0.

Definition rs_no_lunch (_ : nat) : Simulation.spawn :=
  Simulation.mkSpawn 0 0 0 draws_no_lunch 0.

(** One row: house, road, business, road, eatery. *)
Definition city_row : City :=
  mkCity 5 1 [[HOUSE; ROAD; BUSINESS; ROAD; EATERY]]
    [(0, 0)] [(2, 0)] [] [(4, 0)] ∅.

(** One row: house, road, business, open space, leisure spot; the leisure
    spot touches no road. *)
Definition city_island : City :=
  mkCity 5 1 [[HOUSE; ROAD; BUSINESS; EMPTY; LEISURE]]
    [(0, 0)] [(2, 0)] [(4, 0)] [] ∅.

(** One row: house, road, business, 22 road tiles, eatery: the eatery is
    23 tiles from the business. *)
Definition city_far : City :=
  mkCity 26 1 [[HOUSE; ROAD; BUSINESS] ++ repeat ROAD 22 ++ [EATERY]]
    [(0, 0)] [(2, 0)] [] [(25, 0)] ∅.

(** Two rows: an eatery and a business at the two ends of a road of 498
    tiles, and a house below the road. *)
Definition city_long : City :=
  mkCity 500 2
    [[EATERY] ++ repeat ROAD 498 ++ [BUSINESS];
     [EMPTY; HOUSE] ++ repeat EMPTY 498]
    [(1, 1)] [(499, 0)] [] [(0, 0)] ∅.

(** The agent of [city_row], as created. *)
Definition resident_row : Agent.t :=
  Agent.constructor 0 (0, 0) (2, 0) None (Some (4, 0)) city_row draws0.

(** The agent of [city_island], as created. *)
Definition resident_island : Agent.t :=
  Agent.constructor 0 (0, 0) (2, 0) (Some (4, 0)) None city_island draws0.

(** Calls of [update]: (simHours, deltaSeconds, random draw). *)
Definition updates (a : Agent.t) (calls : list (Q * Q * Q)) : Agent.t :=
  fold_left (fun a c => Agent.update a c.1.1 c.1.2 c.2) calls a.

(** [resident_row] wakes, goes to work, leaves for lunch at 9:30 and is
    one tile along the road to the eatery when the next tick comes. *)
Definition on_lunch_road : Agent.t :=
  updates resident_row
    [((11 # 2), (1 # 60), 0); (6, (1 # 60), 0); ((61 # 10), 1, 0);
     ((19 # 2), (1 # 60), 0); ((951 # 100), (1 # 5), 0)]%Q.

(** [resident_island] works, comes home at 13:06 and considers leisure. *)
Definition considering : Agent.t :=
  updates resident_island
    [((11 # 2), (1 # 60), 0); (6, (1 # 60), 0); ((61 # 10), 1, 0);
     (13, (1 # 60), 0); ((131 # 10), 1, 0)]%Q.

(** Frames at the given clock readings (milliseconds), all draws 0. *)
Definition frames_at (nows : list Z) : list Simulation.frame :=
  map (fun n => Simulation.mkFrame (Qz n) (fun _ => 0%Q)) nows.

(** A day in [city_far] with one frame 15 seconds late, at 83 s. *)
Definition late_frames : list Simulation.frame :=
  frames_at [41250; 45000; 46000; 68000; 83000; 85000; 90000].

(** A whole day, one frame every two seconds. *)
Definition day_frames : list Simulation.frame :=
  frames_at (map (fun k => Z.of_nat k * 2000) (seq 1 90)).

Definition far_start : Simulation.t :=
  Simulation.start (Simulation.generateCity city_far) 0 [] rs0.

Definition far_start_no_lunch : Simulation.t :=
  Simulation.start (Simulation.generateCity city_far) 0 [] rs_no_lunch.

Definition long_start : Simulation.t :=
  Simulation.start (Simulation.generateCity city_long) 0 [] rs0.

(** [resident_island] at 13:00, on its way home from work. *)
Definition heading_home : Agent.t :=
  updates resident_island
    [((11 # 2), (1 # 60), 0); (6, (1 # 60), 0); ((61 # 10), 1, 0);
     (13, (1 # 60), 0)]%Q.

(** The agents of [city_far], as created with and without lunch. *)
Definition resident_far : Agent.t :=
  Agent.constructor 0 (0, 0) (2, 0) None (Some (25, 0)) city_far draws0.

Definition resident_far_no_lunch : Agent.t :=
  Agent.constructor 0 (0, 0) (2, 0) None (Some (25, 0)) city_far draws_no_lunch.

(** The first agent and the first courier of a simulation. *)
Definition first_agent (s : Simulation.t) : Agent.t :=
  default resident_far (Simulation.agents s !! 0%nat).

Definition first_driver (s : Simulation.t) : DeliveryDriver.t :=
  default (DeliveryDriver.constructor (0, 0) (0, 0) 0 resident_far city_far 0 0)
    (Simulation.drivers s !! 0%nat).

(** The latest entry of an agent's log. *)
Definition last_entry (a : Agent.t) : Agent.entry :=
  default (Agent.mkEntry EmptyString 0 None) (last (Agent.log a)).

(** The route of the courier of [city_far]. *)
Definition far_route : list cell := default [] (findPath city_far 25 0 2 0).

(** One row: house, 149 road tiles, business, 24 road tiles, eatery: the
    way to work takes the agent four simulated hours. *)
Definition city_commute : City :=
  mkCity 176 1
    [[HOUSE] ++ repeat ROAD 149 ++ [BUSINESS] ++ repeat ROAD 24 ++ [EATERY]]
    [(0, 0)] [(150, 0)] [] [(175, 0)] ∅.

Definition commute_start : Simulation.t :=
  Simulation.start (Simulation.generateCity city_commute) 0 [] rs0.

(** One frame every second, for 100 seconds. *)
Definition second_frames : list Simulation.frame :=
  frames_at (map (fun k => Z.of_nat k * 1000) (seq 1 100)).

(** No frame between 68 s and the end of the day. *)
Definition stalled_frames : list Simulation.frame :=
  frames_at [41250; 45000; 46000; 68000; 181000].

(** The entry at a position of an agent's log. *)
Definition entry_at (a : Agent.t) (k : nat) : Agent.entry :=
  default (Agent.mkEntry EmptyString 0 None) (Agent.log a !! k).

End Scenario.

(** ** More of the code: time and movement *)

(** The seconds of a sequence of calls of [update], each given as
    (simHours, deltaSeconds, random draw). *)
Definition seconds (calls : list (Q * Q * Q)) : Q :=
  fold_right (fun c acc => (c.1.2 + acc)%Q) 0%Q calls.

(** [w] lies between [u] and [v], whichever of the two is the smaller. *)
Definition lies_between (u v w : Q) : Prop :=
  (u <= w /\ w <= v)%Q \/ (v <= w /\ w <= u)%Q.

(** An agent on its way along the path [p], started from the state [a]:
    still in phase [ph], nothing logged since, not behind where [a] was. *)
Definition under_way (ph : Agent.phase) (p : list cell) (a b : Agent.t) : Prop :=
  Agent.phase_ b = ph /\ Agent.log b = Agent.log a /\ Agent.path b = Some p /\
  (Agent.pathIndex a <= Agent.pathIndex b < length p - 1)%nat.

(** ** More of the code: the agent's day *)

(** The visible state that [update] sets together with each phase. *)
Definition state_of_phase (p : Agent.phase) : Agent.state :=
  match p with
  | Agent.sleeping | Agent.asleep_night => Agent.S_sleeping
  | Agent.waiting_for_work | Agent.at_home_considering_leisure
  | Agent.at_home_evening => Agent.S_home
  | Agent.commuting_to_work | Agent.commuting_to_lunch
  | Agent.returning_from_lunch | Agent.commuting_home_from_work
  | Agent.commuting_to_leisure | Agent.commuting_home_from_leisure =>
      Agent.S_traveling
  | Agent.at_work => Agent.S_working
  | Agent.at_lunch | Agent.at_leisure => Agent.S_leisure
  end.

(** The stages of the day, in the order [update] goes through them; the
    lunch trip is part of the stage at work. *)
Definition day_rank (p : Agent.phase) : nat :=
  match p with
  | Agent.sleeping => 0
  | Agent.waiting_for_work => 1
  | Agent.commuting_to_work => 2
  | Agent.at_work | Agent.commuting_to_lunch | Agent.at_lunch
  | Agent.returning_from_lunch => 3
  | Agent.commuting_home_from_work => 4
  | Agent.at_home_considering_leisure => 5
  | Agent.commuting_to_leisure => 6
  | Agent.at_leisure => 7
  | Agent.commuting_home_from_leisure => 8
  | Agent.at_home_evening => 9
  | Agent.asleep_night => 10
  end%nat.

(** What the log of an agent says of the day so far: how often each of the
    events that mark a stage has been written, given the phase and flags. *)
Definition day_log (a : Agent.t) : Prop :=
  count_event "Wake up" (Agent.log a)
  = match Agent.phase_ a with Agent.sleeping => 0 | _ => 1 end%nat /\
  count_event "Arrived work" (Agent.log a)
  = (if Nat.leb (day_rank (Agent.phase_ a)) 2 then 0 else 1)%nat /\
  count_event "Left for lunch" (Agent.log a)
  = (if Agent._hadLunch a && negb (Agent.ordersDelivery a) then 1 else 0)%nat /\
  (count_event "Left work" (Agent.log a) <= 1)%nat /\
  (Nat.leb (day_rank (Agent.phase_ a)) 3 = true ->
   count_event "Left work" (Agent.log a) = 0%nat) /\
  count_event "Went to sleep" (Agent.log a)
  = match Agent.phase_ a with Agent.asleep_night => 1 | _ => 0 end%nat.

(** The hour before which [update] does not write an event: the test that
    guards the [_logEvent] call of that name. *)
Definition not_before (a : Agent.t) (ev : string) : option xnum :=
  if String.eqb ev "Wake up" then Some (Fin (Agent.wakeUpTime a))
  else if String.eqb ev "Left for lunch" then Some (Agent.lunchStart a)
  else if String.eqb ev "Left eatery" then Some (Agent.lunchEnd a)
  else if String.eqb ev "Left eatery (late)" then Some (Fin (Agent.workEnd a))
  else if String.eqb ev "Left work" then Some (Fin (Agent.workEnd a))
  else if String.eqb ev "Went to sleep" then Some (Fin (Agent.bedTime a))
  else None.

(** The entry was not written before the hour its event is due. *)
Definition timely (a : Agent.t) (e : Agent.entry) : Prop :=
  match not_before a (Agent.event e) with
  | Some t => geq_x (Agent.time e) t = true
  | None => True
  end.

(** Every number drawn by the [Agent] constructor is a value of
    [Math.random()]: at least 0 and less than 1. *)
Definition unit_draw (q : Q) : Prop := (0 <= q /\ q < 1)%Q.

Definition valid_draws (r : Agent.draws) : Prop :=
  unit_draw (Agent.r_speed r) /\ unit_draw (Agent.r_workStart r) /\
  unit_draw (Agent.r_wakeUp r) /\ unit_draw (Agent.r_workDuration r) /\
  unit_draw (Agent.r_lunch r) /\ unit_draw (Agent.r_lunchShare r) /\
  unit_draw (Agent.r_lunchDuration r) /\ unit_draw (Agent.r_order r) /\
  unit_draw (Agent.r_wantsLeisure r) /\ unit_draw (Agent.r_leisureDuration r) /\
  unit_draw (Agent.r_bedTime r).

(** ** More of the code: the courier's life *)

(** The phases of a courier, in the order [update] goes through them. *)
Definition driver_rank (p : DeliveryDriver.phase) : nat :=
  match p with
  | DeliveryDriver.waiting => 0
  | DeliveryDriver.delivering => 1
  | DeliveryDriver.dropping_off => 2
  | DeliveryDriver.returning => 3
  | DeliveryDriver.done => 4
  end%nat.

(** The courier [d'] is [d] later in its life: the same courier, not in an
    earlier phase, and unchanged if [d] was done. *)
Definition courier_later (d d' : DeliveryDriver.t) : Prop :=
  DeliveryDriver.agent d' = DeliveryDriver.agent d /\
  DeliveryDriver.eatery d' = DeliveryDriver.eatery d /\
  DeliveryDriver.business d' = DeliveryDriver.business d /\
  DeliveryDriver.speed d' = DeliveryDriver.speed d /\
  DeliveryDriver.departureTime d' = DeliveryDriver.departureTime d /\
  (driver_rank (DeliveryDriver.phase_ d) <= driver_rank (DeliveryDriver.phase_ d'))%nat /\
  (DeliveryDriver.phase_ d = DeliveryDriver.done -> d' = d).

(** The courier is delivering and this call of [_moveAlongPath] brings it to
    the end of its path. *)
Definition arrives (d : DeliveryDriver.t) (dt : Q) : bool :=
  bool_decide (DeliveryDriver.phase_ d = DeliveryDriver.delivering)
  && (DeliveryDriver._moveAlongPath dt d).1.

(** The entries that the couriers of the list write for agent [i] in one
    tick. *)
Definition deliveries (ds : list DeliveryDriver.t) (i : nat) (h dt : Q)
    : list agent_call :=
  (fun d => Delivered h (DeliveryDriver.eateryName d))
  <$> filter (fun d => DeliveryDriver.agent d = i /\ arrives d dt = true) ds.

(** Number of entries of a log that were written by a courier. *)
Definition count_delivery (l : list Agent.entry) : nat :=
  length (filter (fun e => is_delivery e = true) l).

(** What holds of the deliveries in a simulation: no two couriers serve the
    same agent, no agent has more than one delivery entry, and an agent
    whose courier has not yet delivered, or that has no courier, has none. *)
Definition delivery_inv (agents : list Agent.t) (drivers : list DeliveryDriver.t)
    : Prop :=
  NoDup (DeliveryDriver.agent <$> drivers) /\
  forall i a, agents !! i = Some a ->
    (count_delivery (Agent.log a) <= 1)%nat /\
    (forall d, d ∈ drivers -> DeliveryDriver.agent d = i ->
       (driver_rank (DeliveryDriver.phase_ d) <= 1)%nat ->
       count_delivery (Agent.log a) = 0%nat) /\
    ((forall d, d ∈ drivers -> DeliveryDriver.agent d <> i) ->
     count_delivery (Agent.log a) = 0%nat).

(** ** More of the code: starting and running a simulation *)

(** The numbers drawn while an agent and its courier are created are values
    of [Math.random()]. *)
Definition valid_spawn (r : Simulation.spawn) : Prop :=
  unit_draw (Simulation.r_workplace r) /\ unit_draw (Simulation.r_leisureSpot r) /\
  unit_draw (Simulation.r_eatery r) /\ valid_draws (Simulation.r_agent r) /\
  unit_draw (Simulation.r_driver r).

(** Every entry of every log carries an hour of the simulated day. *)
Definition within_day (agents : list Agent.t) : Prop :=
  Forall (fun a => Forall (fun e => 0 <= Agent.time e /\ Agent.time e < 24)%Q
                     (Agent.log a)) agents.

(** ** js/simulation.js: arrays, [_shuffle] *)

(** A JavaScript array: an element is a value or [undefined] ([None]), and
    writing past the end extends the array with holes.  Only the elements
    are kept: a negative index names a property, which reads as
    [undefined] here. *)
Definition js_get {A} (arr : list (option A)) (j : Z) : option A :=
  if j <? 0 then None else default None (arr !! Z.to_nat j).

(** [arr[j] = v].  A negative [j] names a property that is not an element:
    the elements stay as they are. *)
Definition js_set {A} (arr : list (option A)) (j : Z) (v : option A)
    : list (option A) :=
  if j <? 0 then arr
  else if bool_decide (Z.to_nat j < length arr)%nat then <[Z.to_nat j := v]> arr
  else arr ++ replicate (Z.to_nat j - length arr) None ++ [v].

(** [[arr[i], arr[j]] = [arr[j], arr[i]]]: both reads, then the write to
    [arr[i]], then the write to [arr[j]]. *)
Definition js_swap {A} (arr : list (option A)) (i j : Z) : list (option A) :=
  let vj := js_get arr j in
  let vi := js_get arr i in
  js_set (js_set arr i vj) j vi.

(** The loop of [_shuffle], entered with loop variable [i]; [rnd i] is the
    number drawn in the iteration with that value of [i]. *)
Fixpoint shuffle_from {A} (i : nat) (arr : list (option A)) (rnd : nat -> Q)
    : list (option A) :=
  match i with
  | O => arr
  | S i' =>
      let j := Qfloor (rnd i * Qz (Z.of_nat i + 1)) in
      shuffle_from i' (js_swap arr (Z.of_nat i) j) rnd
  end.

(** [_shuffle(arr)] *)
Definition _shuffle {A} (arr : list (option A)) (rnd : nat -> Q) : list (option A) :=
  shuffle_from (length arr - 1) arr rnd.

(** [this._shuffle([...houses])], as a list of cells: a hole would be left
    out. *)
Definition shuffled_houses (c : City) (rnd : nat -> Q) : list cell :=
  omap id (_shuffle (Some <$> houses c) rnd).

(** ** js/simulation.js: pausing, recording and replaying *)

Module Playback.

(** The entries of a recorded frame.  [d.agent.id] is read through the
    index that stands for the reference [d.agent]. *)
Record agent_snap : Type := mkAgentSnap {
  a_x : Q;
  a_y : Q;
  a_state : Agent.state;
  a_id : nat
}.

Record driver_snap : Type := mkDriverSnap {
  d_x : Q;
  d_y : Q;
  d_phase : DeliveryDriver.phase;
  d_agentId : option nat
}.

Record recorded : Type := mkRecorded {
  realTime : Q;
  simHours : Q;
  r_agents : list agent_snap;
  r_drivers : list driver_snap
}.

(** The simulation with the fields for pausing and replaying. *)
Record t : Type := mk {
  sim : Simulation.t;
  paused : bool;
  _pauseStart : Q;
  _frameCache : list recorded;
  _cachedLogs : option (list (list Agent.entry));
  _cachedPaths : option (list (list (list cell * tile)));
  _replaying : bool;
  _replayIndex : nat;
  _replayStart : Q
}.

Definition set_sim (m : Simulation.t) (s : t) : t :=
  mk m (paused s) (_pauseStart s) (_frameCache s) (_cachedLogs s) (_cachedPaths s)
    (_replaying s) (_replayIndex s) (_replayStart s).

Definition set_agents (l : list Agent.t) (m : Simulation.t) : Simulation.t :=
  Simulation.mk (Simulation.city m) l (Simulation.drivers m) (Simulation.running m)
    (Simulation.startTime m) (Simulation.lastFrameTime m) (Simulation._pausedTotal m).

Definition set_drivers (l : list DeliveryDriver.t) (m : Simulation.t) : Simulation.t :=
  Simulation.mk (Simulation.city m) (Simulation.agents m) l (Simulation.running m)
    (Simulation.startTime m) (Simulation.lastFrameTime m) (Simulation._pausedTotal m).

Definition set_running (b : bool) (m : Simulation.t) : Simulation.t :=
  Simulation.mk (Simulation.city m) (Simulation.agents m) (Simulation.drivers m) b
    (Simulation.startTime m) (Simulation.lastFrameTime m) (Simulation._pausedTotal m).

(** [stop] *)
Definition stop (s : t) : t :=
  mk (set_running false (sim s)) false (_pauseStart s) (_frameCache s) (_cachedLogs s)
    (_cachedPaths s) (_replaying s) (_replayIndex s) (_replayStart s).

(** [_stopReplay] *)
Definition _stopReplay (s : t) : t :=
  mk (sim s) (paused s) (_pauseStart s) (_frameCache s) (_cachedLogs s)
    (_cachedPaths s) false (_replayIndex s) (_replayStart s).

(** [generateCity], with the city that [new City] has built. *)
Definition generateCity (c : City) (s : t) : t :=
  let s1 := _stopReplay (stop s) in
  let m := sim s1 in
  mk (Simulation.mk c [] [] (Simulation.running m) (Simulation.startTime m)
        (Simulation.lastFrameTime m) (Simulation._pausedTotal m))
    (paused s1) (_pauseStart s1) [] None None
    (_replaying s1) (_replayIndex s1) (_replayStart s1).

(** The state the constructor leaves; [c] is the city that its call of
    [generateCity] builds. *)
Definition constructor (c : City) : t :=
  generateCity c (mk (Simulation.mk c [] [] false 0 0 0) false 0 [] None None false 0 0).

(** [_recordFrame] *)
Definition _recordFrame (realTime simHours : Q) (s : t) : t :=
  let agents := Simulation.agents (sim s) in
  let frame :=
    mkRecorded realTime simHours
      ((fun a => mkAgentSnap (Agent.x a) (Agent.y a) (Agent.state_ a) (Agent.id a))
         <$> agents)
      ((fun d => mkDriverSnap (DeliveryDriver.x d) (DeliveryDriver.y d)
                   (DeliveryDriver.phase_ d)
                   (Agent.id <$> agents !! DeliveryDriver.agent d))
         <$> Simulation.drivers (sim s)) in
  mk (sim s) (paused s) (_pauseStart s) (_frameCache s ++ [frame]) (_cachedLogs s)
    (_cachedPaths s) (_replaying s) (_replayIndex s) (_replayStart s).

(** One round of the first loop of [_applyFrame]: the first agent with the
    id of the entry, if there is one, takes its position and state. *)
Definition apply_agent (agents : list Agent.t) (snap : agent_snap) : list Agent.t :=
  match list_find (fun a => Agent.id a = a_id snap) agents with
  | Some (i, _) =>
      alter (fun a => Agent.set_state (a_state snap)
                        (Agent.set_pos (a_x snap) (a_y snap) a)) i agents
  | None => agents
  end.

(** One round of the second loop: the courier at the index of the entry,
    if there is one. *)
Definition apply_driver (drivers : list DeliveryDriver.t) (e : nat * driver_snap)
    : list DeliveryDriver.t :=
  alter (fun d => DeliveryDriver.set_phase (d_phase e.2)
                    (DeliveryDriver.set_pos (d_x e.2) (d_y e.2) d)) e.1 drivers.

(** [_applyFrame] *)
Definition _applyFrame (frame : recorded) (s : t) : t :=
  let agents := foldl apply_agent (Simulation.agents (sim s)) (r_agents frame) in
  let drivers :=
    foldl apply_driver (Simulation.drivers (sim s)) (imap pair (r_drivers frame)) in
  set_sim (set_drivers drivers (set_agents agents (sim s))) s.

(** [_loop]: nothing while stopped or paused; else the frame of
    [Simulation._loop], recorded; at the end of the day the logs and the
    paths are cached. *)
Definition _loop (s : t) (f : Simulation.frame) : t :=
  if negb (Simulation.running (sim s)) || paused s then s
  else
    let elapsedTotal := Simulation.elapsedTotal (sim s) (Simulation.now f) in
    let s1 := set_sim (Simulation._loop (sim s) f) s in
    if geq elapsedTotal Simulation.SIM_DURATION_REAL then
      let s2 := _recordFrame Simulation.SIM_DURATION_REAL Simulation.SIM_DURATION_HOURS s1 in
      mk (sim s2) false (_pauseStart s2) (_frameCache s2)
        (Some (Agent.log <$> Simulation.agents (sim s2)))
        (Some (Agent.pathHistory <$> Simulation.agents (sim s2)))
        (_replaying s2) (_replayIndex s2) (_replayStart s2)
    else
      _recordFrame elapsedTotal (Simulation.simHours (sim s) (Simulation.now f)) s1.

(** [start]; [now] is the reading of the clock, [f] the frame of the call
    of [_loop] that ends it. *)
Definition start (s : t) (now : Q) (shuffled : list cell) (rs : nat -> Simulation.spawn)
    (f : Simulation.frame) : t :=
  if Simulation.running (sim s) || _replaying s then s
  else
    let m := Simulation.start (sim s) now shuffled rs in
    if bool_decide (length (Simulation.agents m) = 0%nat) then
      mk m (paused s) (_pauseStart s) [] (_cachedLogs s) (_cachedPaths s)
        (_replaying s) (_replayIndex s) (_replayStart s)
    else
      _loop (mk m false 0 [] (_cachedLogs s) (_cachedPaths s)
               (_replaying s) (_replayIndex s) (_replayStart s)) f.



(** The [while] loop of [_replayLoop] that looks for the frame to show,
    entered with [index]; every round moves on by one frame. *)
Fixpoint seek (fuel : nat) (cache : list recorded) (elapsed : Q) (index : nat) : nat :=
  match fuel with
  | O => index
  | S fuel' =>
      if (Z.of_nat index <? Z.of_nat (length cache) - 1)
         && match cache !! S index with
            | Some next => Qle_bool (realTime next) elapsed
            | None => false
            end
      then seek fuel' cache elapsed (S index)
      else index
  end.

(** The logs (or the paths) of the first run, put back at the end of a
    replay.  [None]: an agent has no entry in the cached array. *)
Definition restore {A} (set : A -> Agent.t -> Agent.t) (cached : option (list A))
    (agents : list Agent.t) : option (list Agent.t) :=
  match cached with
  | None => Some agents
  | Some l =>
      if bool_decide (length agents <= length l)%nat
      then Some (zip_with (fun a v => set v a) agents l)
      else None
  end.

(** [_replayLoop] at the clock reading [now].  [None]: there is no frame
    to show, or a log cannot be put back. *)
Definition _replayLoop (s : t) (now : Q) : option t :=
  if negb (_replaying s) then Some s
  else
    let elapsed := ((now - _replayStart s) / 1000)%Q in
    let index := seek (length (_frameCache s)) (_frameCache s) elapsed (_replayIndex s) in
    match _frameCache s !! index with
    | None => None
    | Some frame =>
        let s1 := _applyFrame frame s in
        let s2 := mk (sim s1) (paused s1) (_pauseStart s1) (_frameCache s1)
                    (_cachedLogs s1) (_cachedPaths s1) (_replaying s1) index
                    (_replayStart s1) in
        if (Z.of_nat (length (_frameCache s)) - 1 <=? Z.of_nat index) then
          match restore Agent.set_log (_cachedLogs s2) (Simulation.agents (sim s2)) with
          | Some agents1 =>
              match restore Agent.set_pathHistory (_cachedPaths s2) agents1 with
              | Some agents2 =>
                  Some (mk (set_agents agents2 (sim s2)) (paused s2) (_pauseStart s2)
                          (_frameCache s2) (_cachedLogs s2) (_cachedPaths s2) false
                          index (_replayStart s2))
              | None => None
              end
          | None => None
          end
        else Some s2
    end.

(** [replay]; [now] is the reading of the clock, [now'] the one of the
    first call of [_replayLoop]. *)
Definition replay (s : t) (now now' : Q) : option t :=
  if bool_decide (length (_frameCache s) = 0%nat) then Some s
  else
    let s1 := _stopReplay (stop s) in
    _replayLoop (mk (sim s1) (paused s1) (_pauseStart s1) (_frameCache s1)
                   (_cachedLogs s1) (_cachedPaths s1) true 0 now) now'.

(** What a recorded entry says of an agent. *)
Definition shown_as (snap : agent_snap) (a : Agent.t) : Prop :=
  Agent.x a = a_x snap /\ Agent.y a = a_y snap /\ Agent.state_ a = a_state snap /\
  Agent.id a = a_id snap.

(** What a recorded entry says of a courier. *)
Definition driver_shown_as (snap : driver_snap) (d : DeliveryDriver.t) : Prop :=
  DeliveryDriver.x d = d_x snap /\ DeliveryDriver.y d = d_y snap /\
  DeliveryDriver.phase_ d = d_phase snap.

(** The frames of the cache are frames of the agents and couriers at hand:
    the same ids in the same order, and as many couriers. *)
Definition cache_of (s : t) : Prop :=
  Forall (fun fr =>
            a_id <$> r_agents fr = Agent.id <$> Simulation.agents (sim s) /\
            length (r_drivers fr) = length (Simulation.drivers (sim s)))
         (_frameCache s).

(** The cached logs and paths, if any, are those of the agents at hand. *)
Definition cached_of (s : t) : Prop :=
  (forall l, _cachedLogs s = Some l -> length l = length (Simulation.agents (sim s))) /\
  (forall l, _cachedPaths s = Some l -> length l = length (Simulation.agents (sim s))).

End Playback.

(** ** js/names.js: names of buildings

    The tables are copied from the source; a string is kept as the bytes of
    its UTF-8 form.  [_usedAddresses], the state of the module, is passed
    in and out. *)

Module Names.

Definition BUSINESS_PREFIXES : list string :=
  ["Apex"; "Vertex"; "Summit"; "Pinnacle"; "Core"; "Nova"; "Vanguard";
   "Pacific"; "Atlas"; "Meridian"; "Sterling"; "Crestwood"; "Irongate";
   "Bridgeport"; "Harmon"; "Whitfield"; "Graystone"; "Blackwell";
   "Evergreen"; "Northstar"; "Redstone"; "Blueridge"; "Ashford"]%string.

Definition BUSINESS_SUFFIXES : list string :=
  ["Industries"; "Solutions"; "Corp"; "Group"; "Partners"; "Logistics";
   "Dynamics"; "Technologies"; "Consulting"; "Associates"; "Holdings";
   "Ventures"; "Systems"; "Capital"; "Global"; "Labs"; "Services";
   "Analytics"; "Digital"; "Networks"]%string.

Definition LEISURE_PREFIXES : list string :=
  ["The Golden"; "Blue"; "Silver"; "Green"; "Sunset"; "Moonlit";
   "Crystal"; "Velvet"; "Starlight"; "Coral"; "The Rustic"; "The Cozy";
   "Emerald"; "The Lazy"; "Royal"; "The Twilight"; "Harbour";
   "Lakeside"; "The Grand"; "Wild"]%string.

Definition LEISURE_SUFFIXES : list string :=
  ["Lounge"; "Park"; "Garden"; "Spa"; "Theater"; "Bowling Alley";
   "Arcade"; "Club"; "Cinema"; "Retreat"; "Pool Hall"; "Gallery";
   "Rec Center"; "Arena"; "Plaza"; "Studio"; "Pavilion"; "Den";
   "Hideaway"; "Gym"]%string.

Definition EATERY_PREFIXES : list string :=
  ["The Hungry"; "Golden"; "Red"; "Blue"; "Silver"; "Lucky"; "Smoky";
   "Crispy"; "Salty"; "Tasty"; "The Rusty"; "The Jolly"; "Wild";
   "Mama's"; "Papa's"; "Uncle's"; "The Little"; "Big"; "The Old";
   "Sunny"]%string.

Definition EATERY_SUFFIXES : list string :=
  ["Diner"; "Grill"; "Bistro"; "Café"; "Kitchen"; "Tavern";
   "Eatery"; "Noodle Bar"; "Pizza"; "BBQ"; "Burger Joint";
   "Sushi Bar"; "Taqueria"; "Bakery"; "Deli"; "Creamery";
   "Steakhouse"; "Wok"; "Cantina"; "Chophouse"]%string.

Definition STREET_NAMES : list string :=
  ["Maple"; "Oak"; "Cedar"; "Elm"; "Pine"; "Birch"; "Willow"; "Spruce";
   "Aspen"; "Hazel"; "Poplar"; "Walnut"; "Cherry"; "Laurel"; "Magnolia";
   "Sycamore"; "Juniper"; "Chestnut"; "Alder"; "Cypress"; "Hemlock";
   "Linden"; "Rowan"; "Thistle"; "Clover"; "Briar"; "Fern"; "Sage";
   "Summit"; "Ridge"; "Valley"; "Creek"; "Meadow"; "Brook"; "Hill";
   "Lake"; "River"; "Stone"; "Iron"; "Amber"; "Coral"; "Frost";
   "Ivory"; "Slate"; "Cobalt"; "Harbor"; "Haven"; "Glen"; "Crest"]%string.

(** [_pick(arr)] with the drawn number [r]; an index outside the array
    gives [undefined]. *)
Definition _pick (arr : list string) (r : Q) : option string :=
  let i := Qfloor (r * Qz (Z.of_nat (length arr))) in
  if i <? 0 then None else arr !! Z.to_nat i.

(** A value as a template literal prints it. *)
Definition shown (o : option string) : string := default "undefined"%string o.

(** [String(n)] for an integer. *)
Definition String_ (n : Z) : string := NilZero.string_of_int (Z.to_int n).

(** One round of the loop of [generateAddress]: the candidate built from
    the two numbers drawn, first the house number, then the street. *)
Definition candidate (r : Q * Q) : string :=
  let num := 100 + Qfloor (r.1 * 900) in
  let street := _pick STREET_NAMES r.2 in
  (String_ num ++ " " ++ shown street)%string.

(** The [do ... while] loop, entered with [tries] rounds done; [rs k] holds
    the numbers drawn in round [k].  The loop leaves by its own test within
    200 rounds, so [fuel] 200 is never used up. *)
Fixpoint address_loop (fuel tries : nat) (used : gset string) (rs : nat -> Q * Q)
    : string :=
  let addr := candidate (rs tries) in
  match fuel with
  | O => addr
  | S fuel' =>
      if bool_decide (addr ∈ used) && (S tries <? 200)%nat
      then address_loop fuel' (S tries) used rs
      else addr
  end.

(** [generateAddress]: the address and the new [_usedAddresses]. *)
Definition generateAddress (used : gset string) (rs : nat -> Q * Q)
    : string * gset string :=
  let addr := address_loop 200 0 used rs in
  (addr, {[addr]} ∪ used).

(** [resetAddresses] *)
Definition resetAddresses : gset string := ∅.

(** [generateName(type)]; [r] holds the two numbers drawn, first the one
    for the prefix. *)
Definition generateName (type : string) (r : Q * Q) : string :=
  if String.eqb type "business" then
    (shown (_pick BUSINESS_PREFIXES r.1) ++ " " ++ shown (_pick BUSINESS_SUFFIXES r.2))%string
  else if String.eqb type "leisure" then
    (shown (_pick LEISURE_PREFIXES r.1) ++ " " ++ shown (_pick LEISURE_SUFFIXES r.2))%string
  else if String.eqb type "eatery" then
    (shown (_pick EATERY_PREFIXES r.1) ++ " " ++ shown (_pick EATERY_SUFFIXES r.2))%string
  else "Unknown"%string.

End Names.

(** ** js/city.js: building a city *)

Module CityBuild.

(** The numbers drawn while a city is generated: for the first road of
    each direction and for the gaps, for the kind of building of each cell,
    and for the names ([r_address p k] in round [k] of the address of the
    house at [p], [r_name p] for the name given when [p] is built on,
    [r_rename p] when it is converted). *)
Record draws : Type := mkDraws {
  r_hfirst : Q;
  r_hstep : nat -> Q;
  r_vfirst : Q;
  r_vstep : nat -> Q;
  r_kind : cell -> Q;
  r_address : cell -> nat -> Q * Q;
  r_name : cell -> Q * Q;
  r_rename : cell -> Q * Q
}.

(** The city under construction and [_usedAddresses] of [names.js]. *)
Record state : Type := mkState {
  city : City;
  used : gset string
}.

(** [grid[y][x]] *)
Definition tile_at (g : list (list tile)) (x y : Z) : tile :=
  nth (Z.to_nat x) (nth (Z.to_nat y) g []) EMPTY.

(** [grid[y][x] = v] for an element of the grid.  Without a row [y] the
    assignment throws; a column outside the row is not an element of the
    grid ([None] in both cases: the loops below stay inside the grid,
    see [generate_returns_grid]). *)
Definition set_tile (g : list (list tile)) (x y : Z) (v : tile)
    : option (list (list tile)) :=
  if (y <? 0) || (x <? 0) then None
  else
    match g !! Z.to_nat y with
    | Some row =>
        if bool_decide (Z.to_nat x < length row)%nat
        then Some (<[Z.to_nat y := <[Z.to_nat x := v]> row]> g)
        else None
    | None => None
    end.

(** [for (let x = 0; x < this.cols; x++) this.grid[y][x] = TILE.ROAD] *)
Definition road_row (cols : nat) (y : Z) (g : list (list tile))
    : option (list (list tile)) :=
  foldl (fun og x => og ≫= fun g => set_tile g (Z.of_nat x) y ROAD) (Some g) (seq 0 cols).

(** [for (let ry = 0; ry < this.rows; ry++) this.grid[ry][x] = TILE.ROAD] *)
Definition road_column (rows : nat) (x : Z) (g : list (list tile))
    : option (list (list tile)) :=
  foldl (fun og ry => og ≫= fun g => set_tile g x (Z.of_nat ry) ROAD) (Some g) (seq 0 rows).

(** The [while] loop that lays the roads of one direction, entered at
    position [pos] with [lines] laid so far; [step k] is the number drawn
    for the gap after road [k], [paint] the inner loop.  [None]: the loop
    has not ended within [fuel] rounds, or a road lies outside the grid. *)
Fixpoint lay (paint : Z -> list (list tile) -> option (list (list tile)))
    (limit : Z) (step : nat -> Q) (fuel k : nat) (pos : Z) (lines : list Z)
    (g : list (list tile)) : option (list Z * list (list tile)) :=
  if pos <? limit - 1 then
    match fuel with
    | O => None
    | S fuel' =>
        match paint pos g with
        | Some g' =>
            lay paint limit step fuel' (S k) (pos + (5 + Qfloor (step k * 4)))
              (lines ++ [pos]) g'
        | None => None
        end
    end
  else Some (lines, g).

(** [_isAdjacentToRoad] *)
Definition _isAdjacentToRoad (c : City) (cx cy : Z) : bool :=
  existsb (fun d : Z * Z =>
             let nx := cx + d.1 in
             let ny := cy + d.2 in
             (0 <=? nx) && (nx <? cols c) && (0 <=? ny) && (ny <? rows c)
             && bool_decide (grid_at c nx ny = ROAD))
          [(-1, 0); (1, 0); (0, -1); (0, 1)].

(** The array of the buildings of one kind. *)
Definition registry (kind : tile) (c : City) : list cell :=
  match kind with
  | HOUSE => houses c
  | BUSINESS => businesses c
  | LEISURE => leisureSpots c
  | EATERY => eateries c
  | _ => []
  end.

Definition set_registry (kind : tile) (l : list cell) (c : City) : City :=
  match kind with
  | HOUSE => mkCity (cols c) (rows c) (grid c) l (businesses c) (leisureSpots c)
               (eateries c) (tileNames c)
  | BUSINESS => mkCity (cols c) (rows c) (grid c) (houses c) l (leisureSpots c)
                  (eateries c) (tileNames c)
  | LEISURE => mkCity (cols c) (rows c) (grid c) (houses c) (businesses c) l
                 (eateries c) (tileNames c)
  | EATERY => mkCity (cols c) (rows c) (grid c) (houses c) (businesses c)
                (leisureSpots c) l (tileNames c)
  | _ => c
  end.

Definition set_grid (g : list (list tile)) (c : City) : City :=
  mkCity (cols c) (rows c) g (houses c) (businesses c) (leisureSpots c)
    (eateries c) (tileNames c).

Definition set_tileNames (m : gmap (Z * Z) string) (c : City) : City :=
  mkCity (cols c) (rows c) (grid c) (houses c) (businesses c) (leisureSpots c)
    (eateries c) m.

(** The three statements of a branch of step 4 and of a round of
    [_ensureMinBuildings]: the tile, the [push], the name. *)
Definition build (kind : tile) (p : cell) (name : string) (c : City) : option City :=
  match set_tile (grid c) p.1 p.2 kind with
  | Some g =>
      let c1 := set_grid g c in
      let c2 := set_registry kind (registry kind c1 ++ [p]) c1 in
      Some (set_tileNames (<[p := name]> (tileNames c2)) c2)
  | None => None
  end.

(** [r < t] *)
Definition lt_num (r t : Q) : bool := negb (Qle_bool t r).

(** The body of the inner loop of step 4 for the cell [(bx, by)]. *)
Definition place (d : draws) (st : state) (bx by_ : Z) : option state :=
  let c := city st in
  if negb (bool_decide (grid_at c bx by_ = EMPTY)) then Some st
  else if negb (_isAdjacentToRoad c bx by_) then Some st
  else
    let r := r_kind d (bx, by_) in
    if lt_num r (45 # 100) then
      let '(addr, used') := Names.generateAddress (used st) (r_address d (bx, by_)) in
      c' ← build HOUSE (bx, by_) addr c; Some (mkState c' used')
    else if lt_num r (65 # 100) then
      c' ← build BUSINESS (bx, by_) (Names.generateName "business" (r_name d (bx, by_))) c;
      Some (mkState c' (used st))
    else if lt_num r (80 # 100) then
      c' ← build LEISURE (bx, by_) (Names.generateName "leisure" (r_name d (bx, by_))) c;
      Some (mkState c' (used st))
    else if lt_num r (88 # 100) then
      c' ← build EATERY (bx, by_) (Names.generateName "eatery" (r_name d (bx, by_))) c;
      Some (mkState c' (used st))
    else Some st.

(** Step 4: the two nested loops over the grid. *)
Definition place_all (d : draws) (st : state) : option state :=
  foldl (fun ost by_ =>
           foldl (fun ost bx => ost ≫= fun st => place d st (Z.of_nat bx) (Z.of_nat by_))
                 ost (seq 0 (Z.to_nat (cols (city st)))))
        (Some st) (seq 0 (Z.to_nat (rows (city st)))).

(** One round of a loop of [_ensureMinBuildings]: [houses.pop()], then as in
    [build].  With no house left [pop] gives [undefined] and reading its
    coordinates throws. *)
Definition convert (kind : tile) (type : string) (d : draws) (c : City) : option City :=
  match last (houses c) with
  | Some h =>
      build kind h (Names.generateName type (r_rename d h))
        (set_registry HOUSE (removelast (houses c)) c)
  | None => None
  end.

(** A [while] loop of [_ensureMinBuildings]; every round takes a house away,
    so [fuel] is the number of houses. *)
Fixpoint convert_loop (fuel : nat) (kind : tile) (type : string) (d : draws)
    (c : City) : option City :=
  if (length (registry kind c) <? 2)%nat && (4 <? length (houses c))%nat then
    match fuel with
    | O => None
    | S fuel' =>
        match convert kind type d c with
        | Some c' => convert_loop fuel' kind type d c'
        | None => None
        end
    end
  else Some c.

(** [_ensureMinBuildings] *)
Definition _ensureMinBuildings (d : draws) (c : City) : option City :=
  c1 ← convert_loop (length (houses c)) BUSINESS "business" d c;
  c2 ← convert_loop (length (houses c1)) LEISURE "leisure" d c1;
  convert_loop (length (houses c2)) EATERY "eatery" d c2.

(** What [generate] lays out: the city, with the rows and the columns of
    its roads ([hRoads], [vRoads]). *)
Record layout : Type := mkLayout {
  hRoads : list Z;
  vRoads : list Z;
  built : City
}.

(** [generate] on a city of [cols] by [rows] tiles. *)
Definition generate (cols rows : nat) (d : draws) : option layout :=
  let g0 := replicate rows (replicate cols EMPTY) in
  '(hs, g1) ← lay (road_row cols) (Z.of_nat rows) (r_hstep d) rows 0
                 (1 + Qfloor (r_hfirst d * 3)) [] g0;
  '(vs, g2) ← lay (road_column rows) (Z.of_nat cols) (r_vstep d) cols 0
                 (1 + Qfloor (r_vfirst d * 3)) [] g1;
  st ← place_all d
         (mkState (mkCity (Z.of_nat cols) (Z.of_nat rows) g2 [] [] [] [] ∅)
            Names.resetAddresses);
  c ← _ensureMinBuildings d (city st);
  Some (mkLayout hs vs c).

(** [new City(cols, rows)] *)
Definition constructor (cols rows : nat) (d : draws) : option City :=
  built <$> generate cols rows d.

(** Every number drawn is a value of [Math.random()]. *)
Definition valid_draws (d : draws) : Prop :=
  unit_draw (r_hfirst d) /\ (forall k, unit_draw (r_hstep d k)) /\
  unit_draw (r_vfirst d) /\ (forall k, unit_draw (r_vstep d k)) /\
  (forall p, unit_draw (r_kind d p)) /\
  (forall p k, unit_draw (r_address d p k).1 /\ unit_draw (r_address d p k).2) /\
  (forall p, unit_draw (r_name d p).1 /\ unit_draw (r_name d p).2) /\
  (forall p, unit_draw (r_rename d p).1 /\ unit_draw (r_rename d p).2).

(** All buildings of a city. *)
Definition buildings (c : City) : list cell :=
  houses c ++ businesses c ++ leisureSpots c ++ eateries c.

(** A grid of [rows] rows of [cols] tiles. *)
Definition grid_shape (cols rows : nat) (g : list (list tile)) : Prop :=
  length g = rows /\ Forall (fun r => length r = cols) g.

(** Roads of one direction: the first at a position from [lo] to [hi],
    each next one 5 to 8 tiles after the one before. *)
Fixpoint spaced (lo hi : Z) (lines : list Z) : Prop :=
  match lines with
  | [] => True
  | y :: rest => lo <= y <= hi /\ spaced (y + 5) (y + 8) rest
  end.

(** The roads reach the far side: where the next road would be laid is
    beyond the last but one tile. *)
Definition reaches (limit : Z) (lines : list Z) : Prop :=
  match last lines with
  | Some y => limit - 1 <= y + 8
  | None => limit - 1 <= 3
  end.

(** A neighbour of [p] inside the grid is a road. *)
Definition near_road (c : City) (p : cell) : Prop :=
  exists q, adjacent p q /\ in_bounds c q /\ grid_at c q.1 q.2 = ROAD.

Definition kinds : list tile := [HOUSE; BUSINESS; LEISURE; EATERY].

(** What holds of the city [c] while buildings are put on the road map
    [c0]: the roads stay, the arrays of buildings list the cells that hold
    a tile of their kind, once each, every building is next to a road and
    the named cells are the buildings.  Between the [pop] and the
    assignments of a round of [_ensureMinBuildings] the cell [hole] is
    excepted. *)
Record city_inv (c0 : City) (hole : option cell) (c : City) : Prop := {
  ci_cols : cols c = cols c0;
  ci_rows : rows c = rows c0;
  ci_shape : wf_city c;
  ci_roads : forall p, in_bounds c p ->
    (grid_at c p.1 p.2 = ROAD <-> grid_at c0 p.1 p.2 = ROAD);
  ci_registry : forall kind p, kind ∈ kinds -> Some p <> hole ->
    (p ∈ registry kind c <-> in_bounds c p /\ grid_at c p.1 p.2 = kind);
  ci_hole : forall kind p, hole = Some p -> p ∉ registry kind c;
  ci_nodup : forall kind, NoDup (registry kind c);
  ci_near : forall kind p, p ∈ registry kind c -> near_road c0 p;
  ci_names : forall p, Some p <> hole ->
    (is_Some (getNameAt c p.1 p.2) <-> p ∈ buildings c)
}.


End CityBuild.

(** ** More scenarios *)

Module Cases.

(** The agent of [Scenario.city_row] at 6:00, as it leaves home for work. *)
Definition leaving_home : Agent.t :=
  Scenario.updates Scenario.resident_row [((11 # 2), (1 # 60), 0); (6, (1 # 60), 0)]%Q.

(** The first two frames of [Scenario.late_frames], and the rest. *)
Definition early_frames : list Simulation.frame :=
  Scenario.frames_at [41250; 45000].

Definition later_frames : list Simulation.frame :=
  Scenario.frames_at [46000; 68000; 83000; 85000; 90000].

(** A town of 8 by 7 tiles: the first road of each direction at 1, gaps of
    5, the kind of a building from the coordinates of its cell, and house
    numbers counted up from 100. *)
Definition town_draws : CityBuild.draws :=
  CityBuild.mkDraws 0 (fun _ => 0%Q) 0 (fun _ => 0%Q)
    (fun p => (((p.1 * 7 + p.2 * 13) mod 10) # 10)%Q)
    (fun _ k => ((Z.of_nat k mod 900 # 900)%Q, 0%Q))
    (fun _ => (0%Q, 0%Q)) (fun _ => (0%Q, 0%Q)).

Definition town_layout : CityBuild.layout :=
  default (CityBuild.mkLayout [] [] (mkCity 0 0 [] [] [] [] [] ∅))
    (CityBuild.generate 8 7 town_draws).

(** Addresses in use, and rounds of [generateAddress] that draw house
    number [100 + k] of the first street in round [k]. *)
Definition taken : gset string := {["100 Maple"%string; "101 Maple"%string]}.

Definition counting (k : nat) : Q * Q := ((Z.of_nat k mod 900 # 900)%Q, 0%Q).

(** The city [Scenario.city_row] started at clock reading 0 and run for
    the frames at 41.25 s and 45 s, with the frames recorded. *)
Definition session : Playback.t :=
  fold_left Playback._loop early_frames
    (Playback.start (Playback.constructor Scenario.city_row) 0 [] Scenario.rs0
       (Simulation.mkFrame 16 (fun _ => 0%Q))).

(** [session] stopped and set to replay from clock reading 200000. *)
Definition replaying : Playback.t :=
  let s := Playback.stop session in
  Playback.mk (Playback.sim s) (Playback.paused s) (Playback._pauseStart s)
    (Playback._frameCache s) (Playback._cachedLogs s) (Playback._cachedPaths s)
    true 0 200000.

(** A row of 151 houses and a business, over a row of road. *)
Definition suburb : City :=
  mkCity 152 2 [repeat HOUSE 151 ++ [BUSINESS]; repeat ROAD 152]
    ((fun i => (Z.of_nat i, 0)) <$> seq 0 151) [(151, 0)] [] [] ∅.

(** The frame that [start] runs, 16 ms after the clock reading 0. *)
Definition first_frame : Simulation.frame := Simulation.mkFrame 16 (fun _ => 0%Q).

(** The page of [Scenario.city_far] after [start] at clock reading 0. *)
Definition far_started : Simulation.t :=
  Playback.sim (Playback.start (Playback.constructor Scenario.city_far) 0 []
                  Scenario.rs0 first_frame).

(** Draws that are all one half. *)
Definition halves (_ : nat) : Q := (1 # 2)%Q.

(** An agent of [city_island] whose leisure takes [1 + 2^-51] hours (the
    draw for it is [2^-52]) and whose curfew is 19:00, at 13:00 on its way
    home from work; no frame comes before 17:00. *)
Definition long_leisure : Agent.draws :=
  Agent.mkDraws 0 0 0 0 0 0 0 0 0 (1 # 4503599627370496) 0.

Definition homecomer : Agent.t :=
  Scenario.updates
    (Agent.constructor 0 (0, 0) (2, 0) (Some (4, 0)) None Scenario.city_island long_leisure)
    [((11 # 2), (1 # 60), 0); (6, (1 # 60), 0); ((61 # 10), 1, 0);
     (13, (1 # 60), 0)]%Q.

End Cases.

(** * Properties *)

(** ** Router *)

Lemma chain_snoc (l : list cell) (a b : cell) :
  chain l -> last l = Some a -> adjacent a b -> chain (l ++ [b]).
Proof.
  intros Hc Hl Hab i u v Hu Hv.
  apply lookup_snoc_Some in Hv as [[Hlt Hv] | [Hi <-]].
  - rewrite lookup_app_l in Hu by lia. by eapply Hc.
  - rewrite lookup_app_l in Hu by lia.
    rewrite last_lookup in Hl. replace (pred (length l)) with i in Hl by lia.
    congruence.
Qed.

Lemma chain_app_l (l1 l2 : list cell) : chain (l1 ++ l2) -> chain l1.
Proof.
  intros Hc i u v Hu Hv. apply (Hc i).
  - rewrite lookup_app_l; [done | by eapply lookup_lt_Some].
  - rewrite lookup_app_l; [done | by eapply lookup_lt_Some].
Qed.

Lemma chain_app_join (l1 l2 : list cell) (a b : cell) :
  chain (l1 ++ b :: l2) -> last l1 = Some a -> adjacent a b.
Proof.
  intros Hc Hl. rewrite last_lookup in Hl.
  assert (Hlen : (0 < length l1)%nat).
  { destruct l1; [discriminate | simpl; lia]. }
  apply (Hc (pred (length l1))).
  - rewrite lookup_app_l; [done | lia].
  - replace (S (pred (length l1))) with (length l1) by lia.
    rewrite lookup_app_r by lia. by rewrite Nat.sub_diag.
Qed.

Section BfsProof.
Variable city : City.
Variables sx sy ex ey : Z.

Abbreviation ckey := (ckey city).
Abbreviation decode := (decode city).
Abbreviation inv := (bfs_inv city sx sy ex ey).

Ltac inv_fields H :=
  destruct H as [Hstart Hroot Hd0 Hdom Hpushed Hmono Hband Hnodup Hclosed].

Lemma out_of_bounds_false (x y : Z) :
  out_of_bounds city x y = false <-> 0 <= x < cols city /\ 0 <= y < rows city.
Proof. unfold out_of_bounds. lia. Qed.

Lemma decode_ckey (c : cell) :
  out_of_bounds city c.1 c.2 = false -> decode (ckey c) = c.
Proof.
  intros Hb. apply out_of_bounds_false in Hb as [[Hx0 Hx1] [Hy0 Hy1]].
  destruct c as [x y]; simpl in *.
  unfold decode, ckey, key; simpl.
  assert (Hnn : 0 <= y * cols city + x) by nia.
  rewrite Z.rem_mod_nonneg by lia.
  f_equal.
  - rewrite Z.add_comm, Z_mod_plus_full. apply Z.mod_small. lia.
  - rewrite Z.add_comm, Z.div_add by lia. rewrite Z.div_small by lia. lia.
Qed.

Lemma ckey_inj (a b : cell) :
  out_of_bounds city a.1 a.2 = false -> out_of_bounds city b.1 b.2 = false ->
  ckey a = ckey b -> a = b.
Proof.
  intros Ha Hb He. rewrite <- (decode_ckey a Ha), <- (decode_ckey b Hb).
  by rewrite He.
Qed.

Lemma ckey_range (c : cell) :
  out_of_bounds city c.1 c.2 = false -> 0 <= ckey c < cols city * rows city.
Proof.
  intros Hb. apply out_of_bounds_false in Hb as [[Hx0 Hx1] [Hy0 Hy1]].
  unfold ckey, key. nia.
Qed.

Lemma inv_queued_key processed cf q h d i c :
  inv processed cf q h d -> q !! i = Some c -> is_Some (cf !! ckey c).
Proof.
  intros HI Hq. inv_fields HI. apply Hdom.
  exists c. split; [by eapply list_elem_of_lookup_2 | done].
Qed.

Lemma inv_depth_le_index processed cf q h d :
  inv processed cf q h d ->
  forall i c, q !! i = Some c -> (d (ckey c) <= i)%nat.
Proof.
  intros HI i. inv_fields HI.
  induction i as [i IH] using lt_wf_ind. intros c Hq.
  destruct i as [|i].
  - rewrite Hstart in Hq. injection Hq as <-.
    unfold ckey; simpl. rewrite Hd0. lia.
  - destruct (Hpushed i c Hq)
      as (_ & _ & _ & j & c' & _ & Hji & Hj & _ & _ & Hd).
    rewrite Hd. specialize (IH j ltac:(lia) c' Hj). lia.
Qed.

Lemma fresh_ne (cf : gmap Z (option Z)) (k k0 : Z) :
  cf !! k = None -> is_Some (cf !! k0) -> k <> k0.
Proof. intros Hn [v Hv] ->. congruence. Qed.

(** Recording a new road cell reached from the cell being expanded. *)
Lemma inv_push processed cf q h d c dxy :
  inv processed cf q h d -> q !! h = Some c -> dxy ∈ dirs ->
  out_of_bounds city (step_to c dxy).1 (step_to c dxy).2 = false ->
  cf !! ckey (step_to c dxy) = None ->
  grid_at city (step_to c dxy).1 (step_to c dxy).2 = ROAD ->
  step_to c dxy <> (ex, ey) ->
  inv (processed ++ [dxy]) (<[ckey (step_to c dxy) := Some (ckey c)]> cf)
      (q ++ [step_to c dxy]) h (<[ckey (step_to c dxy) := S (d (ckey c))]> d).
Proof.
  intros HI Hh Hdir Hb Hfresh Hroad Hne.
  pose proof (fun i c0 => inv_queued_key _ _ _ _ _ i c0 HI) as Hqk.
  pose proof (inv_depth_le_index _ _ _ _ _ HI) as Hdi.
  inv_fields HI.
  set (n := step_to c dxy) in *. set (k := ckey n) in *.
  assert (Hold : forall i c0, q !! i = Some c0 -> k <> ckey c0).
  { intros i c0 Hc0. eapply fresh_ne; eauto. }
  assert (Hlen : (h < length q)%nat) by (by eapply lookup_lt_Some).
  assert (Hlk : forall i c0, q !! i = Some c0 -> (q ++ [n]) !! i = Some c0).
  { intros i c0 Hc0. rewrite lookup_app_l; [done | by eapply lookup_lt_Some]. }
  assert (Hcases : forall i c0, (q ++ [n]) !! i = Some c0 ->
            q !! i = Some c0 \/ (i = length q /\ c0 = n)).
  { intros i c0 Hc0. apply lookup_snoc_Some in Hc0 as [[_ ?] | [? ?]]; auto. }
  split.
  - by apply Hlk.
  - rewrite lookup_insert_ne; [done |]. eapply fresh_ne; [done | by rewrite Hroot].
  - rewrite fn_lookup_insert_ne; [done |]. eapply fresh_ne; [done | by rewrite Hroot].
  - intros k0. destruct (decide (k = k0)) as [<- | Hk].
    + rewrite lookup_insert_eq. split; [intros _ | by eauto].
      exists n. split; [| done]. apply elem_of_app. right. by apply list_elem_of_singleton.
    + rewrite lookup_insert_ne by done. rewrite Hdom. split.
      * intros (c0 & Hin & Hk0). exists c0. split; [| done].
        apply elem_of_app. by left.
      * intros (c0 & Hin & Hk0). exists c0. split; [| done].
        apply elem_of_app in Hin as [Hin | Hin]; [done |].
        apply list_elem_of_singleton in Hin. subst c0. by subst k0.
  - intros i c0 Hc0. destruct (Hcases _ _ Hc0) as [Hc0' | [Hi ->]].
    + destruct (Hpushed i c0 Hc0') as (Hb0 & Hr0 & Hne0 & j & c' & Hjh & Hji & Hj & Hadj & Hcf & Hd).
      split_and!; try done. exists j, c'. split_and!; try done.
      * by apply Hlk.
      * rewrite lookup_insert_ne; [done | by eapply Hold].
      * rewrite !fn_lookup_insert_ne; [done | by eapply Hold | by eapply Hold].
    + split_and!; try done. exists h, c. split_and!; try done.
      * lia.
      * by apply Hlk.
      * by exists dxy.
      * by rewrite lookup_insert_eq.
      * rewrite fn_lookup_insert. rewrite fn_lookup_insert_ne; [done | by eapply Hold].
  - intros i j ci cj Hij Hci Hcj.
    destruct (Hcases _ _ Hcj) as [Hcj' | [Hj ->]].
    + assert (Hci' : q !! i = Some ci).
      { destruct (Hcases _ _ Hci) as [? | [Hi _]]; [done |].
        apply lookup_lt_Some in Hcj'. lia. }
      rewrite !fn_lookup_insert_ne; [by eapply Hmono | by eapply Hold | by eapply Hold].
    + fold k. rewrite fn_lookup_insert.
      destruct (Hcases _ _ Hci) as [Hci' | [Hi ->]].
      * rewrite fn_lookup_insert_ne by (by eapply Hold). by eapply Hband.
      * fold k. rewrite fn_lookup_insert. lia.
  - intros ch j cj Hch Hcj.
    assert (ch = c) as ->.
    { destruct (Hcases _ _ Hch) as [Hch' | [Hi _]]; [congruence | lia]. }
    rewrite (fn_lookup_insert_ne _ k (ckey c)) by (by eapply Hold).
    destruct (Hcases _ _ Hcj) as [Hcj' | [Hj ->]].
    + rewrite fn_lookup_insert_ne by (by eapply Hold). by eapply Hband.
    + fold k. rewrite fn_lookup_insert. lia.
  - rewrite fmap_app. apply NoDup_app. split_and!; [done | | apply NoDup_singleton].
    intros x Hx Hx'. apply list_elem_of_singleton in Hx'. subst x.
    apply list_elem_of_fmap in Hx as (c0 & Hk0 & Hin).
    apply list_elem_of_lookup_1 in Hin as [i Hi]. by eapply Hold.
  - intros i c0 dxy0 Hc0 Hd0' Hwhere Hwalk.
    assert (Hc0' : q !! i = Some c0).
    { destruct (Hcases _ _ Hc0) as [? | [Hi _]]; [done | lia]. }
    assert (Hprev : (i < h)%nat \/ i = h /\ dxy0 ∈ processed \/ i = h /\ dxy0 = dxy).
    { destruct Hwhere as [? | [? Hin]]; [tauto |].
      apply elem_of_app in Hin as [? | Hin]; [tauto |].
      apply list_elem_of_singleton in Hin. tauto. }
    rewrite (fn_lookup_insert_ne _ k (ckey c0)) by (by eapply Hold).
    destruct Hprev as [Hlt | [[-> Hin] | [-> ->]]].
    + destruct (Hclosed i c0 dxy0 Hc0' Hd0' (or_introl Hlt) Hwalk) as [Hs Hle].
      split; [| rewrite fn_lookup_insert_ne; [done | by eapply fresh_ne]].
      rewrite lookup_insert_ne; [done | by eapply fresh_ne].
    + destruct (Hclosed h c0 dxy0 Hc0' Hd0' (or_intror (conj eq_refl Hin)) Hwalk) as [Hs Hle].
      split; [| rewrite fn_lookup_insert_ne; [done | by eapply fresh_ne]].
      rewrite lookup_insert_ne; [done | by eapply fresh_ne].
    + assert (c0 = c) as -> by congruence. fold n. fold k.
      rewrite lookup_insert_eq, fn_lookup_insert. split; [by eauto | lia].
Qed.

(** A direction that records nothing: the neighbour is known already or
    may not be stepped onto. *)
Lemma inv_skip processed cf q h d c dxy :
  inv processed cf q h d -> q !! h = Some c ->
  ~ walkable city ex ey (step_to c dxy) \/ is_Some (cf !! ckey (step_to c dxy)) ->
  inv (processed ++ [dxy]) cf q h d.
Proof.
  intros HI Hh Hwhy. inv_fields HI. split; try done.
  intros i c0 dxy0 Hc0 Hd0' Hwhere Hwalk.
  assert (Hprev : (i < h)%nat \/ i = h /\ dxy0 ∈ processed \/ i = h /\ dxy0 = dxy).
  { destruct Hwhere as [? | [? Hin]]; [tauto |].
    apply elem_of_app in Hin as [? | Hin]; [tauto |].
    apply list_elem_of_singleton in Hin. tauto. }
  destruct Hprev as [Hlt | [[-> Hin] | [-> ->]]].
  - by eapply Hclosed; [done | done | left | done].
  - by eapply Hclosed; [done | done | right | done].
  - assert (c0 = c) as -> by congruence.
    destruct Hwhy as [Hnw | Hs]; [done |]. split; [done |].
    apply Hdom in Hs as (c1 & Hin & Hk). rewrite <- Hk.
    apply list_elem_of_lookup_1 in Hin as [j Hj]. by eapply Hband.
Qed.

(** Moving on to the next queued cell. *)
Lemma inv_next cf q h d c :
  inv dirs cf q h d -> q !! h = Some c -> inv [] cf q (S h) d.
Proof.
  intros HI Hh. inv_fields HI. split; try done.
  - intros i c0 Hc0.
    destruct (Hpushed i c0 Hc0) as (? & ? & ? & j & c' & ? & ? & ? & ? & ? & ?).
    split_and!; try done. exists j, c'. split_and!; try done. lia.
  - intros ch j cj Hch Hcj.
    pose proof (Hband c j cj Hh Hcj).
    pose proof (Hmono h (S h) c ch ltac:(lia) Hh Hch). lia.
  - intros i c0 dxy0 Hc0 Hd0' Hwhere Hwalk.
    destruct Hwhere as [Hlt | [_ Hin]]; [| by apply elem_of_nil in Hin].
    destruct (decide (i = h)) as [-> | Hn].
    + by eapply Hclosed; [done | done | right | done].
    + eapply Hclosed; [done | done | left; lia | done].
Qed.

(** Walking back through [cameFrom] from a queued cell rebuilds a chain
    from the start whose length is the depth of the cell plus one. *)
Lemma reconstruct_trail processed cf q h d (cf' : gmap Z (option Z)) :
  inv processed cf q h d ->
  (forall k, is_Some (cf !! k) -> cf' !! k = cf !! k) ->
  forall i c fuel acc, q !! i = Some c -> (i < fuel)%nat ->
  exists cs,
    reconstruct city fuel cf' (ckey c) acc = Some ((decode ∘ ckey <$> cs) ++ acc) /\
    head cs = Some (sx, sy) /\ last cs = Some c /\ chain cs /\
    Forall (fun x => x ∈ q) cs /\ length cs = S (d (ckey c)).
Proof.
  intros HI Hext. pose proof (fun i c0 => inv_queued_key _ _ _ _ _ i c0 HI) as Hqk.
  inv_fields HI.
  induction i as [i IH] using lt_wf_ind. intros c fuel acc Hc Hfuel.
  destruct fuel as [|fuel]; [lia |]. simpl.
  rewrite (Hext (ckey c)) by (by eapply Hqk).
  destruct i as [|i].
  - rewrite Hstart in Hc. injection Hc as <-.
    unfold ckey at 1; simpl. rewrite Hroot.
    exists [(sx, sy)]. split_and!; try done.
    + apply Forall_singleton. by eapply list_elem_of_lookup_2.
    + unfold ckey; simpl. by rewrite Hd0.
  - destruct (Hpushed i c Hc) as (_ & _ & _ & j & c' & _ & Hji & Hj & Hadj & Hcf & Hd).
    rewrite Hcf.
    destruct (IH j ltac:(lia) c' fuel ((Z.rem (ckey c) (cols city), ckey c / cols city) :: acc)
                Hj ltac:(lia)) as (cs & Hrec & Hhd & Hlast & Hchain & Hall & Hlen).
    exists (cs ++ [c]). split_and!.
    + rewrite Hrec, fmap_app, <- app_assoc. reflexivity.
    + rewrite head_app. by rewrite Hhd.
    + apply last_snoc.
    + by eapply chain_snoc.
    + apply Forall_app. split; [done |]. apply Forall_singleton.
      by eapply list_elem_of_lookup_2.
    + rewrite length_app; simpl. lia.
Qed.

(** The [for] loop over the four directions keeps the invariant, or ends
    the search at the destination. *)
Lemma expand_inv ds :
  forall processed cf q d h c,
  processed ++ ds = dirs -> q !! h = Some c -> inv processed cf q h d ->
  match expand city ex ey ds c.1 c.2 cf q with
  | Cont cf' q' => exists d', inv dirs cf' q' h d' /\ q' !! h = Some c
  | Found p => found_post city sx sy ex ey p
  | Stuck => False
  end.
Proof.
  induction ds as [| [dx dy] ds IH]; intros processed cf q d h c Hds Hh HI.
  - simpl. rewrite app_nil_r in Hds. subst processed. by exists d.
  - assert (Hin : (dx, dy) ∈ dirs).
    { rewrite <- Hds. apply elem_of_app. right. apply elem_of_cons. by left. }
    assert (Hds' : (processed ++ [(dx, dy)]) ++ ds = dirs).
    { by rewrite <- app_assoc. }
    simpl.
    change (c.1 + dx, c.2 + dy) with (step_to c (dx, dy)) in *.
    set (n := step_to c (dx, dy)).
    change (c.1 + dx) with n.1. change (c.2 + dy) with n.2.
    change (key city n.1 n.2) with (ckey n).
    destruct (out_of_bounds city n.1 n.2) eqn:Hob.
    { apply (IH _ _ _ d _ _ Hds' Hh). eapply inv_skip; [done | done |].
      left. intros [Hw _]. fold n in Hw. congruence. }
    destruct (bool_decide (is_Some (cf !! ckey n))) eqn:Hhas.
    { apply bool_decide_eq_true in Hhas.
      apply (IH _ _ _ d _ _ Hds' Hh). eapply inv_skip; [done | done | by right]. }
    apply bool_decide_eq_false in Hhas.
    assert (Hfresh : cf !! ckey n = None).
    { destruct (cf !! ckey n) eqn:E; [exfalso; apply Hhas; eauto | done]. }
    destruct (bool_decide (grid_at city n.1 n.2 <> ROAD) && negb ((n.1 =? ex) && (n.2 =? ey)))
      eqn:Hfilter.
    { apply andb_true_iff in Hfilter as [Hnr Hnt].
      apply bool_decide_eq_true in Hnr. apply negb_true_iff in Hnt.
      apply (IH _ _ _ d _ _ Hds' Hh). eapply inv_skip; [done | done |].
      left. intros [_ [Hr | Ht]]; fold n in Hr || fold n in Ht; [done |].
      rewrite Ht in Hnt. simpl in Hnt. rewrite !Z.eqb_refl in Hnt. discriminate. }
    destruct ((n.1 =? ex) && (n.2 =? ey)) eqn:Htarget.
    + apply andb_true_iff in Htarget as [Hx Hy].
      apply Z.eqb_eq in Hx, Hy.
      assert (Hn : n = (ex, ey)) by (destruct n; simpl in *; congruence).
      assert (Hlen : (h < length q)%nat) by (by eapply lookup_lt_Some).
      destruct (reconstruct_trail processed cf q h d
                  (<[ckey n := Some (ckey c)]> cf) HI
                  ltac:(intros k Hk; rewrite lookup_insert_ne;
                        [done | by eapply fresh_ne])
                  h c (length q)
                  [(Z.rem (ckey n) (cols city), ckey n / cols city)] Hh Hlen)
        as (cs & Hrec & Hhd & Hlast & Hchain & Hall & Hlencs).
      rewrite lookup_insert_eq.
      change (key city c.1 c.2) with (ckey c). rewrite Hrec.
      exists processed, cf, q, h, d, c, cs.
      split_and!; try done.
      * exists (dx, dy). by rewrite <- Hn.
      * by rewrite <- Hx, <- Hy.
      * rewrite <- Hfresh. by rewrite Hn.
      * by rewrite Hn.
    + assert (Hroad : grid_at city n.1 n.2 = ROAD).
      { apply andb_false_iff in Hfilter as [Hnr | Hnt].
        - apply bool_decide_eq_false in Hnr.
          destruct (decide (grid_at city n.1 n.2 = ROAD)); [done | contradiction].
        - simpl in Hnt. discriminate. }
      assert (Hne : n <> (ex, ey)).
      { intros Hn. rewrite Hn in Htarget. simpl in Htarget.
        rewrite !Z.eqb_refl in Htarget. discriminate. }
      pose proof (inv_push processed cf q h d c (dx, dy) HI Hh Hin Hob Hfresh Hroad Hne) as HI'.
      apply (IH _ _ _ _ _ _ Hds' ltac:(rewrite lookup_app_l;
               [done | by eapply lookup_lt_Some]) HI').
Qed.

Lemma inv_init :
  inv [] {[ key city sx sy := None ]} [(sx, sy)] 0%nat (fun _ => 0%nat).
Proof.
  split; try done.
  - by simplify_map_eq.
  - intros k. split.
    + intros [v Hv]. apply lookup_singleton_Some in Hv as [<- _].
      exists (sx, sy). split; [by apply list_elem_of_singleton | done].
    + intros (c & Hc & <-). apply list_elem_of_singleton in Hc as ->.
      exists None. by simplify_map_eq.
  - intros ch j cj _ _. lia.
  - apply NoDup_singleton.
  - intros i c dxy _ _ [Hlt | [_ Hin]]; [lia | by apply elem_of_nil in Hin].
Qed.

(** At most [cols * rows] cells are ever queued behind the start. *)
Lemma inv_queue_length processed cf q h d :
  inv processed cf q h d -> (length q <= S (Z.to_nat (cols city * rows city)))%nat.
Proof.
  intros HI. inv_fields HI.
  destruct q as [| s q']; [discriminate |]. simpl.
  apply le_n_S. rewrite fmap_cons in Hnodup. apply NoDup_cons in Hnodup as [_ Hnd].
  rewrite <- (length_fmap ckey q'), <- (length_seqZ 0 (cols city * rows city)).
  apply submseteq_length, NoDup_submseteq; [done |].
  intros k Hk. apply list_elem_of_fmap in Hk as (c & -> & Hc).
  apply list_elem_of_lookup_1 in Hc as [i Hi].
  destruct (Hpushed i c Hi) as (Hb & _).
  apply elem_of_seqZ. pose proof (ckey_range c Hb). lia.
Qed.

(** The [while] loop ends, either at the destination or with the queue
    empty. *)
Lemma bfs_spec fuel :
  forall cf q h d,
  inv [] cf q h d -> (h <= length q)%nat ->
  (S (S (Z.to_nat (cols city * rows city))) <= fuel + h)%nat ->
  exists r, bfs city ex ey fuel cf q h = Some r /\
    match r with
    | Some p => found_post city sx sy ex ey p
    | None => exhausted_post city sx sy ex ey
    end.
Proof.
  induction fuel as [| fuel IH]; intros cf q h d HI Hh Hfuel.
  - pose proof (inv_queue_length _ _ _ _ _ HI). lia.
  - cbn [bfs]. destruct (q !! h) as [[cx cy] |] eqn:Hq.
    + pose proof (expand_inv dirs [] cf q d h (cx, cy) eq_refl Hq HI) as He.
      cbn [fst snd] in He. destruct (expand city ex ey dirs cx cy cf q) as [p | cf' q' |].
      * by exists (Some p).
      * destruct He as (d' & HI' & Hq').
        apply (IH cf' q' (S h) d').
        -- by eapply inv_next.
        -- apply lookup_lt_Some in Hq'. lia.
        -- lia.
      * done.
    + exists None. split; [done |]. exists cf, q, d.
      apply lookup_ge_None in Hq. by replace (length q) with h by lia.
Qed.

(** [findPath] always returns: the fuel of the model is never exhausted. *)
Lemma findPath_fuel_total :
  exists r, findPath_fuel city sx sy ex ey = Some r /\ findPath city sx sy ex ey = r.
Proof.
  unfold findPath, findPath_fuel.
  destruct ((sx =? ex) && (sy =? ey)); [by eexists |].
  destruct (bfs_spec (bfs_fuel city) _ _ _ _ inv_init) as (r & Hr & _).
  - simpl. lia.
  - unfold bfs_fuel. lia.
  - exists r. by rewrite Hr.
Qed.

(** From here on the start is a cell of the grid. *)
Hypothesis start_in_bounds : out_of_bounds city sx sy = false.

Lemma road_walkable (c : cell) : road city c -> walkable city ex ey c.
Proof.
  unfold road, getTile, walkable. destruct (out_of_bounds city c.1 c.2); [done | auto].
Qed.

Lemma inv_queued_cell processed cf q h d i c :
  inv processed cf q h d -> q !! i = Some c ->
  out_of_bounds city c.1 c.2 = false /\
  (c = (sx, sy) \/ (road city c /\ c <> (ex, ey))).
Proof.
  intros HI Hc. inv_fields HI. destruct i as [|i].
  - rewrite Hstart in Hc. injection Hc as <-. auto.
  - destruct (Hpushed i c Hc) as (Hb & Hr & Hne & _).
    split; [done |]. right. split; [| done].
    unfold road, getTile. by rewrite Hb.
Qed.

Lemma inv_known_cell processed cf q h d c :
  inv processed cf q h d -> out_of_bounds city c.1 c.2 = false ->
  is_Some (cf !! ckey c) -> c ∈ q.
Proof.
  intros HI Hb Hs. pose proof HI as HI'. inv_fields HI'.
  apply Hdom in Hs as (c0 & Hin & Hk).
  pose proof Hin as Hin'. apply list_elem_of_lookup_1 in Hin' as [i Hi].
  destruct (inv_queued_cell _ _ _ _ _ _ _ HI Hi) as [Hb0 _].
  by rewrite <- (ckey_inj c0 c Hb0 Hb Hk).
Qed.

(** Every cell that a walk of at most [D + 1] cells from the start reaches
    over road is known to the search, provided all cells of depth below
    [D] have been expanded. *)
Lemma reach processed cf q h d (D : nat) :
  inv processed cf q h d ->
  (forall i c, q !! i = Some c -> (d (ckey c) < D)%nat -> (i < h)%nat) ->
  forall w, chain w -> head w = Some (sx, sy) ->
  Forall (fun x => x = (sx, sy) \/ (road city x /\ x <> (ex, ey))) w ->
  forall c, last w = Some c -> (length w <= S D)%nat ->
  c ∈ q /\ (d (ckey c) < length w)%nat.
Proof.
  intros HI HD. pose proof HI as HI'. inv_fields HI'.
  induction w as [| c w IH] using rev_ind; intros Hchain Hhead Hall c0 Hlast Hlen.
  - discriminate.
  - rewrite last_snoc in Hlast. injection Hlast as ->.
    rewrite length_app in *. simpl in *.
    apply Forall_app in Hall as [Hall Hc]. rewrite Forall_singleton in Hc.
    destruct (decide (c0 = (sx, sy))) as [-> | Hns].
    { split; [by eapply list_elem_of_lookup_2 |].
      unfold ckey; simpl. rewrite Hd0. lia. }
    destruct Hc as [? | [Hroad Hne]]; [done |].
    destruct (last w) as [c' |] eqn:Hlw.
    2: { apply last_None in Hlw. subst w. simpl in Hhead. congruence. }
    assert (Hhead' : head w = Some (sx, sy)).
    { rewrite head_app in Hhead. destruct (head w) eqn:E; [done |].
      apply head_None in E. subst w. discriminate. }
    destruct (IH (chain_app_l _ _ Hchain) Hhead' Hall c' eq_refl ltac:(lia))
      as [Hin Hd'].
    apply list_elem_of_lookup_1 in Hin as [i Hi].
    assert (Hih : (i < h)%nat) by (apply (HD i c' Hi); lia).
    destruct (chain_app_join _ _ _ _ Hchain Hlw) as (dxy & Hdxy & ->).
    destruct (Hclosed i c' dxy Hi Hdxy (or_introl Hih) (road_walkable _ Hroad))
      as [Hs Hle].
    split; [| lia].
    eapply inv_known_cell; [done | | done].
    by destruct (road_walkable _ Hroad).
Qed.

Hypothesis end_in_bounds : out_of_bounds city ex ey = false.
Hypothesis start_not_end : (sx, sy) <> (ex, ey).

(** The part of a route before it first touches the destination. *)
Lemma route_prefix (p : list cell) :
  is_route city (sx, sy) (ex, ey) p ->
  exists w rest c', p = w ++ (ex, ey) :: rest /\
    chain w /\ head w = Some (sx, sy) /\ last w = Some c' /\
    adjacent c' (ex, ey) /\
    Forall (fun x => x = (sx, sy) \/ (road city x /\ x <> (ex, ey))) w.
Proof.
  intros (Hhead & Hlast & Hchain & Hall).
  assert (Hin : (ex, ey) ∈ p) by (by eapply last_Some_elem_of).
  apply list_elem_of_split_l in Hin as (w & rest & -> & Hnot).
  destruct (last w) as [c' |] eqn:Hlw.
  2: { apply last_None in Hlw. subst w. simpl in Hhead. congruence. }
  exists w, rest, c'. split_and!; try done.
  - by eapply chain_app_l.
  - rewrite head_app in Hhead. destruct (head w) eqn:E; [done |].
    apply head_None in E. subst w. discriminate.
  - by eapply chain_app_join.
  - apply Forall_app in Hall as [Hall _].
    apply Forall_forall. intros x Hx.
    rewrite Forall_forall in Hall. destruct (Hall x Hx) as [? | [He | ?]]; auto.
    + by subst x.
    + right. split; [done |]. by intros ->.
Qed.

Lemma found_route (p : list cell) :
  found_post city sx sy ex ey p ->
  is_route city (sx, sy) (ex, ey) p /\
  forall p', is_route city (sx, sy) (ex, ey) p' -> (length p <= length p')%nat.
Proof.
  intros (processed & cf & q & h & d & c & cs & HI & Hh & Hadj & _ & Hfresh & -> &
          Hhd & Hlast & Hchain & Hall & Hlen).
  assert (Hcs : decode ∘ ckey <$> cs = cs).
  { clear -Hall HI start_in_bounds. induction Hall as [| x l Hx _ IH]; [done |].
    rewrite fmap_cons, IH. f_equal.
    apply list_elem_of_lookup_1 in Hx as [i Hi].
    apply decode_ckey. by destruct (inv_queued_cell _ _ _ _ _ _ _ HI Hi). }
  rewrite Hcs. change (key city ex ey) with (ckey (ex, ey)).
  rewrite (decode_ckey (ex, ey) end_in_bounds).
  split.
  - split_and!.
    + rewrite head_app. by rewrite Hhd.
    + apply last_snoc.
    + by eapply chain_snoc.
    + apply Forall_app. split; [| apply Forall_singleton; auto].
      apply Forall_forall. intros x Hx. rewrite Forall_forall in Hall.
      apply Hall, list_elem_of_lookup_1 in Hx as [i Hi].
      destruct (inv_queued_cell _ _ _ _ _ _ _ HI Hi) as [_ [? | [? _]]]; auto.
  - intros p' Hp'. rewrite length_app, Hlen; simpl.
    destruct (route_prefix p' Hp') as (w & rest & c' & -> & Hcw & Hhw & Hlw & Hadjw & Hallw).
    rewrite length_app; simpl.
    destruct (decide (length w <= d (ckey c))%nat) as [Hshort |]; [exfalso | lia].
    pose proof HI as HI'. inv_fields HI'.
    destruct (reach processed cf q h d (d (ckey c)) HI) with (w := w) (c := c')
      as [Hin Hd']; try done; try lia.
    { intros i c0 Hc0 Hlt. destruct (decide (i < h)%nat); [done |].
      pose proof (Hmono h i c c0 ltac:(lia) Hh Hc0). lia. }
    apply list_elem_of_lookup_1 in Hin as [i Hi].
    assert (Hih : (i < h)%nat).
    { destruct (decide (i < h)%nat); [done |].
      pose proof (Hmono h i c c' ltac:(lia) Hh Hi). lia. }
    destruct Hadjw as (dxy & Hdxy & He).
    destruct (Hclosed i c' dxy Hi Hdxy (or_introl Hih)) as [[v Hv] _].
    { rewrite <- He. split; [done | by right]. }
    rewrite <- He in Hv. unfold ckey in Hv; simpl in Hv. congruence.
Qed.

Lemma exhausted_no_route (p : list cell) :
  exhausted_post city sx sy ex ey -> ~ is_route city (sx, sy) (ex, ey) p.
Proof.
  intros (cf & q & d & HI) Hp.
  destruct (route_prefix p Hp) as (w & rest & c' & -> & Hcw & Hhw & Hlw & Hadjw & Hallw).
  pose proof HI as HI'. inv_fields HI'.
  destruct (reach [] cf q (length q) d (length w) HI) with (w := w) (c := c')
    as [Hin Hd']; try done; try lia.
  { intros i c0 Hc0 _. by eapply lookup_lt_Some. }
  apply list_elem_of_lookup_1 in Hin as [i Hi].
  destruct Hadjw as (dxy & Hdxy & He).
  destruct (Hclosed i c' dxy Hi Hdxy (or_introl (lookup_lt_Some _ _ _ Hi))) as [Hs _].
  { rewrite <- He. split; [done | by right]. }
  rewrite <- He in Hs.
  assert (Hknown : (ex, ey) ∈ q).
  { eapply inv_known_cell; [exact HI | exact end_in_bounds | exact Hs]. }
  apply list_elem_of_lookup_1 in Hknown as [[| j] Hj].
  - rewrite Hstart in Hj. congruence.
  - by destruct (Hpushed j _ Hj) as (_ & _ & ? & _).
Qed.
End BfsProof.

Lemma hops_le (p p' : list cell) : (length p <= length p')%nat -> (hops p <= hops p')%nat.
Proof. unfold hops. lia. Qed.

(** What [findPath] computes between two cells of the grid (shared by the
    router theorems below). *)
Lemma findPath_spec (city : City) (sx sy ex ey : Z) :
  in_bounds city (sx, sy) -> in_bounds city (ex, ey) ->
  exists r, findPath_fuel city sx sy ex ey = Some r /\
    findPath city sx sy ex ey = r /\
    match r with
    | Some p =>
        is_route city (sx, sy) (ex, ey) p /\
        forall p', is_route city (sx, sy) (ex, ey) p' -> (hops p <= hops p')%nat
    | None => forall p', ~ is_route city (sx, sy) (ex, ey) p'
    end.
Proof.
  intros Hs He.
  apply out_of_bounds_false in Hs, He. simpl in Hs, He.
  unfold findPath, findPath_fuel.
  destruct ((sx =? ex) && (sy =? ey)) eqn:Hsame.
  - apply andb_true_iff in Hsame as [Hx Hy]. apply Z.eqb_eq in Hx, Hy. subst ex ey.
    eexists. split_and!; [done | done |]. split.
    + split_and!; try done. apply Forall_singleton. auto.
    + intros p' (Hh & _). apply hops_le. destruct p'; [discriminate | simpl; lia].
  - assert (Hne : (sx, sy) <> (ex, ey)).
    { intros [= -> ->]. rewrite !Z.eqb_refl in Hsame. discriminate. }
    destruct (bfs_spec city sx sy ex ey (bfs_fuel city) _ _ _ _
                (inv_init city sx sy ex ey)) as (r & Hr & Hpost).
    + simpl. lia.
    + unfold bfs_fuel. lia.
    + exists r. rewrite Hr. split_and!; [done | done |].
      destruct r as [p |].
      * destruct (found_route city sx sy ex ey Hs He Hne p Hpost) as [Hroute Hmin].
        split; [done |]. intros p' Hp'. by apply hops_le, Hmin.
      * intros p'. by apply (exhausted_no_route city sx sy ex ey Hs He Hne).
Qed.

(** C1.  For two cells of the grid, [findPath] terminates; a returned
    sequence begins at the start, ends at the end, moves between 4-connected
    neighbours, has only road cells apart from the start and the target, and
    no sequence with these properties has fewer hops; when [null] is
    returned no such sequence exists. *)
Theorem findPath_shortest_route (city : City) (sx sy ex ey : Z) :
  in_bounds city (sx, sy) -> in_bounds city (ex, ey) ->
  exists r, findPath_fuel city sx sy ex ey = Some r /\
    match r with
    | Some p =>
        head p = Some (sx, sy) /\ last p = Some (ex, ey) /\ chain p /\
        Forall (fun q => q = (sx, sy) \/ q = (ex, ey) \/ road city q) p /\
        forall p', is_route city (sx, sy) (ex, ey) p' -> (hops p <= hops p')%nat
    | None => forall p', ~ is_route city (sx, sy) (ex, ey) p'
    end.
Proof.
  intros Hs He. destruct (findPath_spec city sx sy ex ey Hs He) as (r & Hr & _ & Hpost).
  exists r. split; [done |]. destruct r as [p |]; [| done].
  destruct Hpost as [(? & ? & ? & ?) ?]. by split_and!.
Qed.

Lemma adjacent_sym (a b : cell) : adjacent a b -> adjacent b a.
Proof.
  intros ([dx dy] & Hd & ->). exists (- dx, - dy). split.
  - unfold dirs in *. repeat (apply elem_of_cons in Hd as [[= -> ->] | Hd];
      [set_solver |]). by apply elem_of_nil in Hd.
  - destruct a as [x y]. unfold step_to; simpl. f_equal; lia.
Qed.

Lemma chain_reverse (p : list cell) : chain p -> chain (reverse p).
Proof.
  intros Hc i a b Ha Hb.
  assert (Hi : (S i < length p)%nat).
  { apply lookup_lt_Some in Hb. by rewrite length_reverse in Hb. }
  rewrite reverse_lookup in Ha, Hb by lia.
  apply adjacent_sym. apply (Hc (length p - S (S i))%nat); [done |].
  by replace (S (length p - S (S i))) with (length p - S i)%nat by lia.
Qed.

Lemma is_route_reverse (city : City) (s e : cell) (p : list cell) :
  is_route city s e p -> is_route city e s (reverse p).
Proof.
  intros (Hh & Hl & Hc & Ha). split_and!.
  - by rewrite head_reverse.
  - by rewrite last_reverse.
  - by apply chain_reverse.
  - apply Forall_reverse. eapply Forall_impl; [exact Ha |]. simpl. tauto.
Qed.

(** C8.  [findPath] returns a result that depends on the city and the two
    cells only, and for two cells of the grid the routes found in the two
    directions, when both exist, have the same number of hops. *)
Theorem findPath_deterministic_symmetric (city : City) (ax ay bx by_ : Z) :
  in_bounds city (ax, ay) -> in_bounds city (bx, by_) ->
  findPath_fuel city ax ay bx by_ = Some (findPath city ax ay bx by_) /\
  forall p p',
    findPath city ax ay bx by_ = Some p -> findPath city bx by_ ax ay = Some p' ->
    hops p = hops p'.
Proof.
  intros Ha Hb.
  destruct (findPath_spec city ax ay bx by_ Ha Hb) as (r & Hr & Hf & Hpost).
  destruct (findPath_spec city bx by_ ax ay Hb Ha) as (r' & Hr' & Hf' & Hpost').
  subst r r'. split; [done |].
  intros p p' Hp Hp'. rewrite Hp in Hpost. rewrite Hp' in Hpost'.
  destruct Hpost as [Hroute Hmin]. destruct Hpost' as [Hroute' Hmin'].
  pose proof (Hmin' _ (is_route_reverse _ _ _ _ Hroute)) as H1.
  pose proof (Hmin _ (is_route_reverse _ _ _ _ Hroute')) as H2.
  unfold hops in *. rewrite length_reverse in H1, H2. lia.
Qed.

(** ** Actor state machine *)

Arguments findPath : simpl never.
Arguments advance : simpl never.
Arguments getNameAt : simpl never.

(** Case analysis on the innermost test of the goal. *)
Ltac inner_case :=
  match goal with
  | |- context [match ?x with _ => _ end] =>
      lazymatch x with
      | context [match _ with _ => _ end] => fail
      | _ => destruct x eqn:?
      end
  end.

Lemma same_schedule_refl (a : Agent.t) : same_schedule a a.
Proof. by repeat split. Qed.

(** What [_navigateTo] does to the agent. *)
Lemma navigateTo_frame (target : cell) (a : Agent.t) :
  idle_fields a (Agent._navigateTo target a).1 /\
  Agent.x (Agent._navigateTo target a).1 = Agent.x a /\
  Agent.y (Agent._navigateTo target a).1 = Agent.y a /\
  Agent.path (Agent._navigateTo target a).1 = call_result (Agent._navigateTo target a).2 /\
  call_to (Agent._navigateTo target a).2 = target.
Proof.
  unfold Agent._navigateTo, idle_fields, same_schedule. simpl.
  repeat (inner_case; simpl); by repeat split.
Qed.

(** What [_moveAlongPath] leaves alone. *)
Lemma moveAlongPath_frame (dt : Q) (a : Agent.t) :
  idle_fields a (Agent._moveAlongPath dt a).2.
Proof.
  unfold Agent._moveAlongPath, idle_fields, same_schedule.
  repeat (inner_case; simpl); by repeat split.
Qed.

(** [_decideLeisure] chooses by [leisure_fits]. *)
Lemma decideLeisure_frame (h r : Q) (a : Agent.t) :
  let a' := Agent._decideLeisure h r a in
  same_schedule a a' /\ Agent.log a' = Agent.log a /\
  Agent.x a' = Agent.x a /\ Agent.y a' = Agent.y a /\
  Agent._hadLunch a' = Agent._hadLunch a /\
  Agent._orderedDelivery a' = Agent._orderedDelivery a /\
  ((Agent.phase_ a' = Agent.at_home_considering_leisure /\ leisure_fits a h) \/
   (Agent.phase_ a' = Agent.at_home_evening /\ ~ leisure_fits a h)).
Proof.
  unfold Agent._decideLeisure, leisure_fits, same_schedule.
  destruct (Agent.wantsLeisure a) eqn:Hw; simpl.
  2: { split_and!; try done. right. split; [done |]. by intros [? _]. }
  destruct (bool_decide (Agent.leisureSpot a <> None)) eqn:Hl; simpl.
  2: { apply bool_decide_eq_false in Hl.
       split_and!; try done. right. split; [done |]. tauto. }
  apply bool_decide_eq_true in Hl.
  destruct (Qle_bool _ _) eqn:Hq; simpl.
  - apply Qle_bool_iff in Hq. split_and!; try done. by left.
  - split_and!; try done. right. split; [done |].
    intros (_ & _ & Hle). apply Qle_bool_iff in Hle. congruence.
Qed.

(** What [_headHome] does: with a route the agent enters [nextPhase]; with
    none it is put on its home cell, logs its arrival and moves on to the
    phases at home. *)
Lemma headHome_frame (h r : Q) (nextPhase : Agent.phase) (a : Agent.t) :
  let a' := (Agent._headHome h r nextPhase a).1 in
  let c := (Agent._headHome h r nextPhase a).2 in
  same_schedule a a' /\
  Agent._hadLunch a' = Agent._hadLunch a /\
  Agent._orderedDelivery a' = Agent._orderedDelivery a /\
  call_to c = Agent.home a /\
  ((call_result c <> None /\ Agent.phase_ a' = nextPhase /\
    Agent.log a' = Agent.log a /\ Agent.x a' = Agent.x a /\ Agent.y a' = Agent.y a) \/
   (call_result c = None /\
    Agent.x a' = Qz (Agent.home a).1 /\ Agent.y a' = Qz (Agent.home a).2 /\
    Agent.log a' = Agent.log a ++
      [Agent.mkEntry "Arrived home" h
         (getNameAt (Agent.city a) (Agent.home a).1 (Agent.home a).2)] /\
    ((nextPhase = Agent.commuting_home_from_work /\
      ((Agent.phase_ a' = Agent.at_home_considering_leisure /\ leisure_fits a h) \/
       (Agent.phase_ a' = Agent.at_home_evening /\ ~ leisure_fits a h))) \/
     (nextPhase <> Agent.commuting_home_from_work /\
      Agent.phase_ a' = Agent.at_home_evening)))).
Proof.
  unfold Agent._headHome.
  generalize (navigateTo_frame (Agent.home a) a).
  destruct (Agent._navigateTo (Agent.home a) a) as [a1 c]. cbn [fst snd].
  intros ((Hs & Hp & Hl & Hst & Hh & Ho & _ & _) & Hx & Hy & Hpath & Hto).
  pose proof Hs as Hs'. unfold same_schedule in Hs'.
  destruct Hs' as (Hid & Hhome & Hwp & Hls & Heat & Hcity & _).
  destruct (Agent.path a1) as [l |] eqn:Hpa; cbn [fst snd].
  - split_and!; try done. left. split_and!; try done. by rewrite <- Hpath.
  - unfold Agent._nameAt, Agent._logEvent. simpl. rewrite Hhome, Hcity, Hl.
    destruct (bool_decide (nextPhase = Agent.commuting_home_from_work)) eqn:Hn;
      cbn [fst snd].
    + apply bool_decide_eq_true in Hn.
      match goal with
      | |- context [Agent._decideLeisure h r ?b] =>
          destruct (decideLeisure_frame h r b) as (Hs2 & Hl2 & Hx2 & Hy2 & Hh2 & Ho2 & Hph2)
      end.
      simpl in *. unfold leisure_fits in *. simpl in *.
      unfold same_schedule in *. simpl in *.
      destruct Hs as (?&?&?&?&?&?&?&?&?&?&?&?&?&?&?&?&?&?&?&?&?).
      destruct Hs2 as (?&?&?&?&?&?&?&?&?&?&?&?&?&?&?&?&?&?&?&?&?).
      split_and!; try congruence.
      right. split_and!; try congruence. left. split; [done |].
      destruct Hph2 as [[? ?] | [? ?]]; [left | right]; (split; [done |]);
        repeat match goal with H : Agent.wantsLeisure a1 = _ |- _ => rewrite H in * end;
        repeat match goal with H : Agent.leisureSpot a1 = _ |- _ => rewrite H in * end;
        repeat match goal with H : Agent.leisureDuration a1 = _ |- _ => rewrite H in * end;
        repeat match goal with H : Agent.curfew a1 = _ |- _ => rewrite H in * end;
        done.
    + apply bool_decide_eq_false in Hn. simpl.
      split_and!; try done. right. split_and!; try done; try congruence.
      by right.
Qed.

(** From here on the helpers are used through the lemmas above only. *)
Opaque Agent._navigateTo Agent._headHome Agent._moveAlongPath Agent._decideLeisure.

(** Replaces a call of a helper by its result and what is known of it. *)
Ltac step_helper :=
  match goal with
  | |- context [Agent._navigateTo ?t ?a] =>
      generalize (navigateTo_frame t a);
      destruct (Agent._navigateTo t a) as [? ?]; cbn [fst snd];
      intros ((?Hsch & ?Hph & ?Hlog & ?Hst & ?Hhad & ?Hord & ?Hdep & ?Hend)
              & ?Hx & ?Hy & ?Hpath & ?Hto)
  | |- context [Agent._headHome ?h ?r ?n ?a] =>
      generalize (headHome_frame h r n a);
      destruct (Agent._headHome h r n a) as [? ?]; cbn [fst snd];
      intros (?Hsch & ?Hhad & ?Hord & ?Hto &
              [(?Hres & ?Hph & ?Hlog & ?Hx & ?Hy)
              | (?Hres & ?Hx & ?Hy & ?Hlog &
                 [(?Hnext & [(?Hph & ?Hfit) | (?Hph & ?Hfit)]) | (?Hnext & ?Hph)])])
  | |- context [Agent._moveAlongPath ?dt ?a] =>
      generalize (moveAlongPath_frame dt a);
      destruct (Agent._moveAlongPath dt a) as [[|] ?]; cbn [fst snd];
      intros (?Hsch & ?Hph & ?Hlog & ?Hst & ?Hhad & ?Hord & ?Hdep & ?Hend)
  | |- context [Agent._decideLeisure ?h ?r ?a] =>
      generalize (decideLeisure_frame h r a);
      generalize (Agent._decideLeisure h r a); intros ?;
      intros (?Hsch & ?Hlog & ?Hx & ?Hy & ?Hhad & ?Hord &
              [(?Hph & ?Hfit) | (?Hph & ?Hfit)])
  end.

(** Uses the outcome of a test that was decided before. *)
Ltac use_known :=
  match goal with
  | H : ?x = _ |- context [match ?x with _ => _ end] => rewrite H
  end.

(** Unfolds one call of [update] into its branches. *)
Ltac update_cases a :=
  unfold Agent.update, Agent.update_calls, Agent.when_arrived;
  destruct (Agent.phase_ a) eqn:?Hphase;
  repeat (first [use_known | step_helper | inner_case]; simpl in *).

(** Rewrites the fields of helper results with what is known of them. *)
Ltac use_frames :=
  repeat match goal with
  | H : Agent.log ?t = _ |- context [Agent.log ?t] => rewrite H
  | H : Agent.phase_ ?t = _ |- context [Agent.phase_ ?t] => rewrite H
  | H : Agent.x ?t = _ |- context [Agent.x ?t] => rewrite H
  | H : Agent.y ?t = _ |- context [Agent.y ?t] => rewrite H
  | H : Agent._orderedDelivery ?t = _ |- context [Agent._orderedDelivery ?t] => rewrite H
  | H : Agent._hadLunch ?t = _ |- context [Agent._hadLunch ?t] => rewrite H
  end.

Ltac assoc_log :=
  repeat match goal with
  | |- context [(?l ++ ?x) ++ ?y] => rewrite <- (app_assoc l x y)
  end.

Ltac solve_schedule :=
  unfold same_schedule in *; simpl in *; destruct_and?; repeat split; congruence.

(** [update] never changes the schedule. *)
Lemma update_schedule (a : Agent.t) (h dt r : Q) :
  same_schedule a (Agent.update a h dt r).
Proof. update_cases a; solve_schedule. Qed.

(** [update] only appends to the log and stamps what it appends with the
    hour it was given; none of it is a courier's entry; it appends
    "Ordered delivery" exactly when [orders_now] holds, once, and no
    "Left for lunch" for an agent that orders in. *)
Lemma update_events (a : Agent.t) (h dt r : Q) :
  exists es, Agent.log (Agent.update a h dt r) = Agent.log a ++ es /\
    Forall (fun e => Agent.time e = h /\ is_delivery e = false) es /\
    count_event "Ordered delivery" es = (if orders_now a h then 1 else 0)%nat /\
    Agent._orderedDelivery (Agent.update a h dt r)
      = Agent._orderedDelivery a || orders_now a h /\
    (Agent.ordersDelivery a = true -> count_event "Left for lunch" es = 0%nat).
Proof.
  unfold orders_now.
  update_cases a; try congruence; use_frames; assoc_log;
    solve
      [ (first [ eexists; split; [reflexivity |]
               | exists []; split; [by rewrite app_nil_r |] ]);
        split_and!;
        [ repeat constructor
        | reflexivity
        | by rewrite ?orb_false_r, ?orb_true_r
        | intros; try discriminate; reflexivity ] ].
Qed.

(** C2 (as amended).  After one call of [update] the phase is unchanged, or
    one edge of the design's graph further (the transient
    [at_home_just_arrived] being passed within the call that arrives home),
    or, when the route requested in this call was not found, moved by one
    of the [shortcut]s that skip the travel phase. *)
Theorem update_phase_step (a : Agent.t) (h dt r : Q) :
  let p := Agent.phase_ a in
  let p' := Agent.phase_ (Agent.update_calls a h dt r).1 in
  p' = p \/
  Design.edge_through_arrival (Design.of_phase p) (Design.of_phase p') = true \/
  ((exists c, c ∈ (Agent.update_calls a h dt r).2 /\ call_result c = None) /\
   shortcut p p' = true).
Proof.
  update_cases a; try congruence; use_frames;
    solve
      [ by left
      | by right; left
      | right; right; split; [| reflexivity];
        eexists; split; [by apply list_elem_of_singleton | congruence] ].
Qed.

(** C3 (as amended).  When the route requested in a tick is not found, no
    travel phase is entered and the position is unchanged (the phase stays,
    or skips the trip: at lunch to at work, considering leisure to evening
    at home), except for the route home requested by [_headHome]: then the
    agent is put on its home cell and moves on to the phases at home. *)
Theorem route_not_found_effect (a : Agent.t) (h dt r : Q) (c : route_call) :
  c ∈ (Agent.update_calls a h dt r).2 -> call_result c = None ->
  let p := Agent.phase_ a in
  let a' := Agent.update a h dt r in
  travelling (Agent.phase_ a') = false /\
  ((Agent.x a' = Agent.x a /\ Agent.y a' = Agent.y a /\
    (Agent.phase_ a' = p \/
     (p = Agent.at_lunch /\ Agent.phase_ a' = Agent.at_work) \/
     (p = Agent.at_home_considering_leisure /\
      Agent.phase_ a' = Agent.at_home_evening))) \/
   (call_to c = Agent.home a /\
    Agent.x a' = Qz (Agent.home a).1 /\ Agent.y a' = Qz (Agent.home a).2 /\
    (Agent.phase_ a' = Agent.at_home_considering_leisure \/
     Agent.phase_ a' = Agent.at_home_evening))).
Proof.
  update_cases a; intros Hc Hnone;
    try (by apply elem_of_nil in Hc);
    apply list_elem_of_singleton in Hc; subst c;
    try congruence; use_frames;
    solve
      [ split; [reflexivity |]; left; split_and!; auto
      | split; [reflexivity |]; right; split_and!; auto ].
Qed.

Lemma log_tail_last (l es : list Agent.entry) (e : Agent.entry) (tl : list Agent.entry) :
  l ++ tl = l ++ es ++ [e] -> last tl = Some e.
Proof.
  intros H. apply app_inv_head in H. rewrite H. apply last_snoc.
Qed.

Lemma log_unchanged_no_entry (l es : list Agent.entry) (e : Agent.entry) :
  l = l ++ es ++ [e] -> False.
Proof.
  intros H. rewrite <- (app_nil_r l) in H at 1. apply app_inv_head in H.
  by destruct es.
Qed.

(** C7.  An agent that arrives home after work at hour [h] goes on to
    [at_home_considering_leisure] exactly when it wants leisure, has a
    leisure spot and [h + 0.5 + leisureDuration + 0.5], as the code adds it
    up in double precision, is not after [curfew], and to [at_home_evening]
    otherwise; and no call of [update] enters
    [at_home_considering_leisure] unless that test holds. *)
Theorem leisure_decision (a : Agent.t) (h dt r : Q) :
  let a' := Agent.update a h dt r in
  (arrived_home_after_work a a' ->
     (Agent.phase_ a' = Agent.at_home_considering_leisure <-> leisure_fits a h) /\
     (~ leisure_fits a h -> Agent.phase_ a' = Agent.at_home_evening)) /\
  (Agent.phase_ a <> Agent.at_home_considering_leisure ->
   Agent.phase_ a' = Agent.at_home_considering_leisure -> leisure_fits a h).
Proof.
  unfold arrived_home_after_work, leisure_fits.
  update_cases a; try congruence; use_frames.
  all: split;
    [ intros (Hn1 & Hn2 & es & e & Hlog' & Hev); try congruence;
      try (by apply log_unchanged_no_entry in Hlog');
      try (rewrite <- ?app_assoc in Hlog'; apply log_tail_last in Hlog';
           simpl in Hlog'; injection Hlog' as <-; simpl in Hev; try discriminate)
    | intros Hn Hp; try congruence ].
  all: unfold leisure_fits, same_schedule in *; simpl in *; destruct_and?;
    repeat match goal with
    | H : Agent.wantsLeisure ?t = Agent.wantsLeisure _ |- _ => rewrite H in *; clear H
    | H : Agent.leisureSpot ?t = Agent.leisureSpot _ |- _ => rewrite H in *; clear H
    | H : Agent.leisureDuration ?t = Agent.leisureDuration _ |- _ => rewrite H in *; clear H
    | H : Agent.curfew ?t = Agent.curfew _ |- _ => rewrite H in *; clear H
    end;
    intuition congruence.
Qed.

Transparent Agent._navigateTo Agent._headHome Agent._moveAlongPath Agent._decideLeisure.

(** ** Tick driver: what a run does to one agent *)

Arguments apply_call : simpl never.

Lemma update_agents_lookup (agents : list Agent.t) (k : nat) (h dt : Q) (rnd : nat -> Q)
    (i : nat) :
  Simulation.update_agents agents k h dt rnd !! i
  = (fun a => Agent.update a h dt (rnd (k + i)%nat)) <$> agents !! i.
Proof.
  revert k i. induction agents as [| a agents IH]; intros k i; [done |].
  destruct i as [| i]; simpl.
  - by rewrite Nat.add_0_r.
  - rewrite IH. by replace (S k + i)%nat with (k + S i)%nat by lia.
Qed.

(** What the courier's [_moveAlongPath] leaves alone. *)
Lemma driver_move_frame (dt : Q) (d : DeliveryDriver.t) :
  let d1 := (DeliveryDriver._moveAlongPath dt d).2 in
  DeliveryDriver.agent d1 = DeliveryDriver.agent d /\
  DeliveryDriver.eatery d1 = DeliveryDriver.eatery d /\
  DeliveryDriver.business d1 = DeliveryDriver.business d /\
  DeliveryDriver.city d1 = DeliveryDriver.city d /\
  DeliveryDriver.departureTime d1 = DeliveryDriver.departureTime d /\
  DeliveryDriver.phase_ d1 = DeliveryDriver.phase_ d.
Proof.
  unfold DeliveryDriver._moveAlongPath.
  repeat (inner_case; simpl); by repeat split.
Qed.

(** A courier's [update] leaves the agents alone or appends one delivery
    entry to the log of its own agent. *)
Lemma driver_update_agents (d : DeliveryDriver.t) (agents : list Agent.t) (h dt : Q) :
  (DeliveryDriver.update d agents h dt).1 = courier_step d h dt /\
  ((DeliveryDriver.update d agents h dt).2 = agents \/
   (DeliveryDriver.phase_ d = DeliveryDriver.delivering /\
    (DeliveryDriver.update d agents h dt).2
    = alter (fun a => apply_call a (Delivered h (DeliveryDriver.eateryName d)))
        (DeliveryDriver.agent d) agents)).
Proof.
  unfold courier_step, DeliveryDriver.update.
  destruct (DeliveryDriver.phase_ d) eqn:Hp.
  - destruct (geq_x h (DeliveryDriver.departureTime d)); simpl; auto.
  - pose proof (driver_move_frame dt d) as F.
    destruct (DeliveryDriver._moveAlongPath dt d) as [[|] d1]; simpl in *; auto.
    destruct F as (Ha & He & _ & Hc & _).
    split; [done |]. right. split; [done |].
    unfold DeliveryDriver.eateryName. simpl. by rewrite Ha, He, Hc.
  - destruct (geq h (DeliveryDriver._dropOffEnd d)); simpl; auto.
  - destruct (DeliveryDriver._moveAlongPath dt d) as [[|] d1]; simpl; auto.
  - simpl; auto.
Qed.

(** The couriers' loop: every courier takes its own step, and an agent
    receives the delivery entries of the couriers that arrive for it. *)
Lemma update_drivers_spec (ds : list DeliveryDriver.t) :
  forall (agents : list Agent.t) (h dt : Q),
  (Simulation.update_drivers ds agents h dt).1 = (fun d => courier_step d h dt) <$> ds /\
  forall i,
    match agents !! i with
    | Some a =>
        exists cs,
          (Simulation.update_drivers ds agents h dt).2 !! i
          = Some (fold_left apply_call cs a) /\
          Forall (fun c => exists d, d ∈ ds /\
                    DeliveryDriver.phase_ d = DeliveryDriver.delivering /\
                    DeliveryDriver.agent d = i /\
                    c = Delivered h (DeliveryDriver.eateryName d)) cs
    | None => (Simulation.update_drivers ds agents h dt).2 !! i = None
    end.
Proof.
  induction ds as [| d ds IH]; intros agents h dt.
  - simpl. split; [done |]. intros i. destruct (agents !! i) as [a |] eqn:Ha; [| done].
    by exists [].
  - simpl.
    destruct (driver_update_agents d agents h dt) as [Hd Hag].
    destruct (DeliveryDriver.update d agents h dt) as [d1 agents1]. simpl in Hd, Hag.
    specialize (IH agents1 h dt). destruct IH as [IH1 IH2].
    destruct (Simulation.update_drivers ds agents1 h dt) as [ds' agents2].
    simpl in *. split; [by rewrite Hd, IH1 |].
    intros i. specialize (IH2 i).
    assert (Hwiden : forall cs,
      Forall (fun c => exists d0, d0 ∈ ds /\
                DeliveryDriver.phase_ d0 = DeliveryDriver.delivering /\
                DeliveryDriver.agent d0 = i /\
                c = Delivered h (DeliveryDriver.eateryName d0)) cs ->
      Forall (fun c => exists d0, d0 ∈ d :: ds /\
                DeliveryDriver.phase_ d0 = DeliveryDriver.delivering /\
                DeliveryDriver.agent d0 = i /\
                c = Delivered h (DeliveryDriver.eateryName d0)) cs).
    { intros cs Hcs. eapply Forall_impl; [exact Hcs |]. intros c (d0 & Hin & ?).
      exists d0. split; [by apply elem_of_cons; right | done]. }
    destruct Hag as [-> | [Hph ->]].
    + destruct (agents !! i) as [a |]; [| done].
      destruct IH2 as (cs & Hcs & Hall). exists cs. auto.
    + destruct (decide (DeliveryDriver.agent d = i)) as [Heq | Hne].
      * subst i. rewrite list_lookup_alter_eq in IH2.
        destruct (agents !! DeliveryDriver.agent d) as [a |]; simpl in IH2; [| done].
        destruct IH2 as (cs & Hcs & Hall).
        exists (Delivered h (DeliveryDriver.eateryName d) :: cs). split; [done |].
        apply Forall_cons. split; [| auto].
        exists d. split; [by apply elem_of_cons; left | done].
      * rewrite list_lookup_alter_ne in IH2 by done.
        destruct (agents !! i) as [a |]; [| done].
        destruct IH2 as (cs & Hcs & Hall). exists cs. auto.
Qed.

(** One tick: every agent is updated once, then receives its deliveries. *)
Lemma tick_spec (s : Simulation.t) (h dt : Q) (rnd : nat -> Q) :
  Simulation.drivers (Simulation.tick s h dt rnd)
  = (fun d => courier_step d h dt) <$> Simulation.drivers s /\
  Simulation.startTime (Simulation.tick s h dt rnd) = Simulation.startTime s /\
  Simulation._pausedTotal (Simulation.tick s h dt rnd) = Simulation._pausedTotal s /\
  forall i,
    match Simulation.agents s !! i with
    | Some a =>
        exists cs,
          Simulation.agents (Simulation.tick s h dt rnd) !! i
          = Some (fold_left apply_call (Updated h dt (rnd i) :: cs) a) /\
          Forall (fun c => exists d, d ∈ Simulation.drivers s /\
                    DeliveryDriver.phase_ d = DeliveryDriver.delivering /\
                    DeliveryDriver.agent d = i /\
                    c = Delivered h (DeliveryDriver.eateryName d)) cs
    | None => Simulation.agents (Simulation.tick s h dt rnd) !! i = None
    end.
Proof.
  unfold Simulation.tick.
  destruct (update_drivers_spec (Simulation.drivers s)
              (Simulation.update_agents (Simulation.agents s) 0 h dt rnd) h dt)
    as [H1 H2].
  destruct (Simulation.update_drivers _ _ h dt) as [ds' agents2]. simpl in *.
  split_and!; try done.
  intros i. specialize (H2 i). rewrite update_agents_lookup in H2. simpl in H2.
  destruct (Simulation.agents s !! i) as [a |]; simpl in *; done.
Qed.

Lemma loop_cases (s : Simulation.t) (f : Simulation.frame) :
  Simulation.startTime (Simulation._loop s f) = Simulation.startTime s /\
  Simulation._pausedTotal (Simulation._loop s f) = Simulation._pausedTotal s /\
  ((Simulation.agents (Simulation._loop s f) = Simulation.agents s /\
    Simulation.drivers (Simulation._loop s f) = Simulation.drivers s) \/
   exists s1 dt,
     Simulation.agents s1 = Simulation.agents s /\
     Simulation.drivers s1 = Simulation.drivers s /\
     Simulation._loop s f
     = Simulation.tick s1 (Simulation.simHours s (Simulation.now f)) dt (Simulation.rnd f)).
Proof.
  unfold Simulation._loop.
  destruct (negb (Simulation.running s)); [by auto |].
  destruct (geq _ Simulation.SIM_DURATION_REAL); simpl; [by auto |].
  match goal with
  | |- context [Simulation.tick ?s1 ?h ?dt ?r] =>
      destruct (tick_spec s1 h dt r) as (_ & Hst & Hp & _)
  end.
  split_and!; [done | done |]. right. eexists _, _. split_and!; [| | reflexivity]; done.
Qed.

Lemma frame_hours_loop (s : Simulation.t) (f : Simulation.frame)
    (frames : list Simulation.frame) :
  frame_hours (Simulation._loop s f) frames = frame_hours s frames.
Proof.
  destruct (loop_cases s f) as (Hst & Hp & _).
  unfold frame_hours, Simulation.simHours, Simulation.elapsedTotal.
  by rewrite Hst, Hp.
Qed.

Lemma ascending_from_le (h0 h1 : Q) (hs : list Q) :
  (h0 <= h1)%Q -> ascending_from h1 hs -> ascending_from h0 hs.
Proof.
  destruct hs as [| h hs]; [done |]. simpl. intros H01 [H1 Hrest].
  split; [by eapply Qle_trans | done].
Qed.

Section RunInduction.
(** An invariant of the agents and couriers, indexed by the hour of the
    latest tick. *)
Variable Inv : Q -> list Agent.t -> list DeliveryDriver.t -> Prop.

Hypothesis Inv_later : forall h h' agents ds,
  Inv h agents ds -> (h <= h')%Q -> Inv h' agents ds.
Hypothesis Inv_tick : forall s h dt rnd,
  Inv h (Simulation.agents s) (Simulation.drivers s) ->
  Inv h (Simulation.agents (Simulation.tick s h dt rnd))
        (Simulation.drivers (Simulation.tick s h dt rnd)).

Lemma run_invariant_hours (frames : list Simulation.frame) :
  forall s h0,
  ascending_from h0 (frame_hours s frames) ->
  Inv h0 (Simulation.agents s) (Simulation.drivers s) ->
  exists h, Inv h (Simulation.agents (Simulation.run s frames))
                  (Simulation.drivers (Simulation.run s frames)).
Proof.
  induction frames as [| f frames IH]; intros s h0 Hasc HI.
  - by exists h0.
  - simpl in Hasc. destruct Hasc as [Hle Hasc].
    change (Simulation.run s (f :: frames))
      with (Simulation.run (Simulation._loop s f) frames).
    rewrite <- (frame_hours_loop s f) in Hasc.
    destruct (loop_cases s f) as (_ & _ & [[Ha Hd] | (s1 & dt & Ha & Hd & Hl)]).
    + apply (IH _ h0).
      * by eapply ascending_from_le.
      * by rewrite Ha, Hd.
    + apply (IH _ (Simulation.simHours s (Simulation.now f))); [done |].
      rewrite Hl. apply Inv_tick. rewrite Ha, Hd. by eapply Inv_later.
Qed.
End RunInduction.

Section RunInductionPlain.
(** The same for an invariant that does not depend on the hour. *)
Variable Inv : list Agent.t -> list DeliveryDriver.t -> Prop.

Hypothesis Inv_tick : forall s h dt rnd,
  Inv (Simulation.agents s) (Simulation.drivers s) ->
  Inv (Simulation.agents (Simulation.tick s h dt rnd))
      (Simulation.drivers (Simulation.tick s h dt rnd)).

Lemma run_invariant (frames : list Simulation.frame) :
  forall s,
  Inv (Simulation.agents s) (Simulation.drivers s) ->
  Inv (Simulation.agents (Simulation.run s frames))
      (Simulation.drivers (Simulation.run s frames)).
Proof.
  induction frames as [| f frames IH]; intros s HI; [done |].
  change (Simulation.run s (f :: frames))
    with (Simulation.run (Simulation._loop s f) frames).
  apply IH.
  destruct (loop_cases s f) as (_ & _ & [[Ha Hd] | (s1 & dt & Ha & Hd & Hl)]).
  - by rewrite Ha, Hd.
  - rewrite Hl. apply Inv_tick. by rewrite Ha, Hd.
Qed.
End RunInductionPlain.

(** ** Properties of whole runs *)

Lemma count_event_app (ev : string) (l1 l2 : list Agent.entry) :
  count_event ev (l1 ++ l2) = (count_event ev l1 + count_event ev l2)%nat.
Proof. unfold count_event. by rewrite filter_app, length_app. Qed.

Lemma count_event_zero (ev : string) (l : list Agent.entry) (e : Agent.entry) :
  count_event ev l = 0%nat -> e ∈ l -> Agent.event e <> ev.
Proof.
  unfold count_event. intros Hz Hin Hev.
  assert (Hf : e ∈ filter (fun e => String.eqb (Agent.event e) ev = true) l).
  { apply list_elem_of_filter. split; [| done]. by apply String.eqb_eq. }
  apply nil_length_inv in Hz. rewrite Hz in Hf. by apply elem_of_nil in Hf.
Qed.

Lemma log_sorted_app (l es : list Agent.entry) (h0 h : Q) :
  log_sorted l -> Forall (fun e => (Agent.time e <= h0)%Q) l -> (h0 <= h)%Q ->
  Forall (fun e => Agent.time e = h) es ->
  log_sorted (l ++ es) /\ Forall (fun e => (Agent.time e <= h)%Q) (l ++ es).
Proof.
  intros Hs Hb Hle Hes.
  assert (Hb' : Forall (fun e => (Agent.time e <= h)%Q) l).
  { eapply Forall_impl; [exact Hb |]. intros e He. simpl in *.
    eapply Qle_trans; eassumption. }
  assert (Hes' : Forall (fun e => (Agent.time e <= h)%Q) es).
  { eapply Forall_impl; [exact Hes |]. intros e ->. apply Qle_refl. }
  split; [| by apply Forall_app].
  intros i j ei ej Hij Hi Hj.
  apply lookup_app_Some in Hi as [Hi | [Hli Hi]];
    apply lookup_app_Some in Hj as [Hj | [Hlj Hj]].
  - by eapply Hs.
  - rewrite Forall_lookup in Hb', Hes. rewrite (Hes _ _ Hj). by apply (Hb' _ _ Hi).
  - apply lookup_lt_Some in Hj. lia.
  - rewrite Forall_lookup in Hes. rewrite (Hes _ _ Hi), (Hes _ _ Hj). apply Qle_refl.
Qed.

(** What one call does to the log of the agent it reaches. *)
Lemma apply_call_log (a : Agent.t) (c : agent_call) :
  same_schedule a (apply_call a c) /\
  exists es, Agent.log (apply_call a c) = Agent.log a ++ es /\
    Forall (fun e => Agent.time e = call_hour c) es /\
    match c with
    | Updated h dt r =>
        Forall (fun e => is_delivery e = false) es /\
        count_event "Ordered delivery" es = (if orders_now a h then 1 else 0)%nat /\
        Agent._orderedDelivery (apply_call a c)
          = Agent._orderedDelivery a || orders_now a h /\
        (Agent.ordersDelivery a = true -> count_event "Left for lunch" es = 0%nat)
    | Delivered h name =>
        es = [Agent.mkEntry ("Delivery by " ++ name) h
                (if String.eqb name EmptyString then None else Some name)] /\
        Agent._orderedDelivery (apply_call a c) = Agent._orderedDelivery a /\
        Agent.phase_ (apply_call a c) = Agent.phase_ a
    end.
Proof.
  destruct c as [h dt r | h name]; unfold apply_call.
  - split; [apply update_schedule |].
    destruct (update_events a h dt r) as (es & Hlog & Hall & Hcnt & Hord & Hlfl).
    exists es. split_and!; try done.
    + eapply Forall_impl; [exact Hall |]. by intros e [? _].
    + eapply Forall_impl; [exact Hall |]. by intros e [_ ?].
  - split; [by repeat split |].
    eexists. split; [reflexivity |]. split_and!; try done. by repeat constructor.
Qed.

(** *** The state a run starts from *)

Lemma start_spec (c : City) (now0 : Q) (shuffled : list cell) (rs : nat -> Simulation.spawn) :
  let s0 := Simulation.start (Simulation.generateCity c) now0 shuffled rs in
  exists pool,
    Simulation.agents s0 = Simulation.spawn_agents c pool 0 rs /\
    Simulation.drivers s0 = Simulation.spawn_drivers c (Simulation.agents s0) 0 rs.
Proof.
  unfold Simulation.start, Simulation._createAgents. simpl.
  destruct (bool_decide (length (houses c) = 0%nat) || bool_decide (length (businesses c) = 0%nat));
    simpl.
  - by exists [].
  - destruct (bool_decide (length (Simulation.spawn_agents c _ 0 rs) = 0%nat));
      simpl; by eexists.
Qed.

Lemma spawn_agents_lookup (c : City) (rs : nat -> Simulation.spawn) (pool : list cell) :
  forall k i a,
  Simulation.spawn_agents c pool k rs !! i = Some a ->
  exists home workplace leisureSpot eatery,
    a = Agent.constructor (k + i) home workplace leisureSpot eatery c
          (Simulation.r_agent (rs (k + i)%nat)).
Proof.
  induction pool as [| home pool IH]; intros k i a Ha; [done |].
  destruct i as [| i]; simpl in Ha.
  - injection Ha as <-. rewrite Nat.add_0_r. by eexists _, _, _, _.
  - destruct (IH (S k) i a Ha) as (hm & wp & ls & e & ->).
    replace (S k + i)%nat with (k + S i)%nat by lia. by eexists _, _, _, _.
Qed.

(** What the constructor decides about lunch and delivery. *)
Lemma constructor_orders (id : nat) (home workplace : cell) (leisureSpot eatery : option cell)
    (c : City) (r : Agent.draws) :
  let a := Agent.constructor id home workplace leisureSpot eatery c r in
  Agent.log a = [] /\ Agent._orderedDelivery a = false /\
  Agent.ordersDelivery a
  = Agent.takesLunch a
    && match Agent.eatery a with
       | Some e => bool_decide (20 < Agent.chebyshev (Agent.workplace a) e)
       | None => false
       end /\
  (Agent.ordersDelivery a = true ->
   exists ls, Agent.lunchStart a = Fin ls /\
     Agent.orderTime a = Some (ls - (25 + Agent.r_order r * 10) / 60)%Q).
Proof.
  simpl. split_and!; try done.
  destruct (_ && _) eqn:Ho; [| done]. intros _.
  apply andb_true_iff in Ho as [-> _]. by eexists.
Qed.

Lemma spawn_drivers_spec (c : City) (rs : nat -> Simulation.spawn) (agents : list Agent.t) :
  forall k d,
  d ∈ Simulation.spawn_drivers c agents k rs ->
  exists j a e,
    agents !! j = Some a /\ DeliveryDriver.agent d = (k + j)%nat /\
    Agent.ordersDelivery a = true /\ Agent.eatery a = Some e /\
    d = DeliveryDriver.constructor e (Agent.workplace a) (k + j) a c
          (Simulation.SIM_DURATION_HOURS / Simulation.SIM_DURATION_REAL)%Q
          (Simulation.r_driver (rs (k + j)%nat)).
Proof.
  induction agents as [| a agents IH]; intros k d Hd; [by apply elem_of_nil in Hd |].
  simpl in Hd.
  assert (Hrest : d ∈ Simulation.spawn_drivers c agents (S k) rs ->
    exists j a0 e, (a :: agents) !! j = Some a0 /\ DeliveryDriver.agent d = (k + j)%nat /\
      Agent.ordersDelivery a0 = true /\ Agent.eatery a0 = Some e /\
      d = DeliveryDriver.constructor e (Agent.workplace a0) (k + j) a0 c
            (Simulation.SIM_DURATION_HOURS / Simulation.SIM_DURATION_REAL)%Q
            (Simulation.r_driver (rs (k + j)%nat))).
  { intros Hin. destruct (IH (S k) d Hin) as (j & a0 & e & Hj & Hag & Ho & He & Hdd).
    exists (S j), a0, e. replace (k + S j)%nat with (S k + j)%nat by lia. done. }
  destruct (Agent.ordersDelivery a) eqn:Ho; simpl in Hd; [| auto].
  destruct (Agent.eatery a) as [e |] eqn:He; [| auto].
  apply elem_of_cons in Hd as [-> | Hd]; [| auto].
  exists 0%nat, a, e. rewrite Nat.add_0_r. done.
Qed.

(** A courier's step keeps its agent and its departure time; it starts
    delivering only once its departure time has come. *)
Lemma courier_step_frame (d : DeliveryDriver.t) (h dt : Q) :
  DeliveryDriver.agent (courier_step d h dt) = DeliveryDriver.agent d /\
  DeliveryDriver.departureTime (courier_step d h dt) = DeliveryDriver.departureTime d /\
  (DeliveryDriver.phase_ (courier_step d h dt) = DeliveryDriver.delivering ->
   DeliveryDriver.phase_ d = DeliveryDriver.delivering \/
   (DeliveryDriver.phase_ d = DeliveryDriver.waiting /\
    geq_x h (DeliveryDriver.departureTime d) = true)).
Proof.
  unfold courier_step, DeliveryDriver.update.
  pose proof (driver_move_frame dt d) as F.
  destruct (DeliveryDriver.phase_ d) eqn:Hp.
  - destruct (geq_x h (DeliveryDriver.departureTime d)) eqn:Hg; simpl; rewrite ?Hp;
      split_and!; auto; intros; congruence.
  - destruct (DeliveryDriver._moveAlongPath dt d) as [[|] d1]; simpl in *;
      destruct F as (? & ? & ? & ? & ? & ?); split_and!; auto.
  - destruct (geq h (DeliveryDriver._dropOffEnd d)); simpl; rewrite ?Hp;
      split_and!; try done; try (intros; congruence).
    destruct (findPath _ _ _ _ _); simpl; discriminate.
  - destruct (DeliveryDriver._moveAlongPath dt d) as [[|] d1]; simpl in *;
      destruct F as (? & ? & ? & ? & ? & Hph); split_and!; auto; try discriminate;
      rewrite Hph; discriminate.
  - simpl. rewrite Hp. split_and!; try done; discriminate.
Qed.

(** *** Invariants of one agent under the calls that reach it *)

Lemma tick_agent_calls (s : Simulation.t) (h dt : Q) (rnd : nat -> Q) (i : nat)
    (a' : Agent.t) :
  Simulation.agents (Simulation.tick s h dt rnd) !! i = Some a' ->
  exists a cs,
    Simulation.agents s !! i = Some a /\
    a' = fold_left apply_call (Updated h dt (rnd i) :: cs) a /\
    Forall (fun c => exists d, d ∈ Simulation.drivers s /\
              DeliveryDriver.phase_ d = DeliveryDriver.delivering /\
              DeliveryDriver.agent d = i /\
              c = Delivered h (DeliveryDriver.eateryName d)) cs.
Proof.
  intros Ha'. destruct (tick_spec s h dt rnd) as (_ & _ & _ & Hag).
  specialize (Hag i). destruct (Simulation.agents s !! i) as [a |]; [| congruence].
  destruct Hag as (cs & Hcs & Hall). exists a, cs. split_and!; congruence.
Qed.

Lemma orders_now_false (a : Agent.t) (h : Q) :
  Agent.ordersDelivery a = false -> orders_now a h = false.
Proof. unfold orders_now. intros ->. by destruct (Agent.phase_ a). Qed.

Lemma orders_now_true (a : Agent.t) (h ot : Q) :
  orders_now a h = true -> Agent.orderTime a = Some ot ->
  Agent._orderedDelivery a = false /\ (ot <= h)%Q.
Proof.
  unfold orders_now. intros Ho Hot. rewrite Hot in Ho.
  destruct (Agent.phase_ a); try discriminate.
  apply andb_true_iff in Ho as [Ho Hg]. apply andb_true_iff in Ho as [_ Hn].
  apply negb_true_iff in Hn. split; [done |]. by apply Qle_bool_iff.
Qed.

Lemma order_inv_call (ot : Q) (a : Agent.t) (c : agent_call) :
  order_inv ot a -> order_inv ot (apply_call a c).
Proof.
  intros (Ho & Hot & Hlfl & Hod & Htimes).
  destruct (apply_call_log a c) as (Hs & es & Hlog & Hall & Hc).
  pose proof Hs as Hs'. unfold same_schedule in Hs'. destruct_and?.
  unfold order_inv. rewrite Hlog, !count_event_app, Hlfl, Hod.
  destruct c as [h dt r | h name].
  - destruct Hc as (_ & Hcnt & Hflag & Hnolfl).
    rewrite Hcnt, Hflag, (Hnolfl Ho).
    split_and!; try congruence; try done.
    + destruct (orders_now a h) eqn:Hon.
      * destruct (orders_now_true a h ot Hon Hot) as [-> _]. done.
      * rewrite orb_false_r. lia.
    + intros e He Hev. apply elem_of_app in He as [He | He]; [by apply Htimes |].
      destruct (orders_now a h) eqn:Hon.
      * destruct (orders_now_true a h ot Hon Hot) as [_ Hle].
        rewrite Forall_forall in Hall. by rewrite (Hall e He).
      * by destruct (count_event_zero _ _ e Hcnt He).
  - destruct Hc as (-> & Hflag & _). rewrite Hflag.
    assert (Hnone : forall ev, String.eqb ("Delivery by " ++ name) ev = false ->
              count_event ev
                [Agent.mkEntry ("Delivery by " ++ name) h
                   (if String.eqb name EmptyString then None else Some name)] = 0%nat).
    { intros ev Hev. unfold count_event. rewrite filter_cons.
      destruct (decide _) as [Heq | _]; [| done].
      simpl in Heq, Hev. congruence. }
    rewrite !Hnone by reflexivity.
    split_and!; try congruence; try done; try lia.
    intros e He Hev.
    apply elem_of_app in He as [He | He]; [by apply Htimes |].
    apply list_elem_of_singleton in He. subst e. simpl in Hev. discriminate.
Qed.

Lemma order_inv_calls (ot : Q) (cs : list agent_call) :
  forall a, order_inv ot a -> order_inv ot (fold_left apply_call cs a).
Proof.
  induction cs as [| c cs IH]; intros a Ha; [done |].
  simpl. apply IH. by apply order_inv_call.
Qed.

Lemma sorted_upto_calls (h : Q) (cs : list agent_call) :
  forall a, Forall (fun c => call_hour c = h) cs ->
  sorted_upto h a -> sorted_upto h (fold_left apply_call cs a).
Proof.
  induction cs as [| c cs IH]; intros a Hcs Ha; [done |].
  apply Forall_cons in Hcs as [Hc Hcs]. simpl. apply IH; [done |].
  destruct (apply_call_log a c) as (_ & es & Hlog & Hall & _).
  destruct Ha as [Hs Hb]. unfold sorted_upto. rewrite Hlog.
  eapply log_sorted_app; [done | done | apply Qle_refl |]. by rewrite <- Hc.
Qed.

(** *** Lunch, delivery and the log *)

(** C9.  An agent that does not take lunch does not order delivery: its
    [ordersDelivery] flag is false, no courier is created for it or ever
    refers to it, and its log never holds an "Ordered delivery" event,
    wherever its eatery is. *)
Theorem no_lunch_no_delivery (c : City) (now0 : Q) (shuffled : list cell)
    (rs : nat -> Simulation.spawn) (i : nat) (a0 : Agent.t) :
  let s0 := Simulation.start (Simulation.generateCity c) now0 shuffled rs in
  Simulation.agents s0 !! i = Some a0 -> Agent.takesLunch a0 = false ->
  Agent.ordersDelivery a0 = false /\
  forall frames,
    (forall d, d ∈ Simulation.drivers (Simulation.run s0 frames) ->
       DeliveryDriver.agent d <> i) /\
    (forall a, Simulation.agents (Simulation.run s0 frames) !! i = Some a ->
       count_event "Ordered delivery" (Agent.log a) = 0%nat).
Proof.
  intros s0 Ha0 Hnl.
  destruct (start_spec c now0 shuffled rs) as (pool & Hag & Hdr).
  fold s0 in Hag, Hdr.
  assert (Hinit : Agent.ordersDelivery a0 = false /\ Agent.log a0 = []).
  { rewrite Hag in Ha0.
    destruct (spawn_agents_lookup _ _ _ _ _ _ Ha0) as (hm & wp & ls & e & Hc).
    destruct (constructor_orders (0 + i) hm wp ls e c (Simulation.r_agent (rs (0 + i)%nat)))
      as (Hl & _ & Ho & _).
    rewrite <- Hc in Hl, Ho. rewrite Ho, Hnl. done. }
  destruct Hinit as [Ho0 Hl0]. split; [done |]. intros frames.
  set (Inv := fun (agents : list Agent.t) (ds : list DeliveryDriver.t) =>
    (forall d, d ∈ ds -> DeliveryDriver.agent d <> i) /\
    (forall a, agents !! i = Some a ->
       Agent.ordersDelivery a = false /\
       count_event "Ordered delivery" (Agent.log a) = 0%nat)).
  assert (HI : Inv (Simulation.agents (Simulation.run s0 frames))
                   (Simulation.drivers (Simulation.run s0 frames))).
  { apply run_invariant.
    - intros s h dt rnd [Hd Ha].
      destruct (tick_spec s h dt rnd) as (Hds & _). split.
      + rewrite Hds. intros d Hin.
        apply list_elem_of_fmap in Hin as (d0 & -> & Hin0).
        destruct (courier_step_frame d0 h dt) as (-> & _). by apply Hd.
      + intros a' Ha'.
        destruct (tick_agent_calls _ _ _ _ _ _ Ha') as (a & cs & Hsa & -> & Hall).
        destruct cs as [| c0 cs].
        2: { apply Forall_cons in Hall as [(d & Hin & _ & Hdi & _) _].
             by destruct (Hd d Hin). }
        simpl. destruct (Ha a Hsa) as [Ho Hc].
        destruct (apply_call_log a (Updated h dt (rnd i)))
          as (Hs & es & Hlog & _ & _ & Hcnt & _).
        unfold same_schedule in Hs. destruct_and?.
        split; [congruence |].
        rewrite Hlog, count_event_app, Hc, Hcnt.
        by rewrite orders_now_false.
    - split.
      + rewrite Hdr. intros d Hin Hdi.
        destruct (spawn_drivers_spec _ _ _ _ _ Hin) as (j & a & e & Hj & Hag' & Ho & _).
        simpl in Hag'. rewrite Hag' in Hdi. subst j. congruence.
      + intros a Ha. rewrite Ha0 in Ha. injection Ha as <-. by rewrite Hl0. }
  destruct HI as [Hd Ha]. split; [done |]. intros a Hia. by destruct (Ha a Hia).
Qed.

(** C4 (as amended).  An agent that takes lunch and whose eatery is more
    than 20 tiles (Chebyshev) from its workplace orders in.  Whatever the
    run, its log holds no "Left for lunch" and at most one "Ordered
    delivery", which is stamped with an hour not before its order time; and
    the tick that finds it at work with the order not yet logged, at or
    after the order time, logs it with the hour of that tick. *)
Theorem far_eatery_orders_delivery (c : City) (now0 : Q) (shuffled : list cell)
    (rs : nat -> Simulation.spawn) (i : nat) (a0 : Agent.t) (e : cell) :
  let s0 := Simulation.start (Simulation.generateCity c) now0 shuffled rs in
  Simulation.agents s0 !! i = Some a0 -> Agent.takesLunch a0 = true ->
  Agent.eatery a0 = Some e -> 20 < Agent.chebyshev (Agent.workplace a0) e ->
  exists ot ls,
    Agent.ordersDelivery a0 = true /\ Agent.orderTime a0 = Some ot /\
    Agent.lunchStart a0 = Fin ls /\
    (ot == ls - (25 + Agent.r_order (Simulation.r_agent (rs i)) * 10) / 60)%Q /\
    forall frames a,
      Simulation.agents (Simulation.run s0 frames) !! i = Some a ->
      count_event "Left for lunch" (Agent.log a) = 0%nat /\
      (count_event "Ordered delivery" (Agent.log a) <= 1)%nat /\
      (forall en, en ∈ Agent.log a -> Agent.event en = "Ordered delivery"%string ->
         (ot <= Agent.time en)%Q) /\
      forall h dt r,
        Agent.phase_ a = Agent.at_work -> Agent._orderedDelivery a = false ->
        (ot <= h)%Q ->
        count_event "Ordered delivery" (Agent.log (Agent.update a h dt r)) = 1%nat /\
        forall en, en ∈ Agent.log (Agent.update a h dt r) ->
          Agent.event en = "Ordered delivery"%string -> Agent.time en = h.
Proof.
  intros s0 Ha0 Htl He Hfar.
  destruct (start_spec c now0 shuffled rs) as (pool & Hag & Hdr).
  fold s0 in Hag, Hdr.
  pose proof Ha0 as Ha0'. rewrite Hag in Ha0'.
  destruct (spawn_agents_lookup _ _ _ _ _ _ Ha0') as (hm & wp & lsp & ea & Hc).
  destruct (constructor_orders (0 + i) hm wp lsp ea c (Simulation.r_agent (rs (0 + i)%nat)))
    as (Hl & Hflag & Ho & Hot).
  rewrite <- Hc in Hl, Hflag, Ho, Hot. simpl in Hot.
  rewrite Htl, He in Ho. simpl in Ho.
  rewrite bool_decide_eq_true_2 in Ho by done.
  destruct (Hot Ho) as (ls & Hls & Hotime).
  eexists _, ls. split_and!; [done | exact Hotime | done | reflexivity |].
  intros frames a Hia.
  set (ot := (ls - (25 + Agent.r_order (Simulation.r_agent (rs i)) * 10) / 60)%Q) in *.
  assert (HI : forall a, Simulation.agents (Simulation.run s0 frames) !! i = Some a ->
            order_inv ot a).
  { apply (run_invariant (fun agents _ => forall a, agents !! i = Some a -> order_inv ot a)).
    - intros s h dt rnd Hinv a' Ha'.
      destruct (tick_agent_calls _ _ _ _ _ _ Ha') as (a1 & cs & Hsa & -> & _).
      apply order_inv_calls. by apply Hinv.
    - intros a1 Ha1. rewrite Ha0 in Ha1. injection Ha1 as <-.
      unfold order_inv. rewrite Hl, Hflag. split_and!; try done.
      intros en Hin. by apply elem_of_nil in Hin. }
  destruct (HI a Hia) as (Hoa & Hota & Hlfl & Hod & Htimes).
  split_and!; try done.
  - rewrite Hod. destruct (Agent._orderedDelivery a); lia.
  - intros h dt r Hph Hnot Hle.
    destruct (update_events a h dt r) as (es & Hlog & Hall & Hcnt & _).
    assert (Hon : orders_now a h = true).
    { unfold orders_now. rewrite Hph, Hoa, Hnot, Hota. simpl. by apply Qle_bool_iff. }
    rewrite Hon in Hcnt. rewrite Hnot in Hod.
    rewrite Hlog, count_event_app, Hod, Hcnt. split; [done |].
    intros en Hin Hev. apply elem_of_app in Hin as [Hin | Hin].
    + by destruct (count_event_zero _ _ en Hod Hin).
    + rewrite Forall_forall in Hall. by destruct (Hall en Hin).
Qed.

(** Time order of the logs along a run (shared by the two theorems on
    timestamps below). *)
Lemma run_logs_sorted (c : City) (now0 : Q) (shuffled : list cell)
    (rs : nat -> Simulation.spawn) (frames : list Simulation.frame) (i : nat)
    (a : Agent.t) :
  let s0 := Simulation.start (Simulation.generateCity c) now0 shuffled rs in
  ascending (frame_hours s0 frames) ->
  Simulation.agents (Simulation.run s0 frames) !! i = Some a ->
  log_sorted (Agent.log a).
Proof.
  intros s0 Hasc Hia.
  destruct (start_spec c now0 shuffled rs) as (pool & Hag & Hdr).
  fold s0 in Hag, Hdr.
  set (Inv := fun (h : Q) (agents : list Agent.t) (_ : list DeliveryDriver.t) =>
    forall j b, agents !! j = Some b -> sorted_upto h b).
  assert (Hinit : forall h, Inv h (Simulation.agents s0) (Simulation.drivers s0)).
  { intros h j b Hb. rewrite Hag in Hb.
    destruct (spawn_agents_lookup _ _ _ _ _ _ Hb) as (hm & wp & ls & e & ->).
    split; simpl; [| done]. intros k l ek el _ Hk. discriminate. }
  assert (HI : exists h, Inv h (Simulation.agents (Simulation.run s0 frames))
                               (Simulation.drivers (Simulation.run s0 frames))).
  { destruct frames as [| f frames]; [by exists 0%Q; apply Hinit |].
    apply (run_invariant_hours Inv) with (h0 := Simulation.simHours s0 (Simulation.now f)).
    - intros h h' agents ds Hinv Hle j b Hb. destruct (Hinv j b Hb) as [Hs Hbd].
      split; [done |]. eapply Forall_impl; [exact Hbd |].
      intros en Hen. simpl in *. eapply Qle_trans; eassumption.
    - intros s h dt rnd Hinv j b Hb.
      destruct (tick_agent_calls _ _ _ _ _ _ Hb) as (a1 & cs & Hsa & -> & Hall).
      apply sorted_upto_calls; [| by eapply Hinv].
      apply Forall_cons. split; [done |].
      eapply Forall_impl; [exact Hall |]. by intros c0 (d & _ & _ & _ & ->).
    - simpl in Hasc |- *. split; [apply Qle_refl | done].
    - apply Hinit. }
  destruct HI as [h HI]. by destruct (HI i a Hia).
Qed.

(** C10.  When the simulated hours of the frames of a run never go back,
    the timestamps of every agent's log are in non-decreasing order, the
    entries written by its courier included. *)
Theorem log_timestamps_nondecreasing (c : City) (now0 : Q) (shuffled : list cell)
    (rs : nat -> Simulation.spawn) (frames : list Simulation.frame) (i : nat)
    (a : Agent.t) :
  let s0 := Simulation.start (Simulation.generateCity c) now0 shuffled rs in
  ascending (frame_hours s0 frames) ->
  Simulation.agents (Simulation.run s0 frames) !! i = Some a ->
  forall k j ek ej, (k <= j)%nat ->
    Agent.log a !! k = Some ek -> Agent.log a !! j = Some ej ->
    (Agent.time ek <= Agent.time ej)%Q.
Proof.
  intros s0 Hasc Hia. exact (run_logs_sorted c now0 shuffled rs frames i a Hasc Hia).
Qed.

(** *** Couriers *)

(** C5 (as amended).  A courier created with a route of more than one cell
    waits, and its departure time is [max(0, lunchStart - travel)], where
    [travel] is the hop count of the route divided by the courier's speed
    and multiplied by the simulated hours per real second: it is
    [lunchStart - travel] when the travel time does not exceed [lunchStart],
    and 0 otherwise. *)
Theorem courier_departure_time (eatery business : cell) (agent : nat) (a : Agent.t)
    (city : City) (simHoursPerSec r_speed ls : Q) (l : list cell) :
  findPath city eatery.1 eatery.2 business.1 business.2 = Some l ->
  (1 < length l)%nat -> Agent.lunchStart a = Fin ls ->
  let d := DeliveryDriver.constructor eatery business agent a city simHoursPerSec r_speed in
  let travel := (Qz (Z.of_nat (hops l)) / DeliveryDriver.speed d * simHoursPerSec)%Q in
  DeliveryDriver.phase_ d = DeliveryDriver.waiting /\
  DeliveryDriver.departureTime d = Fin (Math_max 0 (ls - travel)) /\
  ((travel <= ls)%Q -> DeliveryDriver.departureTime d = Fin (ls - travel)%Q) /\
  (~ (travel <= ls)%Q -> DeliveryDriver.departureTime d = Fin 0).
Proof.
  intros Hpath Hlen Hls d travel.
  assert (Hph : DeliveryDriver.phase_ d = DeliveryDriver.waiting).
  { unfold d, DeliveryDriver.constructor. simpl. rewrite Hpath.
    by rewrite bool_decide_eq_true_2. }
  assert (Hdep : DeliveryDriver.departureTime d = Fin (Math_max 0 (ls - travel))).
  { unfold travel, d, DeliveryDriver.constructor. simpl. rewrite Hpath, Hls.
    by rewrite bool_decide_eq_true_2. }
  split_and!; try done.
  - intros Hle. rewrite Hdep. unfold Math_max.
    destruct (Qle_bool 0 (ls - travel)) eqn:Hq; [done |].
    exfalso. apply Qle_minus_iff in Hle. apply Qle_bool_iff in Hle.
    unfold Qminus in Hq. congruence.
  - intros Hgt. rewrite Hdep. unfold Math_max.
    destruct (Qle_bool 0 (ls - travel)) eqn:Hq; [| done].
    exfalso. apply Hgt. apply Qle_minus_iff. by apply Qle_bool_iff.
Qed.

Lemma constructor_not_delivering (eatery business : cell) (agent : nat) (a : Agent.t)
    (city : City) (simHoursPerSec r_speed : Q) :
  DeliveryDriver.phase_
    (DeliveryDriver.constructor eatery business agent a city simHoursPerSec r_speed)
  <> DeliveryDriver.delivering.
Proof.
  unfold DeliveryDriver.constructor. simpl.
  by destruct (findPath _ _ _ _ _) as [l |]; [destruct (bool_decide _) |].
Qed.

(** Delivery entries stay justified by a departure time [S] allows. *)
Lemma delivery_inv_calls (S : Q -> Prop) (h : Q) (cs : list agent_call) :
  forall b,
  (forall en, en ∈ Agent.log b -> is_delivery en = true ->
     exists t, S t /\ (t <= Agent.time en)%Q) ->
  Forall (fun c => (exists dt r, c = Updated h dt r) \/
                   (exists name t, c = Delivered h name /\ S t /\ (t <= h)%Q)) cs ->
  forall en, en ∈ Agent.log (fold_left apply_call cs b) -> is_delivery en = true ->
    exists t, S t /\ (t <= Agent.time en)%Q.
Proof.
  induction cs as [| c cs IH]; intros b Hb Hcs; [done |].
  apply Forall_cons in Hcs as [Hc Hcs]. simpl. apply IH; [| done].
  intros en Hin Hdel.
  destruct (apply_call_log b c) as (_ & es & Hlog & _ & Hkind).
  rewrite Hlog in Hin. apply elem_of_app in Hin as [Hin | Hin]; [by apply Hb |].
  destruct Hc as [(dt & r & ->) | (name & t & -> & HS & Hle)].
  - destruct Hkind as (Hnd & _). rewrite Forall_forall in Hnd.
    rewrite (Hnd en Hin) in Hdel. discriminate.
  - destruct Hkind as (-> & _). apply list_elem_of_singleton in Hin. subst en.
    exists t. done.
Qed.

(** C6 (as amended).  In a run whose hours never go back, every delivery
    entry in an agent's log is stamped with an hour that is not before the
    departure time of a courier of that agent, and not before the timestamp
    of any "Ordered delivery" entry that precedes it in the log.  There is
    no upper bound: the entry carries the hour of the tick on which the
    courier arrives. *)
Theorem delivery_timestamp_bounds (c : City) (now0 : Q) (shuffled : list cell)
    (rs : nat -> Simulation.spawn) (frames : list Simulation.frame) (i : nat)
    (a : Agent.t) (en : Agent.entry) :
  let s0 := Simulation.start (Simulation.generateCity c) now0 shuffled rs in
  ascending (frame_hours s0 frames) ->
  Simulation.agents (Simulation.run s0 frames) !! i = Some a ->
  en ∈ Agent.log a -> is_delivery en = true ->
  (exists d t, d ∈ Simulation.drivers (Simulation.run s0 frames) /\
     DeliveryDriver.agent d = i /\ DeliveryDriver.departureTime d = Fin t /\
     (t <= Agent.time en)%Q) /\
  (forall k j eo, (k <= j)%nat ->
     Agent.log a !! k = Some eo -> Agent.log a !! j = Some en ->
     Agent.event eo = "Ordered delivery"%string ->
     (Agent.time eo <= Agent.time en)%Q).
Proof.
  intros s0 Hasc Hia Hen Hdel. split.
  2: { intros k j eo Hkj Hk Hj _.
       exact (run_logs_sorted c now0 shuffled rs frames i a Hasc Hia k j eo en Hkj Hk Hj). }
  destruct (start_spec c now0 shuffled rs) as (pool & Hag & Hdr).
  fold s0 in Hag, Hdr.
  set (Inv := fun (h : Q) (agents : list Agent.t) (ds : list DeliveryDriver.t) =>
    (forall d, d ∈ ds -> DeliveryDriver.phase_ d = DeliveryDriver.delivering ->
       exists t, DeliveryDriver.departureTime d = Fin t /\ (t <= h)%Q) /\
    (forall j b en, agents !! j = Some b -> en ∈ Agent.log b -> is_delivery en = true ->
       exists t, (exists d, d ∈ ds /\ DeliveryDriver.agent d = j /\
                    DeliveryDriver.departureTime d = Fin t) /\
                 (t <= Agent.time en)%Q)).
  assert (Hinit : forall h, Inv h (Simulation.agents s0) (Simulation.drivers s0)).
  { intros h. split.
    - intros d Hin Hph. rewrite Hdr in Hin.
      destruct (spawn_drivers_spec _ _ _ _ _ Hin) as (j & b & e & _ & _ & _ & _ & ->).
      by destruct (constructor_not_delivering _ _ _ _ _ _ _ Hph).
    - intros j b en0 Hb Hin. rewrite Hag in Hb.
      destruct (spawn_agents_lookup _ _ _ _ _ _ Hb) as (hm & wp & ls & e & ->).
      simpl in Hin. by apply elem_of_nil in Hin. }
  assert (HI : exists h, Inv h (Simulation.agents (Simulation.run s0 frames))
                               (Simulation.drivers (Simulation.run s0 frames))).
  { destruct frames as [| f frames]; [by exists 0%Q; apply Hinit |].
    apply (run_invariant_hours Inv) with (h0 := Simulation.simHours s0 (Simulation.now f)).
    - intros h h' agents ds [H1 H2] Hle. split; [| done].
      intros d Hin Hph. destruct (H1 d Hin Hph) as (t & Ht & Hth).
      exists t. split; [done |]. eapply Qle_trans; eassumption.
    - intros s h dt rnd [H1 H2].
      destruct (tick_spec s h dt rnd) as (Hds & _).
      assert (Hkeep : forall d, d ∈ Simulation.drivers s ->
                exists d', d' ∈ Simulation.drivers (Simulation.tick s h dt rnd) /\
                  DeliveryDriver.agent d' = DeliveryDriver.agent d /\
                  DeliveryDriver.departureTime d' = DeliveryDriver.departureTime d).
      { intros d Hin. exists (courier_step d h dt).
        destruct (courier_step_frame d h dt) as (Ha & Hd & _).
        split; [| done]. rewrite Hds.
        apply list_elem_of_fmap. by exists d. }
      split.
      + rewrite Hds. intros d' Hin Hph.
        apply list_elem_of_fmap in Hin as (d & -> & Hin).
        destruct (courier_step_frame d h dt) as (_ & Hd & Hwhy). rewrite Hd.
        destruct (Hwhy Hph) as [Hdel0 | [_ Hgo]].
        * by apply H1.
        * destruct (DeliveryDriver.departureTime d) as [t |]; [| discriminate].
          exists t. split; [done |]. by apply Qle_bool_iff.
      + intros j b en0 Hb Hin0 Hdel0.
        destruct (tick_agent_calls _ _ _ _ _ _ Hb) as (b0 & cs & Hsb & -> & Hall).
        destruct (delivery_inv_calls
                    (fun t => exists d, d ∈ Simulation.drivers s /\
                                DeliveryDriver.agent d = j /\
                                DeliveryDriver.departureTime d = Fin t)
                    h (Updated h dt (rnd j) :: cs) b0) with (en := en0)
          as (t & (d & Hd & Hdj & Hdt) & Hle); try done.
        * intros en1 Hin1 Hdel1. by eapply H2.
        * apply Forall_cons. split; [left; by eexists _, _ |].
          eapply Forall_impl; [exact Hall |].
          intros c0 (d & Hd & Hph & Hdj & ->). right.
          destruct (H1 d Hd Hph) as (t & Ht & Hth).
          exists (DeliveryDriver.eateryName d), t. split_and!; try done.
          by exists d.
        * destruct (Hkeep d Hd) as (d' & Hd' & Ha' & Hdep').
          exists t. split; [| done]. exists d'. split_and!; congruence.
    - simpl in Hasc |- *. split; [apply Qle_refl | done].
    - apply Hinit. }
  destruct HI as [h [_ H2]].
  destruct (H2 i a en Hia Hen Hdel) as (t & (d & Hd & Hdi & Hdt) & Hle).
  by exists d, t.
Qed.

(** ** The theorems on the scenarios, and where the document's wording
    does not hold *)

Import Scenario.

Lemma findPath_shortest_route_witness :
  in_bounds city_row (0, 0) /\ in_bounds city_row (2, 0) /\
  exists r, findPath_fuel city_row 0 0 2 0 = Some r /\
    match r with
    | Some p =>
        head p = Some (0, 0) /\ last p = Some (2, 0) /\ chain p /\
        Forall (fun q => q = (0, 0) \/ q = (2, 0) \/ road city_row q) p /\
        forall p', is_route city_row (0, 0) (2, 0) p' -> (hops p <= hops p')%nat
    | None => forall p', ~ is_route city_row (0, 0) (2, 0) p'
    end.
Proof.
  split_and!; [| | apply (findPath_shortest_route city_row 0 0 2 0)];
    unfold in_bounds; simpl; lia.
Defined.

Lemma findPath_deterministic_symmetric_witness :
  in_bounds city_row (0, 0) /\ in_bounds city_row (2, 0) /\
  findPath_fuel city_row 0 0 2 0 = Some (findPath city_row 0 0 2 0) /\
  forall p p',
    findPath city_row 0 0 2 0 = Some p -> findPath city_row 2 0 0 0 = Some p' ->
    hops p = hops p'.
Proof.
  split_and!; [| | apply (findPath_deterministic_symmetric city_row 0 0 2 0)
                 | apply (findPath_deterministic_symmetric city_row 0 0 2 0)];
    unfold in_bounds; simpl; lia.
Defined.

(** C2, counterexample.  The agent of [city_island] is considering
    leisure; at 14:00 no route to its leisure spot is found and [update]
    takes it to [at_home_evening]: the phase has changed, and the design's
    graph has no edge from considering-leisure to evening-at-home.  And the
    call that brings it home from work takes it from commuting-home to
    considering-leisure, which the design reaches by two edges. *)
Lemma considering_leisure_to_evening :
  (let a := considering in
   let a' := Agent.update a 14 (1 # 60) 0 in
   Agent.phase_ a = Agent.at_home_considering_leisure /\
   Agent.phase_ a' = Agent.at_home_evening /\
   Design.edge (Design.of_phase (Agent.phase_ a)) (Design.of_phase (Agent.phase_ a'))
   = false) /\
  (let a := heading_home in
   let a' := Agent.update a (131 # 10) 1 0 in
   Agent.phase_ a = Agent.commuting_home_from_work /\
   Agent.phase_ a' = Agent.at_home_considering_leisure /\
   Design.edge (Design.of_phase (Agent.phase_ a)) (Design.of_phase (Agent.phase_ a'))
   = false).
Proof.
  cbv zeta. split_and!; vm_compute; reflexivity.
Qed.

(** C3, counterexample.  The agent of [city_row] is on the road tile (3, 0)
    on its way to lunch when the tick of 13:00 (its work end) sends it home;
    no route from (3, 0) to its home exists, and the tick leaves it on its
    home cell (0, 0), in phase [at_home_evening]. *)
Lemma no_route_home_moves_agent :
  let a := on_lunch_road in
  let res := Agent.update_calls a 13 (1 # 10) 0 in
  res.2 = [mkCall (3, 0) (0, 0) None] /\
  Agent.phase_ a = Agent.commuting_to_lunch /\
  (Agent.x a == 3)%Q /\ (Agent.y a == 0)%Q /\
  (Agent.x res.1 == 0)%Q /\ (Agent.y res.1 == 0)%Q /\
  ~ (Agent.x res.1 == Agent.x a)%Q /\
  Agent.phase_ res.1 = Agent.at_home_evening.
Proof.
  cbv zeta. split_and!; try (vm_compute; reflexivity).
  intros H. vm_compute in H. discriminate.
Qed.

Lemma route_not_found_effect_witness :
  let a := on_lunch_road in
  let c := mkCall (3, 0) (0, 0) None in
  c ∈ (Agent.update_calls a 13 (1 # 10) 0).2 /\ call_result c = None /\
  travelling (Agent.phase_ (Agent.update a 13 (1 # 10) 0)) = false.
Proof.
  cbv zeta.
  assert (Hc : mkCall (3, 0) (0, 0) None ∈ (Agent.update_calls on_lunch_road 13 (1 # 10) 0).2).
  { replace (Agent.update_calls on_lunch_road 13 (1 # 10) 0).2
      with [mkCall (3, 0) (0, 0) None] by (vm_compute; reflexivity).
    by apply list_elem_of_singleton. }
  split_and!; [exact Hc | reflexivity |].
  exact (proj1 (route_not_found_effect on_lunch_road 13 (1 # 10) 0 _ Hc eq_refl)).
Defined.

Lemma update_phase_step_witness :
  let res := Agent.update_calls considering 14 (1 # 60) 0 in
  (exists c, c ∈ res.2 /\ call_result c = None) /\
  shortcut (Agent.phase_ considering) (Agent.phase_ res.1) = true /\
  (Agent.phase_ res.1 = Agent.phase_ considering \/
   Design.edge_through_arrival (Design.of_phase (Agent.phase_ considering))
     (Design.of_phase (Agent.phase_ res.1)) = true \/
   (exists c, c ∈ res.2 /\ call_result c = None) /\
   shortcut (Agent.phase_ considering) (Agent.phase_ res.1) = true).
Proof.
  cbv zeta. split_and!; [| vm_compute; reflexivity
                         | exact (update_phase_step considering 14 (1 # 60) 0)].
  exists (mkCall (0, 0) (4, 0) None). split; [| reflexivity].
  replace (Agent.update_calls considering 14 (1 # 60) 0).2
    with [mkCall (0, 0) (4, 0) None] by (vm_compute; reflexivity).
  by apply list_elem_of_singleton.
Defined.

(** C7, counterexample.  The agent [Cases.homecomer] wants leisure, has a
    leisure spot, a leisure of [1 + 2^-51] hours and its curfew at 19:00.
    The tick of 17:00 brings it home: [17 + 0.5 + leisureDuration + 0.5] is
    after curfew, by [2^-51] hours, yet the agent goes on to
    [at_home_considering_leisure], because the sum the code compares with
    [curfew] is rounded to the double 19. *)
Lemma leisure_after_curfew_considered :
  let a := Cases.homecomer in
  let a' := Agent.update a 17 30 0 in
  arrived_home_after_work a a' /\
  Agent.wantsLeisure a = true /\ Agent.leisureSpot a <> None /\
  (Agent.curfew a < 17 + (1 # 2) + Agent.leisureDuration a + (1 # 2))%Q /\
  Agent.phase_ a' = Agent.at_home_considering_leisure.
Proof.
  cbv zeta. split_and!.
  - split_and!; [intros H; vm_compute in H; discriminate
                | intros H; vm_compute in H; discriminate |].
    exists [], (Scenario.last_entry (Agent.update Cases.homecomer 17 30 0)).
    split; vm_compute; reflexivity.
  - vm_compute. reflexivity.
  - intros H. vm_compute in H. discriminate.
  - vm_compute. reflexivity.
  - vm_compute. reflexivity.
Qed.

Lemma leisure_decision_witness :
  let a := heading_home in
  let a' := Agent.update a (131 # 10) 1 0 in
  arrived_home_after_work a a' /\ leisure_fits a (131 # 10) /\
  Agent.phase_ a' = Agent.at_home_considering_leisure.
Proof.
  cbv zeta.
  assert (Ha : arrived_home_after_work heading_home
                 (Agent.update heading_home (131 # 10) 1 0)).
  { split_and!; [intros H; vm_compute in H; discriminate
                | intros H; vm_compute in H; discriminate |].
    exists [], (last_entry (Agent.update heading_home (131 # 10) 1 0)).
    split; vm_compute; reflexivity. }
  assert (Hf : leisure_fits heading_home (131 # 10)).
  { split_and!; [vm_compute; reflexivity
                | intros H; vm_compute in H; discriminate
                | vm_compute; discriminate]. }
  split_and!; [exact Ha | exact Hf |].
  exact (proj2 (proj1 (proj1 (leisure_decision heading_home (131 # 10) 1 0) Ha)) Hf).
Defined.

(** C4, counterexample.  In [city_far] the eatery is 23 tiles from the
    business, yet the agent created with a draw that makes it skip lunch
    goes through the whole day without logging "Ordered delivery".  In
    [city_commute] the agent takes lunch and its eatery is 25 tiles from its
    workplace; it reaches work at 10:00, after its lunch start of 9:30, and
    its "Ordered delivery" entry is stamped 10:08.  And in [city_far] with
    no frame between 68 s and the end of the day, the agent that takes lunch
    logs no "Ordered delivery". *)
Lemma far_eatery_without_lunch_no_order :
  (let s := Simulation.run far_start_no_lunch day_frames in
   let a := first_agent s in
   Simulation.agents s !! 0%nat = Some a /\
   Agent.workplace a = (2, 0) /\ Agent.eatery a = Some (25, 0) /\
   20 < Agent.chebyshev (Agent.workplace a) (25, 0) /\
   Agent.takesLunch a = false /\
   Simulation.running s = false /\
   count_event "Ordered delivery" (Agent.log a) = 0%nat) /\
  (let s := Simulation.run commute_start second_frames in
   let a := first_agent s in
   let en := entry_at a 4 in
   Simulation.agents s !! 0%nat = Some a /\
   Agent.workplace a = (150, 0) /\ Agent.eatery a = Some (175, 0) /\
   20 < Agent.chebyshev (Agent.workplace a) (175, 0) /\
   Agent.takesLunch a = true /\
   Agent.log a !! 4%nat = Some en /\
   Agent.event en = "Ordered delivery"%string /\
   Agent.lunchStart a = Fin (19 # 2) /\ ~ (Agent.time en < 19 # 2)%Q) /\
  (let s := Simulation.run far_start stalled_frames in
   let a := first_agent s in
   Simulation.agents s !! 0%nat = Some a /\
   Agent.eatery a = Some (25, 0) /\
   20 < Agent.chebyshev (Agent.workplace a) (25, 0) /\
   Agent.takesLunch a = true /\
   Simulation.running s = false /\
   count_event "Ordered delivery" (Agent.log a) = 0%nat).
Proof.
  cbv zeta. split_and!; try (vm_compute; reflexivity).
  intros H. vm_compute in H. discriminate.
Qed.

Lemma far_eatery_orders_delivery_witness :
  Simulation.agents far_start !! 0%nat = Some resident_far /\
  Agent.takesLunch resident_far = true /\
  Agent.eatery resident_far = Some (25, 0) /\
  20 < Agent.chebyshev (Agent.workplace resident_far) (25, 0) /\
  Agent.ordersDelivery resident_far = true /\
  count_event "Left for lunch"
    (Agent.log (first_agent (Simulation.run far_start day_frames))) = 0%nat.
Proof.
  assert (H1 : Simulation.agents far_start !! 0%nat = Some resident_far)
    by (vm_compute; reflexivity).
  assert (H2 : Agent.takesLunch resident_far = true) by (vm_compute; reflexivity).
  assert (H3 : Agent.eatery resident_far = Some (25, 0)) by (vm_compute; reflexivity).
  assert (H4 : 20 < Agent.chebyshev (Agent.workplace resident_far) (25, 0))
    by (vm_compute; reflexivity).
  destruct (far_eatery_orders_delivery city_far 0 [] rs0 0 resident_far (25, 0)
              H1 H2 H3 H4) as (ot & ls & Ho & _ & _ & _ & Hrun).
  split_and!; [exact H1 | exact H2 | exact H3 | exact H4 | exact Ho |].
  refine (proj1 (Hrun day_frames _ _)). vm_compute; reflexivity.
Defined.

(** C5, counterexample.  In [city_long] the courier's route has 499 steps;
    at speed 7 and 24/180 simulated hours per second the trip takes longer
    than the 9.5 hours to the agent's lunch, and the departure time is 0,
    not the (negative) difference. *)
Lemma long_route_departure_is_clamped :
  let d := first_driver long_start in
  let a := first_agent long_start in
  exists l,
    Simulation.drivers long_start !! 0%nat = Some d /\
    Simulation.agents long_start !! 0%nat = Some a /\
    DeliveryDriver.agent d = 0%nat /\
    findPath city_long 0 0 499 0 = Some l /\ hops l = 499%nat /\
    Agent.lunchStart a = Fin (19 # 2) /\
    DeliveryDriver.departureTime d = Fin 0 /\
    ~ (0 == (19 # 2) - Qz 499 / DeliveryDriver.speed d * (24 # 180))%Q.
Proof.
  cbv zeta. exists (default [] (findPath city_long 0 0 499 0)).
  split_and!; try (vm_compute; reflexivity).
  intros H. vm_compute in H. discriminate.
Qed.

Lemma courier_departure_time_witness :
  let d := DeliveryDriver.constructor (25, 0) (2, 0) 0 resident_far city_far (24 # 180) 0 in
  let travel := (Qz (Z.of_nat (hops far_route)) / DeliveryDriver.speed d * (24 # 180))%Q in
  findPath city_far 25 0 2 0 = Some far_route /\ (1 < length far_route)%nat /\
  Agent.lunchStart resident_far = Fin (19 # 2) /\
  DeliveryDriver.phase_ d = DeliveryDriver.waiting /\
  DeliveryDriver.departureTime d = Fin (Math_max 0 ((19 # 2) - travel)).
Proof.
  cbv zeta.
  assert (H1 : findPath city_far (25, 0).1 (25, 0).2 (2, 0).1 (2, 0).2 = Some far_route)
    by (vm_compute; reflexivity).
  assert (H2 : (1 < length far_route)%nat) by (vm_compute; lia).
  assert (H3 : Agent.lunchStart resident_far = Fin (19 # 2)) by (vm_compute; reflexivity).
  destruct (courier_departure_time (25, 0) (2, 0) 0 resident_far city_far
              (24 # 180) 0 (19 # 2) far_route H1 H2 H3) as (Hw & Hd & _).
  split_and!; [exact H1 | exact H2 | exact H3 | exact Hw | exact Hd].
Defined.

(** C6, counterexample.  In [city_far] the frame at 83 s comes 15 s after
    the one before it (the hours of the frames never go back); the courier,
    whose phase is [done] at the end, delivers in that frame, at hour
    11.07, after the agent's lunch window has closed at 10.  In
    [city_commute], with a frame every second, the courier delivers at 9:36
    while the agent is still on its way to work, and the agent's
    "Ordered delivery" entry, written once it is at work, is stamped 10:08. *)
Lemma late_tick_delivery_after_lunch_end :
  (let s := Simulation.run far_start late_frames in
   let a := first_agent s in
   let d := first_driver s in
   let en := last_entry a in
   ascending (frame_hours far_start late_frames) /\
   Simulation.agents s !! 0%nat = Some a /\
   Simulation.drivers s !! 0%nat = Some d /\
   DeliveryDriver.agent d = 0%nat /\
   DeliveryDriver.phase_ d = DeliveryDriver.done /\
   last (Agent.log a) = Some en /\
   Agent.event en = "Delivery by Eatery"%string /\
   exists le, Agent.lunchEnd a = Fin le /\ (le == 10)%Q /\ ~ (Agent.time en <= le)%Q) /\
  (let s := Simulation.run commute_start second_frames in
   let a := first_agent s in
   let d := first_driver s in
   ascending (frame_hours commute_start second_frames) /\
   Simulation.agents s !! 0%nat = Some a /\
   Simulation.drivers s !! 0%nat = Some d /\
   DeliveryDriver.agent d = 0%nat /\
   DeliveryDriver.phase_ d = DeliveryDriver.done /\
   Agent.log a !! 2%nat = Some (entry_at a 2) /\
   Agent.event (entry_at a 2) = "Delivery by Eatery"%string /\
   Agent.log a !! 4%nat = Some (entry_at a 4) /\
   Agent.event (entry_at a 4) = "Ordered delivery"%string /\
   count_event "Ordered delivery" (Agent.log a) = 1%nat /\
   ~ (Agent.time (entry_at a 4) <= Agent.time (entry_at a 2))%Q).
Proof.
  cbv zeta. split_and!; try (vm_compute; reflexivity).
  - vm_compute. repeat split; discriminate.
  - exists (80 # 8)%Q. split_and!; try (vm_compute; reflexivity).
    intros H. vm_compute in H. by apply H.
  - vm_compute. repeat split; discriminate.
  - intros H. vm_compute in H. by apply H.
Qed.

Lemma delivery_timestamp_bounds_witness :
  let s := Simulation.run far_start late_frames in
  let a := first_agent s in
  let en := last_entry a in
  ascending (frame_hours far_start late_frames) /\
  Simulation.agents s !! 0%nat = Some a /\
  en ∈ Agent.log a /\ is_delivery en = true /\
  exists d t, d ∈ Simulation.drivers s /\ DeliveryDriver.agent d = 0%nat /\
    DeliveryDriver.departureTime d = Fin t /\ (t <= Agent.time en)%Q.
Proof.
  cbv zeta.
  assert (H1 : ascending (frame_hours far_start late_frames))
    by (vm_compute; repeat split; discriminate).
  assert (H2 : Simulation.agents (Simulation.run far_start late_frames) !! 0%nat
               = Some (first_agent (Simulation.run far_start late_frames)))
    by (vm_compute; reflexivity).
  assert (H3 : last_entry (first_agent (Simulation.run far_start late_frames))
               ∈ Agent.log (first_agent (Simulation.run far_start late_frames))).
  { apply (list_elem_of_lookup_2 _ 4%nat). vm_compute; reflexivity. }
  assert (H4 : is_delivery (last_entry (first_agent (Simulation.run far_start late_frames)))
               = true) by (vm_compute; reflexivity).
  split_and!; [exact H1 | exact H2 | exact H3 | exact H4 |].
  exact (proj1 (delivery_timestamp_bounds city_far 0 [] rs0 late_frames 0 _ _ H1 H2 H3 H4)).
Defined.

Lemma no_lunch_no_delivery_witness :
  Simulation.agents far_start_no_lunch !! 0%nat = Some resident_far_no_lunch /\
  Agent.takesLunch resident_far_no_lunch = false /\
  Agent.ordersDelivery resident_far_no_lunch = false /\
  count_event "Ordered delivery"
    (Agent.log (first_agent (Simulation.run far_start_no_lunch day_frames))) = 0%nat.
Proof.
  assert (H1 : Simulation.agents far_start_no_lunch !! 0%nat = Some resident_far_no_lunch)
    by (vm_compute; reflexivity).
  assert (H2 : Agent.takesLunch resident_far_no_lunch = false) by (vm_compute; reflexivity).
  destruct (no_lunch_no_delivery city_far 0 [] rs_no_lunch 0 resident_far_no_lunch H1 H2)
    as (Ho & Hrun).
  split_and!; [exact H1 | exact H2 | exact Ho |].
  refine (proj2 (Hrun day_frames) _ _). vm_compute; reflexivity.
Defined.

Lemma log_timestamps_nondecreasing_witness :
  let a := first_agent (Simulation.run far_start late_frames) in
  ascending (frame_hours far_start late_frames) /\
  Simulation.agents (Simulation.run far_start late_frames) !! 0%nat = Some a /\
  forall k j ek ej, (k <= j)%nat ->
    Agent.log a !! k = Some ek -> Agent.log a !! j = Some ej ->
    (Agent.time ek <= Agent.time ej)%Q.
Proof.
  cbv zeta.
  assert (H1 : ascending (frame_hours far_start late_frames))
    by (vm_compute; repeat split; discriminate).
  assert (H2 : Simulation.agents (Simulation.run far_start late_frames) !! 0%nat
               = Some (first_agent (Simulation.run far_start late_frames)))
    by (vm_compute; reflexivity).
  split_and!; [exact H1 | exact H2 |].
  exact (log_timestamps_nondecreasing city_far 0 [] rs0 late_frames 0 _ H1 H2).
Defined.

(** * Further properties of the code *)

(** ** Router: shape of the returned path *)

(** Cutting the part of a sequence between two positions. *)
Lemma lookup_cut {A} (p : list A) (i j k : nat) :
  (i < j)%nat -> (j < length p)%nat ->
  (take (S i) p ++ drop (S j) p) !! k
  = if decide (k <= i)%nat then p !! k else p !! (k + (j - i))%nat.
Proof.
  intros Hij Hj. destruct (decide (k <= i)%nat) as [Hk | Hk].
  - rewrite lookup_app_l by (rewrite length_take; lia).
    apply lookup_take_lt. lia.
  - rewrite lookup_app_r by (rewrite length_take; lia).
    rewrite length_take, lookup_drop. f_equal. lia.
Qed.

Lemma is_route_cut (c : City) (s e : cell) (p : list cell) (i j : nat) (x : cell) :
  is_route c s e p -> (i < j)%nat -> p !! i = Some x -> p !! j = Some x ->
  is_route c s e (take (S i) p ++ drop (S j) p) /\
  (length (take (S i) p ++ drop (S j) p) < length p)%nat.
Proof.
  intros (Hh & Hl & Hc & Hf) Hij Hi Hj.
  assert (Hjl : (j < length p)%nat) by by eapply lookup_lt_Some.
  assert (Hlen : length (take (S i) p ++ drop (S j) p)
                 = (S i + (length p - S j))%nat).
  { rewrite length_app, length_take, length_drop. lia. }
  split; [| lia]. split_and!.
  - rewrite head_lookup, lookup_cut by done.
    rewrite decide_True by lia. by rewrite <- head_lookup.
  - rewrite last_lookup, Hlen, lookup_cut by done.
    rewrite last_lookup in Hl.
    destruct (decide (pred (S i + (length p - S j)) <= i)%nat) as [Hk | Hk].
    + replace (pred (S i + (length p - S j))) with i by lia.
      replace (pred (length p)) with j in Hl by lia. congruence.
    + rewrite <- Hl. f_equal. lia.
  - intros k a b Ha Hb. rewrite lookup_cut in Ha, Hb by done.
    destruct (decide (S k <= i)%nat) as [Hk | Hk].
    + rewrite decide_True in Ha by lia. by apply (Hc k).
    + destruct (decide (k <= i)%nat) as [Hk' | Hk'].
      * assert (k = i) as -> by lia.
        replace (S i + (j - i))%nat with (S j) in Hb by lia.
        apply (Hc j); congruence.
      * apply (Hc (k + (j - i))%nat); [done |].
        by replace (S (k + (j - i))) with (S k + (j - i))%nat by lia.
  - apply Forall_app. split.
    + by apply Forall_take.
    + by apply Forall_drop.
Qed.

(** A route that no route beats in length visits no cell twice. *)
Lemma shortest_route_NoDup (c : City) (s e : cell) (p : list cell) :
  is_route c s e p ->
  (forall p', is_route c s e p' -> (hops p <= hops p')%nat) -> NoDup p.
Proof.
  intros Hr Hmin. apply NoDup_alt. intros i j x Hi Hj.
  destruct (decide (i = j)) as [| Hne]; [done | exfalso].
  assert (Hcut : exists i' j', (i' < j')%nat /\ p !! i' = Some x /\ p !! j' = Some x).
  { destruct (decide (i < j)%nat); [exists i, j | exists j, i]; split_and!; (done || lia). }
  destruct Hcut as (i' & j' & Hlt & Hi' & Hj').
  destruct (is_route_cut c s e p i' j' x Hr Hlt Hi' Hj') as [Hr' Hlen].
  specialize (Hmin _ Hr'). unfold hops in Hmin.
  rewrite length_app, length_take in *.
  assert ((S i' <= length p)%nat) by (apply lookup_lt_Some in Hi'; lia).
  lia.
Qed.

Lemma road_in_bounds (c : City) (q : cell) : road c q -> in_bounds c q.
Proof.
  unfold road, getTile. destruct (out_of_bounds c q.1 q.2) eqn:Hb; [done |].
  intros _. by apply out_of_bounds_false in Hb.
Qed.

(** Distinct cells of the grid are at most [cols * rows]. *)
Lemma in_bounds_NoDup_length (c : City) (p : list cell) :
  NoDup p -> Forall (in_bounds c) p ->
  (length p <= Z.to_nat (cols c * rows c))%nat.
Proof.
  intros Hnd Hin.
  assert (Hk : NoDup (ckey c <$> p)).
  { apply NoDup_fmap_2_strong; [| done].
    intros a b Ha Hb Hab. rewrite Forall_forall in Hin.
    apply (ckey_inj c); [by apply out_of_bounds_false, Hin
                        | by apply out_of_bounds_false, Hin | done]. }
  assert (Hsub : ckey c <$> p ⊆+ seqZ 0 (cols c * rows c)).
  { apply NoDup_submseteq; [done |].
    intros k Hkin. apply list_elem_of_fmap in Hkin as (a & -> & Ha).
    rewrite Forall_forall in Hin.
    apply elem_of_seqZ. apply (ckey_range c). by apply out_of_bounds_false, Hin. }
  apply submseteq_length in Hsub. rewrite length_fmap, length_seqZ in Hsub. lia.
Qed.

(** X1.  Between two cells of the grid, a path returned by [findPath] stays
    inside the grid, visits no cell twice, and so has at most [cols * rows]
    cells. *)
Theorem findPath_simple_path (city : City) (sx sy ex ey : Z) (p : list cell) :
  in_bounds city (sx, sy) -> in_bounds city (ex, ey) ->
  findPath city sx sy ex ey = Some p ->
  Forall (in_bounds city) p /\ NoDup p /\
  (length p <= Z.to_nat (cols city * rows city))%nat.
Proof.
  intros Hs He Hp.
  destruct (findPath_spec city sx sy ex ey Hs He) as (r & _ & Hr & Hpost).
  rewrite Hp in Hr. subst r. destruct Hpost as [Hroute Hmin].
  assert (Hin : Forall (in_bounds city) p).
  { destruct Hroute as (_ & _ & _ & Hf). eapply Forall_impl; [exact Hf |].
    intros q [-> | [-> | Hq]]; [done | done | by apply road_in_bounds]. }
  assert (Hnd : NoDup p) by by eapply shortest_route_NoDup.
  split_and!; [done | done | by apply in_bounds_NoDup_length].
Qed.

Lemma adjacent_ne (a b : cell) : adjacent a b -> a <> b.
Proof.
  intros (d & Hd & ->) Heq. destruct a as [x y]. unfold step_to in Heq.
  simpl in Heq. injection Heq as Hx Hy.
  unfold dirs in Hd. repeat (apply elem_of_cons in Hd as [-> | Hd]); simpl in *;
    try lia. by apply elem_of_nil in Hd.
Qed.

(** X2.  Two neighbouring cells of the grid are joined directly, whatever
    their tiles: the path is the two cells. *)
Theorem findPath_neighbours (city : City) (a b : cell) :
  in_bounds city a -> in_bounds city b -> adjacent a b ->
  findPath city a.1 a.2 b.1 b.2 = Some [a; b].
Proof.
  destruct a as [ax ay], b as [bx by_]. simpl. intros Ha Hb Hadj.
  destruct (findPath_spec city ax ay bx by_ Ha Hb) as (r & _ & Hr & Hpost).
  rewrite Hr.
  assert (Hroute : is_route city (ax, ay) (bx, by_) [(ax, ay); (bx, by_)]).
  { split_and!; [done | done | |].
    2: { apply Forall_cons. split; [by left |]. apply Forall_singleton. right. by left. }
    intros [| [| i]] u v Hu Hv; simpl in *; try discriminate.
    injection Hu as <-. injection Hv as <-. done. }
  destruct r as [p |]; [| by destruct (Hpost _ Hroute)].
  destruct Hpost as [(Hh & Hl & _) Hmin].
  specialize (Hmin _ Hroute). unfold hops in Hmin. simpl in Hmin.
  apply adjacent_ne in Hadj.
  destruct p as [| u [| v [| w p]]]; simpl in *; try lia; try discriminate.
  - injection Hh as ->. injection Hl as Hl. congruence.
  - injection Hh as ->. injection Hl as ->. done.
Qed.

(** X3.  A target that touches neither a road tile nor the start cannot be
    reached, and a start that touches neither a road tile nor the target
    cannot be left: [findPath] returns [null]. *)
Theorem findPath_enclosed (city : City) (s e : cell) :
  in_bounds city s -> in_bounds city e -> s <> e ->
  (forall n, adjacent n e -> n <> s /\ ~ road city n) \/
  (forall n, adjacent s n -> n <> e /\ ~ road city n) ->
  findPath city s.1 s.2 e.1 e.2 = None.
Proof.
  destruct s as [sx sy], e as [ex ey]. simpl. intros Hs He Hne Hiso.
  destruct (findPath_spec city sx sy ex ey Hs He) as (r & _ & Hr & Hpost).
  rewrite Hr. destruct r as [p |]; [exfalso | done].
  destruct Hpost as [(Hh & Hl & Hc & Hf) _].
  rewrite Forall_forall in Hf.
  destruct p as [| u [| v p]]; simpl in *; [discriminate | |].
  { congruence. }
  injection Hh as ->.
  destruct Hiso as [Hiso | Hiso].
  - rewrite last_lookup in Hl. simpl in Hl.
    assert (Hpen : exists q, ((sx, sy) :: v :: p) !! length p = Some q).
    { apply lookup_lt_is_Some. simpl. lia. }
    destruct Hpen as [q Hq].
    assert (Hadj : adjacent q (ex, ey)).
    { apply (Hc (length p)); [done |]. exact Hl. }
    destruct (Hiso q Hadj) as [Hqs Hqr].
    destruct (Hf q) as [-> | [-> | Hroad]]; [by eapply list_elem_of_lookup_2 | done | | done].
    by apply adjacent_ne in Hadj.
  - assert (Hadj : adjacent (sx, sy) v) by by apply (Hc 0%nat).
    destruct (Hiso v Hadj) as [Hve Hvr].
    destruct (Hf v) as [-> | [-> | Hroad]];
      [by apply (list_elem_of_lookup_2 _ 1%nat) | | done | done].
    by apply adjacent_ne in Hadj.
Qed.

Lemma findPath_simple_path_witness :
  in_bounds Scenario.city_row (0, 0) /\ in_bounds Scenario.city_row (2, 0) /\
  findPath Scenario.city_row 0 0 2 0 = Some [(0, 0); (1, 0); (2, 0)] /\
  NoDup [(0, 0); (1, 0); (2, 0)].
Proof.
  assert (H1 : in_bounds Scenario.city_row (0, 0)) by (unfold in_bounds; simpl; lia).
  assert (H2 : in_bounds Scenario.city_row (2, 0)) by (unfold in_bounds; simpl; lia).
  assert (H3 : findPath Scenario.city_row 0 0 2 0 = Some [(0, 0); (1, 0); (2, 0)])
    by (vm_compute; reflexivity).
  split_and!; [done | done | done |].
  exact (proj1 (proj2 (findPath_simple_path Scenario.city_row 0 0 2 0 _ H1 H2 H3))).
Defined.

Lemma findPath_neighbours_witness :
  in_bounds Scenario.city_island (2, 0) /\ in_bounds Scenario.city_island (3, 0) /\
  adjacent (2, 0) (3, 0) /\
  findPath Scenario.city_island 2 0 3 0 = Some [(2, 0); (3, 0)].
Proof.
  assert (H1 : in_bounds Scenario.city_island (2, 0)) by (unfold in_bounds; simpl; lia).
  assert (H2 : in_bounds Scenario.city_island (3, 0)) by (unfold in_bounds; simpl; lia).
  assert (H3 : adjacent (2, 0) (3, 0)).
  { exists (1, 0). split; [| reflexivity]. unfold dirs. repeat constructor. }
  split_and!; [done | done | done |].
  exact (findPath_neighbours Scenario.city_island (2, 0) (3, 0) H1 H2 H3).
Defined.

Lemma findPath_enclosed_witness :
  in_bounds Scenario.city_island (0, 0) /\ in_bounds Scenario.city_island (4, 0) /\
  (forall n, adjacent n (4, 0) -> n <> (0, 0) /\ ~ road Scenario.city_island n) /\
  findPath Scenario.city_island 0 0 4 0 = None.
Proof.
  assert (H1 : in_bounds Scenario.city_island (0, 0)) by (unfold in_bounds; simpl; lia).
  assert (H2 : in_bounds Scenario.city_island (4, 0)) by (unfold in_bounds; simpl; lia).
  assert (H3 : forall n, adjacent n (4, 0) ->
                 n <> (0, 0) /\ ~ road Scenario.city_island n).
  { intros [nx ny] (d & Hd & He). unfold step_to in He. simpl in He.
    injection He as Hx Hy. unfold dirs in Hd.
    repeat (apply elem_of_cons in Hd as [-> | Hd]); simpl in *;
      try (by apply elem_of_nil in Hd).
    all: split; [intros [=]; lia |].
    all: match goal with
         | |- ~ road _ (?a, ?b) =>
             first [ replace a with 4 by lia; replace b with 1 by lia
                   | replace a with 4 by lia; replace b with (-1) by lia
                   | replace a with 5 by lia; replace b with 0 by lia
                   | replace a with 3 by lia; replace b with 0 by lia ]
         end; vm_compute; discriminate. }
  split_and!; [done | done | done |].
  refine (findPath_enclosed Scenario.city_island (0, 0) (4, 0) H1 H2 _ (or_introl H3)).
  intros [=].
Defined.

(** ** Movement along a path *)

Lemma Qz_S (n : nat) : (Qz (Z.of_nat (S n)) == Qz (Z.of_nat n) + 1)%Q.
Proof. unfold Qz. rewrite Nat2Z.inj_succ, <- Z.add_1_r, inject_Z_plus. reflexivity. Qed.

Lemma geq_true (h t : Q) : geq h t = true <-> (t <= h)%Q.
Proof. unfold geq. apply Qle_bool_iff. Qed.

Lemma geq_false (h t : Q) : geq h t = false <-> (h < t)%Q.
Proof.
  unfold geq. rewrite <- not_true_iff_false, Qle_bool_iff. split; intros H; lra.
Qed.

(** The [while] loop of [_moveAlongPath] moves whole tiles from the progress
    to the index: their sum is kept, the index stays on the path, and the
    loop ends at the last cell or with less than one tile of progress. *)
Lemma advance_spec (remaining : nat) :
  forall (i : nat) (m : Q),
  let r := advance remaining i m in
  (i <= r.1 <= i + remaining)%nat /\
  (Qz (Z.of_nat r.1) + r.2 == Qz (Z.of_nat i) + m)%Q /\
  (r.1 = (i + remaining)%nat \/ (r.2 < 1)%Q) /\
  ((r.1 < i + remaining)%nat -> (0 <= m)%Q -> (0 <= r.2)%Q).
Proof.
  induction remaining as [| n IH]; intros i m; simpl.
  - split_and!; [lia | lia | lra | left; lia | lia].
  - unfold advance; fold advance. destruct (geq m 1) eqn:Hg.
    + apply geq_true in Hg.
      destruct (IH (S i) (m - 1)%Q) as (Hr & Hsum & Hstop & Hpos).
      split_and!; [lia | lia | | |].
      * rewrite Hsum, Qz_S. lra.
      * destruct Hstop as [-> | Hlt]; [left; lia | by right].
      * intros Hlt Hm. apply Hpos; [lia | lra].
    + apply geq_false in Hg. simpl.
      split_and!; [lia | lia | lra | by right | done].
Qed.

(** The loop reaches the last cell exactly when the progress covers the
    hops that remain. *)
Lemma advance_arrives (remaining i : nat) (m : Q) :
  (0 < remaining)%nat ->
  ((advance remaining i m).1 = (i + remaining)%nat
   <-> (Qz (Z.of_nat remaining) <= m)%Q).
Proof.
  revert i m. induction remaining as [| n IH]; intros i m Hpos; [lia |].
  unfold advance; fold advance. destruct (geq m 1) eqn:Hg.
  - apply geq_true in Hg. destruct n as [| n].
    + simpl. change (Qz (Z.of_nat 1)) with 1%Q. split; [done | intros _; lia].
    + rewrite (Qz_S (S n)).
      specialize (IH (S i) (m - 1)%Q ltac:(lia)).
      split.
      * intros H. assert (H' : (advance (S n) (S i) (m - 1)).1 = (S i + S n)%nat) by lia.
        apply IH in H'. lra.
      * intros H. assert (H' : (Qz (Z.of_nat (S n)) <= m - 1)%Q) by lra.
        apply IH in H'. lia.
  - apply geq_false in Hg. simpl. split; [lia |].
    intros H. rewrite Qz_S in H.
    assert (0 <= Qz (Z.of_nat n))%Q.
    { unfold Qz. change 0%Q with (inject_Z 0). rewrite <- Zle_Qle. lia. }
    lra.
Qed.

Lemma cell_at_lookup (p : list cell) (i : nat) (c : cell) :
  p !! i = Some c -> cell_at p i = c.
Proof. intros H. unfold cell_at. by apply nth_lookup_Some with (d := (0, 0)) in H. Qed.

Lemma Math_min_lt (m : Q) : (m < 1)%Q -> Math_min m 1 = m.
Proof.
  intros H. unfold Math_min.
  destruct (Qle_bool m 1) eqn:Hb; [done |].
  apply not_true_iff_false in Hb. rewrite Qle_bool_iff in Hb. lra.
Qed.

(** What one call of [Agent._moveAlongPath] does on a path that is not yet
    finished. *)
Lemma moveAlongPath_spec (dt : Q) (a : Agent.t) (p : list cell) :
  Agent.path a = Some p -> (Agent.pathIndex a < length p - 1)%nat ->
  let total := (Agent.moveProgress a + Agent.speed a * dt)%Q in
  let remaining := Qz (Z.of_nat (length p - 1 - Agent.pathIndex a)) in
  let arrived := (Agent._moveAlongPath dt a).1 in
  let a' := (Agent._moveAlongPath dt a).2 in
  (arrived = true <-> (remaining <= total)%Q) /\
  (arrived = true ->
   Agent.path a' = None /\
   exists e, last p = Some e /\ Agent.x a' = Qz e.1 /\ Agent.y a' = Qz e.2) /\
  (arrived = false ->
   Agent.path a' = Some p /\
   (Agent.pathIndex a <= Agent.pathIndex a' < length p - 1)%nat /\
   (Qz (Z.of_nat (Agent.pathIndex a')) + Agent.moveProgress a'
    == Qz (Z.of_nat (Agent.pathIndex a)) + total)%Q /\
   (Agent.moveProgress a' < 1)%Q /\
   ((0 <= total)%Q -> (0 <= Agent.moveProgress a')%Q) /\
   exists curr next,
     p !! Agent.pathIndex a' = Some curr /\ p !! S (Agent.pathIndex a') = Some next /\
     Agent.x a' = (Qz curr.1 + (Qz next.1 - Qz curr.1) * Agent.moveProgress a')%Q /\
     Agent.y a' = (Qz curr.2 + (Qz next.2 - Qz curr.2) * Agent.moveProgress a')%Q).
Proof.
  intros Hp Hi. cbv zeta. unfold Agent._moveAlongPath. rewrite Hp.
  rewrite bool_decide_false by lia.
  pose proof (advance_spec (length p - 1 - Agent.pathIndex a) (Agent.pathIndex a)
                (Agent.moveProgress a + Agent.speed a * dt)) as Hadv.
  pose proof (advance_arrives (length p - 1 - Agent.pathIndex a) (Agent.pathIndex a)
                (Agent.moveProgress a + Agent.speed a * dt) ltac:(lia)) as Harr.
  destruct (advance _ _ _) as [i m]. cbv zeta in Hadv. simpl in Hadv, Harr.
  destruct Hadv as (Hr & Hsum & Hstop & Hpos).
  destruct (bool_decide (length p - 1 <= i)%nat) eqn:Hb.
  - apply bool_decide_eq_true in Hb. simpl.
    split_and!; [split; [intros _; apply Harr; lia | done] | | done].
    intros _. split; [done |].
    destruct (lookup_lt_is_Some_2 p (length p - 1)%nat ltac:(lia)) as [e He].
    exists e. rewrite last_lookup.
    replace (pred (length p)) with (length p - 1)%nat by lia.
    by rewrite (cell_at_lookup _ _ _ He).
  - apply bool_decide_eq_false in Hb. simpl.
    split_and!; [split; [done | intros H; apply Harr in H; lia] | done |].
    intros _. destruct Hstop as [-> | Hlt]; [lia |].
    split_and!; [done | lia | lia | done | done | intros Ht; apply Hpos; [lia | done] |].
    destruct (lookup_lt_is_Some_2 p i ltac:(lia)) as [curr Hc].
    destruct (lookup_lt_is_Some_2 p (S i) ltac:(lia)) as [next Hn].
    exists curr, next.
    rewrite (cell_at_lookup _ _ _ Hc), (cell_at_lookup _ _ _ Hn), Math_min_lt by done.
    done.
Qed.

(** X4.  [Agent._moveAlongPath] on a path that is not yet finished, for an
    agent with a progress, a speed and a time step that are not negative.
    When it reports arrival the agent stands on the last cell of the path
    and the path is cleared.  Otherwise the path is kept, the index has not
    gone back and is not the last one, the progress is at least 0 and below
    1, the two cells read are cells of the path, and the agent stands
    between them.  Either way phase, log and schedule are untouched.  (When
    arrival is reported is a matter of the sum the code accumulates; the
    statement does not depend on it.) *)
Theorem agent_move_outcome (dt : Q) (a : Agent.t) (p : list cell) :
  Agent.path a = Some p -> (Agent.pathIndex a < length p - 1)%nat ->
  (0 <= Agent.moveProgress a)%Q -> (0 <= Agent.speed a)%Q -> (0 <= dt)%Q ->
  let arrived := (Agent._moveAlongPath dt a).1 in
  let a' := (Agent._moveAlongPath dt a).2 in
  idle_fields a a' /\
  (arrived = true ->
   Agent.path a' = None /\
   exists e, last p = Some e /\ Agent.x a' = Qz e.1 /\ Agent.y a' = Qz e.2) /\
  (arrived = false ->
   Agent.path a' = Some p /\
   (Agent.pathIndex a <= Agent.pathIndex a' < length p - 1)%nat /\
   (0 <= Agent.moveProgress a' /\ Agent.moveProgress a' < 1)%Q /\
   exists curr next,
     p !! Agent.pathIndex a' = Some curr /\ p !! S (Agent.pathIndex a') = Some next /\
     lies_between (Qz curr.1) (Qz next.1) (Agent.x a') /\
     lies_between (Qz curr.2) (Qz next.2) (Agent.y a')).
Proof.
  intros Hp Hi Hm Hs Hdt. cbv zeta.
  destruct (moveAlongPath_spec dt a p Hp Hi) as (_ & Harr & Hstay).
  split; [apply moveAlongPath_frame |]. split; [exact Harr |].
  intros Hno. destruct (Hstay Hno) as (Hp' & Hidx & _ & Hlt & Hpos & curr & next & Hc & Hn & Hx & Hy).
  assert (Htot : (0 <= Agent.moveProgress a + Agent.speed a * dt)%Q).
  { pose proof (Qmult_le_0_compat _ _ Hs Hdt). lra. }
  specialize (Hpos Htot).
  split; [done |]. split; [done |]. split; [done |].
  exists curr, next. split; [done |]. split; [done |].
  set (m := Agent.moveProgress (Agent._moveAlongPath dt a).2) in *.
  assert (Hline : forall u v : Q, lies_between u v (u + (v - u) * m)).
  { intros u v. unfold lies_between.
    destruct (Qlt_le_dec v u) as [Hvu | Huv].
    - right. assert (0 <= (u - v) * m /\ (u - v) * m <= (u - v) * 1)%Q as [H1 H2].
      { split; [apply Qmult_le_0_compat; lra |].
        rewrite !(Qmult_comm (u - v)). apply Qmult_le_compat_r; lra. }
      split; lra.
    - left. assert (0 <= (v - u) * m /\ (v - u) * m <= (v - u) * 1)%Q as [H1 H2].
      { split; [apply Qmult_le_0_compat; lra |].
        rewrite !(Qmult_comm (v - u)). apply Qmult_le_compat_r; lra. }
      split; lra. }
  rewrite Hx, Hy. split; apply Hline.
Qed.

Lemma Qz_sub (a b : nat) :
  (b <= a)%nat -> (Qz (Z.of_nat (a - b)) == Qz (Z.of_nat a) - Qz (Z.of_nat b))%Q.
Proof.
  intros H. unfold Qz. rewrite Nat2Z.inj_sub by done.
  unfold Z.sub. rewrite inject_Z_plus, inject_Z_opp. reflexivity.
Qed.

(** One tick of an agent that is on its way to work. *)
Lemma commuting_to_work_step (a : Agent.t) (p : list cell) (h dt r : Q) :
  Agent.phase_ a = Agent.commuting_to_work ->
  Agent.path a = Some p -> (Agent.pathIndex a < length p - 1)%nat ->
  let covered := (Qz (Z.of_nat (Agent.pathIndex a)) + Agent.moveProgress a
                  + Agent.speed a * dt)%Q in
  let a' := Agent.update a h dt r in
  same_schedule a a' /\
  if Qle_bool (Qz (Z.of_nat (hops p))) covered then
    Agent.phase_ a' = Agent.at_work /\ Agent.state_ a' = Agent.S_working /\
    Agent.path a' = None /\
    (exists e, last p = Some e /\ Agent.x a' = Qz e.1 /\ Agent.y a' = Qz e.2) /\
    Agent.log a' = Agent.log a ++
      [Agent.mkEntry "Arrived work" h
         (getNameAt (Agent.city a) (Agent.workplace a).1 (Agent.workplace a).2)]
  else
    Agent.phase_ a' = Agent.commuting_to_work /\ Agent.path a' = Some p /\
    (Agent.pathIndex a <= Agent.pathIndex a' < length p - 1)%nat /\
    (Qz (Z.of_nat (Agent.pathIndex a')) + Agent.moveProgress a' == covered)%Q /\
    Agent.log a' = Agent.log a.
Proof.
  intros Hph Hp Hi. cbv zeta.
  destruct (moveAlongPath_spec dt a p Hp Hi) as (Hiff & Harr & Hstay).
  pose proof (moveAlongPath_frame dt a) as (Hsch & Hph' & Hlog & Hst & _).
  assert (Hrem : (Qz (Z.of_nat (length p - 1 - Agent.pathIndex a))
                  == Qz (Z.of_nat (hops p)) - Qz (Z.of_nat (Agent.pathIndex a)))%Q).
  { unfold hops. apply Qz_sub. lia. }
  unfold Agent.update, Agent.update_calls, Agent.when_arrived. rewrite Hph.
  destruct (Agent._moveAlongPath dt a) as [arrived a1]. simpl in *.
  destruct (Qle_bool _ _) eqn:Hb.
  - apply Qle_bool_iff in Hb.
    assert (arrived = true) as -> by (apply Hiff; lra).
    destruct (Harr eq_refl) as (Hnone & e & He & Hx & Hy). simpl.
    split; [unfold same_schedule in *; simpl; tauto |].
    split_and!; [done | done | done | by exists e |].
    rewrite Hlog. unfold Agent._nameAt. simpl.
    do 3 f_equal. destruct Hsch as (_ & _ & Hw & _ & _ & Hc & _). by rewrite Hw, Hc.
  - apply not_true_iff_false in Hb. rewrite Qle_bool_iff in Hb.
    assert (arrived = false) as ->.
    { destruct arrived; [| done]. exfalso. apply Hb.
      assert (Qz (Z.of_nat (length p - 1 - Agent.pathIndex a))
              <= Agent.moveProgress a + Agent.speed a * dt)%Q by by apply Hiff.
      lra. }
    destruct (Hstay eq_refl) as (Hsome & Hidx & Hsum & _).
    split; [done |]. split_and!; [congruence | done | lia | lia | rewrite Hsum; lra | done].
Qed.

(** X5.  The way to work.  However many calls of [update] an agent that
    is commuting to work receives, either it is still commuting, has logged
    nothing, keeps its path and has not gone back on it; or one of the
    calls has ended the commute, and that call put the agent on the last
    cell of the path, in phase [at_work], with "Arrived work" at the hour
    of that call as the one new entry of its log.  (Which call that is
    depends on the progress the code accumulates, rounded; the statement
    does not.) *)
Theorem commute_arrival (a : Agent.t) (p : list cell) (cs : list (Q * Q * Q)) :
  Agent.phase_ a = Agent.commuting_to_work ->
  Agent.path a = Some p -> (Agent.pathIndex a < length p - 1)%nat ->
  under_way Agent.commuting_to_work p a (Scenario.updates a cs) \/
  exists cs1 h dt r cs2,
    cs = cs1 ++ (h, dt, r) :: cs2 /\
    under_way Agent.commuting_to_work p a (Scenario.updates a cs1) /\
    let b := Agent.update (Scenario.updates a cs1) h dt r in
    Agent.phase_ b = Agent.at_work /\ Agent.state_ b = Agent.S_working /\
    Agent.path b = None /\
    (exists e, last p = Some e /\ Agent.x b = Qz e.1 /\ Agent.y b = Qz e.2) /\
    Agent.log b = Agent.log a ++
      [Agent.mkEntry "Arrived work" h
         (getNameAt (Agent.city a) (Agent.workplace a).1 (Agent.workplace a).2)].
Proof.
  revert a. induction cs as [| [[h dt] r] cs IH]; intros a Hph Hp Hi.
  - left. unfold under_way. simpl. split_and!; (done || lia).
  - destruct (commuting_to_work_step a p h dt r Hph Hp Hi) as [Hsch Hstep].
    destruct (Qle_bool _ _).
    + right. exists [], h, dt, r, cs. split; [done |]. split.
      * unfold under_way. simpl. split_and!; (done || lia).
      * cbv zeta. simpl. destruct Hstep as (H1 & H2 & H3 & H4 & H5). by split_and!.
    + destruct Hstep as (Hph1 & Hp1 & [Hidx Hi1] & _ & Hlog1).
      assert (Hcity : Agent.city (Agent.update a h dt r) = Agent.city a)
        by (destruct Hsch as (_ & _ & _ & _ & _ & Hs & _); exact Hs).
      assert (Hwork : Agent.workplace (Agent.update a h dt r) = Agent.workplace a)
        by (destruct Hsch as (_ & _ & Hs & _); exact Hs).
      change (Scenario.updates a (((h, dt), r) :: cs))
        with (Scenario.updates (Agent.update a h dt r) cs).
      destruct (IH (Agent.update a h dt r) Hph1 Hp1 Hi1) as
        [(Hu1 & Hu2 & Hu3 & Hu4) | (cs1 & h' & dt' & r' & cs2 & -> & (Hu1 & Hu2 & Hu3 & Hu4) & Hb)].
      * left. unfold under_way. split_and!; try done; [congruence | lia | lia].
      * right. exists (((h, dt), r) :: cs1), h', dt', r', cs2. split; [done |]. split.
        -- change (Scenario.updates a (((h, dt), r) :: cs1))
             with (Scenario.updates (Agent.update a h dt r) cs1).
           unfold under_way. split_and!; try done; [congruence | lia | lia].
        -- change (Scenario.updates a (((h, dt), r) :: cs1))
             with (Scenario.updates (Agent.update a h dt r) cs1).
           cbv zeta in *. destruct Hb as (H1 & H2 & H3 & H4 & H5).
           split_and!; try done. by rewrite H5, Hlog1, Hcity, Hwork.
Qed.

Lemma agent_move_outcome_witness :
  let a := Scenario.on_lunch_road in
  let p := [(2, 0); (3, 0); (4, 0)] in
  Agent.path a = Some p /\ (Agent.pathIndex a < length p - 1)%nat /\
  (0 <= Agent.moveProgress a)%Q /\ (0 <= Agent.speed a)%Q /\ (0 <= 1 # 10)%Q /\
  let arrived := (Agent._moveAlongPath (1 # 10) a).1 in
  let a' := (Agent._moveAlongPath (1 # 10) a).2 in
  idle_fields a a' /\
  (arrived = true ->
   Agent.path a' = None /\
   exists e, last p = Some e /\ Agent.x a' = Qz e.1 /\ Agent.y a' = Qz e.2) /\
  (arrived = false ->
   Agent.path a' = Some p /\
   (Agent.pathIndex a <= Agent.pathIndex a' < length p - 1)%nat /\
   (0 <= Agent.moveProgress a' /\ Agent.moveProgress a' < 1)%Q /\
   exists curr next,
     p !! Agent.pathIndex a' = Some curr /\ p !! S (Agent.pathIndex a') = Some next /\
     lies_between (Qz curr.1) (Qz next.1) (Agent.x a') /\
     lies_between (Qz curr.2) (Qz next.2) (Agent.y a')).
Proof.
  cbv zeta.
  assert (H1 : Agent.path Scenario.on_lunch_road = Some [(2, 0); (3, 0); (4, 0)])
    by (vm_compute; reflexivity).
  assert (H2 : (Agent.pathIndex Scenario.on_lunch_road
                < length [(2, 0); (3, 0); (4, 0)] - 1)%nat) by (vm_compute; lia).
  assert (H3 : (0 <= Agent.moveProgress Scenario.on_lunch_road)%Q)
    by (vm_compute; discriminate).
  assert (H4 : (0 <= Agent.speed Scenario.on_lunch_road)%Q) by (vm_compute; discriminate).
  assert (H5 : (0 <= 1 # 10)%Q) by (vm_compute; discriminate).
  split; [exact H1 |]. split; [exact H2 |]. split; [exact H3 |].
  split; [exact H4 |]. split; [exact H5 |].
  exact (agent_move_outcome (1 # 10) Scenario.on_lunch_road _ H1 H2 H3 H4 H5).
Defined.

Lemma commute_arrival_witness :
  let a := Cases.leaving_home in
  let p := [(0, 0); (1, 0); (2, 0)] in
  let cs := [((61 # 10), (1 # 10), 0); ((62 # 10), 1, 0)]%Q in
  Agent.phase_ a = Agent.commuting_to_work /\ Agent.path a = Some p /\
  (Agent.pathIndex a < length p - 1)%nat /\
  (under_way Agent.commuting_to_work p a (Scenario.updates a cs) \/
   exists cs1 h dt r cs2,
     cs = cs1 ++ (h, dt, r) :: cs2 /\
     under_way Agent.commuting_to_work p a (Scenario.updates a cs1) /\
     let b := Agent.update (Scenario.updates a cs1) h dt r in
     Agent.phase_ b = Agent.at_work /\ Agent.state_ b = Agent.S_working /\
     Agent.path b = None /\
     (exists e, last p = Some e /\ Agent.x b = Qz e.1 /\ Agent.y b = Qz e.2) /\
     Agent.log b = Agent.log a ++
       [Agent.mkEntry "Arrived work" h
          (getNameAt (Agent.city a) (Agent.workplace a).1 (Agent.workplace a).2)]).
Proof.
  cbv zeta.
  assert (H1 : Agent.phase_ Cases.leaving_home = Agent.commuting_to_work)
    by (vm_compute; reflexivity).
  assert (H2 : Agent.path Cases.leaving_home = Some [(0, 0); (1, 0); (2, 0)])
    by (vm_compute; reflexivity).
  assert (H3 : (Agent.pathIndex Cases.leaving_home
                < length [(0, 0); (1, 0); (2, 0)] - 1)%nat) by (vm_compute; lia).
  split; [exact H1 |]. split; [exact H2 |]. split; [exact H3 |].
  exact (commute_arrival Cases.leaving_home [(0, 0); (1, 0); (2, 0)]
           [((61 # 10), (1 # 10), 0); ((62 # 10), 1, 0)]%Q H1 H2 H3).
Defined.

(** ** The agent's day *)

Lemma decideLeisure_state (h r : Q) (a : Agent.t) :
  Agent.state_ (Agent._decideLeisure h r a) = Agent.state_ a.
Proof. unfold Agent._decideLeisure. repeat (inner_case; simpl); done. Qed.

Lemma headHome_state (h r : Q) (nextPhase : Agent.phase) (a : Agent.t) :
  Agent.state_ (Agent._headHome h r nextPhase a).1
  = match call_result (Agent._headHome h r nextPhase a).2 with
    | Some _ => Agent.S_traveling
    | None => Agent.S_home
    end.
Proof.
  unfold Agent._headHome.
  pose proof (navigateTo_frame (Agent.home a) a) as (_ & _ & _ & Hpath & _).
  destruct (Agent._navigateTo (Agent.home a) a) as [a1 c]. simpl in *.
  rewrite Hpath. destruct (call_result c) eqn:Hc; simpl; [by rewrite Hc |].
  destruct (bool_decide _); simpl; rewrite Hc, ?decideLeisure_state; done.
Qed.

Opaque Agent._navigateTo Agent._headHome Agent._moveAlongPath Agent._decideLeisure.

(** As [step_helper], with what the helpers do to the visible state. *)
Ltac step_helper_state :=
  match goal with
  | |- context [Agent._headHome ?h ?r ?n ?a] =>
      generalize (headHome_state h r n a); step_helper; intros ?Hstate
  | |- context [Agent._decideLeisure ?h ?r ?a] =>
      generalize (decideLeisure_state h r a); step_helper; intros ?Hstate
  | _ => step_helper
  end.

Ltac update_cases_state a :=
  unfold Agent.update, Agent.update_calls, Agent.when_arrived;
  destruct (Agent.phase_ a) eqn:?Hphase;
  repeat (first [use_known | step_helper_state | inner_case]; simpl in *).

(** One call of [update] keeps the visible state in step with the phase. *)
Lemma update_state_of_phase (a : Agent.t) (h dt r : Q) :
  Agent.state_ a = state_of_phase (Agent.phase_ a) ->
  Agent.state_ (Agent.update a h dt r)
  = state_of_phase (Agent.phase_ (Agent.update a h dt r)).
Proof.
  intros Hs. update_cases_state a.
  all: repeat match goal with
       | H : call_result ?c = None, H' : context [call_result ?c] |- _ =>
           rewrite H in H'
       | H : call_result ?c <> None, H' : context [match call_result ?c with _ => _ end] |- _ =>
           destruct (call_result c); [| done]
       end.
  all: repeat match goal with
       | H : Agent.phase_ ?t = _ |- context [Agent.phase_ ?t] => rewrite H
       | H : Agent.state_ ?t = _ |- context [Agent.state_ ?t] => rewrite H
       end; simpl; try congruence.
Qed.

(** One call of [update] never takes the agent back to an earlier stage. *)
Lemma update_day_rank (a : Agent.t) (h dt r : Q) :
  (day_rank (Agent.phase_ a) <= day_rank (Agent.phase_ (Agent.update a h dt r)))%nat.
Proof.
  update_cases a.
  all: try congruence; simpl.
  all: repeat match goal with
       | H : Agent.phase_ ?t = _ |- context [Agent.phase_ ?t] => rewrite H
       end; simpl; lia.
Qed.

Lemma count_event_cons (ev : string) (e : Agent.entry) (l : list Agent.entry) :
  count_event ev (e :: l)
  = ((if String.eqb (Agent.event e) ev then 1 else 0) + count_event ev l)%nat.
Proof.
  unfold count_event. rewrite filter_cons.
  destruct (decide _) as [H | H]; [by rewrite H | ].
  by apply not_true_is_false in H as ->.
Qed.

Lemma count_event_nil (ev : string) : count_event ev [] = 0%nat.
Proof. done. Qed.

Lemma same_schedule_orders (a a' : Agent.t) :
  same_schedule a a' -> Agent.ordersDelivery a' = Agent.ordersDelivery a.
Proof. unfold same_schedule. tauto. Qed.

(** Rewrites the fields of intermediate agents until nothing changes. *)
Ltac field_rewrite :=
  repeat (progress (simpl;
    repeat match goal with
    | H : Agent.phase_ ?t = _ |- context [Agent.phase_ ?t] => rewrite H
    | H : Agent.log ?t = _ |- context [Agent.log ?t] => rewrite H
    | H : Agent._hadLunch ?t = _ |- context [Agent._hadLunch ?t] => rewrite H
    | H : Agent.ordersDelivery ?t = _ |- context [Agent.ordersDelivery ?t] => rewrite H
    end)).

(** One call of [update] keeps the log in step with the phase. *)
Lemma update_day_log (a : Agent.t) (h dt r : Q) :
  day_log a -> day_log (Agent.update a h dt r).
Proof.
  intros Hinv. update_cases a.
  all: try congruence.
  all: unfold day_log in *; destruct Hinv as (Hw & Ha & Hl & Hk1 & Hk0 & Hz).
  all: repeat match goal with
       | H : same_schedule _ ?t |- _ => apply same_schedule_orders in H; simpl in H
       end.
  all: rewrite ?Hphase in *; simpl in *.
  all: field_rewrite.
  all: rewrite ?count_event_app, ?count_event_cons, ?count_event_nil; simpl.
  all: try (destruct (Agent._hadLunch a); try discriminate);
       try (destruct (Agent.ordersDelivery a); try discriminate); simpl in *.
  all: try (split_and!; try (intros; discriminate); lia).
Qed.

Lemma timely_schedule (a a' : Agent.t) (e : Agent.entry) :
  same_schedule a a' -> timely a e -> timely a' e.
Proof.
  unfold same_schedule, timely, not_before. intros Hs. destruct_and!.
  repeat match goal with H : _ a' = _ a |- _ => rewrite H; clear H end. done.
Qed.

(** One call of [update] writes no event before its hour. *)
Lemma update_timely (a : Agent.t) (h dt r : Q) :
  Forall (timely a) (Agent.log a) ->
  Forall (timely a) (Agent.log (Agent.update a h dt r)).
Proof.
  intros Hinv. update_cases a.
  all: try congruence.
  all: repeat match goal with
       | H : Agent.log ?t = _ |- context [Agent.log ?t] => rewrite H
       end; simpl.
  all: rewrite ?Forall_app, ?Forall_cons, ?Forall_nil; split_and?; try done.
  all: unfold timely, not_before; simpl; try done.
  all: repeat match goal with
       | H : _ && _ = true |- _ => apply andb_prop in H as [? ?]
       end; done.
Qed.

Lemma apply_call_timely (a : Agent.t) (c : agent_call) :
  Forall (timely a) (Agent.log a) ->
  Forall (timely (apply_call a c)) (Agent.log (apply_call a c)).
Proof.
  intros Hinv.
  assert (Hsch : same_schedule a (apply_call a c)) by apply apply_call_log.
  eapply Forall_impl; [| intros e; apply (timely_schedule _ _ e Hsch)].
  destruct c as [h dt r | h name]; [by apply update_timely |].
  simpl. apply Forall_app. split; [done |]. apply Forall_singleton.
  unfold timely, not_before. simpl. done.
Qed.

Lemma apply_call_day_log (a : Agent.t) (c : agent_call) :
  day_log a -> day_log (apply_call a c).
Proof.
  destruct c as [h dt r | h name]; [apply update_day_log |].
  unfold day_log. simpl. rewrite !count_event_app, !count_event_cons, !count_event_nil.
  simpl. intros (Hw & Ha & Hl & Hk1 & Hk0 & Hz).
  rewrite !Nat.add_0_r. done.
Qed.

Lemma apply_call_state (a : Agent.t) (c : agent_call) :
  Agent.state_ a = state_of_phase (Agent.phase_ a) ->
  Agent.state_ (apply_call a c) = state_of_phase (Agent.phase_ (apply_call a c)).
Proof. destruct c; [apply update_state_of_phase | done]. Qed.

Lemma apply_call_day_rank (a : Agent.t) (c : agent_call) :
  (day_rank (Agent.phase_ a) <= day_rank (Agent.phase_ (apply_call a c)))%nat.
Proof. destruct c; [apply update_day_rank | done]. Qed.

Transparent Agent._navigateTo Agent._headHome Agent._moveAlongPath Agent._decideLeisure.

(** ** Runs: what holds of every agent at every frame *)

Lemma fold_apply_call_inv (P : Agent.t -> Prop) :
  (forall a c, P a -> P (apply_call a c)) ->
  forall cs a, P a -> P (fold_left apply_call cs a).
Proof.
  intros Hstep cs. induction cs as [| c cs IH]; intros a Ha; [done |].
  simpl. by apply IH, Hstep.
Qed.

Lemma fold_apply_call_rel (R : Agent.t -> Agent.t -> Prop) :
  (forall a, R a a) -> (forall a b c, R a b -> R b c -> R a c) ->
  (forall a c, R a (apply_call a c)) ->
  forall cs a, R a (fold_left apply_call cs a).
Proof.
  intros Hrefl Htrans Hstep cs. induction cs as [| c cs IH]; intros a; [done |].
  simpl. eapply Htrans; [apply Hstep | apply IH].
Qed.

(** A property of single agents that every call keeps holds throughout a
    run. *)
Lemma run_agents_forall (P : Agent.t -> Prop) :
  (forall a c, P a -> P (apply_call a c)) ->
  forall frames s, Forall P (Simulation.agents s) ->
  Forall P (Simulation.agents (Simulation.run s frames)).
Proof.
  intros Hstep frames s.
  apply (run_invariant (fun ags _ => Forall P ags)). clear s.
  intros s h dt rnd HF. apply Forall_lookup. intros i a' Ha'.
  apply tick_agent_calls in Ha' as (a & cs & Ha & -> & _).
  apply (fold_apply_call_inv P Hstep). eapply Forall_lookup_1; eassumption.
Qed.

(** A preorder on agents that every call respects relates each agent to
    what it becomes later in the run; no agent appears or disappears. *)
Lemma run_agents_rel (R : Agent.t -> Agent.t -> Prop) :
  (forall a, R a a) -> (forall a b c, R a b -> R b c -> R a c) ->
  (forall a c, R a (apply_call a c)) ->
  forall frames s i,
  match Simulation.agents s !! i with
  | Some a => exists a', Simulation.agents (Simulation.run s frames) !! i = Some a' /\ R a a'
  | None => Simulation.agents (Simulation.run s frames) !! i = None
  end.
Proof.
  intros Hrefl Htrans Hstep frames.
  induction frames as [| f frames IH]; intros s i.
  - change (Simulation.run s []) with s.
    destruct (Simulation.agents s !! i) as [a |] eqn:Ha; [| done]. by exists a.
  - change (Simulation.run s (f :: frames))
      with (Simulation.run (Simulation._loop s f) frames).
    specialize (IH (Simulation._loop s f) i).
    destruct (loop_cases s f) as (_ & _ & [[Ha Hd] | (s1 & dt & Ha & Hd & Hl)]).
    + by rewrite Ha in IH.
    + pose proof (tick_spec s1 (Simulation.simHours s (Simulation.now f)) dt
                    (Simulation.rnd f)) as (_ & _ & _ & Hag).
      specialize (Hag i). rewrite Ha in Hag. rewrite Hl in IH |- *.
      destruct (Simulation.agents s !! i) as [a |] eqn:Hai.
      * destruct Hag as (cs & Hlook & _). rewrite Hlook in IH.
        destruct IH as (a' & Ha' & HR). exists a'. split; [done |].
        eapply Htrans; [| exact HR].
        apply (fold_apply_call_rel R Hrefl Htrans Hstep).
      * by rewrite Hag in IH.
Qed.

Lemma run_app (s : Simulation.t) (fs1 fs2 : list Simulation.frame) :
  Simulation.run s (fs1 ++ fs2) = Simulation.run (Simulation.run s fs1) fs2.
Proof. apply fold_left_app. Qed.

(** The agents of a started simulation are as the constructor leaves them. *)
Lemma start_agents_fresh (c : City) (now0 : Q) (shuffled : list cell)
    (rs : nat -> Simulation.spawn) :
  Forall (fun a => Agent.log a = [] /\ Agent.phase_ a = Agent.sleeping /\
                   Agent.state_ a = Agent.S_sleeping /\ Agent._hadLunch a = false)
    (Simulation.agents (Simulation.start (Simulation.generateCity c) now0 shuffled rs)).
Proof.
  destruct (start_spec c now0 shuffled rs) as (pool & Hag & _).
  apply Forall_lookup. intros i a Ha. rewrite Hag in Ha.
  apply spawn_agents_lookup in Ha as (home & w & l & e & ->). done.
Qed.

(** X6.  Throughout a run, the visible state of every agent (the colour it
    is drawn in) is the one that goes with its phase: sleeping while asleep,
    home while waiting or in for the evening, traveling on every trip,
    working at work, leisure at the eatery and at the leisure spot. *)
Theorem state_follows_phase (c : City) (now0 : Q) (shuffled : list cell)
    (rs : nat -> Simulation.spawn) (frames : list Simulation.frame) (i : nat)
    (a : Agent.t) :
  let s0 := Simulation.start (Simulation.generateCity c) now0 shuffled rs in
  Simulation.agents (Simulation.run s0 frames) !! i = Some a ->
  Agent.state_ a = state_of_phase (Agent.phase_ a).
Proof.
  intros s0 Ha.
  eapply (Forall_lookup_1 (fun a => Agent.state_ a = state_of_phase (Agent.phase_ a)));
    [| exact Ha].
  apply run_agents_forall; [apply apply_call_state |].
  eapply Forall_impl; [apply start_agents_fresh |].
  intros b (_ & Hp & Hs & _). by rewrite Hp, Hs.
Qed.

(** X7.  The day only moves forward: later in a run, no agent is in an
    earlier stage of its day than it was before. *)
Theorem day_never_goes_back (s : Simulation.t) (fs1 fs2 : list Simulation.frame)
    (i : nat) (a a' : Agent.t) :
  Simulation.agents (Simulation.run s fs1) !! i = Some a ->
  Simulation.agents (Simulation.run s (fs1 ++ fs2)) !! i = Some a' ->
  (day_rank (Agent.phase_ a) <= day_rank (Agent.phase_ a'))%nat.
Proof.
  intros Ha Ha'. rewrite run_app in Ha'.
  pose proof (run_agents_rel
                (fun a a' => day_rank (Agent.phase_ a) <= day_rank (Agent.phase_ a'))%nat
                (fun b => Nat.le_refl _) (fun b1 b2 b3 => Nat.le_trans _ _ _)
                apply_call_day_rank fs2 (Simulation.run s fs1) i) as Hrel.
  simpl in Hrel.
  rewrite Ha in Hrel. destruct Hrel as (b & Hb & Hle). congruence.
Qed.

Lemma same_schedule_trans (a b c : Agent.t) :
  same_schedule a b -> same_schedule b c -> same_schedule a c.
Proof.
  unfold same_schedule. intros H1 H2. destruct_and!. split_and!; congruence.
Qed.

(** X8.  A run never removes or rewrites what is logged: later in the run
    each agent is still there, with the same identity, places and schedule,
    and its log is the earlier log with entries added at the end; the number
    of agents does not change. *)
Theorem log_grows_only (s : Simulation.t) (fs1 fs2 : list Simulation.frame)
    (i : nat) (a : Agent.t) :
  Simulation.agents (Simulation.run s fs1) !! i = Some a ->
  length (Simulation.agents (Simulation.run s (fs1 ++ fs2)))
  = length (Simulation.agents (Simulation.run s fs1)) /\
  exists a' es,
    Simulation.agents (Simulation.run s (fs1 ++ fs2)) !! i = Some a' /\
    Agent.log a' = Agent.log a ++ es /\ same_schedule a a'.
Proof.
  intros Ha. rewrite run_app.
  pose proof (run_agents_rel
                (fun a a' => same_schedule a a' /\ Agent.log a `prefix_of` Agent.log a'))
    as Hrel.
  assert (Hall : forall j,
    match Simulation.agents (Simulation.run s fs1) !! j with
    | Some a =>
        exists a', Simulation.agents (Simulation.run (Simulation.run s fs1) fs2) !! j
                   = Some a' /\
          same_schedule a a' /\ Agent.log a `prefix_of` Agent.log a'
    | None => Simulation.agents (Simulation.run (Simulation.run s fs1) fs2) !! j = None
    end).
  { apply Hrel.
    - intros b. split; [apply same_schedule_refl | done].
    - intros b1 b2 b3 [Hs1 Hp1] [Hs2 Hp2].
      split; [by eapply same_schedule_trans | by etrans].
    - intros b c0. destruct (apply_call_log b c0) as (Hs & es & Hlog & _).
      split; [done |]. by exists es. }
  split.
  - apply Nat.le_antisymm.
    + apply Nat.nlt_ge. intros Hlt.
      specialize (Hall (length (Simulation.agents (Simulation.run s fs1)))).
      rewrite lookup_ge_None_2 in Hall by lia.
      apply lookup_ge_None_1 in Hall. lia.
    + apply Nat.nlt_ge. intros Hlt.
      destruct (lookup_lt_is_Some_2 _ _ Hlt) as [b Hb].
      specialize (Hall (length (Simulation.agents
                                  (Simulation.run (Simulation.run s fs1) fs2)))).
      rewrite Hb in Hall. destruct Hall as (b' & Hb' & _).
      apply lookup_lt_Some in Hb'. lia.
  - specialize (Hall i). rewrite Ha in Hall.
    destruct Hall as (a' & Ha' & Hs & es & Hes). by exists a', es.
Qed.

(** X9.  Throughout a run, the log of every agent tells its day so far:
    "Wake up" is there once as soon as the agent has left phase [sleeping]
    and not before, "Arrived work" once as soon as it has been at work,
    "Left for lunch" once if it has gone out for lunch, "Went to sleep" once
    when its phase is [asleep_night]; "Left work" is never there twice, and
    not at all while the agent is at work or earlier in its day. *)
Theorem day_log_counts (c : City) (now0 : Q) (shuffled : list cell)
    (rs : nat -> Simulation.spawn) (frames : list Simulation.frame) (i : nat)
    (a : Agent.t) :
  let s0 := Simulation.start (Simulation.generateCity c) now0 shuffled rs in
  Simulation.agents (Simulation.run s0 frames) !! i = Some a ->
  day_log a /\
  (count_event "Wake up" (Agent.log a) <= 1)%nat /\
  (count_event "Arrived work" (Agent.log a) <= 1)%nat /\
  (count_event "Left for lunch" (Agent.log a) <= 1)%nat /\
  (count_event "Left work" (Agent.log a) <= 1)%nat /\
  (count_event "Went to sleep" (Agent.log a) <= 1)%nat.
Proof.
  intros s0 Ha.
  assert (Hd : day_log a).
  { eapply (Forall_lookup_1 day_log); [| exact Ha].
    apply run_agents_forall; [apply apply_call_day_log |].
    eapply Forall_impl; [apply start_agents_fresh |].
    intros b (Hl & Hp & _ & Hh). unfold day_log.
    rewrite Hl, Hp, Hh, !count_event_nil. simpl.
    split_and!; (done || lia). }
  split; [done |]. destruct Hd as (Hw & Haw & Hl & Hk1 & _ & Hz).
  rewrite Hw, Haw, Hl, Hz.
  split_and!; [by destruct (Agent.phase_ a); lia | by destruct (_ <=? _)%nat; lia
              | by destruct (_ && _); lia | done | by destruct (Agent.phase_ a); lia].
Qed.

(** X10.  No event is logged before the hour its guard names: "Wake up"
    carries an hour from [wakeUpTime] on, "Left for lunch" from [lunchStart]
    on, "Left eatery" from [lunchEnd] on, "Left work" and
    "Left eatery (late)" from [workEnd] on, "Went to sleep" from [bedTime]
    on. *)
Theorem events_not_before_schedule (c : City) (now0 : Q) (shuffled : list cell)
    (rs : nat -> Simulation.spawn) (frames : list Simulation.frame) (i : nat)
    (a : Agent.t) (e : Agent.entry) :
  let s0 := Simulation.start (Simulation.generateCity c) now0 shuffled rs in
  Simulation.agents (Simulation.run s0 frames) !! i = Some a ->
  e ∈ Agent.log a ->
  timely a e /\
  (Agent.event e = "Wake up"%string -> (Agent.wakeUpTime a <= Agent.time e)%Q) /\
  (Agent.event e = "Left for lunch"%string ->
   exists ls, Agent.lunchStart a = Fin ls /\ (ls <= Agent.time e)%Q) /\
  (Agent.event e = "Left eatery"%string ->
   exists le, Agent.lunchEnd a = Fin le /\ (le <= Agent.time e)%Q) /\
  (Agent.event e = "Left work"%string \/ Agent.event e = "Left eatery (late)"%string ->
   (Agent.workEnd a <= Agent.time e)%Q) /\
  (Agent.event e = "Went to sleep"%string -> (Agent.bedTime a <= Agent.time e)%Q).
Proof.
  intros s0 Ha He.
  assert (Ht : timely a e).
  { assert (HF : Forall (fun a => Forall (timely a) (Agent.log a))
                   (Simulation.agents (Simulation.run s0 frames))).
    { apply run_agents_forall; [apply apply_call_timely |].
      eapply Forall_impl; [apply start_agents_fresh |].
      intros b (Hl & _). rewrite Hl. constructor. }
    eapply Forall_lookup_1 in HF; [| exact Ha].
    rewrite Forall_forall in HF. by apply HF. }
  split; [done |]. unfold timely, not_before in Ht.
  split_and!; intros Hev; [| | | destruct Hev as [Hev | Hev] |];
    rewrite Hev in Ht; simpl in Ht;
    try (by apply geq_true in Ht).
  - destruct (Agent.lunchStart a) as [ls |]; [| done].
    exists ls. split; [done |]. by apply geq_true in Ht.
  - destruct (Agent.lunchEnd a) as [le |]; [| done].
    exists le. split; [done |]. by apply geq_true in Ht.
Qed.

Lemma round_bounds (q : Q) : (q - (1 # 2) < Qz (round q) /\ Qz (round q) <= q + (1 # 2))%Q.
Proof.
  unfold round, Qz.
  pose proof (Qfloor_le (q + (1 # 2))) as Hle.
  pose proof (Qlt_floor (q + (1 # 2))) as Hlt.
  rewrite inject_Z_plus in Hlt. change (inject_Z 1) with 1%Q in Hlt.
  split; lra.
Qed.

(** X11.  The schedule the constructor draws is in order.  With every draw
    in [0, 1), and every bound closed so that it holds of the rounded sums
    too: the speed is within 5 and 8; the agent wakes no earlier than 4:00
    and no later than half an hour before work starts, work starts within
    6:00 and 9:00 and ends within 13:00 and 19:00, no later than curfew,
    which is an hour before a bedtime within 20:00 and 24:00; leisure lasts
    one to three hours; an agent that takes lunch has an eatery and has its
    lunch on a half hour, more than three hours into work, for at least
    half an hour, and over before work ends; an agent that orders in orders
    after work has started, more than 24 and less than 36 minutes before
    lunch. *)
Theorem constructor_schedule (id : nat) (home workplace : cell)
    (leisureSpot eatery : option cell) (c : City) (r : Agent.draws) :
  valid_draws r ->
  let a := Agent.constructor id home workplace leisureSpot eatery c r in
  (5 <= Agent.speed a /\ Agent.speed a <= 8)%Q /\
  (6 <= Agent.workStart a /\ Agent.workStart a <= 9)%Q /\
  (4 <= Agent.wakeUpTime a /\ Agent.wakeUpTime a <= Agent.workStart a - (1 # 2))%Q /\
  (13 <= Agent.workEnd a /\ Agent.workEnd a <= 19)%Q /\
  (Agent.workEnd a <= Agent.curfew a /\ Agent.curfew a == Agent.bedTime a - 1)%Q /\
  (20 <= Agent.bedTime a /\ Agent.bedTime a <= 24)%Q /\
  (1 <= Agent.leisureDuration a /\ Agent.leisureDuration a <= 3)%Q /\
  match Agent.lunchStart a, Agent.lunchEnd a with
  | Fin ls, Fin le =>
      Agent.takesLunch a = true /\ eatery <> None /\
      (exists k : Z, ls == Qz k / 2)%Q /\
      (Agent.workStart a + 3 < ls /\ ls + (1 # 2) <= le /\ le < Agent.workEnd a)%Q
  | Infinity, Infinity => Agent.takesLunch a = false
  | _, _ => False
  end /\
  match Agent.orderTime a with
  | Some ot =>
      Agent.ordersDelivery a = true /\
      exists ls, Agent.lunchStart a = Fin ls /\
        (Agent.workStart a < ot /\ ls - (36 # 60) < ot /\ ot < ls - (24 # 60))%Q
  | None => Agent.ordersDelivery a = false
  end.
Proof.
  unfold valid_draws, unit_draw. intros Hr. destruct_and!. cbv zeta.
  unfold Agent.constructor. cbn -[Qplus Qmult Qminus Qdiv Qle Qlt round Qz Qeq].
  pose proof (round_bounds
                ((6 + Agent.r_workStart r * 3 + (7 + Agent.r_workDuration r * 3) / 2) * 2))
    as [Hlo Hhi].
  set (half_hours := Qz (round _)) in *.
  unfold Qdiv in *.
  change (/ 2)%Q with (1 # 2)%Q in *. change (/ 60)%Q with (1 # 60)%Q in *.
  split_and!; try lra.
  - destruct (negb _ && bool_decide (eatery <> None)) eqn:Ht.
    + apply andb_prop in Ht as [_ He]. apply bool_decide_eq_true in He.
      split_and!; first [done | lra | by eexists].
    + done.
  - destruct (negb _ && bool_decide (eatery <> None)) eqn:Ht; simpl; [| done].
    destruct eatery as [e |]; [| done].
    destruct (bool_decide (20 < Agent.chebyshev workplace e)); [| done].
    split; [done |]. eexists. split; [done |]. split_and!; lra.
Qed.

Lemma state_follows_phase_witness :
  let s := Simulation.run Scenario.far_start Scenario.late_frames in
  Simulation.agents s !! 0%nat = Some (Scenario.first_agent s) /\
  Agent.state_ (Scenario.first_agent s)
  = state_of_phase (Agent.phase_ (Scenario.first_agent s)).
Proof.
  cbv zeta.
  assert (H : Simulation.agents (Simulation.run Scenario.far_start Scenario.late_frames)
              !! 0%nat
              = Some (Scenario.first_agent
                        (Simulation.run Scenario.far_start Scenario.late_frames)))
    by (vm_compute; reflexivity).
  split; [exact H |].
  exact (state_follows_phase Scenario.city_far 0 [] Scenario.rs0 Scenario.late_frames
           0 _ H).
Defined.

Lemma day_never_goes_back_witness :
  let s1 := Simulation.run Scenario.far_start Cases.early_frames in
  let s2 := Simulation.run Scenario.far_start (Cases.early_frames ++ Cases.later_frames) in
  Simulation.agents s1 !! 0%nat = Some (Scenario.first_agent s1) /\
  Simulation.agents s2 !! 0%nat = Some (Scenario.first_agent s2) /\
  (day_rank (Agent.phase_ (Scenario.first_agent s1))
   <= day_rank (Agent.phase_ (Scenario.first_agent s2)))%nat.
Proof.
  cbv zeta.
  assert (H1 : Simulation.agents (Simulation.run Scenario.far_start Cases.early_frames)
               !! 0%nat
               = Some (Scenario.first_agent
                         (Simulation.run Scenario.far_start Cases.early_frames)))
    by (vm_compute; reflexivity).
  assert (H2 : Simulation.agents
                 (Simulation.run Scenario.far_start
                    (Cases.early_frames ++ Cases.later_frames)) !! 0%nat
               = Some (Scenario.first_agent
                         (Simulation.run Scenario.far_start
                            (Cases.early_frames ++ Cases.later_frames))))
    by (vm_compute; reflexivity).
  split_and!; [exact H1 | exact H2 |].
  exact (day_never_goes_back Scenario.far_start Cases.early_frames Cases.later_frames
           0 _ _ H1 H2).
Defined.

Lemma log_grows_only_witness :
  let s1 := Simulation.run Scenario.far_start Cases.early_frames in
  let s2 := Simulation.run Scenario.far_start (Cases.early_frames ++ Cases.later_frames) in
  Simulation.agents s1 !! 0%nat = Some (Scenario.first_agent s1) /\
  length (Simulation.agents s2) = length (Simulation.agents s1).
Proof.
  cbv zeta.
  assert (H1 : Simulation.agents (Simulation.run Scenario.far_start Cases.early_frames)
               !! 0%nat
               = Some (Scenario.first_agent
                         (Simulation.run Scenario.far_start Cases.early_frames)))
    by (vm_compute; reflexivity).
  split; [exact H1 |].
  exact (proj1 (log_grows_only Scenario.far_start Cases.early_frames Cases.later_frames
                  0 _ H1)).
Defined.

Lemma day_log_counts_witness :
  let s := Simulation.run Scenario.far_start Scenario.day_frames in
  Simulation.agents s !! 0%nat = Some (Scenario.first_agent s) /\
  day_log (Scenario.first_agent s).
Proof.
  cbv zeta.
  assert (H : Simulation.agents (Simulation.run Scenario.far_start Scenario.day_frames)
              !! 0%nat
              = Some (Scenario.first_agent
                        (Simulation.run Scenario.far_start Scenario.day_frames)))
    by (vm_compute; reflexivity).
  split; [exact H |].
  exact (proj1 (day_log_counts Scenario.city_far 0 [] Scenario.rs0 Scenario.day_frames
                  0 _ H)).
Defined.

Lemma events_not_before_schedule_witness :
  let s := Simulation.run Scenario.far_start Scenario.day_frames in
  let a := Scenario.first_agent s in
  Simulation.agents s !! 0%nat = Some a /\
  Scenario.last_entry a ∈ Agent.log a /\
  Agent.event (Scenario.last_entry a) = "Went to sleep"%string /\
  timely a (Scenario.last_entry a).
Proof.
  cbv zeta.
  assert (H : Simulation.agents (Simulation.run Scenario.far_start Scenario.day_frames)
              !! 0%nat
              = Some (Scenario.first_agent
                        (Simulation.run Scenario.far_start Scenario.day_frames)))
    by (vm_compute; reflexivity).
  assert (He : Scenario.last_entry
                 (Scenario.first_agent
                    (Simulation.run Scenario.far_start Scenario.day_frames))
               ∈ Agent.log
                   (Scenario.first_agent
                      (Simulation.run Scenario.far_start Scenario.day_frames))).
  { apply last_Some_elem_of. vm_compute; reflexivity. }
  split_and!; [exact H | exact He | vm_compute; reflexivity |].
  exact (proj1 (events_not_before_schedule Scenario.city_far 0 [] Scenario.rs0
                  Scenario.day_frames 0 _ _ H He)).
Defined.

Lemma constructor_schedule_witness :
  valid_draws Scenario.draws0 /\
  let a := Agent.constructor 0 (0, 0) (2, 0) None (Some (25, 0))
             Scenario.city_far Scenario.draws0 in
  (5 <= Agent.speed a /\ Agent.speed a <= 8)%Q /\
  (6 <= Agent.workStart a /\ Agent.workStart a <= 9)%Q /\
  (4 <= Agent.wakeUpTime a /\ Agent.wakeUpTime a <= Agent.workStart a - (1 # 2))%Q /\
  (13 <= Agent.workEnd a /\ Agent.workEnd a <= 19)%Q /\
  (Agent.workEnd a <= Agent.curfew a /\ Agent.curfew a == Agent.bedTime a - 1)%Q /\
  (20 <= Agent.bedTime a /\ Agent.bedTime a <= 24)%Q /\
  (1 <= Agent.leisureDuration a /\ Agent.leisureDuration a <= 3)%Q /\
  match Agent.lunchStart a, Agent.lunchEnd a with
  | Fin ls, Fin le =>
      Agent.takesLunch a = true /\ Some (25, 0) <> (None : option cell) /\
      (exists k : Z, ls == Qz k / 2)%Q /\
      (Agent.workStart a + 3 < ls /\ ls + (1 # 2) <= le /\ le < Agent.workEnd a)%Q
  | Infinity, Infinity => Agent.takesLunch a = false
  | _, _ => False
  end /\
  match Agent.orderTime a with
  | Some ot =>
      Agent.ordersDelivery a = true /\
      exists ls, Agent.lunchStart a = Fin ls /\
        (Agent.workStart a < ot /\ ls - (36 # 60) < ot /\ ot < ls - (24 # 60))%Q
  | None => Agent.ordersDelivery a = false
  end.
Proof.
  assert (H : valid_draws Scenario.draws0).
  { unfold valid_draws, unit_draw. simpl. split_and!; lra. }
  split; [exact H |].
  exact (constructor_schedule 0 (0, 0) (2, 0) None (Some (25, 0))
           Scenario.city_far Scenario.draws0 H).
Defined.

(** ** The courier's life *)

(** What one call of the courier's [update] does to the agents. *)
Lemma driver_update_exact (d : DeliveryDriver.t) (agents : list Agent.t) (h dt : Q) :
  (DeliveryDriver.update d agents h dt).2
  = if arrives d dt
    then alter (fun a => apply_call a (Delivered h (DeliveryDriver.eateryName d)))
           (DeliveryDriver.agent d) agents
    else agents.
Proof.
  unfold arrives, DeliveryDriver.update.
  destruct (DeliveryDriver.phase_ d) eqn:Hp; simpl.
  - by destruct (geq_x h (DeliveryDriver.departureTime d)).
  - pose proof (driver_move_frame dt d) as F.
    destruct (DeliveryDriver._moveAlongPath dt d) as [[|] d1]; simpl in *; [| done].
    destruct F as (Ha & He & _ & Hc & _).
    unfold DeliveryDriver.eateryName. simpl. by rewrite Ha, He, Hc.
  - by destruct (geq h (DeliveryDriver._dropOffEnd d)).
  - by destruct (DeliveryDriver._moveAlongPath dt d) as [[|] d1].
  - done.
Qed.

(** The couriers' loop gives agent [i] exactly the entries of the couriers
    that arrive for it, in the order of the couriers. *)
Lemma update_drivers_exact (ds : list DeliveryDriver.t) :
  forall (agents : list Agent.t) (h dt : Q) (i : nat),
  (Simulation.update_drivers ds agents h dt).2 !! i
  = (fun a => fold_left apply_call (deliveries ds i h dt) a) <$> agents !! i.
Proof.
  induction ds as [| d ds IH]; intros agents h dt i.
  - simpl. unfold deliveries. simpl. by destruct (agents !! i).
  - simpl. pose proof (driver_update_exact d agents h dt) as Hd.
    destruct (DeliveryDriver.update d agents h dt) as [d1 agents1]. simpl in Hd.
    specialize (IH agents1 h dt i).
    destruct (Simulation.update_drivers ds agents1 h dt) as [ds' agents2].
    simpl in *. rewrite IH, Hd. unfold deliveries. rewrite filter_cons.
    destruct (arrives d dt) eqn:Harr.
    + destruct (decide (DeliveryDriver.agent d = i)) as [<- | Hne].
      * rewrite decide_True by done. rewrite list_lookup_alter_eq.
        destruct (agents !! DeliveryDriver.agent d); done.
      * rewrite decide_False by tauto. by rewrite list_lookup_alter_ne.
    + rewrite decide_False; [done |]. intros [_ ?]. done.
Qed.

(** One tick, exactly: the agent's own [update], then its deliveries. *)
Lemma tick_exact (s : Simulation.t) (h dt : Q) (rnd : nat -> Q) (i : nat) :
  Simulation.agents (Simulation.tick s h dt rnd) !! i
  = (fun a => fold_left apply_call
                (Updated h dt (rnd i) :: deliveries (Simulation.drivers s) i h dt) a)
    <$> Simulation.agents s !! i.
Proof.
  unfold Simulation.tick.
  pose proof (update_drivers_exact (Simulation.drivers s)
                (Simulation.update_agents (Simulation.agents s) 0 h dt rnd) h dt i) as H.
  destruct (Simulation.update_drivers _ _ h dt) as [ds' agents2]. simpl in *.
  rewrite H, update_agents_lookup. simpl.
  by destruct (Simulation.agents s !! i).
Qed.

(** One step of a courier: the phase moves on by at most one, or from
    [dropping_off] to [done]; what identifies the courier stays. *)
Lemma courier_step_rank (d : DeliveryDriver.t) (h dt : Q) :
  let d' := courier_step d h dt in
  DeliveryDriver.agent d' = DeliveryDriver.agent d /\
  DeliveryDriver.eatery d' = DeliveryDriver.eatery d /\
  DeliveryDriver.business d' = DeliveryDriver.business d /\
  DeliveryDriver.speed d' = DeliveryDriver.speed d /\
  DeliveryDriver.departureTime d' = DeliveryDriver.departureTime d /\
  (driver_rank (DeliveryDriver.phase_ d) <= driver_rank (DeliveryDriver.phase_ d'))%nat /\
  ((driver_rank (DeliveryDriver.phase_ d') <= S (driver_rank (DeliveryDriver.phase_ d)))%nat
   \/ (DeliveryDriver.phase_ d = DeliveryDriver.dropping_off /\
       DeliveryDriver.phase_ d' = DeliveryDriver.done)) /\
  (DeliveryDriver.phase_ d = DeliveryDriver.done -> d' = d) /\
  (DeliveryDriver.phase_ d = DeliveryDriver.delivering ->
   (DeliveryDriver.phase_ d' = DeliveryDriver.dropping_off <-> arrives d dt = true)) /\
  (DeliveryDriver.phase_ d <> DeliveryDriver.delivering -> arrives d dt = false).
Proof.
  unfold courier_step, arrives, DeliveryDriver.update. cbv zeta.
  destruct (DeliveryDriver.phase_ d) eqn:Hp; simpl.
  - destruct (geq_x h (DeliveryDriver.departureTime d)); simpl; rewrite ?Hp; simpl;
      split_and!; try done; try lia; left; lia.
  - pose proof (driver_move_frame dt d) as F.
    unfold DeliveryDriver._moveAlongPath in *.
    repeat (inner_case; simpl in * ); rewrite ?Hp; simpl;
      split_and!; try done; try lia; try (left; lia).
  - destruct (geq h (DeliveryDriver._dropOffEnd d)); simpl; rewrite ?Hp; simpl.
    + unfold DeliveryDriver._navigateTo. simpl.
      destruct (findPath _ _ _ _ _); simpl; split_and!; try done; try lia; auto.
    + split_and!; try done; try lia; left; lia.
  - unfold DeliveryDriver._moveAlongPath in *.
    repeat (inner_case; simpl in * ); rewrite ?Hp; simpl;
      split_and!; try done; try lia; try (left; lia).
  - rewrite ?Hp; simpl. split_and!; try done; try lia; left; lia.
Qed.

(** A preorder on couriers that every step respects relates the couriers of
    a state to the couriers later in the run, one to one. *)
Lemma run_drivers_rel (R : DeliveryDriver.t -> DeliveryDriver.t -> Prop) :
  (forall d, R d d) -> (forall a b c, R a b -> R b c -> R a c) ->
  (forall d h dt, R d (courier_step d h dt)) ->
  forall frames s,
  Forall2 R (Simulation.drivers s) (Simulation.drivers (Simulation.run s frames)).
Proof.
  intros Hrefl Htrans Hstep frames.
  induction frames as [| f frames IH]; intros s.
  - change (Simulation.run s []) with s. by apply Forall_Forall2_diag, Forall_forall.
  - change (Simulation.run s (f :: frames))
      with (Simulation.run (Simulation._loop s f) frames).
    specialize (IH (Simulation._loop s f)).
    assert (H1 : Forall2 R (Simulation.drivers s)
                   (Simulation.drivers (Simulation._loop s f))).
    { destruct (loop_cases s f) as (_ & _ & [[Ha Hd] | (s1 & dt & Ha & Hd & Hl)]).
      - rewrite Hd. by apply Forall_Forall2_diag, Forall_forall.
      - rewrite Hl.
        pose proof (tick_spec s1 (Simulation.simHours s (Simulation.now f)) dt
                      (Simulation.rnd f)) as (Hdr & _).
        rewrite Hdr, Hd. apply Forall2_fmap_r, Forall_Forall2_diag, Forall_forall.
        intros d _. apply Hstep. }
    eapply Forall2_trans; [exact Htrans | exact H1 | exact IH].
Qed.

Lemma courier_later_refl (d : DeliveryDriver.t) : courier_later d d.
Proof. unfold courier_later. split_and!; (done || lia). Qed.

Lemma courier_later_trans (a b c : DeliveryDriver.t) :
  courier_later a b -> courier_later b c -> courier_later a c.
Proof.
  intros (A1 & A2 & A3 & A4 & A5 & A6 & A7) (B1 & B2 & B3 & B4 & B5 & B6 & B7).
  unfold courier_later. split_and!; try congruence; [lia |].
  intros Hdone. specialize (A7 Hdone). subst b. by apply B7.
Qed.

Lemma courier_later_step (d : DeliveryDriver.t) (h dt : Q) :
  courier_later d (courier_step d h dt).
Proof.
  pose proof (courier_step_rank d h dt) as H. unfold courier_later. cbv zeta in *. tauto.
Qed.

Lemma run_couriers_later (s : Simulation.t) (frames : list Simulation.frame) :
  Forall2 courier_later (Simulation.drivers s)
    (Simulation.drivers (Simulation.run s frames)).
Proof.
  apply run_drivers_rel;
    [apply courier_later_refl | apply courier_later_trans | apply courier_later_step].
Qed.

(** X12.  The life of a courier.  In one frame its phase stays, moves on to
    the next of waiting, delivering, dropping_off, returning, done, or goes
    from dropping_off straight to done; over a run it never goes back, a
    courier that is done stays exactly as it is, and the courier keeps its
    agent, eatery, business, speed and departure time. *)
Theorem courier_lifecycle (s : Simulation.t) (f : Simulation.frame)
    (frames : list Simulation.frame) (j : nat) (d : DeliveryDriver.t) :
  Simulation.drivers s !! j = Some d ->
  (exists d1, Simulation.drivers (Simulation._loop s f) !! j = Some d1 /\
     (driver_rank (DeliveryDriver.phase_ d) <= driver_rank (DeliveryDriver.phase_ d1))%nat /\
     ((driver_rank (DeliveryDriver.phase_ d1)
       <= S (driver_rank (DeliveryDriver.phase_ d)))%nat \/
      (DeliveryDriver.phase_ d = DeliveryDriver.dropping_off /\
       DeliveryDriver.phase_ d1 = DeliveryDriver.done))) /\
  exists d', Simulation.drivers (Simulation.run s frames) !! j = Some d' /\
    DeliveryDriver.agent d' = DeliveryDriver.agent d /\
    DeliveryDriver.eatery d' = DeliveryDriver.eatery d /\
    DeliveryDriver.business d' = DeliveryDriver.business d /\
    DeliveryDriver.speed d' = DeliveryDriver.speed d /\
    DeliveryDriver.departureTime d' = DeliveryDriver.departureTime d /\
    (driver_rank (DeliveryDriver.phase_ d) <= driver_rank (DeliveryDriver.phase_ d'))%nat /\
    (DeliveryDriver.phase_ d = DeliveryDriver.done -> d' = d).
Proof.
  intros Hd. split.
  - destruct (loop_cases s f) as (_ & _ & [[Ha Hdr] | (s1 & dt & Ha & Hdr & Hl)]).
    + exists d. rewrite Hdr. split_and!; [done | lia | left; lia].
    + pose proof (tick_spec s1 (Simulation.simHours s (Simulation.now f)) dt
                    (Simulation.rnd f)) as (Hst & _).
      exists (courier_step d (Simulation.simHours s (Simulation.now f)) dt).
      rewrite Hl, Hst, Hdr, list_lookup_fmap, Hd. split; [done |].
      pose proof (courier_step_rank d (Simulation.simHours s (Simulation.now f)) dt) as H.
      cbv zeta in H. tauto.
  - pose proof (run_couriers_later s frames) as Hrel.
    eapply Forall2_lookup_l in Hrel as (d' & Hd' & Hr); [| exact Hd].
    exists d'. split; [exact Hd' | exact Hr].
Qed.

(** ** Deliveries *)

Lemma count_delivery_app (l1 l2 : list Agent.entry) :
  count_delivery (l1 ++ l2) = (count_delivery l1 + count_delivery l2)%nat.
Proof. unfold count_delivery. by rewrite filter_app, length_app. Qed.

Lemma count_delivery_none (es : list Agent.entry) :
  Forall (fun e => is_delivery e = false) es -> count_delivery es = 0%nat.
Proof.
  unfold count_delivery. induction 1 as [| e es He _ IH]; [done |].
  rewrite filter_cons, decide_False by congruence. done.
Qed.

Lemma count_delivery_update (a : Agent.t) (h dt r : Q) :
  count_delivery (Agent.log (Agent.update a h dt r)) = count_delivery (Agent.log a).
Proof.
  destruct (update_events a h dt r) as (es & -> & Hes & _).
  rewrite count_delivery_app, (count_delivery_none es); [lia |].
  eapply Forall_impl; [exact Hes |]. by intros e [_ ?].
Qed.

Lemma count_delivery_snoc (l : list Agent.entry) (h : Q) (name : string)
    (loc : option string) :
  count_delivery (l ++ [Agent.mkEntry ("Delivery by " ++ name) h loc])
  = S (count_delivery l).
Proof.
  rewrite count_delivery_app.
  unfold count_delivery at 2. rewrite filter_cons.
  destruct (decide _) as [_ | Hn]; [simpl; lia |].
  exfalso. apply Hn. unfold is_delivery. simpl. by destruct name.
Qed.

(** With one courier per agent at most, at most one courier of the list
    qualifies for agent [i]. *)
Lemma filter_one_courier (P : DeliveryDriver.t -> Prop) `{!forall d, Decision (P d)}
    (ds : list DeliveryDriver.t) (i : nat) :
  NoDup (DeliveryDriver.agent <$> ds) ->
  filter (fun d => DeliveryDriver.agent d = i /\ P d) ds = [] \/
  exists d, filter (fun d => DeliveryDriver.agent d = i /\ P d) ds = [d] /\
    d ∈ ds /\ DeliveryDriver.agent d = i /\ P d.
Proof.
  induction ds as [| d ds IH]; intros Hnd; [by left |].
  rewrite fmap_cons in Hnd. apply NoDup_cons in Hnd as [Hnot Hnd].
  rewrite filter_cons. destruct (decide _) as [[Hi HP] | Hno].
  - right. exists d. split_and!; [| by left | done | done].
    f_equal. destruct (filter _ ds) as [| x xs] eqn:Hf; [done | exfalso].
    assert (Hx : x ∈ filter (fun d => DeliveryDriver.agent d = i /\ P d) ds)
      by (rewrite Hf; by left).
    apply list_elem_of_filter in Hx as [[Hxi _] Hxin].
    apply Hnot. rewrite Hi, <- Hxi. by apply list_elem_of_fmap_2.
  - destruct (IH Hnd) as [-> | (d0 & -> & Hin & Hi & HP)]; [by left |].
    right. exists d0. split_and!; [done | by right | done | done].
Qed.

(** The couriers created for a list of agents refer to distinct agents. *)
Lemma spawn_drivers_agents (c : City) (rs : nat -> Simulation.spawn)
    (agents : list Agent.t) :
  forall k,
  Forall (fun i => (k <= i)%nat)
    (DeliveryDriver.agent <$> Simulation.spawn_drivers c agents k rs) /\
  NoDup (DeliveryDriver.agent <$> Simulation.spawn_drivers c agents k rs).
Proof.
  induction agents as [| a agents IH]; intros k; simpl.
  - split; constructor.
  - destruct (IH (S k)) as [Hge Hnd].
    assert (Hge' : Forall (fun i => (k <= i)%nat)
                     (DeliveryDriver.agent <$> Simulation.spawn_drivers c agents (S k) rs)).
    { eapply Forall_impl; [exact Hge |]. intros; simpl in *; lia. }
    destruct (negb (Agent.ordersDelivery a)); [done |].
    destruct (Agent.eatery a) as [e |]; [| done].
    rewrite fmap_cons. simpl. split.
    + by constructor.
    + apply NoDup_cons. split; [| done].
      intros Hin. rewrite Forall_forall in Hge. apply Hge in Hin. lia.
Qed.

(** One tick keeps [delivery_inv]. *)
Lemma delivery_inv_tick (s : Simulation.t) (h dt : Q) (rnd : nat -> Q) :
  delivery_inv (Simulation.agents s) (Simulation.drivers s) ->
  delivery_inv (Simulation.agents (Simulation.tick s h dt rnd))
    (Simulation.drivers (Simulation.tick s h dt rnd)).
Proof.
  intros [Hnd Hinv].
  pose proof (tick_spec s h dt rnd) as (Hdr & _).
  assert (Hagents : DeliveryDriver.agent <$> Simulation.drivers (Simulation.tick s h dt rnd)
                    = DeliveryDriver.agent <$> Simulation.drivers s).
  { rewrite Hdr, <- list_fmap_compose. apply list_fmap_ext.
    intros j d _. simpl. apply courier_later_step. }
  split; [by rewrite Hagents |].
  intros i a' Ha'. rewrite tick_exact in Ha'.
  destruct (Simulation.agents s !! i) as [a |] eqn:Ha; [| done].
  simpl in Ha'. injection Ha' as <-.
  destruct (Hinv i a Ha) as (H1 & H2 & H3).
  assert (Hstep : forall d', d' ∈ Simulation.drivers (Simulation.tick s h dt rnd) ->
            exists d, d ∈ Simulation.drivers s /\ d' = courier_step d h dt).
  { intros d' Hd'. rewrite Hdr in Hd'.
    apply list_elem_of_fmap in Hd' as (d & -> & Hd). by exists d. }
  unfold deliveries.
  destruct (filter_one_courier (fun d => arrives d dt = true) (Simulation.drivers s) i Hnd)
    as [-> | (d & -> & Hd & Hdi & Harr)]; simpl.
  - change (apply_call a (Updated h dt (rnd i))) with (Agent.update a h dt (rnd i)).
    rewrite count_delivery_update. split_and!; [done | |].
    + intros d' Hd' Hi' Hrank. destruct (Hstep d' Hd') as (d & Hd & ->).
      pose proof (courier_later_step d h dt) as (Hag & _ & _ & _ & _ & Hrk & _).
      apply (H2 d Hd); [congruence | lia].
    + intros Hnone. apply H3. intros d Hd Hdi.
      apply (Hnone (courier_step d h dt)).
      * rewrite Hdr. apply list_elem_of_fmap. by exists d.
      * by destruct (courier_later_step d h dt) as (-> & _).
  - change (apply_call a (Updated h dt (rnd i))) with (Agent.update a h dt (rnd i)).
    rewrite count_delivery_snoc, count_delivery_update.
    pose proof (courier_step_rank d h dt) as Hsr. cbv zeta in Hsr.
    destruct Hsr as (Hag & _ & _ & _ & _ & _ & _ & _ & Hdel & Hnot).
    assert (Hph : DeliveryDriver.phase_ d = DeliveryDriver.delivering).
    { destruct (decide (DeliveryDriver.phase_ d = DeliveryDriver.delivering)); [done |].
      rewrite Hnot in Harr by done. done. }
    assert (H0 : count_delivery (Agent.log a) = 0%nat).
    { apply (H2 d Hd Hdi). rewrite Hph. simpl. lia. }
    assert (Hdrop : DeliveryDriver.phase_ (courier_step d h dt)
                    = DeliveryDriver.dropping_off) by by apply Hdel.
    assert (Hsame : forall d0, d0 ∈ Simulation.drivers s ->
              DeliveryDriver.agent d0 = i -> d0 = d).
    { intros d0 Hd0 Hi0.
      apply list_elem_of_lookup in Hd0 as [j0 Hj0]. apply list_elem_of_lookup in Hd as [j Hj].
      assert (j0 = j).
      { apply (NoDup_lookup _ _ _ i Hnd); rewrite list_lookup_fmap.
        - by rewrite Hj0; simpl; f_equal.
        - by rewrite Hj; simpl; f_equal. }
      congruence. }
    rewrite H0. split_and!; [lia | |].
    + intros d' Hd' Hi' Hrank. destruct (Hstep d' Hd') as (d0 & Hd0 & ->).
      assert (d0 = d) as ->.
      { apply Hsame; [done |]. by destruct (courier_later_step d0 h dt) as (<- & _). }
      rewrite Hdrop in Hrank. simpl in Hrank. lia.
    + intros Hnone. exfalso. apply (Hnone (courier_step d h dt)).
      * rewrite Hdr. apply list_elem_of_fmap. by exists d.
      * congruence.
Qed.

(** X13.  Deliveries in a run.  No agent ever has more than one
    "Delivery by ..." entry in its log, and an agent that does not order in
    never has one. *)
Theorem one_delivery_per_agent (c : City) (now0 : Q) (shuffled : list cell)
    (rs : nat -> Simulation.spawn) (frames : list Simulation.frame) (i : nat)
    (a : Agent.t) :
  let s0 := Simulation.start (Simulation.generateCity c) now0 shuffled rs in
  Simulation.agents (Simulation.run s0 frames) !! i = Some a ->
  (count_delivery (Agent.log a) <= 1)%nat /\
  (Agent.ordersDelivery a = false -> count_delivery (Agent.log a) = 0%nat).
Proof.
  intros s0 Ha.
  assert (Hinv : delivery_inv (Simulation.agents (Simulation.run s0 frames))
                   (Simulation.drivers (Simulation.run s0 frames))).
  { apply (run_invariant delivery_inv delivery_inv_tick).
    destruct (start_spec c now0 shuffled rs) as (pool & Hag & Hdr). fold s0 in Hag, Hdr.
    split.
    - rewrite Hdr. apply spawn_drivers_agents.
    - intros j b Hb.
      pose proof (start_agents_fresh c now0 shuffled rs) as Hfresh. fold s0 in Hfresh.
      eapply Forall_lookup_1 in Hfresh as (Hl & _); [| exact Hb].
      rewrite Hl. change (count_delivery []) with 0%nat. split_and!; (done || lia). }
  destruct Hinv as [_ Hinv]. destruct (Hinv i a Ha) as (H1 & _ & H3).
  split; [done |]. intros Hno. apply H3. intros d Hd Hdi.
  pose proof (run_couriers_later s0 frames) as Hrel.
  apply list_elem_of_lookup in Hd as [j Hj].
  eapply Forall2_lookup_r in Hrel as (d0 & Hd0 & Hlater); [| exact Hj].
  destruct (start_spec c now0 shuffled rs) as (pool & Hag & Hdr). fold s0 in Hag, Hdr.
  rewrite Hdr in Hd0. apply list_elem_of_lookup_2 in Hd0.
  apply spawn_drivers_spec in Hd0 as (k & b & e & Hb & Hk & Hord & _).
  simpl in Hk.
  pose proof (run_agents_rel (fun a a' => same_schedule a a')
                same_schedule_refl same_schedule_trans
                (fun a0 c0 => proj1 (apply_call_log a0 c0)) frames s0 k) as Hk'.
  rewrite Hb in Hk'. destruct Hk' as (b' & Hb' & Hsch).
  destruct Hlater as (Hagent & _).
  assert (k = i) as -> by congruence.
  assert (b' = a) as -> by congruence.
  apply same_schedule_orders in Hsch. congruence.
Qed.

Lemma courier_lifecycle_witness :
  let s := Scenario.far_start in
  let d := Scenario.first_driver s in
  Simulation.drivers s !! 0%nat = Some d /\
  exists d', Simulation.drivers (Simulation.run s Scenario.late_frames) !! 0%nat = Some d' /\
    DeliveryDriver.agent d' = DeliveryDriver.agent d /\
    (driver_rank (DeliveryDriver.phase_ d) <= driver_rank (DeliveryDriver.phase_ d'))%nat.
Proof.
  cbv zeta.
  assert (H : Simulation.drivers Scenario.far_start !! 0%nat
              = Some (Scenario.first_driver Scenario.far_start))
    by (vm_compute; reflexivity).
  split; [exact H |].
  destruct (courier_lifecycle Scenario.far_start
              (Simulation.mkFrame 41250 (fun _ => 0%Q)) Scenario.late_frames 0 _ H)
    as (_ & d' & Hd' & Hag & _ & _ & _ & _ & Hrank & _).
  exists d'. split_and!; [exact Hd' | exact Hag | exact Hrank].
Defined.

Lemma one_delivery_per_agent_witness :
  let s := Simulation.run Scenario.far_start Scenario.late_frames in
  Simulation.agents s !! 0%nat = Some (Scenario.first_agent s) /\
  (count_delivery (Agent.log (Scenario.first_agent s)) <= 1)%nat.
Proof.
  cbv zeta.
  assert (H : Simulation.agents (Simulation.run Scenario.far_start Scenario.late_frames)
              !! 0%nat
              = Some (Scenario.first_agent
                        (Simulation.run Scenario.far_start Scenario.late_frames)))
    by (vm_compute; reflexivity).
  split; [exact H |].
  exact (proj1 (one_delivery_per_agent Scenario.city_far 0 [] Scenario.rs0
                  Scenario.late_frames 0 _ H)).
Defined.

(** ** Starting a simulation *)

Lemma unit_draw_index (r : Q) (n : nat) :
  (0 < n)%nat -> unit_draw r ->
  (Z.to_nat (Qfloor (r * Qz (Z.of_nat n))) < n)%nat.
Proof.
  intros Hn [H0 H1].
  assert (Hpos : (0 < Qz (Z.of_nat n))%Q).
  { unfold Qz. change 0%Q with (inject_Z 0). rewrite <- Zlt_Qlt. lia. }
  assert (Hlt : (r * Qz (Z.of_nat n) < Qz (Z.of_nat n))%Q).
  { rewrite <- (Qmult_1_l (Qz (Z.of_nat n))) at 2. by apply Qmult_lt_compat_r. }
  assert (Hge : (0 <= r * Qz (Z.of_nat n))%Q) by (apply Qmult_le_0_compat; lra).
  pose proof (Qfloor_le (r * Qz (Z.of_nat n))) as Hfl.
  assert (Hz : (Qfloor (r * Qz (Z.of_nat n)) < Z.of_nat n)%Z).
  { rewrite Zlt_Qlt. unfold Qz in *. lra. }
  assert (Hz0 : (0 <= Qfloor (r * Qz (Z.of_nat n)))%Z).
  { change 0%Z with (Qfloor 0). by apply Qfloor_resp_le. }
  lia.
Qed.

(** X14.  [arr[Math.floor(Math.random() * arr.length)]] on an array that is
    not empty is an element of the array, never [undefined]. *)
Theorem pick_in_array (arr : list cell) (r : Q) :
  arr <> [] -> unit_draw r ->
  exists c, Simulation.pick arr r = Some c /\ c ∈ arr.
Proof.
  intros Hne Hr. unfold Simulation.pick.
  assert (Hlen : (0 < length arr)%nat) by (destruct arr; [done | simpl; lia]).
  destruct (lookup_lt_is_Some_2 arr _ (unit_draw_index r (length arr) Hlen Hr)) as [c Hc].
  exists c. split; [done |]. by eapply list_elem_of_lookup_2.
Qed.

Lemma pick_elem (arr : list cell) (r : Q) (c : cell) :
  Simulation.pick arr r = Some c -> c ∈ arr.
Proof. unfold Simulation.pick. apply list_elem_of_lookup_2. Qed.

Lemma pick_is_Some (arr : list cell) (r : Q) :
  arr <> [] -> unit_draw r -> is_Some (Simulation.pick arr r).
Proof.
  intros Hne Hr. unfold Simulation.pick. apply lookup_lt_is_Some_2.
  apply unit_draw_index; [| done]. destruct arr; [done | simpl; lia].
Qed.

Lemma pick_empty (r : Q) : Simulation.pick [] r = None.
Proof. unfold Simulation.pick. by rewrite lookup_nil. Qed.

(** The loop that creates the agents, one per home of the pool. *)
Lemma spawn_agents_exact (c : City) (rs : nat -> Simulation.spawn) (pool : list cell) :
  forall k i,
  Simulation.spawn_agents c pool k rs !! i
  = (fun home =>
       Agent.constructor (k + i) home
         (default (0, 0) (Simulation.pick (businesses c)
                            (Simulation.r_workplace (rs (k + i)%nat))))
         (Simulation.pick (leisureSpots c) (Simulation.r_leisureSpot (rs (k + i)%nat)))
         (Simulation.pick (eateries c) (Simulation.r_eatery (rs (k + i)%nat)))
         c (Simulation.r_agent (rs (k + i)%nat)))
    <$> pool !! i.
Proof.
  induction pool as [| home pool IH]; intros k i; [done |].
  destruct i as [| i]; simpl.
  - by rewrite Nat.add_0_r.
  - rewrite IH. by replace (S k + i)%nat with (k + S i)%nat by lia.
Qed.

Lemma spawn_agents_length (c : City) (rs : nat -> Simulation.spawn) (pool : list cell) :
  forall k, length (Simulation.spawn_agents c pool k rs) = length pool.
Proof. induction pool as [| home pool IH]; intros k; simpl; [done | by rewrite IH]. Qed.

(** What [start] makes of a freshly generated city. *)
Lemma start_exact (c : City) (now0 : Q) (shuffled : list cell)
    (rs : nat -> Simulation.spawn) :
  let s0 := Simulation.start (Simulation.generateCity c) now0 shuffled rs in
  let pool := if bool_decide (Simulation.MAX_AGENTS < length (houses c))%nat
              then take Simulation.MAX_AGENTS shuffled else houses c in
  Simulation.city s0 = c /\
  ((houses c = [] \/ businesses c = []) /\
   Simulation.agents s0 = [] /\ Simulation.drivers s0 = [] /\
   Simulation.running s0 = false
   \/
   (houses c <> [] /\ businesses c <> []) /\
   Simulation.agents s0 = Simulation.spawn_agents c pool 0 rs /\
   Simulation.drivers s0 = Simulation.spawn_drivers c (Simulation.agents s0) 0 rs /\
   Simulation.running s0 = bool_decide (pool <> []) /\
   (Simulation.running s0 = true ->
    Simulation.startTime s0 = now0 /\ Simulation.lastFrameTime s0 = now0 /\
    Simulation._pausedTotal s0 = 0%Q)).
Proof.
  cbv zeta. unfold Simulation.start, Simulation.generateCity, Simulation._createAgents.
  simpl.
  destruct (houses c) as [| h0 hs] eqn:Hh; simpl.
  { split; [done |]. left. split_and!; auto. }
  destruct (businesses c) as [| b0 bs] eqn:Hb; simpl.
  { split; [done |]. left. split_and!; auto. }
  set (pool := if bool_decide (Simulation.MAX_AGENTS < S (length hs))%nat
               then take Simulation.MAX_AGENTS shuffled else h0 :: hs).
  destruct (bool_decide (length (Simulation.spawn_agents c pool 0 rs) = 0%nat)) eqn:Hz.
  - apply bool_decide_eq_true in Hz. rewrite spawn_agents_length in Hz.
    apply nil_length_inv in Hz. simpl. split; [done |]. right.
    rewrite Hz. simpl. split_and!; try done.
  - apply bool_decide_eq_false in Hz. rewrite spawn_agents_length in Hz.
    simpl. split; [done |]. right. split_and!; try done.
    symmetry. apply bool_decide_eq_true. intros ->. done.
Qed.

(** The loop that creates the couriers misses no agent that orders in. *)
Lemma spawn_drivers_complete (c : City) (rs : nat -> Simulation.spawn)
    (agents : list Agent.t) :
  forall k j a e,
  agents !! j = Some a -> Agent.ordersDelivery a = true -> Agent.eatery a = Some e ->
  DeliveryDriver.constructor e (Agent.workplace a) (k + j) a c
    (Simulation.SIM_DURATION_HOURS / Simulation.SIM_DURATION_REAL)%Q
    (Simulation.r_driver (rs (k + j)%nat))
  ∈ Simulation.spawn_drivers c agents k rs.
Proof.
  induction agents as [| a0 agents IH]; intros k j a e Ha Ho He; [done |].
  destruct j as [| j]; simpl in *.
  - injection Ha as ->. rewrite Ho, He. simpl. rewrite Nat.add_0_r. by left.
  - specialize (IH (S k) j a e Ha Ho He).
    replace (S k + j)%nat with (k + S j)%nat in IH by lia.
    destruct (negb (Agent.ordersDelivery a0)); [done |].
    destruct (Agent.eatery a0); [by right | done].
Qed.

Lemma pick_in_array_witness :
  [(2, 0)] <> ([] : list cell) /\ unit_draw 0 /\
  exists c, Simulation.pick [(2, 0)] 0 = Some c /\ c ∈ [(2, 0)].
Proof.
  assert (H1 : [(2, 0)] <> ([] : list cell)) by discriminate.
  assert (H2 : unit_draw 0) by (unfold unit_draw; lra).
  split_and!; [exact H1 | exact H2 | exact (pick_in_array [(2, 0)] 0 H1 H2)].
Defined.

Lemma rs0_valid (k : nat) : valid_spawn (Scenario.rs0 k).
Proof.
  unfold valid_spawn, valid_draws, unit_draw. simpl. split_and!; lra.
Defined.

(** ** [_shuffle] *)

(** Exchanging two elements of a list rearranges it. *)
Lemma swap_Permutation {A} (l : list A) (i j : nat) (x y : A) :
  l !! i = Some x -> l !! j = Some y ->
  <[j := x]> (<[i := y]> l) ≡ₚ l.
Proof.
  intros Hi Hj.
  assert (Hil : (i < length l)%nat) by by eapply lookup_lt_Some.
  assert (Hjl : (j < length l)%nat) by by eapply lookup_lt_Some.
  apply Permutation_inj. split; [by rewrite !length_insert |].
  exists (fun k => if decide (k = i) then j else if decide (k = j) then i else k).
  split.
  - intros k1 k2. repeat case_decide; subst; congruence.
  - intros k. rewrite !list_lookup_insert, !length_insert.
    destruct (decide (i = j)) as [-> | Hne].
    + repeat case_decide; subst; destruct_and?; try lia; congruence.
    + repeat case_decide; subst; destruct_and?; try lia; try congruence.
      all: try (exfalso; naive_solver lia).
Qed.

Lemma js_swap_in_range {A} (l : list A) (i j : nat) (x y : A) :
  l !! i = Some x -> l !! j = Some y ->
  js_swap (Some <$> l) (Z.of_nat i) (Z.of_nat j) = Some <$> <[j := x]> (<[i := y]> l).
Proof.
  intros Hi Hj.
  assert (Hil : (i < length l)%nat) by by eapply lookup_lt_Some.
  assert (Hjl : (j < length l)%nat) by by eapply lookup_lt_Some.
  unfold js_swap, js_get, js_set.
  rewrite !(proj2 (Z.ltb_ge _ 0)) by lia. rewrite !Nat2Z.id.
  rewrite !list_lookup_fmap, Hi, Hj. simpl.
  rewrite (bool_decide_true (i < length (Some <$> l))%nat) by (rewrite length_fmap; lia).
  rewrite bool_decide_true by (rewrite length_insert, length_fmap; lia).
  by rewrite !list_fmap_insert.
Qed.

Lemma shuffle_from_permutation {A} (rnd : nat -> Q) :
  (forall i, unit_draw (rnd i)) ->
  forall (i : nat) (l : list A), (i < length l)%nat ->
  exists l', shuffle_from i (Some <$> l) rnd = Some <$> l' /\ l' ≡ₚ l.
Proof.
  intros Hrnd i. induction i as [| i IH]; intros l Hi.
  - by exists l.
  - cbn [shuffle_from].
    pose proof (unit_draw_index (rnd (S i)) (S (S i)) ltac:(lia) (Hrnd (S i))) as Hj.
    assert (Hcast : Qz (Z.of_nat (S i) + 1) = Qz (Z.of_nat (S (S i)))).
    { f_equal. lia. }
    rewrite Hcast.
    set (j := Z.to_nat (Qfloor (rnd (S i) * Qz (Z.of_nat (S (S i)))))) in *.
    assert (Hjz : Qfloor (rnd (S i) * Qz (Z.of_nat (S (S i)))) = Z.of_nat j).
    { unfold j. rewrite Z2Nat.id; [done |].
      change 0 with (Qfloor 0). apply Qfloor_resp_le.
      apply Qmult_le_0_compat; [apply (Hrnd (S i)) |].
      unfold Qz. change 0%Q with (inject_Z 0). rewrite <- Zle_Qle. lia. }
    rewrite Hjz.
    destruct (lookup_lt_is_Some_2 l (S i) Hi) as [x Hx].
    destruct (lookup_lt_is_Some_2 l j ltac:(lia)) as [y Hy].
    rewrite (js_swap_in_range l (S i) j x y Hx Hy).
    destruct (IH (<[j := x]> (<[S i := y]> l))) as (l' & Heq & Hperm).
    { rewrite !length_insert. lia. }
    exists l'. split; [done |]. rewrite Hperm. by apply swap_Permutation.
Qed.

(** The houses as [_createAgents] shuffles them. *)
Lemma shuffled_houses_Permutation (c : City) (rnd : nat -> Q) :
  (forall i, unit_draw (rnd i)) -> shuffled_houses c rnd ≡ₚ houses c.
Proof.
  intros Hrnd. unfold shuffled_houses, _shuffle. rewrite length_fmap.
  assert (Hsh : exists l', shuffle_from (length (houses c) - 1) (Some <$> houses c) rnd
                           = Some <$> l' /\ l' ≡ₚ houses c).
  { destruct (houses c) as [| x l]; [by exists [] |].
    apply shuffle_from_permutation; [done |]. simpl. lia. }
  destruct Hsh as (l' & -> & Hperm).
  rewrite <- Hperm. clear. induction l' as [| x l' IH]; [done |].
  simpl. by rewrite IH.
Qed.

Lemma halves_unit (i : nat) : unit_draw (Cases.halves i).
Proof. split; [discriminate | reflexivity]. Defined.


(** ** [start], through its call of [_loop] *)

(** On a page that was just loaded with the city [c], [start] creates the
    agents and couriers and runs the first frame. *)
Lemma playback_start_sim (c : City) (now0 : Q) (shuffled : list cell)
    (rs : nat -> Simulation.spawn) (f : Simulation.frame) :
  Playback.sim (Playback.start (Playback.constructor c) now0 shuffled rs f)
  = Simulation._loop (Simulation.start (Simulation.generateCity c) now0 shuffled rs) f.
Proof.
  unfold Playback.start.
  change (Playback.sim (Playback.constructor c)) with (Simulation.generateCity c).
  change (Simulation.running (Simulation.generateCity c)
          || Playback._replaying (Playback.constructor c)) with false.
  cbv iota zeta.
  set (m := Simulation.start (Simulation.generateCity c) now0 shuffled rs).
  assert (Hm : bool_decide (length (Simulation.agents m) = 0%nat) = true ->
               Simulation.running m = false).
  { intros Hz. apply bool_decide_eq_true in Hz. apply nil_length_inv in Hz.
    destruct (start_exact c now0 shuffled rs) as (_ & [(_ & _ & _ & Hr) | (_ & Hag & _ & Hr & _)]);
      fold m in Hr; [done |].
    fold m in Hag. rewrite Hr. apply bool_decide_eq_false. intros Hne.
    rewrite Hz in Hag. symmetry in Hag. apply (f_equal length) in Hag.
    rewrite spawn_agents_length in Hag. by destruct (if bool_decide _ then _ else _). }
  destruct (bool_decide (length (Simulation.agents m) = 0%nat)) eqn:Hz.
  - simpl. unfold Simulation._loop. by rewrite (Hm eq_refl).
  - unfold Playback._loop. simpl.
    destruct (Simulation.running m) eqn:Hr; simpl.
    + by destruct (geq _ _).
    + unfold Simulation._loop. by rewrite Hr.
Qed.

(** The first frame keeps every agent in its place in the array, with its
    identity, places and schedule. *)
Lemma first_frame_agents (s0 : Simulation.t) (f : Simulation.frame) (i : nat) :
  match Simulation.agents s0 !! i with
  | Some a0 =>
      exists a, Simulation.agents (Simulation._loop s0 f) !! i = Some a /\
                same_schedule a0 a
  | None => Simulation.agents (Simulation._loop s0 f) !! i = None
  end.
Proof.
  apply (run_agents_rel same_schedule same_schedule_refl same_schedule_trans
           (fun a c => proj1 (apply_call_log a c)) [f] s0 i).
Qed.

Lemma first_frame_homes (s0 : Simulation.t) (f : Simulation.frame) :
  Agent.home <$> Simulation.agents (Simulation._loop s0 f)
  = Agent.home <$> Simulation.agents s0.
Proof.
  apply list_eq. intros i. rewrite !list_lookup_fmap.
  pose proof (first_frame_agents s0 f i) as H.
  destruct (Simulation.agents s0 !! i) as [a0 |].
  - destruct H as (a & -> & Hs). simpl. f_equal. unfold same_schedule in Hs. tauto.
  - by rewrite H.
Qed.

Lemma first_frame_length (s0 : Simulation.t) (f : Simulation.frame) :
  length (Simulation.agents (Simulation._loop s0 f)) = length (Simulation.agents s0).
Proof.
  rewrite <- (length_fmap Agent.home (Simulation.agents (Simulation._loop s0 f))).
  by rewrite first_frame_homes, length_fmap.
Qed.

(** What the first frame may do to a courier: nothing, or one step. *)
Lemma first_frame_drivers (s0 : Simulation.t) (f : Simulation.frame) :
  exists h dt,
    Forall2 (fun d d' => d' = d \/ d' = courier_step d h dt)
      (Simulation.drivers s0) (Simulation.drivers (Simulation._loop s0 f)).
Proof.
  destruct (loop_cases s0 f) as (_ & _ & [[_ Hd] | (s1 & dt & _ & Hd & Hl)]).
  - exists 0%Q, 0%Q. rewrite Hd. apply Forall_Forall2_diag, Forall_forall. auto.
  - exists (Simulation.simHours s0 (Simulation.now f)), dt.
    rewrite Hl. destruct (tick_spec s1 (Simulation.simHours s0 (Simulation.now f)) dt
                            (Simulation.rnd f)) as (-> & _).
    rewrite Hd. apply Forall2_fmap_r, Forall_Forall2_diag, Forall_forall. auto.
Qed.

Lemma Forall2_under {A B} (P : A -> Prop) (R R' : A -> B -> Prop) (l : list A)
    (k : list B) :
  Forall P l -> Forall2 R l k -> (forall x y, P x -> R x y -> R' x y) -> Forall2 R' l k.
Proof.
  intros HP HR Himp. induction HR as [| x y l k Hxy _ IH]; [constructor |].
  apply Forall_cons in HP as [Hx HP]. constructor; [by apply Himp | by apply IH].
Qed.

(** A courier that is waiting, or has nowhere to go, stays where it is. *)
Lemma courier_step_stays (d : DeliveryDriver.t) (h dt : Q) :
  DeliveryDriver.phase_ d = DeliveryDriver.waiting \/
  DeliveryDriver.phase_ d = DeliveryDriver.done ->
  DeliveryDriver.x (courier_step d h dt) = DeliveryDriver.x d /\
  DeliveryDriver.y (courier_step d h dt) = DeliveryDriver.y d.
Proof.
  unfold courier_step, DeliveryDriver.update. intros [-> | ->].
  - by destruct (geq_x h (DeliveryDriver.departureTime d)).
  - done.
Qed.

(** The agents [start] has created before its first frame. *)
Lemma created_population (c : City) (now0 : Q) (shuffled : list cell)
    (rs : nat -> Simulation.spawn) :
  (forall k, valid_spawn (rs k)) -> shuffled ≡ₚ houses c ->
  let s0 := Simulation.start (Simulation.generateCity c) now0 shuffled rs in
  (length (Simulation.agents s0) <= Simulation.MAX_AGENTS)%nat /\
  Agent.home <$> Simulation.agents s0 ⊆+ houses c /\
  ((length (houses c) <= Simulation.MAX_AGENTS)%nat -> businesses c <> [] ->
   Agent.home <$> Simulation.agents s0 = houses c) /\
  ((Simulation.MAX_AGENTS < length (houses c))%nat -> businesses c <> [] ->
   length (Simulation.agents s0) = Simulation.MAX_AGENTS) /\
  (Simulation.agents s0 <> [] <-> houses c <> [] /\ businesses c <> []) /\
  (Simulation.running s0 = true <-> Simulation.agents s0 <> []) /\
  (Simulation.running s0 = true ->
   Simulation.startTime s0 = now0 /\ Simulation._pausedTotal s0 = 0%Q) /\
  forall i a, Simulation.agents s0 !! i = Some a ->
    Agent.id a = i /\ Agent.city a = c /\
    Agent.home a ∈ houses c /\ Agent.workplace a ∈ businesses c /\
    match Agent.leisureSpot a with
    | Some l => l ∈ leisureSpots c
    | None => leisureSpots c = []
    end /\
    match Agent.eatery a with
    | Some e => e ∈ eateries c
    | None => eateries c = []
    end.
Proof.
  intros Hrs Hperm s0.
  pose proof (start_exact c now0 shuffled rs) as Hs. cbv zeta in Hs. fold s0 in Hs.
  set (pool := if bool_decide (Simulation.MAX_AGENTS < length (houses c))%nat
               then take Simulation.MAX_AGENTS shuffled else houses c) in *.
  assert (Hhomes : forall k, Agent.home <$> Simulation.spawn_agents c pool k rs = pool).
  { intros k. apply list_eq. intros i. rewrite list_lookup_fmap, spawn_agents_exact.
    by destruct (pool !! i). }
  assert (Hpool_sub : pool ⊆+ houses c).
  { unfold pool. destruct (bool_decide _); [| done].
    rewrite <- Hperm. apply sublist_submseteq, sublist_take. }
  assert (Hpool_len : (Simulation.MAX_AGENTS < length (houses c))%nat ->
                      length pool = Simulation.MAX_AGENTS).
  { intros Hlt. unfold pool. rewrite bool_decide_true by done. rewrite length_take.
    apply Permutation_length in Hperm. lia. }
  assert (Hpool_max : (length pool <= Simulation.MAX_AGENTS)%nat).
  { unfold pool. destruct (bool_decide _) eqn:Hb.
    - rewrite length_take. lia.
    - apply bool_decide_eq_false in Hb. lia. }
  assert (Hpool_ne : houses c <> [] -> pool <> []).
  { intros Hne Hnil.
    destruct (decide (Simulation.MAX_AGENTS < length (houses c))%nat) as [Hlt | Hge].
    - apply Hpool_len in Hlt. rewrite Hnil in Hlt. done.
    - unfold pool in Hnil. by rewrite bool_decide_false in Hnil. }
  destruct Hs as [Hcity [(Hempty & Hag & Hdr & Hrun) | ((Hh & Hb) & Hag & Hdr & Hrun & Htime)]].
  - rewrite Hag, Hrun. simpl. split_and!; try lia; try done.
    + apply submseteq_nil_l.
    + intros Hle Hbne. destruct Hempty as [-> | ?]; done.
    + intros Hlt Hbne. destruct Hempty as [Hn | ?]; [| done].
      rewrite Hn in Hlt. simpl in Hlt. lia.
    + split; [done |]. intros [? ?]. destruct Hempty; done.
  - assert (Hne : Simulation.agents s0 <> []).
    { rewrite Hag. intros Hnil. apply (f_equal length) in Hnil.
      rewrite spawn_agents_length in Hnil. apply nil_length_inv in Hnil.
      by apply Hpool_ne. }
    rewrite Hrun. split_and!.
    + by rewrite Hag, spawn_agents_length.
    + by rewrite Hag, Hhomes.
    + intros Hle _. rewrite Hag, Hhomes. unfold pool. by rewrite bool_decide_false by lia.
    + intros Hlt _. rewrite Hag, spawn_agents_length. by apply Hpool_len.
    + done.
    + rewrite bool_decide_eq_true. split; [done |]. intros _. by apply Hpool_ne.
    + intros Hr. rewrite Hrun in Htime. destruct (Htime Hr) as (? & _ & ?). done.
    + intros i a Hi. rewrite Hag, spawn_agents_exact in Hi.
      destruct (pool !! i) as [home |] eqn:Hhome; [| done].
      simpl in Hi. injection Hi as <-. simpl.
      destruct (Hrs i) as (Hw & Hl & He & _).
      split_and!; [done | done | | | |].
      * eapply elem_of_submseteq; [| exact Hpool_sub]. by eapply list_elem_of_lookup_2.
      * destruct (pick_is_Some (businesses c) _ Hb Hw) as [w Hpick].
        rewrite Hpick. simpl. by eapply pick_elem.
      * destruct (leisureSpots c) as [| l0 ls] eqn:Hls; [by rewrite pick_empty |].
        destruct (pick_is_Some (l0 :: ls) _ ltac:(done) Hl) as [l Hpick].
        rewrite Hpick. by eapply pick_elem.
      * destruct (eateries c) as [| e0 es] eqn:Hes; [by rewrite pick_empty |].
        destruct (pick_is_Some (e0 :: es) _ ltac:(done) He) as [e Hpick].
        rewrite Hpick. by eapply pick_elem.
Qed.

(** X15.  The population after [start], on a page just loaded with the
    city [c]; [sh] are the draws of [_shuffle], [f] is the frame that the
    call of [_loop] at the end of [start] runs.  With draws that are values
    of [Math.random()]: there are at most 150 agents; their homes, taken
    with multiplicity, are among the houses of the city, so that no entry
    of the house list is the home of two agents; with 150 houses or fewer
    and a business there is one agent per house, in the order of the
    houses, and with more there are exactly 150 agents; there are agents
    exactly when the city has a house and a business; the simulation runs
    only if there are agents, and it does run when the first frame comes
    within a second of the start; and agent number [i] has id [i], lives
    in a house of the city, works in one of its businesses, and has a
    leisure spot and an eatery of the city whenever the city has any. *)
Theorem start_population (c : City) (now0 : Q) (sh : nat -> Q)
    (rs : nat -> Simulation.spawn) (f : Simulation.frame) :
  (forall k, valid_spawn (rs k)) -> (forall i, unit_draw (sh i)) ->
  let s := Playback.sim (Playback.start (Playback.constructor c) now0
                           (shuffled_houses c sh) rs f) in
  (length (Simulation.agents s) <= Simulation.MAX_AGENTS)%nat /\
  Agent.home <$> Simulation.agents s ⊆+ houses c /\
  ((length (houses c) <= Simulation.MAX_AGENTS)%nat -> businesses c <> [] ->
   Agent.home <$> Simulation.agents s = houses c) /\
  ((Simulation.MAX_AGENTS < length (houses c))%nat -> businesses c <> [] ->
   length (Simulation.agents s) = Simulation.MAX_AGENTS) /\
  (Simulation.agents s <> [] <-> houses c <> [] /\ businesses c <> []) /\
  (Simulation.running s = true -> Simulation.agents s <> []) /\
  (Simulation.agents s <> [] -> (Simulation.now f - now0 <= 1000)%Q ->
   Simulation.running s = true) /\
  forall i a, Simulation.agents s !! i = Some a ->
    Agent.id a = i /\ Agent.city a = c /\
    Agent.home a ∈ houses c /\ Agent.workplace a ∈ businesses c /\
    match Agent.leisureSpot a with
    | Some l => l ∈ leisureSpots c
    | None => leisureSpots c = []
    end /\
    match Agent.eatery a with
    | Some e => e ∈ eateries c
    | None => eateries c = []
    end.
Proof.
  intros Hrs Hsh. cbv zeta. rewrite playback_start_sim.
  pose proof (created_population c now0 (shuffled_houses c sh) rs Hrs
                (shuffled_houses_Permutation c sh Hsh)) as H0.
  cbv zeta in H0.
  set (s0 := Simulation.start (Simulation.generateCity c) now0 (shuffled_houses c sh) rs) in *.
  destruct H0 as (Hmax & Hsub & Hall & Hcap & Hany & Hrun & Htime & Hag).
  pose proof (first_frame_homes s0 f) as Hhomes.
  pose proof (first_frame_length s0 f) as Hlen.
  assert (Hnil : Simulation.agents (Simulation._loop s0 f) <> [] <->
                 Simulation.agents s0 <> []).
  { split; intros Hne Heq; apply Hne; apply nil_length_inv;
      apply (f_equal length) in Heq; simpl in Heq; lia. }
  split_and!.
  - by rewrite Hlen.
  - by rewrite Hhomes.
  - by rewrite Hhomes.
  - by rewrite Hlen.
  - by rewrite Hnil.
  - intros Hr. apply Hnil, Hrun.
    destruct (Simulation.running s0) eqn:Hr0; [done |].
    unfold Simulation._loop in Hr. rewrite Hr0 in Hr. simpl in Hr. congruence.
  - intros Hne Hsoon. apply Hnil, Hrun in Hne.
    destruct (Htime Hne) as [Hst Hpt].
    unfold Simulation._loop. rewrite Hne. simpl.
    assert (Hg : geq (Simulation.elapsedTotal s0 (Simulation.now f))
                   Simulation.SIM_DURATION_REAL = false).
    { unfold geq. apply not_true_iff_false. rewrite Qle_bool_iff.
      unfold Simulation.elapsedTotal, Simulation.SIM_DURATION_REAL. rewrite Hst, Hpt.
      unfold Qdiv. change (/ 1000)%Q with (1 # 1000)%Q. lra. }
    rewrite Hg. unfold Simulation.tick.
    by destruct (Simulation.update_drivers _ _ _ _).
  - intros i a Hi.
    pose proof (first_frame_agents s0 f i) as Hf.
    destruct (Simulation.agents s0 !! i) as [a0 |] eqn:Ha0; [| congruence].
    destruct Hf as (a' & Ha' & Hs). assert (a' = a) as -> by congruence.
    destruct (Hag i a0 Ha0) as (H1 & H2 & H3 & H4 & H5 & H6).
    destruct Hs as (Eid & Ehome & Ework & Eleis & Eeat & Ecity & _).
    by rewrite Eid, Ehome, Ework, Eleis, Eeat, Ecity.
Qed.

(** The couriers [start] has created before its first frame. *)
Lemma created_couriers (c : City) (now0 : Q) (shuffled : list cell)
    (rs : nat -> Simulation.spawn) :
  let s0 := Simulation.start (Simulation.generateCity c) now0 shuffled rs in
  NoDup (DeliveryDriver.agent <$> Simulation.drivers s0) /\
  (length (Simulation.drivers s0) <= length (Simulation.agents s0))%nat /\
  (forall d, d ∈ Simulation.drivers s0 ->
     (DeliveryDriver.phase_ d = DeliveryDriver.waiting \/
      DeliveryDriver.phase_ d = DeliveryDriver.done) /\
     exists a, Simulation.agents s0 !! DeliveryDriver.agent d = Some a /\
               Agent.ordersDelivery a = true) /\
  forall i a, Simulation.agents s0 !! i = Some a -> Agent.ordersDelivery a = true ->
    exists d e, d ∈ Simulation.drivers s0 /\ DeliveryDriver.agent d = i /\
      Agent.eatery a = Some e /\ DeliveryDriver.eatery d = e /\
      DeliveryDriver.business d = Agent.workplace a /\
      DeliveryDriver.x d = Qz e.1 /\ DeliveryDriver.y d = Qz e.2.
Proof.
  intros s0.
  destruct (start_spec c now0 shuffled rs) as (pool & Hag & Hdr). fold s0 in Hag, Hdr.
  split_and!.
  - rewrite Hdr. apply spawn_drivers_agents.
  - pose proof (spawn_drivers_agents c rs (Simulation.agents s0) 0) as [Hge Hnd].
    rewrite <- Hdr in Hge, Hnd.
    assert (Hsub : DeliveryDriver.agent <$> Simulation.drivers s0
                   ⊆+ seq 0 (length (Simulation.agents s0))).
    { apply NoDup_submseteq; [done |]. intros j Hj.
      apply list_elem_of_fmap in Hj as (d & -> & Hd). rewrite Hdr in Hd.
      apply spawn_drivers_spec in Hd as (k & b & e & Hb & -> & _).
      apply elem_of_seq. apply lookup_lt_Some in Hb. simpl. lia. }
    apply submseteq_length in Hsub. by rewrite length_fmap, length_seq in Hsub.
  - intros d Hd. rewrite Hdr in Hd.
    apply spawn_drivers_spec in Hd as (k & b & e & Hb & Hk & Hord & He & ->).
    split.
    + unfold DeliveryDriver.constructor. simpl.
      destruct (match findPath c e.1 e.2 (Agent.workplace b).1 (Agent.workplace b).2 with
                | Some l => bool_decide (1 < length l)%nat
                | None => false
                end); auto.
    + exists b. by split.
  - intros i a Ha Hord.
    assert (He : exists e, Agent.eatery a = Some e).
    { rewrite Hag in Ha. apply spawn_agents_lookup in Ha as (home & w & l & e & ->).
      destruct (constructor_orders (0 + i) home w l e c (Simulation.r_agent (rs (0 + i)%nat)))
        as (_ & _ & Heq & _).
      rewrite Heq in Hord. apply andb_prop in Hord as [_ Hord].
      destruct (Agent.eatery _) as [e' |]; [by exists e' | done]. }
    destruct He as [e He].
    pose proof (spawn_drivers_complete c rs (Simulation.agents s0) 0 i a e Ha Hord He) as Hin.
    rewrite <- Hdr in Hin. simpl in Hin.
    eexists _, e. split; [exact Hin |]. by split_and!.
Qed.

(** X16.  The couriers after [start], on a page just loaded with the city
    [c]; [f] is the frame that the call of [_loop] at the end of [start]
    runs.  No two couriers serve the same agent and there are no more
    couriers than agents; an agent that orders in has a courier, which
    stands on the agent's eatery and is bound for the agent's workplace;
    an agent that does not order in has none. *)
Theorem start_couriers (c : City) (now0 : Q) (shuffled : list cell)
    (rs : nat -> Simulation.spawn) (f : Simulation.frame) (i : nat) (a : Agent.t) :
  let s := Playback.sim (Playback.start (Playback.constructor c) now0 shuffled rs f) in
  Simulation.agents s !! i = Some a ->
  NoDup (DeliveryDriver.agent <$> Simulation.drivers s) /\
  (length (Simulation.drivers s) <= length (Simulation.agents s))%nat /\
  (Agent.ordersDelivery a = true ->
   exists d e, d ∈ Simulation.drivers s /\ DeliveryDriver.agent d = i /\
     Agent.eatery a = Some e /\ DeliveryDriver.eatery d = e /\
     DeliveryDriver.business d = Agent.workplace a /\
     DeliveryDriver.x d = Qz e.1 /\ DeliveryDriver.y d = Qz e.2) /\
  (Agent.ordersDelivery a = false ->
   forall d, d ∈ Simulation.drivers s -> DeliveryDriver.agent d <> i).
Proof.
  cbv zeta. rewrite playback_start_sim.
  pose proof (created_couriers c now0 shuffled rs) as H0. cbv zeta in H0.
  set (s0 := Simulation.start (Simulation.generateCity c) now0 shuffled rs) in *.
  destruct H0 as (Hnd & Hlen & Hfresh & Hhas).
  intros Ha.
  pose proof (first_frame_agents s0 f i) as Hf.
  destruct (Simulation.agents s0 !! i) as [a0 |] eqn:Ha0; [| congruence].
  destruct Hf as (a' & Ha' & Hs). assert (a' = a) as -> by congruence.
  destruct (first_frame_drivers s0 f) as (h & dt & Hds).
  assert (Hkeep : Forall2 (fun d d' =>
                    DeliveryDriver.agent d' = DeliveryDriver.agent d /\
                    DeliveryDriver.eatery d' = DeliveryDriver.eatery d /\
                    DeliveryDriver.business d' = DeliveryDriver.business d /\
                    DeliveryDriver.x d' = DeliveryDriver.x d /\
                    DeliveryDriver.y d' = DeliveryDriver.y d)
                  (Simulation.drivers s0) (Simulation.drivers (Simulation._loop s0 f))).
  { assert (Hall : Forall (fun d => DeliveryDriver.phase_ d = DeliveryDriver.waiting \/
                                    DeliveryDriver.phase_ d = DeliveryDriver.done)
                     (Simulation.drivers s0)).
    { apply Forall_forall. intros d Hd. by apply Hfresh. }
    apply (Forall2_under _ _ _ _ _ Hall Hds). intros d d' Hph [-> | ->]; [done |].
    destruct (courier_step_rank d h dt) as (E1 & E2 & E3 & _).
    destruct (courier_step_stays d h dt Hph) as [E4 E5]. done. }
  assert (Hsame : DeliveryDriver.agent <$> Simulation.drivers (Simulation._loop s0 f)
                  = DeliveryDriver.agent <$> Simulation.drivers s0).
  { clear -Hkeep. induction Hkeep as [| d d' ds ds' Hd _ IH]; [done |].
    rewrite !fmap_cons. destruct Hd as (-> & _). by f_equal. }
  split_and!.
  - by rewrite Hsame.
  - rewrite first_frame_length.
    rewrite <- (length_fmap DeliveryDriver.agent), Hsame, length_fmap. done.
  - intros Hord.
    assert (Hord0 : Agent.ordersDelivery a0 = true)
      by (rewrite <- Hord; symmetry; by apply same_schedule_orders).
    destruct (Hhas i a0 Ha0 Hord0) as (d0 & e & Hd0 & E1 & E2 & E3 & E4 & E5 & E6).
    apply list_elem_of_lookup_1 in Hd0 as [k Hk].
    destruct (Forall2_lookup_l _ _ _ _ _ Hkeep Hk) as (d & Hd & F1 & F2 & F3 & F4 & F5).
    exists d, e. split; [by eapply list_elem_of_lookup_2 |].
    destruct Hs as (_ & _ & Ework & _ & Eeat & _).
    split_and!; congruence.
  - intros Hno d Hd Hdi.
    assert (Hno0 : Agent.ordersDelivery a0 = false)
      by (rewrite <- Hno; symmetry; by apply same_schedule_orders).
    apply list_elem_of_lookup_1 in Hd as [k Hk].
    destruct (Forall2_lookup_r _ _ _ _ _ Hkeep Hk) as (d0 & Hd0 & F1 & _).
    destruct (Hfresh d0 ltac:(by eapply list_elem_of_lookup_2)) as (_ & b & Hb & Hordb).
    rewrite <- F1, Hdi, Ha0 in Hb. congruence.
Qed.

Lemma start_population_witness :
  (forall k, valid_spawn (Scenario.rs0 k)) /\
  (forall i, unit_draw (Cases.halves i)) /\
  let c := Cases.suburb in
  let s := Playback.sim (Playback.start (Playback.constructor c) 0
                           (shuffled_houses c Cases.halves) Scenario.rs0
                           Cases.first_frame) in
  (length (Simulation.agents s) <= Simulation.MAX_AGENTS)%nat /\
  Agent.home <$> Simulation.agents s ⊆+ houses c /\
  ((length (houses c) <= Simulation.MAX_AGENTS)%nat -> businesses c <> [] ->
   Agent.home <$> Simulation.agents s = houses c) /\
  ((Simulation.MAX_AGENTS < length (houses c))%nat -> businesses c <> [] ->
   length (Simulation.agents s) = Simulation.MAX_AGENTS) /\
  (Simulation.agents s <> [] <-> houses c <> [] /\ businesses c <> []) /\
  (Simulation.running s = true -> Simulation.agents s <> []) /\
  (Simulation.agents s <> [] -> (Simulation.now Cases.first_frame - 0 <= 1000)%Q ->
   Simulation.running s = true) /\
  forall i a, Simulation.agents s !! i = Some a ->
    Agent.id a = i /\ Agent.city a = c /\
    Agent.home a ∈ houses c /\ Agent.workplace a ∈ businesses c /\
    match Agent.leisureSpot a with
    | Some l => l ∈ leisureSpots c
    | None => leisureSpots c = []
    end /\
    match Agent.eatery a with
    | Some e => e ∈ eateries c
    | None => eateries c = []
    end.
Proof.
  split; [exact rs0_valid |]. split; [exact halves_unit |].
  exact (start_population Cases.suburb 0 Cases.halves Scenario.rs0 Cases.first_frame
           rs0_valid halves_unit).
Defined.

Lemma start_couriers_witness :
  let s := Playback.sim (Playback.start (Playback.constructor Scenario.city_far) 0 []
                           Scenario.rs0 Cases.first_frame) in
  let a := Scenario.first_agent Cases.far_started in
  Simulation.agents s !! 0%nat = Some a /\
  NoDup (DeliveryDriver.agent <$> Simulation.drivers s) /\
  (length (Simulation.drivers s) <= length (Simulation.agents s))%nat /\
  (Agent.ordersDelivery a = true ->
   exists d e, d ∈ Simulation.drivers s /\ DeliveryDriver.agent d = 0%nat /\
     Agent.eatery a = Some e /\ DeliveryDriver.eatery d = e /\
     DeliveryDriver.business d = Agent.workplace a /\
     DeliveryDriver.x d = Qz e.1 /\ DeliveryDriver.y d = Qz e.2) /\
  (Agent.ordersDelivery a = false ->
   forall d, d ∈ Simulation.drivers s -> DeliveryDriver.agent d <> 0%nat).
Proof.
  cbv zeta.
  assert (H : Simulation.agents
                (Playback.sim (Playback.start (Playback.constructor Scenario.city_far) 0 []
                                 Scenario.rs0 Cases.first_frame)) !! 0%nat
              = Some (Scenario.first_agent Cases.far_started))
    by (vm_compute; reflexivity).
  split; [exact H |].
  exact (start_couriers Scenario.city_far 0 [] Scenario.rs0 Cases.first_frame 0 _ H).
Defined.

(** ** Running a simulation *)

Lemma run_stopped (frames : list Simulation.frame) (s : Simulation.t) :
  Simulation.running s = false -> Simulation.run s frames = s.
Proof.
  intros Hr. induction frames as [| f frames IH]; [done |].
  change (Simulation.run s (f :: frames))
    with (Simulation.run (Simulation._loop s f) frames).
  unfold Simulation._loop. rewrite Hr. simpl. exact IH.
Qed.

(** One frame of a running simulation: it ends the run, or it is a tick at
    an hour of the day. *)
Lemma loop_running (s : Simulation.t) (f : Simulation.frame) :
  Simulation.running s = true ->
  let s' := Simulation._loop s f in
  Simulation.startTime s' = Simulation.startTime s /\
  Simulation._pausedTotal s' = Simulation._pausedTotal s /\
  Simulation.lastFrameTime s' = Simulation.now f /\
  (((Simulation.SIM_DURATION_REAL <= Simulation.elapsedTotal s (Simulation.now f))%Q /\
    Simulation.running s' = false /\
    Simulation.agents s' = Simulation.agents s /\
    Simulation.drivers s' = Simulation.drivers s) \/
   ((Simulation.elapsedTotal s (Simulation.now f) < Simulation.SIM_DURATION_REAL)%Q /\
    Simulation.running s' = true /\
    exists s1,
      Simulation.agents s1 = Simulation.agents s /\
      Simulation.drivers s1 = Simulation.drivers s /\
      s' = Simulation.tick s1 (Simulation.simHours s (Simulation.now f))
             ((Simulation.now f - Simulation.lastFrameTime s) / 1000)%Q
             (Simulation.rnd f))).
Proof.
  intros Hr. cbv zeta. unfold Simulation._loop. rewrite Hr. simpl.
  destruct (geq _ Simulation.SIM_DURATION_REAL) eqn:Hg; simpl.
  - apply geq_true in Hg. split_and!; try done. left. by split_and!.
  - apply geq_false in Hg.
    unfold Simulation.tick. simpl.
    destruct (Simulation.update_drivers _ _ _ _) as [ds ags] eqn:Hud. simpl.
    split_and!; try done. right. split_and!; try done.
    eexists (Simulation.mk _ _ _ _ _ _ _). simpl. split_and!; [reflexivity | reflexivity |].
    by rewrite Hud.
Qed.

Lemma within_day_call (h : Q) (a : Agent.t) (c : agent_call) :
  (0 <= h /\ h < 24)%Q -> call_hour c = h ->
  Forall (fun e => 0 <= Agent.time e /\ Agent.time e < 24)%Q (Agent.log a) ->
  Forall (fun e => 0 <= Agent.time e /\ Agent.time e < 24)%Q (Agent.log (apply_call a c)).
Proof.
  intros Hh Hc Ha. destruct (apply_call_log a c) as (_ & es & -> & Hes & _).
  apply Forall_app. split; [done |].
  eapply Forall_impl; [exact Hes |]. intros e He. simpl in He. by rewrite He, Hc.
Qed.

Lemma within_day_tick (s : Simulation.t) (h dt : Q) (rnd : nat -> Q) :
  (0 <= h /\ h < 24)%Q -> within_day (Simulation.agents s) ->
  within_day (Simulation.agents (Simulation.tick s h dt rnd)).
Proof.
  intros Hh HF. apply Forall_lookup. intros i a' Ha'.
  apply tick_agent_calls in Ha' as (a & cs & Ha & -> & Hcs).
  eapply Forall_lookup_1 in HF; [| exact Ha].
  assert (Hall : Forall (fun c => call_hour c = h) (Updated h dt (rnd i) :: cs)).
  { constructor; [done |]. eapply Forall_impl; [exact Hcs |].
    by intros c (d & _ & _ & _ & ->). }
  clear Hcs Ha. revert a HF.
  induction Hall as [| c cs0 Hc _ IH]; intros a HF; [done |].
  simpl. apply IH. by apply within_day_call with (h := h).
Qed.

Lemma simHours_within_day (s : Simulation.t) (now : Q) :
  (Simulation.startTime s + Simulation._pausedTotal s <= now)%Q ->
  (Simulation.elapsedTotal s now < Simulation.SIM_DURATION_REAL)%Q ->
  (0 <= Simulation.simHours s now /\ Simulation.simHours s now < 24)%Q.
Proof.
  unfold Simulation.simHours, Simulation.elapsedTotal, Simulation.SIM_DURATION_REAL,
    Simulation.SIM_DURATION_HOURS.
  unfold Qdiv. change (/ 1000)%Q with (1 # 1000)%Q. change (/ 180)%Q with (1 # 180)%Q.
  intros H1 H2. split; lra.
Qed.

Lemma run_within_day (frames : list Simulation.frame) :
  forall s,
  Forall (fun f => Simulation.startTime s + Simulation._pausedTotal s
                   <= Simulation.now f)%Q frames ->
  within_day (Simulation.agents s) ->
  within_day (Simulation.agents (Simulation.run s frames)).
Proof.
  induction frames as [| f frames IH]; intros s Hnow HF; [done |].
  apply Forall_cons in Hnow as [Hf Hnow].
  change (Simulation.run s (f :: frames))
    with (Simulation.run (Simulation._loop s f) frames).
  destruct (Simulation.running s) eqn:Hr.
  - pose proof (loop_running s f Hr) as (Hst & Hp & _ & Hcase). cbv zeta in *.
    apply IH; [by rewrite Hst, Hp |].
    destruct Hcase as [(_ & _ & -> & _) | (Hlt & _ & s1 & Ha & _ & ->)]; [done |].
    apply within_day_tick; [by apply simHours_within_day | by rewrite Ha].
  - rewrite run_stopped; unfold Simulation._loop; rewrite Hr; done.
Qed.

(** X17.  Every timestamp is an hour of the day.  In a run whose clock
    readings are not before the reading at the start, every entry of every
    log carries a simulated hour of at least 0 and less than 24. *)
Theorem timestamps_within_day (c : City) (now0 : Q) (shuffled : list cell)
    (rs : nat -> Simulation.spawn) (frames : list Simulation.frame) (i : nat)
    (a : Agent.t) (e : Agent.entry) :
  let s0 := Simulation.start (Simulation.generateCity c) now0 shuffled rs in
  Forall (fun f => now0 <= Simulation.now f)%Q frames ->
  Simulation.agents (Simulation.run s0 frames) !! i = Some a -> e ∈ Agent.log a ->
  (0 <= Agent.time e /\ Agent.time e < 24)%Q.
Proof.
  intros s0 Hnow Ha He.
  assert (HF : within_day (Simulation.agents (Simulation.run s0 frames))).
  { destruct (Simulation.running s0) eqn:Hr.
    - apply run_within_day.
      + pose proof (start_exact c now0 shuffled rs) as Hs. cbv zeta in Hs. fold s0 in Hs.
        destruct Hs as [_ [(_ & _ & _ & Hrun) | (_ & _ & _ & _ & Hst)]]; [congruence |].
        destruct (Hst Hr) as (-> & _ & ->).
        eapply Forall_impl; [exact Hnow |]. intros f Hf. simpl in *. lra.
      + eapply Forall_impl; [apply start_agents_fresh |].
        intros b (Hl & _). rewrite Hl. constructor.
    - rewrite run_stopped by done.
      eapply Forall_impl; [apply start_agents_fresh |].
      intros b (Hl & _). rewrite Hl. constructor. }
  eapply Forall_lookup_1 in HF; [| exact Ha].
  rewrite Forall_forall in HF. by apply HF.
Qed.

(** X18.  The end of the day.  The first frame at or after 180 seconds of
    running time stops the simulation without updating anyone, and no later
    frame changes anything. *)
Theorem run_ends (s : Simulation.t) (f : Simulation.frame)
    (frames : list Simulation.frame) :
  Simulation.running s = true ->
  (180 <= Simulation.elapsedTotal s (Simulation.now f))%Q ->
  Simulation.running (Simulation._loop s f) = false /\
  Simulation.agents (Simulation._loop s f) = Simulation.agents s /\
  Simulation.drivers (Simulation._loop s f) = Simulation.drivers s /\
  Simulation.run s (f :: frames) = Simulation._loop s f.
Proof.
  intros Hr He.
  pose proof (loop_running s f Hr) as (_ & _ & _ & Hcase). cbv zeta in Hcase.
  destruct Hcase as [(_ & Hstop & Ha & Hd) | (Hlt & _)].
  - split_and!; try done.
    change (Simulation.run s (f :: frames))
      with (Simulation.run (Simulation._loop s f) frames).
    by apply run_stopped.
  - unfold Simulation.SIM_DURATION_REAL in Hlt. lra.
Qed.

Lemma timestamps_within_day_witness :
  let s := Simulation.run Scenario.far_start Scenario.late_frames in
  let a := Scenario.first_agent s in
  Forall (fun f => 0 <= Simulation.now f)%Q Scenario.late_frames /\
  Simulation.agents s !! 0%nat = Some a /\
  Scenario.last_entry a ∈ Agent.log a /\
  (0 <= Agent.time (Scenario.last_entry a) /\ Agent.time (Scenario.last_entry a) < 24)%Q.
Proof.
  cbv zeta.
  assert (H1 : Forall (fun f => 0 <= Simulation.now f)%Q Scenario.late_frames).
  { unfold Scenario.late_frames, Scenario.frames_at. simpl.
    repeat (apply Forall_cons; split; [vm_compute; discriminate |]). constructor. }
  assert (H2 : Simulation.agents (Simulation.run Scenario.far_start Scenario.late_frames)
               !! 0%nat
               = Some (Scenario.first_agent
                         (Simulation.run Scenario.far_start Scenario.late_frames)))
    by (vm_compute; reflexivity).
  assert (H3 : Scenario.last_entry
                 (Scenario.first_agent
                    (Simulation.run Scenario.far_start Scenario.late_frames))
               ∈ Agent.log
                   (Scenario.first_agent
                      (Simulation.run Scenario.far_start Scenario.late_frames))).
  { apply last_Some_elem_of. vm_compute; reflexivity. }
  split; [exact H1 |]. split; [exact H2 |]. split; [exact H3 |].
  exact (timestamps_within_day Scenario.city_far 0 [] Scenario.rs0 Scenario.late_frames
           0 _ _ H1 H2 H3).
Defined.

Lemma run_ends_witness :
  let f := Simulation.mkFrame 181000 (fun _ => 0%Q) in
  Simulation.running Scenario.far_start = true /\
  (180 <= Simulation.elapsedTotal Scenario.far_start (Simulation.now f))%Q /\
  Simulation.running (Simulation._loop Scenario.far_start f) = false.
Proof.
  cbv zeta.
  assert (H1 : Simulation.running Scenario.far_start = true) by (vm_compute; reflexivity).
  assert (H2 : (180 <= Simulation.elapsedTotal Scenario.far_start
                         (Simulation.now (Simulation.mkFrame 181000 (fun _ => 0%Q))))%Q)
    by (vm_compute; discriminate).
  split_and!; [exact H1 | exact H2 |].
  exact (proj1 (run_ends Scenario.far_start _ [] H1 H2)).
Defined.

(** ** [_shuffle], as a whole *)

(** X19.  [_shuffle] rearranges: with draws that are values of
    [Math.random()], the shuffled array has no hole and holds the elements
    of the array it was given, each as often as before. *)
Theorem shuffle_rearranges {A} (l : list A) (rnd : nat -> Q) :
  (forall i, unit_draw (rnd i)) ->
  exists l', _shuffle (Some <$> l) rnd = Some <$> l' /\ l' ≡ₚ l.
Proof.
  intros Hrnd. unfold _shuffle. rewrite length_fmap.
  destruct l as [| x l]; [by exists [] |].
  apply shuffle_from_permutation; [done |]. simpl. lia.
Qed.

Lemma shuffle_rearranges_witness :
  (forall i, unit_draw (Cases.halves i)) /\
  exists l', _shuffle (Some <$> [1; 2; 3]) Cases.halves = Some <$> l' /\ l' ≡ₚ [1; 2; 3].
Proof.
  split; [exact halves_unit |].
  exact (shuffle_rearranges [1; 2; 3] Cases.halves halves_unit).
Defined.

(** ** Building a city: the grid *)

Lemma foldl_option_inv {A B} (f : A -> B -> option A) (I : nat -> A -> Prop)
    (l : list B) (a : A) :
  I 0%nat a ->
  (forall i a b, l !! i = Some b -> I i a -> exists a', f a b = Some a' /\ I (S i) a') ->
  exists a', foldl (fun oa b => oa ≫= fun a => f a b) (Some a) l = Some a' /\ I (length l) a'.
Proof.
  induction l as [| b l IH] using rev_ind; intros H0 Hstep.
  - by exists a.
  - destruct IH as (a1 & Hf & HI); [done | |].
    { intros i a0 b0 Hi. apply Hstep. by apply lookup_app_l_Some. }
    rewrite foldl_app, Hf. simpl.
    destruct (Hstep (length l) a1 b) as (a2 & Hf2 & HI2); [| done |].
    { by rewrite list_lookup_middle. }
    exists a2. rewrite length_app. simpl. rewrite Nat.add_1_r. by split.
Qed.

Lemma tile_at_lookup (g : list (list tile)) (x y : Z) :
  CityBuild.tile_at g x y
  = default EMPTY (default [] (g !! Z.to_nat y) !! Z.to_nat x).
Proof. unfold CityBuild.tile_at. by rewrite !nth_lookup. Qed.

Lemma set_tile_spec (cols rows : nat) (g : list (list tile)) (x y : Z) (v : tile) :
  CityBuild.grid_shape cols rows g ->
  0 <= x < Z.of_nat cols -> 0 <= y < Z.of_nat rows ->
  exists g', CityBuild.set_tile g x y v = Some g' /\
    CityBuild.grid_shape cols rows g' /\
    forall x' y', 0 <= x' -> 0 <= y' ->
      CityBuild.tile_at g' x' y'
      = if bool_decide ((x', y') = (x, y)) then v else CityBuild.tile_at g x' y'.
Proof.
  intros [Hlen Hrows] Hx Hy. unfold CityBuild.set_tile.
  rewrite (proj2 (Z.ltb_ge y 0)), (proj2 (Z.ltb_ge x 0)) by lia. simpl.
  destruct (lookup_lt_is_Some_2 g (Z.to_nat y)) as [row Hrow]; [lia |].
  rewrite Hrow.
  assert (Hrl : length row = cols).
  { eapply (proj1 (Forall_lookup _ _) Hrows); eauto. }
  rewrite bool_decide_true by lia.
  eexists. split; [done |]. split.
  - split; [by rewrite length_insert |].
    apply Forall_insert; [done |]. by rewrite length_insert.
  - intros x' y' Hx' Hy'. rewrite !tile_at_lookup.
    destruct (decide (Z.to_nat y' = Z.to_nat y)) as [Hey | Hney].
    + rewrite Hey, list_lookup_insert_eq by lia. simpl. rewrite Hrow. simpl.
      destruct (decide (Z.to_nat x' = Z.to_nat x)) as [Hex | Hnex].
      * rewrite Hex, list_lookup_insert_eq by lia. simpl.
        rewrite bool_decide_true; [done |]. f_equal; lia.
      * rewrite list_lookup_insert_ne by done.
        rewrite bool_decide_false; [done |]. intros [= ? ?]. lia.
    + rewrite list_lookup_insert_ne by done.
      rewrite bool_decide_false; [done |]. intros [= ? ?]. lia.
Qed.

Lemma unit_draw_floor (r : Q) (n : Z) :
  0 < n -> unit_draw r -> 0 <= Qfloor (r * inject_Z n) < n.
Proof.
  intros Hn [H0 H1].
  assert (Hpos : (0 < inject_Z n)%Q).
  { change 0%Q with (inject_Z 0). rewrite <- Zlt_Qlt. lia. }
  assert (Hlt : (r * inject_Z n < inject_Z n)%Q).
  { rewrite <- (Qmult_1_l (inject_Z n)) at 2. by apply Qmult_lt_compat_r. }
  assert (Hge : (0 <= r * inject_Z n)%Q) by (apply Qmult_le_0_compat; lra).
  pose proof (Qfloor_le (r * inject_Z n)) as Hfl.
  split.
  - change 0%Z with (Qfloor 0). by apply Qfloor_resp_le.
  - rewrite Zlt_Qlt. lra.
Qed.

Lemma road_row_spec (cols rows : nat) (y : Z) (g : list (list tile)) :
  CityBuild.grid_shape cols rows g -> 0 <= y < Z.of_nat rows ->
  exists g', CityBuild.road_row cols y g = Some g' /\
    CityBuild.grid_shape cols rows g' /\
    forall x' y', 0 <= x' < Z.of_nat cols -> 0 <= y' ->
      CityBuild.tile_at g' x' y'
      = if bool_decide (y' = y) then ROAD else CityBuild.tile_at g x' y'.
Proof.
  intros Hg Hy. unfold CityBuild.road_row.
  destruct (foldl_option_inv
    (fun g x => CityBuild.set_tile g (Z.of_nat x) y ROAD)
    (fun i g' => CityBuild.grid_shape cols rows g' /\
       forall x' y', 0 <= x' -> 0 <= y' ->
         CityBuild.tile_at g' x' y'
         = if bool_decide (y' = y) && (x' <? Z.of_nat i) then ROAD
           else CityBuild.tile_at g x' y')
    (seq 0 cols) g) as (g' & Hf & Hs & Ht).
  - split; [done |]. intros x' y' Hx' Hy'.
    destruct (Z.ltb_spec x' (Z.of_nat 0)); [lia |]. by rewrite andb_false_r.
  - intros i g1 x Hi [Hs Ht]. apply lookup_seq in Hi as [-> Hi]. simpl.
    destruct (set_tile_spec cols rows g1 (Z.of_nat i) y ROAD Hs) as (g2 & Hset & Hs2 & Ht2);
      [lia | done |].
    exists g2. split; [done |]. split; [done |]. intros x' y' Hx' Hy'.
    rewrite Ht2, Ht by done.
    repeat case_bool_decide; simplify_eq; simpl; try done;
      repeat match goal with
      | |- context [?a <? ?b] => destruct (Z.ltb_spec a b)
      end; try done; try lia.
    all: exfalso; match goal with H : _ <> _ |- _ => apply H end; f_equal; lia.
  - exists g'. split; [done |]. split; [done |]. intros x' y' Hx' Hy'.
    rewrite Ht by lia. rewrite length_seq.
    rewrite (proj2 (Z.ltb_lt x' _)) by lia. by rewrite andb_true_r.
Qed.

Lemma road_column_spec (cols rows : nat) (x : Z) (g : list (list tile)) :
  CityBuild.grid_shape cols rows g -> 0 <= x < Z.of_nat cols ->
  exists g', CityBuild.road_column rows x g = Some g' /\
    CityBuild.grid_shape cols rows g' /\
    forall x' y', 0 <= x' -> 0 <= y' < Z.of_nat rows ->
      CityBuild.tile_at g' x' y'
      = if bool_decide (x' = x) then ROAD else CityBuild.tile_at g x' y'.
Proof.
  intros Hg Hx. unfold CityBuild.road_column.
  destruct (foldl_option_inv
    (fun g ry => CityBuild.set_tile g x (Z.of_nat ry) ROAD)
    (fun i g' => CityBuild.grid_shape cols rows g' /\
       forall x' y', 0 <= x' -> 0 <= y' ->
         CityBuild.tile_at g' x' y'
         = if bool_decide (x' = x) && (y' <? Z.of_nat i) then ROAD
           else CityBuild.tile_at g x' y')
    (seq 0 rows) g) as (g' & Hf & Hs & Ht).
  - split; [done |]. intros x' y' Hx' Hy'.
    destruct (Z.ltb_spec y' (Z.of_nat 0)); [lia |]. by rewrite andb_false_r.
  - intros i g1 ry Hi [Hs Ht]. apply lookup_seq in Hi as [-> Hi]. simpl.
    destruct (set_tile_spec cols rows g1 x (Z.of_nat i) ROAD Hs) as (g2 & Hset & Hs2 & Ht2);
      [done | lia |].
    exists g2. split; [done |]. split; [done |]. intros x' y' Hx' Hy'.
    rewrite Ht2, Ht by done.
    repeat case_bool_decide; simplify_eq; simpl; try done;
      repeat match goal with
      | |- context [?a <? ?b] => destruct (Z.ltb_spec a b)
      end; try done; try lia.
    all: exfalso; match goal with H : _ <> _ |- _ => apply H end; f_equal; lia.
  - exists g'. split; [done |]. split; [done |]. intros x' y' Hx' Hy'.
    rewrite Ht by lia. rewrite length_seq.
    rewrite (proj2 (Z.ltb_lt y' _)) by lia. by rewrite andb_true_r.
Qed.

Section Lay.
Variable paint : Z -> list (list tile) -> option (list (list tile)).
Variable limit : Z.
Variable step : nat -> Q.
Variable P : list (list tile) -> Prop.
Variable D : Z -> Z -> Prop.
Variable coord : Z -> Z -> Z.

Hypothesis paint_spec : forall pos g, P g -> 0 <= pos < limit ->
  exists g', paint pos g = Some g' /\ P g' /\
    forall x y, D x y ->
      CityBuild.tile_at g' x y
      = if bool_decide (coord x y = pos) then ROAD else CityBuild.tile_at g x y.
Hypothesis step_unit : forall k, unit_draw (step k).

Lemma lay_spec (fuel : nat) :
  forall (k : nat) (pos : Z) (lines : list Z) (g : list (list tile)),
  P g -> 1 <= pos -> limit - 1 - pos < Z.of_nat fuel ->
  exists lines' g',
    CityBuild.lay paint limit step fuel k pos lines g = Some (lines ++ lines', g') /\
    P g' /\
    CityBuild.spaced pos pos lines' /\
    Forall (fun y => 1 <= y < limit - 1) lines' /\
    (lines' = [] -> limit - 1 <= pos) /\
    (forall y, last lines' = Some y -> limit - 1 <= y + 8) /\
    forall x y, D x y ->
      CityBuild.tile_at g' x y
      = if bool_decide (coord x y ∈ lines') then ROAD else CityBuild.tile_at g x y.
Proof.
  induction fuel as [| fuel IH]; intros k pos lines g HP Hpos Hfuel.
  - simpl. rewrite (proj2 (Z.ltb_ge pos (limit - 1))) by lia.
    exists [], g. rewrite app_nil_r. split_and!; try done; try (intros; lia).
    all: intros x y _; rewrite bool_decide_false; [done |]; by intros ?%elem_of_nil.
  - cbn [CityBuild.lay]. destruct (Z.ltb_spec pos (limit - 1)) as [Hlt | Hge].
    + destruct (paint_spec pos g HP) as (g1 & Hp & HP1 & Ht1); [lia |].
      rewrite Hp.
      pose proof (unit_draw_floor (step k) 4 ltac:(lia) (step_unit k)) as Hst.
      change (inject_Z 4) with 4%Q in Hst.
      set (pos' := pos + (5 + Qfloor (step k * 4))) in *.
      destruct (IH (S k) pos' (lines ++ [pos]) g1 HP1) as
        (lines' & g' & Hlay & HP' & Hsp & Hall & Hnil & Hlast & Ht'); [lia | lia |].
      exists (pos :: lines'), g'. split_and!.
      * rewrite Hlay. by rewrite <- app_assoc.
      * done.
      * simpl. split; [lia |].
        destruct lines' as [| y rest]; [done |].
        simpl in *. split; [lia | tauto].
      * constructor; [lia |].
        eapply Forall_impl; [exact Hall |]. simpl. lia.
      * done.
      * intros y Hy. destruct lines' as [| y' rest].
        -- simpl in Hy. injection Hy as <-. specialize (Hnil eq_refl). lia.
        -- apply Hlast. exact Hy.
      * intros x y HD. rewrite Ht', Ht1 by done.
        destruct (decide (coord x y = pos)) as [He | Hne].
        -- rewrite (bool_decide_true (coord x y = pos)) by done.
           rewrite (bool_decide_true (coord x y ∈ pos :: lines')) by (rewrite He; left).
           by destruct (bool_decide _).
        -- rewrite (bool_decide_false (coord x y = pos)) by done.
           rewrite (bool_decide_ext (coord x y ∈ pos :: lines') (coord x y ∈ lines')); [done |].
           rewrite elem_of_cons. tauto.
    + exists [], g. rewrite app_nil_r. split_and!; try done; try (intros; lia).
      all: intros x y _; rewrite bool_decide_false; [done |]; by intros ?%elem_of_nil.
Qed.
End Lay.

Lemma foldl_inv {S B} (f : S -> B -> S) (J : nat -> S -> Prop) (l : list B) (s : S) :
  J 0%nat s ->
  (forall i s b, l !! i = Some b -> J i s -> J (Datatypes.S i) (f s b)) ->
  J (length l) (foldl f s l).
Proof.
  induction l as [| b l IH] using rev_ind; intros H0 Hstep; [done |].
  rewrite foldl_app, length_app. simpl. rewrite Nat.add_1_r.
  apply Hstep; [by rewrite list_lookup_middle |].
  apply IH; [done |]. intros i s0 b0 Hi. apply Hstep. by apply lookup_app_l_Some.
Qed.

Lemma spaced_weaken (lo hi lo' hi' : Z) (lines : list Z) :
  lo' <= lo -> hi <= hi' -> CityBuild.spaced lo hi lines -> CityBuild.spaced lo' hi' lines.
Proof. destruct lines as [| y rest]; [done |]. simpl. intros ? ? [? ?]. split; [lia | done]. Qed.

Lemma tile_at_blank (cols rows : nat) (x y : Z) :
  CityBuild.tile_at (replicate rows (replicate cols EMPTY)) x y = EMPTY.
Proof.
  rewrite tile_at_lookup.
  destruct (replicate rows (replicate cols EMPTY) !! Z.to_nat y) as [row |] eqn:Hrow; [| done].
  apply lookup_replicate in Hrow as [-> _]. simpl.
  destruct (replicate cols EMPTY !! Z.to_nat x) as [t |] eqn:Ht; [| done].
  by apply lookup_replicate in Ht as [-> _].
Qed.

Lemma blank_shape (cols rows : nat) :
  CityBuild.grid_shape cols rows (replicate rows (replicate cols EMPTY)).
Proof.
  split; [by rewrite length_replicate |].
  apply Forall_replicate. by rewrite length_replicate.
Qed.

(** Steps 1 to 3 of [generate]: the road map. *)
Lemma roads_spec (cols rows : nat) (d : CityBuild.draws) :
  CityBuild.valid_draws d ->
  exists hs g1 vs g2,
    CityBuild.lay (CityBuild.road_row cols) (Z.of_nat rows) (CityBuild.r_hstep d) rows 0
      (1 + Qfloor (CityBuild.r_hfirst d * 3)) [] (replicate rows (replicate cols EMPTY))
    = Some (hs, g1) /\
    CityBuild.lay (CityBuild.road_column rows) (Z.of_nat cols) (CityBuild.r_vstep d) cols 0
      (1 + Qfloor (CityBuild.r_vfirst d * 3)) [] g1
    = Some (vs, g2) /\
    CityBuild.grid_shape cols rows g2 /\
    CityBuild.spaced 1 3 hs /\ Forall (fun y => 1 <= y < Z.of_nat rows - 1) hs /\
    CityBuild.reaches (Z.of_nat rows) hs /\
    CityBuild.spaced 1 3 vs /\ Forall (fun x => 1 <= x < Z.of_nat cols - 1) vs /\
    CityBuild.reaches (Z.of_nat cols) vs /\
    forall x y, 0 <= x < Z.of_nat cols -> 0 <= y < Z.of_nat rows ->
      CityBuild.tile_at g2 x y = if bool_decide (y ∈ hs \/ x ∈ vs) then ROAD else EMPTY.
Proof.
  intros (Hh & Hhs & Hv & Hvs & _).
  pose proof (unit_draw_floor _ 3 ltac:(lia) Hh) as Hh3.
  pose proof (unit_draw_floor _ 3 ltac:(lia) Hv) as Hv3.
  change (inject_Z 3) with 3%Q in Hh3, Hv3.
  set (D := fun x y : Z => 0 <= x < Z.of_nat cols /\ 0 <= y < Z.of_nat rows).
  destruct (lay_spec (CityBuild.road_row cols) (Z.of_nat rows) (CityBuild.r_hstep d)
              (CityBuild.grid_shape cols rows) D (fun _ y => y)) with
    (fuel := rows) (k := 0%nat) (pos := 1 + Qfloor (CityBuild.r_hfirst d * 3))
    (lines := @nil Z) (g := replicate rows (replicate cols EMPTY))
    as (hs & g1 & Hlay1 & Hs1 & Hsp1 & Hall1 & Hnil1 & Hlast1 & Ht1).
  { intros pos g Hg Hpos.
    destruct (road_row_spec cols rows pos g Hg Hpos) as (g' & Hp & Hs' & Ht').
    exists g'. split; [done |]. split; [done |]. intros x y [Hx Hy]. apply Ht'; lia. }
  { done. }
  { apply blank_shape. }
  { lia. }
  { lia. }
  destruct (lay_spec (CityBuild.road_column rows) (Z.of_nat cols) (CityBuild.r_vstep d)
              (CityBuild.grid_shape cols rows) D (fun x _ => x)) with
    (fuel := cols) (k := 0%nat) (pos := 1 + Qfloor (CityBuild.r_vfirst d * 3))
    (lines := @nil Z) (g := g1)
    as (vs & g2 & Hlay2 & Hs2 & Hsp2 & Hall2 & Hnil2 & Hlast2 & Ht2).
  { intros pos g Hg Hpos.
    destruct (road_column_spec cols rows pos g Hg Hpos) as (g' & Hp & Hs' & Ht').
    exists g'. split; [done |]. split; [done |]. intros x y [Hx Hy]. apply Ht'; lia. }
  { done. }
  { done. }
  { lia. }
  { lia. }
  exists hs, g1, vs, g2. split_and!; try done.
  - eapply spaced_weaken; [| | exact Hsp1]; lia.
  - unfold CityBuild.reaches. destruct (last hs) as [y |] eqn:Hl; [by apply Hlast1 |].
    apply last_None in Hl. specialize (Hnil1 Hl). lia.
  - eapply spaced_weaken; [| | exact Hsp2]; lia.
  - unfold CityBuild.reaches. destruct (last vs) as [y |] eqn:Hl; [by apply Hlast2 |].
    apply last_None in Hl. specialize (Hnil2 Hl). lia.
  - intros x y Hx Hy. rewrite Ht2, Ht1 by done. rewrite tile_at_blank.
    repeat case_bool_decide; try done; tauto.
Qed.

(** *** The arrays of buildings *)

Lemma registry_set_eq (kind : tile) (l : list cell) (c : City) :
  kind ∈ CityBuild.kinds -> CityBuild.registry kind (CityBuild.set_registry kind l c) = l.
Proof.
  unfold CityBuild.kinds. rewrite !elem_of_cons, elem_of_nil.
  intros [-> | [-> | [-> | [-> | []]]]]; reflexivity.
Qed.

Lemma registry_set_ne (k kind : tile) (l : list cell) (c : City) :
  k <> kind -> CityBuild.registry k (CityBuild.set_registry kind l c) = CityBuild.registry k c.
Proof. intros Hne. destruct k, kind; try reflexivity; congruence. Qed.

Lemma registry_other (k : tile) (c : City) :
  k ∉ CityBuild.kinds -> CityBuild.registry k c = [].
Proof.
  unfold CityBuild.kinds. rewrite !elem_of_cons, elem_of_nil.
  intros Hk. destruct k; try reflexivity; exfalso; tauto.
Qed.

Lemma elem_of_buildings (p : cell) (c : City) :
  p ∈ CityBuild.buildings c <->
  exists k, k ∈ CityBuild.kinds /\ p ∈ CityBuild.registry k c.
Proof.
  unfold CityBuild.buildings, CityBuild.kinds. rewrite !elem_of_app. split.
  - intros [H | [H | [H | H]]];
      [exists HOUSE | exists BUSINESS | exists LEISURE | exists EATERY];
      (split; [rewrite !elem_of_cons; tauto | exact H]).
  - intros (k & Hk & Hp). rewrite !elem_of_cons, elem_of_nil in Hk.
    destruct Hk as [-> | [-> | [-> | [-> | []]]]]; simpl in Hp; tauto.
Qed.

Lemma kinds_not_road (k : tile) : k ∈ CityBuild.kinds -> k <> ROAD /\ k <> EMPTY.
Proof.
  unfold CityBuild.kinds. rewrite !elem_of_cons, elem_of_nil.
  intros [-> | [-> | [-> | [-> | []]]]]; split; discriminate.
Qed.

Lemma getNameAt_Some (c : City) (p : cell) :
  is_Some (getNameAt c p.1 p.2) <->
  exists s, tileNames c !! p = Some s /\ s <> EmptyString.
Proof.
  unfold getNameAt. destruct p as [x y]. simpl.
  destruct (tileNames c !! (x, y)) as [s |] eqn:Hs.
  - destruct (String.eqb_spec s EmptyString) as [-> | Hne].
    + split; [by intros [? ?] | intros (s & [= <-] & Hne); done].
    + split; [intros _; by exists s | intros _; by eexists].
  - split; [by intros [? ?] | by intros (s & ? & _)].
Qed.

Lemma name_nonempty (a b : string) : (a ++ " " ++ b)%string <> EmptyString.
Proof. destruct a; discriminate. Qed.

Lemma generateName_nonempty (type : string) (r : Q * Q) :
  Names.generateName type r <> EmptyString.
Proof.
  unfold Names.generateName.
  repeat match goal with |- context [String.eqb ?a ?b] => destruct (String.eqb a b) end;
    try apply name_nonempty; discriminate.
Qed.

Lemma address_loop_0 (tries : nat) (used : gset string) (rs : nat -> Q * Q) :
  Names.address_loop 0 tries used rs = Names.candidate (rs tries).
Proof. reflexivity. Qed.

Lemma address_loop_S (fuel tries : nat) (used : gset string) (rs : nat -> Q * Q) :
  Names.address_loop (S fuel) tries used rs
  = if bool_decide (Names.candidate (rs tries) ∈ used) && (S tries <? 200)%nat
    then Names.address_loop fuel (S tries) used rs
    else Names.candidate (rs tries).
Proof. reflexivity. Qed.

Arguments Names.address_loop : simpl never.

Lemma address_loop_nonempty (fuel tries : nat) (used : gset string) (rs : nat -> Q * Q) :
  Names.address_loop fuel tries used rs <> EmptyString.
Proof.
  revert tries. induction fuel as [| fuel IH]; intros tries.
  - rewrite address_loop_0. apply name_nonempty.
  - rewrite address_loop_S. destruct (_ && _); [apply IH | apply name_nonempty].
Qed.

(** A building put on the cell [p], which no array lists. *)
Lemma build_spec (c0 c : City) (kind : tile) (p : cell) (name : string) :
  kind ∈ CityBuild.kinds ->
  CityBuild.city_inv c0 (Some p) c ->
  in_bounds c p -> grid_at c p.1 p.2 <> ROAD ->
  CityBuild.near_road c0 p -> name <> EmptyString ->
  exists c', CityBuild.build kind p name c = Some c' /\
    CityBuild.city_inv c0 None c' /\
    CityBuild.registry kind c' = CityBuild.registry kind c ++ [p] /\
    forall k, k <> kind -> CityBuild.registry k c' = CityBuild.registry k c.
Proof.
  intros Hkind HI Hin Hnr Hnear Hname.
  destruct HI as [Hcols Hrows Hshape Hroads Hreg Hhole Hnodup Hnear' Hnames].
  destruct Hin as [Hx Hy].
  destruct (set_tile_spec (Z.to_nat (cols c)) (Z.to_nat (rows c)) (grid c) p.1 p.2 kind Hshape)
    as (g & Hset & Hshape' & Htile); [lia | lia |].
  unfold CityBuild.build. rewrite Hset.
  set (c1 := CityBuild.set_grid g c).
  set (c2 := CityBuild.set_registry kind (CityBuild.registry kind c1 ++ [p]) c1).
  set (c' := CityBuild.set_tileNames (<[p:=name]> (tileNames c2)) c2).
  assert (Hc'cols : cols c' = cols c) by (subst c' c2 c1; by destruct kind).
  assert (Hc'rows : rows c' = rows c) by (subst c' c2 c1; by destruct kind).
  assert (Hc'grid : grid c' = g) by (subst c' c2 c1; by destruct kind).
  assert (Hc'names : tileNames c' = <[p:=name]> (tileNames c))
    by (subst c' c2 c1; by destruct kind).
  assert (Hc'reg : CityBuild.registry kind c' = CityBuild.registry kind c ++ [p]).
  { transitivity (CityBuild.registry kind c2); [by destruct kind |].
    subst c2. rewrite registry_set_eq by done. subst c1. by destruct kind. }
  assert (Hc'other : forall k, k <> kind -> CityBuild.registry k c' = CityBuild.registry k c).
  { intros k Hk. transitivity (CityBuild.registry k c2); [by destruct k |].
    subst c2. rewrite registry_set_ne by done. subst c1. by destruct k. }
  assert (Hat : forall q, in_bounds c q ->
            grid_at c' q.1 q.2 = if bool_decide (q = p) then kind else grid_at c q.1 q.2).
  { intros [qx qy] [Hqx Hqy]. cbn [fst snd] in Hqx, Hqy |- *.
    change (grid_at c' qx qy) with (CityBuild.tile_at (grid c') qx qy).
    rewrite Hc'grid, Htile by lia. by destruct p. }
  assert (Hbounds : forall q, in_bounds c' q <-> in_bounds c q).
  { intros q. unfold in_bounds. by rewrite Hc'cols, Hc'rows. }
  assert (Hmem : forall k q, q ∈ CityBuild.registry k c' <->
            q ∈ CityBuild.registry k c \/ (k = kind /\ q = p)).
  { intros k q. destruct (decide (k = kind)) as [-> | Hk].
    - rewrite Hc'reg, elem_of_app, list_elem_of_singleton. tauto.
    - rewrite Hc'other by done. tauto. }
  exists c'. split; [done |]. split; [| by split].
  destruct (kinds_not_road kind Hkind) as [HkR HkE].
  split.
  - congruence.
  - congruence.
  - unfold wf_city. rewrite Hc'cols, Hc'rows, Hc'grid. exact Hshape'.
  - intros q Hq. apply Hbounds in Hq. rewrite Hat by done.
    case_bool_decide as Hqp.
    + subst q. split; [done |]. intros Hr0. exfalso. apply Hnr. by apply Hroads.
    + by apply Hroads.
  - intros k q Hk _. rewrite Hmem, Hbounds.
    destruct (decide (q = p)) as [-> | Hqp].
    + split.
      * intros [Hq | [-> _]]; [by apply Hhole in Hq |].
        split; [done |]. rewrite Hat by done. by rewrite bool_decide_true.
      * intros [Hb Ht]. rewrite Hat in Ht by done. rewrite bool_decide_true in Ht by done.
        right. by split.
    + rewrite Hreg by (done || congruence). split.
      * intros [[Hb Ht] | [_ ?]]; [| done]. split; [done |].
        rewrite Hat by done. by rewrite bool_decide_false.
      * intros [Hb Ht]. left. split; [done |].
        rewrite Hat in Ht by done. by rewrite bool_decide_false in Ht.
  - done.
  - intros k. destruct (decide (k = kind)) as [-> | Hk].
    + rewrite Hc'reg. apply NoDup_app. split; [apply Hnodup |]. split.
      * intros q Hq ->%list_elem_of_singleton. by apply Hhole in Hq.
      * apply NoDup_singleton.
    + rewrite Hc'other by done. apply Hnodup.
  - intros k q [Hq | [_ ->]]%Hmem; [by eapply Hnear' | done].
  - intros q _. rewrite getNameAt_Some, Hc'names, elem_of_buildings.
    destruct (decide (q = p)) as [-> | Hqp].
    + rewrite lookup_insert_eq. split.
      * intros _. exists kind. split; [done |]. apply Hmem. by right.
      * intros _. by exists name.
    + rewrite lookup_insert_ne by done. rewrite <- getNameAt_Some.
      rewrite Hnames by congruence. rewrite elem_of_buildings.
      split; intros (k & Hk & Hq); exists k; (split; [done |]).
      * apply Hmem. by left.
      * apply Hmem in Hq as [Hq | [_ ?]]; done.
Qed.

Lemma inv_make_hole (c0 c : City) (p : cell) :
  CityBuild.city_inv c0 None c ->
  (forall k, p ∉ CityBuild.registry k c) ->
  CityBuild.city_inv c0 (Some p) c.
Proof.
  intros [Hcols Hrows Hshape Hroads Hreg Hhole Hnodup Hnear Hnames] Hp.
  split; try done.
  - intros k q Hk _. by apply Hreg.
  - intros k q [= <-]. apply Hp.
  - intros q _. by apply Hnames.
Qed.

Lemma isAdjacentToRoad_near (c : City) (p : cell) :
  CityBuild._isAdjacentToRoad c p.1 p.2 = true <-> CityBuild.near_road c p.
Proof.
  unfold CityBuild._isAdjacentToRoad, CityBuild.near_road.
  rewrite existsb_exists. split.
  - intros (d & Hd & Ht). exists (p.1 + d.1, p.2 + d.2).
    rewrite !andb_true_iff in Ht. destruct Ht as ((((H1 & H2) & H3) & H4) & H5).
    apply bool_decide_eq_true in H5. split; [| split; [| done]].
    + exists d. split; [| done]. unfold dirs.
      simpl in Hd. destruct Hd as [<- | [<- | [<- | [<- | []]]]];
        rewrite !elem_of_cons; tauto.
    + unfold in_bounds. simpl. lia.
  - intros (q & (d & Hd & ->) & [Hx Hy] & Ht). exists d. split.
    + unfold dirs in Hd. rewrite !elem_of_cons, elem_of_nil in Hd.
      destruct Hd as [-> | [-> | [-> | [-> | []]]]]; simpl; auto 10.
    + unfold step_to in *. simpl in *. rewrite !andb_true_iff.
      split_and!; try lia. by apply bool_decide_eq_true.
Qed.

Lemma near_road_map (c0 c : City) (p : cell) :
  CityBuild.city_inv c0 None c -> CityBuild.near_road c p <-> CityBuild.near_road c0 p.
Proof.
  intros HI. pose proof (CityBuild.ci_roads _ _ _ HI) as Hroads.
  pose proof (CityBuild.ci_cols _ _ _ HI) as Hcols.
  pose proof (CityBuild.ci_rows _ _ _ HI) as Hrows.
  unfold CityBuild.near_road.
  split; intros (q & Hadj & Hin & Ht); exists q; (split; [done |]).
  - split; [unfold in_bounds in *; by rewrite <- Hcols, <- Hrows | by apply Hroads].
  - assert (in_bounds c q) by (unfold in_bounds in *; by rewrite Hcols, Hrows).
    split; [done | by apply Hroads].
Qed.

(** The body of the inner loop of step 4. *)
Lemma place_spec (c0 : City) (d : CityBuild.draws) (st : CityBuild.state) (bx by_ : Z) :
  CityBuild.city_inv c0 None (CityBuild.city st) ->
  in_bounds (CityBuild.city st) (bx, by_) ->
  exists st', CityBuild.place d st bx by_ = Some st' /\
    CityBuild.city_inv c0 None (CityBuild.city st').
Proof.
  intros HI Hin. unfold CityBuild.place.
  case_bool_decide as Hempty; simpl; [| by exists st].
  destruct (CityBuild._isAdjacentToRoad (CityBuild.city st) bx by_) eqn:Hadj; simpl;
    [| by exists st].
  apply (isAdjacentToRoad_near _ (bx, by_)) in Hadj.
  apply (near_road_map c0) in Hadj; [| done].
  assert (Hhole : CityBuild.city_inv c0 (Some (bx, by_)) (CityBuild.city st)).
  { apply inv_make_hole; [done |]. intros k Hk.
    destruct (decide (k ∈ CityBuild.kinds)) as [Hkind | Hkind].
    - apply (CityBuild.ci_registry _ _ _ HI) in Hk as [_ Ht]; [| done | done].
      simpl in Ht. rewrite Hempty in Ht. subst k. by apply kinds_not_road in Hkind as [_ ?].
    - rewrite registry_other in Hk by done. by apply elem_of_nil in Hk. }
  assert (Hnr : grid_at (CityBuild.city st) (bx, by_).1 (bx, by_).2 <> ROAD).
  { simpl. by rewrite Hempty. }
  assert (Hk : forall k, k ∈ CityBuild.kinds -> forall name, name <> EmptyString ->
            exists c', CityBuild.build k (bx, by_) name (CityBuild.city st) = Some c' /\
              CityBuild.city_inv c0 None c').
  { intros k Hkind name Hname.
    destruct (build_spec c0 _ k (bx, by_) name Hkind Hhole Hin Hnr Hadj Hname)
      as (c' & Hb & HI' & _). by exists c'. }
  unfold CityBuild.kinds in Hk.
  destruct (CityBuild.lt_num _ (45 # 100)).
  { unfold Names.generateAddress. cbv beta iota zeta.
    destruct (Hk HOUSE ltac:(rewrite !elem_of_cons; tauto) _
                (address_loop_nonempty 200 0 (CityBuild.used st)
                   (CityBuild.r_address d (bx, by_)))) as (c' & -> & HI').
    simpl. by eexists. }
  destruct (CityBuild.lt_num _ (65 # 100)).
  { destruct (Hk BUSINESS ltac:(rewrite !elem_of_cons; tauto) _
                (generateName_nonempty "business" (CityBuild.r_name d (bx, by_))))
      as (c' & -> & HI'). simpl. by eexists. }
  destruct (CityBuild.lt_num _ (80 # 100)).
  { destruct (Hk LEISURE ltac:(rewrite !elem_of_cons; tauto) _
                (generateName_nonempty "leisure" (CityBuild.r_name d (bx, by_))))
      as (c' & -> & HI'). simpl. by eexists. }
  destruct (CityBuild.lt_num _ (88 # 100)).
  { destruct (Hk EATERY ltac:(rewrite !elem_of_cons; tauto) _
                (generateName_nonempty "eatery" (CityBuild.r_name d (bx, by_))))
      as (c' & -> & HI'). simpl. by eexists. }
  by exists st.
Qed.

(** Step 4. *)
Lemma place_all_spec (c0 : City) (d : CityBuild.draws) (st : CityBuild.state) :
  CityBuild.city_inv c0 None (CityBuild.city st) ->
  exists st', CityBuild.place_all d st = Some st' /\
    CityBuild.city_inv c0 None (CityBuild.city st').
Proof.
  intros HI. unfold CityBuild.place_all.
  pose proof (CityBuild.ci_cols _ _ _ HI) as Hcols.
  pose proof (CityBuild.ci_rows _ _ _ HI) as Hrows.
  apply (foldl_inv _ (fun _ ost => exists st', ost = Some st' /\
           CityBuild.city_inv c0 None (CityBuild.city st'))).
  - by exists st.
  - intros i ost by_ Hby (st1 & -> & HI1). apply lookup_seq in Hby as [-> Hby]. simpl.
    destruct (foldl_option_inv
      (fun st bx => CityBuild.place d st (Z.of_nat bx) (Z.of_nat i))
      (fun _ st' => CityBuild.city_inv c0 None (CityBuild.city st'))
      (seq 0 (Z.to_nat (cols (CityBuild.city st)))) st1) as (st2 & Hf & HI2).
    + done.
    + intros j st2 bx Hbx HI2. apply lookup_seq in Hbx as [-> Hbx]. simpl.
      apply place_spec; [done |].
      pose proof (CityBuild.ci_cols _ _ _ HI2). pose proof (CityBuild.ci_rows _ _ _ HI2).
      unfold in_bounds. simpl. lia.
    + by exists st2.
Qed.

(** *** [_ensureMinBuildings] *)

Lemma getNameAt_names (c c' : City) (x y : Z) :
  tileNames c' = tileNames c -> getNameAt c' x y = getNameAt c x y.
Proof. unfold getNameAt. by intros ->. Qed.

(** One round: the last house becomes a building of kind [kind]. *)
Lemma convert_spec (c0 c : City) (kind : tile) (type : string) (d : CityBuild.draws) :
  kind ∈ CityBuild.kinds -> kind <> HOUSE ->
  CityBuild.city_inv c0 None c -> houses c <> [] ->
  exists c' h, last (houses c) = Some h /\
    CityBuild.convert kind type d c = Some c' /\
    CityBuild.city_inv c0 None c' /\
    houses c' = removelast (houses c) /\
    CityBuild.registry kind c' = CityBuild.registry kind c ++ [h] /\
    forall k, k <> kind -> k <> HOUSE -> CityBuild.registry k c' = CityBuild.registry k c.
Proof.
  intros Hkind Hnh HI Hne.
  destruct (last (houses c)) as [h |] eqn:Hlast; [| by apply last_None in Hlast].
  pose proof Hlast as Hl. apply last_Some in Hl as [l Hl].
  assert (Hrm : removelast (houses c) = l) by (rewrite Hl; apply removelast_last).
  pose proof HI as [Hcols Hrows Hshape Hroads Hreg Hhole Hnodup Hnear Hnames].
  assert (Hhouse : HOUSE ∈ CityBuild.kinds) by (unfold CityBuild.kinds; rewrite !elem_of_cons; tauto).
  assert (Hh : h ∈ houses c) by (rewrite Hl, elem_of_app, list_elem_of_singleton; tauto).
  assert (Hnd : NoDup (l ++ [h])) by (rewrite <- Hl; apply (Hnodup HOUSE)).
  apply NoDup_app in Hnd as (Hndl & Hnotin & _).
  assert (Hhl : h ∉ l).
  { intros Hin. apply (Hnotin h Hin). by apply list_elem_of_singleton. }
  destruct (proj1 (Hreg HOUSE h Hhouse ltac:(done)) Hh) as [Hhb Hht].
  set (c1 := CityBuild.set_registry HOUSE (removelast (houses c)) c).
  assert (Hr1 : forall k, CityBuild.registry k c1
                 = if decide (k = HOUSE) then l else CityBuild.registry k c).
  { intros k. subst c1. rewrite Hrm. by destruct k. }
  assert (HI1 : CityBuild.city_inv c0 (Some h) c1).
  { split; try done.
    - intros k q Hk Hq. rewrite Hr1. change (in_bounds c1 q) with (in_bounds c q).
      change (grid_at c1 q.1 q.2) with (grid_at c q.1 q.2).
      case_decide as Hkh; [| by apply Hreg].
      subst k. rewrite <- (Hreg HOUSE q) by done. simpl. rewrite Hl, elem_of_app, list_elem_of_singleton.
      split; [tauto |]. intros [? | ->]; [done | congruence].
    - intros k q [= <-]. rewrite Hr1. case_decide as Hkh; [done |].
      intros Hq. destruct (decide (k ∈ CityBuild.kinds)) as [Hk | Hk].
      + apply Hreg in Hq as [_ Hq]; [congruence | done | done].
      + rewrite registry_other in Hq by done. by apply elem_of_nil in Hq.
    - intros k. rewrite Hr1. case_decide; [done | apply Hnodup].
    - intros k q. rewrite Hr1. case_decide as Hkh; [| apply Hnear].
      intros Hq. apply (Hnear HOUSE). simpl. rewrite Hl, elem_of_app. tauto.
    - intros q Hq. rewrite (getNameAt_names c c1) by done. rewrite Hnames by done.
      rewrite !elem_of_buildings. split; intros (k & Hk & Hqk); exists k; (split; [done |]).
      + rewrite Hr1. case_decide as Hkh; [| done]. subst k. simpl in Hqk.
        rewrite Hl, elem_of_app, list_elem_of_singleton in Hqk.
        destruct Hqk as [? | ->]; [done | congruence].
      + rewrite Hr1 in Hqk. case_decide as Hkh; [| done]. subst k. simpl.
        rewrite Hl, elem_of_app. tauto. }
  destruct (build_spec c0 c1 kind h (Names.generateName type (CityBuild.r_rename d h))
              Hkind HI1) as (c' & Hb & HI' & Hk' & Hother).
  { exact Hhb. }
  { change (grid_at c1 h.1 h.2) with (grid_at c h.1 h.2). by rewrite Hht. }
  { by apply (Hnear HOUSE). }
  { apply generateName_nonempty. }
  exists c', h. split; [done |].
  split; [unfold CityBuild.convert; rewrite Hlast; exact Hb |]. split; [done |]. split_and!.
  - change (houses c') with (CityBuild.registry HOUSE c').
    rewrite Hother by done. rewrite Hr1. by rewrite decide_True.
  - rewrite Hk', Hr1. by rewrite decide_False.
  - intros k Hk Hkh. rewrite Hother by done. rewrite Hr1. by rewrite decide_False.
Qed.

Lemma convert_loop_spec (c0 : City) (kind : tile) (type : string) (d : CityBuild.draws)
    (fuel : nat) :
  kind ∈ CityBuild.kinds -> kind <> HOUSE ->
  forall c, CityBuild.city_inv c0 None c -> (length (houses c) <= fuel)%nat ->
  exists c', CityBuild.convert_loop fuel kind type d c = Some c' /\
    CityBuild.city_inv c0 None c' /\
    (2 <= length (CityBuild.registry kind c') \/ length (houses c') <= 4)%nat /\
    (length (houses c') <= length (houses c))%nat /\
    (length (CityBuild.registry kind c) <= length (CityBuild.registry kind c'))%nat /\
    forall k, k <> kind -> k <> HOUSE -> CityBuild.registry k c' = CityBuild.registry k c.
Proof.
  intros Hkind Hnh. induction fuel as [| fuel IH]; intros c HI Hfuel.
  - cbn [CityBuild.convert_loop].
    destruct (Nat.ltb_spec (length (CityBuild.registry kind c)) 2) as [H2 | H2];
      destruct (Nat.ltb_spec 4 (length (houses c))) as [H4 | H4]; cbn [andb];
      try (exists c; split_and!; try done; lia).
  - cbn [CityBuild.convert_loop].
    destruct (Nat.ltb_spec (length (CityBuild.registry kind c)) 2) as [H2 | H2];
      destruct (Nat.ltb_spec 4 (length (houses c))) as [H4 | H4]; cbn [andb];
      try (exists c; split_and!; try done; lia).
    destruct (convert_spec c0 c kind type d Hkind Hnh HI) as
      (c1 & h & Hlast & Hconv & HI1 & Hh1 & Hk1 & Ho1).
    { intros Hnil. rewrite Hnil in H4. simpl in H4. lia. }
    rewrite Hconv.
    assert (Hlen1 : S (length (houses c1)) = length (houses c)).
    { apply last_Some in Hlast as [l Hl]. rewrite Hh1, Hl, removelast_last, length_app.
      simpl. lia. }
    destruct (IH c1 HI1) as (c' & Hloop & HI' & Hguard & Hle & Hge & Ho'); [lia |].
    exists c'. split; [done |]. split; [done |]. split; [done |].
    split; [lia |]. split.
    + rewrite Hk1, length_app in Hge. simpl in Hge. lia.
    + intros k Hk Hkh. rewrite Ho' by done. by apply Ho1.
Qed.

Lemma ensureMinBuildings_spec (c0 c : City) (d : CityBuild.draws) :
  CityBuild.city_inv c0 None c ->
  exists c', CityBuild._ensureMinBuildings d c = Some c' /\
    CityBuild.city_inv c0 None c' /\
    ((length (houses c') <= 4)%nat \/
     (2 <= length (businesses c') /\ 2 <= length (leisureSpots c') /\
      2 <= length (eateries c'))%nat).
Proof.
  intros HI. unfold CityBuild._ensureMinBuildings.
  assert (HkB : BUSINESS ∈ CityBuild.kinds) by (unfold CityBuild.kinds; rewrite !elem_of_cons; tauto).
  assert (HkL : LEISURE ∈ CityBuild.kinds) by (unfold CityBuild.kinds; rewrite !elem_of_cons; tauto).
  assert (HkE : EATERY ∈ CityBuild.kinds) by (unfold CityBuild.kinds; rewrite !elem_of_cons; tauto).
  destruct (convert_loop_spec c0 BUSINESS "business" d (length (houses c)) HkB ltac:(done) c HI)
    as (c1 & -> & HI1 & Hg1 & Hle1 & Hge1 & Ho1); [done |].
  simpl.
  destruct (convert_loop_spec c0 LEISURE "leisure" d (length (houses c1)) HkL ltac:(done) c1 HI1)
    as (c2 & -> & HI2 & Hg2 & Hle2 & Hge2 & Ho2); [done |].
  simpl.
  destruct (convert_loop_spec c0 EATERY "eatery" d (length (houses c2)) HkE ltac:(done) c2 HI2)
    as (c3 & -> & HI3 & Hg3 & Hle3 & Hge3 & Ho3); [done |].
  exists c3. split; [done |]. split; [done |].
  pose proof (Ho2 BUSINESS ltac:(done) ltac:(done)) as HB2.
  pose proof (Ho3 BUSINESS ltac:(done) ltac:(done)) as HB3.
  pose proof (Ho3 LEISURE ltac:(done) ltac:(done)) as HL3.
  simpl in *. rewrite HB3, HB2, HL3. lia.
Qed.

(** *** [generate] as a whole *)

Lemma generate_spec (ncols nrows : nat) (d : CityBuild.draws) :
  CityBuild.valid_draws d ->
  exists L c0,
    CityBuild.generate ncols nrows d = Some L /\
    CityBuild.city_inv c0 None (CityBuild.built L) /\
    cols c0 = Z.of_nat ncols /\ rows c0 = Z.of_nat nrows /\
    (forall x y, 0 <= x < Z.of_nat ncols -> 0 <= y < Z.of_nat nrows ->
       grid_at c0 x y
       = if bool_decide (y ∈ CityBuild.hRoads L \/ x ∈ CityBuild.vRoads L)
         then ROAD else EMPTY) /\
    CityBuild.spaced 1 3 (CityBuild.hRoads L) /\
    Forall (fun y => 1 <= y < Z.of_nat nrows - 1) (CityBuild.hRoads L) /\
    CityBuild.reaches (Z.of_nat nrows) (CityBuild.hRoads L) /\
    CityBuild.spaced 1 3 (CityBuild.vRoads L) /\
    Forall (fun x => 1 <= x < Z.of_nat ncols - 1) (CityBuild.vRoads L) /\
    CityBuild.reaches (Z.of_nat ncols) (CityBuild.vRoads L) /\
    ((length (houses (CityBuild.built L)) <= 4)%nat \/
     (2 <= length (businesses (CityBuild.built L)) /\
      2 <= length (leisureSpots (CityBuild.built L)) /\
      2 <= length (eateries (CityBuild.built L)))%nat).
Proof.
  intros Hd.
  destruct (roads_spec ncols nrows d Hd) as
    (hs & g1 & vs & g2 & Hl1 & Hl2 & Hshape & Hsp1 & Hall1 & Hr1 & Hsp2 & Hall2 & Hr2 & Ht).
  set (c0 := mkCity (Z.of_nat ncols) (Z.of_nat nrows) g2 [] [] [] [] ∅).
  assert (HI0 : CityBuild.city_inv c0 None c0).
  { split; try done.
    - unfold wf_city. simpl. rewrite !Nat2Z.id. exact Hshape.
    - intros k [x y] Hk _.
      assert (Hnil : CityBuild.registry k c0 = []) by by destruct k.
      rewrite Hnil, elem_of_nil. split; [done |]. intros [[Hx Hy] Hg].
      change (CityBuild.tile_at g2 x y = k) in Hg.
      rewrite Ht in Hg by (exact Hx || exact Hy).
      apply kinds_not_road in Hk as [? ?]. case_bool_decide; congruence.
    - intros k. assert (Hnil : CityBuild.registry k c0 = []) by by destruct k.
      rewrite Hnil. constructor.
    - intros k p. assert (Hnil : CityBuild.registry k c0 = []) by by destruct k.
      rewrite Hnil. by intros ?%elem_of_nil.
    - intros p _. rewrite getNameAt_Some. simpl. split.
      + intros (s & Hs & _). by rewrite lookup_empty in Hs.
      + unfold CityBuild.buildings. simpl. by intros ?%elem_of_nil. }
  destruct (place_all_spec c0 d (CityBuild.mkState c0 Names.resetAddresses) HI0)
    as (st & Hplace & HI1).
  destruct (ensureMinBuildings_spec c0 (CityBuild.city st) d HI1) as (c & Hens & HI2 & Hmin).
  exists (CityBuild.mkLayout hs vs c), c0.
  split.
  { unfold CityBuild.generate, mbind, option_bind. rewrite Hl1. cbv beta iota zeta.
    rewrite Hl2. cbv beta iota zeta. fold c0. rewrite Hplace. by rewrite Hens. }
  simpl. split_and!; try done.
Qed.

(** *** Roads connect the buildings *)

Lemma road_in_layout (L : CityBuild.layout) (c0 : City) (ncols nrows : nat) (q : cell) :
  CityBuild.city_inv c0 None (CityBuild.built L) ->
  cols c0 = Z.of_nat ncols -> rows c0 = Z.of_nat nrows ->
  (forall x y, 0 <= x < Z.of_nat ncols -> 0 <= y < Z.of_nat nrows ->
     grid_at c0 x y
     = if bool_decide (y ∈ CityBuild.hRoads L \/ x ∈ CityBuild.vRoads L)
       then ROAD else EMPTY) ->
  road (CityBuild.built L) q <->
  in_bounds (CityBuild.built L) q /\
  (q.2 ∈ CityBuild.hRoads L \/ q.1 ∈ CityBuild.vRoads L).
Proof.
  intros HI Hc Hr Ht. unfold road, getTile.
  pose proof (CityBuild.ci_cols _ _ _ HI) as Hcols.
  pose proof (CityBuild.ci_rows _ _ _ HI) as Hrows.
  destruct (out_of_bounds (CityBuild.built L) q.1 q.2) eqn:Hob.
  - split; [done |]. intros [[Hx Hy] _]. unfold out_of_bounds in Hob.
    rewrite !orb_true_iff in Hob. lia.
  - assert (Hin : in_bounds (CityBuild.built L) q).
    { unfold out_of_bounds in Hob. rewrite !orb_false_iff in Hob. unfold in_bounds. lia. }
    rewrite (CityBuild.ci_roads _ _ _ HI q Hin).
    destruct Hin as [Hx Hy]. rewrite Ht by lia.
    case_bool_decide; split; try done; try tauto.
Qed.








Lemma getTile_in_bounds (c : City) (x y : Z) :
  in_bounds c (x, y) -> getTile c x y = grid_at c x y.
Proof.
  intros Hin. unfold getTile.
  by rewrite (proj2 (out_of_bounds_false c x y) Hin).
Qed.

(** What [generate_spec] says of a layout that [generate] has returned. *)
Lemma generate_facts (ncols nrows : nat) (d : CityBuild.draws) (L : CityBuild.layout) :
  CityBuild.valid_draws d -> CityBuild.generate ncols nrows d = Some L ->
  exists c0,
    CityBuild.city_inv c0 None (CityBuild.built L) /\
    cols c0 = Z.of_nat ncols /\ rows c0 = Z.of_nat nrows /\
    (forall x y, 0 <= x < Z.of_nat ncols -> 0 <= y < Z.of_nat nrows ->
       grid_at c0 x y
       = if bool_decide (y ∈ CityBuild.hRoads L \/ x ∈ CityBuild.vRoads L)
         then ROAD else EMPTY) /\
    CityBuild.reaches (Z.of_nat nrows) (CityBuild.hRoads L) /\
    Forall (fun y => 1 <= y < Z.of_nat nrows - 1) (CityBuild.hRoads L) /\
    CityBuild.reaches (Z.of_nat ncols) (CityBuild.vRoads L) /\
    Forall (fun x => 1 <= x < Z.of_nat ncols - 1) (CityBuild.vRoads L).
Proof.
  intros Hd Hgen.
  destruct (generate_spec ncols nrows d Hd) as
    (L' & c0 & Hgen' & HI & Hc & Hr & Ht & _ & Hall1 & Hr1 & _ & Hall2 & Hr2 & _).
  assert (L' = L) by congruence. subst L'. exists c0. by split_and!.
Qed.

(** X20.  With numbers drawn by [Math.random()], [generate] ends and the
    city it leaves has the size asked for: [rows] rows of [cols] tiles. *)
Theorem generate_returns_grid (ncols nrows : nat) (d : CityBuild.draws) :
  CityBuild.valid_draws d ->
  exists L, CityBuild.generate ncols nrows d = Some L /\
    cols (CityBuild.built L) = Z.of_nat ncols /\
    rows (CityBuild.built L) = Z.of_nat nrows /\
    wf_city (CityBuild.built L).
Proof.
  intros Hd.
  destruct (generate_spec ncols nrows d Hd) as (L & c0 & Hgen & HI & Hc & Hr & _).
  exists L. split; [done |].
  rewrite (CityBuild.ci_cols _ _ _ HI), (CityBuild.ci_rows _ _ _ HI).
  split_and!; [done | done | exact (CityBuild.ci_shape _ _ _ HI)].
Qed.

(** X21.  The roads of a generated city are whole rows and whole columns of
    the grid: a tile is a road exactly when its row is one of [hRoads] or
    its column one of [vRoads].  In each direction the first road is at
    position 1 to 3, the next ones follow at gaps of 5 to 8, none is on the
    border, and the roads go on until fewer than 9 tiles are left. *)
Theorem generate_road_layout (ncols nrows : nat) (d : CityBuild.draws)
    (L : CityBuild.layout) :
  CityBuild.valid_draws d -> CityBuild.generate ncols nrows d = Some L ->
  (forall x y, in_bounds (CityBuild.built L) (x, y) ->
     (getTile (CityBuild.built L) x y = ROAD <->
      y ∈ CityBuild.hRoads L \/ x ∈ CityBuild.vRoads L)) /\
  CityBuild.spaced 1 3 (CityBuild.hRoads L) /\
  Forall (fun y => 1 <= y < Z.of_nat nrows - 1) (CityBuild.hRoads L) /\
  CityBuild.reaches (Z.of_nat nrows) (CityBuild.hRoads L) /\
  CityBuild.spaced 1 3 (CityBuild.vRoads L) /\
  Forall (fun x => 1 <= x < Z.of_nat ncols - 1) (CityBuild.vRoads L) /\
  CityBuild.reaches (Z.of_nat ncols) (CityBuild.vRoads L).
Proof.
  intros Hd Hgen.
  destruct (generate_spec ncols nrows d Hd) as
    (L' & c0 & Hgen' & HI & Hc & Hr & Ht & Hsp1 & Hall1 & Hr1 & Hsp2 & Hall2 & Hr2 & _).
  assert (L' = L) by congruence. subst L'. split_and!; try done.
  intros x y Hin.
  pose proof (road_in_layout L c0 ncols nrows (x, y) HI Hc Hr Ht) as Hroad.
  unfold road in Hroad. simpl in Hroad. rewrite Hroad. tauto.
Qed.

(** X22.  In a generated city each of the arrays [houses], [businesses],
    [leisureSpots] and [eateries] lists the cells of the grid that hold a
    tile of its kind, every cell once. *)
Theorem generate_registers_match_grid (ncols nrows : nat) (d : CityBuild.draws)
    (L : CityBuild.layout) (kind : tile) :
  CityBuild.valid_draws d -> CityBuild.generate ncols nrows d = Some L ->
  kind ∈ CityBuild.kinds ->
  NoDup (CityBuild.registry kind (CityBuild.built L)) /\
  forall p, p ∈ CityBuild.registry kind (CityBuild.built L) <->
    in_bounds (CityBuild.built L) p /\ getTile (CityBuild.built L) p.1 p.2 = kind.
Proof.
  intros Hd Hgen Hkind.
  destruct (generate_facts ncols nrows d L Hd Hgen) as (c0 & HI & _).
  split; [apply (CityBuild.ci_nodup _ _ _ HI) |].
  intros [x y]. rewrite (CityBuild.ci_registry _ _ _ HI kind (x, y) Hkind) by done.
  simpl. split; intros [Hin Ht]; (split; [done |]).
  - by rewrite getTile_in_bounds.
  - by rewrite getTile_in_bounds in Ht.
Qed.

(** X23.  Every building of a generated city stands next to a road. *)
Theorem generate_buildings_by_roads (ncols nrows : nat) (d : CityBuild.draws)
    (L : CityBuild.layout) (p : cell) :
  CityBuild.valid_draws d -> CityBuild.generate ncols nrows d = Some L ->
  p ∈ CityBuild.buildings (CityBuild.built L) ->
  CityBuild._isAdjacentToRoad (CityBuild.built L) p.1 p.2 = true.
Proof.
  intros Hd Hgen Hp.
  destruct (generate_facts ncols nrows d L Hd Hgen) as (c0 & HI & _).
  apply isAdjacentToRoad_near. apply (near_road_map c0); [done |].
  apply elem_of_buildings in Hp as (k & _ & Hp).
  by apply (CityBuild.ci_near _ _ _ HI k).
Qed.

(** X24.  What [_ensureMinBuildings] makes sure of in a generated city:
    there are at least two businesses, two leisure spots and two eateries,
    unless no more than four houses are left. *)
Theorem generate_minimum_buildings (ncols nrows : nat) (d : CityBuild.draws)
    (L : CityBuild.layout) :
  CityBuild.valid_draws d -> CityBuild.generate ncols nrows d = Some L ->
  (length (houses (CityBuild.built L)) <= 4)%nat \/
  (2 <= length (businesses (CityBuild.built L)) /\
   2 <= length (leisureSpots (CityBuild.built L)) /\
   2 <= length (eateries (CityBuild.built L)))%nat.
Proof.
  intros Hd Hgen.
  destruct (generate_spec ncols nrows d Hd) as
    (L' & c0 & Hgen' & _ & _ & _ & _ & _ & _ & _ & _ & _ & _ & Hmin).
  assert (L' = L) by congruence. by subst L'.
Qed.

(** X25.  In a generated city [getNameAt] gives a name for every building
    and [null] for every other cell. *)
Theorem generate_names_buildings (ncols nrows : nat) (d : CityBuild.draws)
    (L : CityBuild.layout) (x y : Z) :
  CityBuild.valid_draws d -> CityBuild.generate ncols nrows d = Some L ->
  is_Some (getNameAt (CityBuild.built L) x y) <->
  (x, y) ∈ CityBuild.buildings (CityBuild.built L).
Proof.
  intros Hd Hgen.
  destruct (generate_facts ncols nrows d L Hd Hgen) as (c0 & HI & _).
  by apply (CityBuild.ci_names _ _ _ HI (x, y)).
Qed.


(** *** A town *)

Lemma town_draws_valid : CityBuild.valid_draws Cases.town_draws.
Proof.
  unfold CityBuild.valid_draws, unit_draw. simpl.
  assert (H0 : (0 <= 0 /\ 0 < 1)%Q) by (split; [apply Qle_refl | reflexivity]).
  split_and!; try done.
  - intros [x y]. simpl.
    pose proof (Z.mod_pos_bound (x * 7 + y * 13) 10 ltac:(lia)) as Hm.
    unfold Qle, Qlt. simpl. lia.
  - intros _ k. simpl. split; [| done].
    pose proof (Z.mod_pos_bound (Z.of_nat k) 900 ltac:(lia)) as Hm.
    unfold Qle, Qlt. simpl. lia.
Defined.

Lemma town_generated : CityBuild.generate 8 7 Cases.town_draws = Some Cases.town_layout.
Proof. vm_compute. reflexivity. Defined.

Lemma generate_returns_grid_witness :
  CityBuild.valid_draws Cases.town_draws /\
  exists L, CityBuild.generate 8 7 Cases.town_draws = Some L /\
    cols (CityBuild.built L) = 8 /\ rows (CityBuild.built L) = 7 /\
    wf_city (CityBuild.built L).
Proof.
  split; [exact town_draws_valid |].
  exact (generate_returns_grid 8 7 Cases.town_draws town_draws_valid).
Defined.

Lemma generate_road_layout_witness :
  CityBuild.valid_draws Cases.town_draws /\
  CityBuild.generate 8 7 Cases.town_draws = Some Cases.town_layout /\
  CityBuild.spaced 1 3 (CityBuild.hRoads Cases.town_layout) /\
  CityBuild.spaced 1 3 (CityBuild.vRoads Cases.town_layout).
Proof.
  split; [exact town_draws_valid |]. split; [exact town_generated |].
  pose proof (generate_road_layout 8 7 Cases.town_draws Cases.town_layout
                town_draws_valid town_generated) as H.
  split; [exact (proj1 (proj2 H)) | exact (proj1 (proj2 (proj2 (proj2 (proj2 H)))))].
Defined.

Lemma generate_registers_match_grid_witness :
  CityBuild.valid_draws Cases.town_draws /\
  CityBuild.generate 8 7 Cases.town_draws = Some Cases.town_layout /\
  HOUSE ∈ CityBuild.kinds /\
  NoDup (houses (CityBuild.built Cases.town_layout)).
Proof.
  assert (Hk : HOUSE ∈ CityBuild.kinds) by (apply (list_elem_of_lookup_2 _ 0%nat); reflexivity).
  split; [exact town_draws_valid |]. split; [exact town_generated |]. split; [exact Hk |].
  exact (proj1 (generate_registers_match_grid 8 7 Cases.town_draws Cases.town_layout HOUSE
                  town_draws_valid town_generated Hk)).
Defined.

Lemma town_corner : (0, 0) ∈ CityBuild.buildings (CityBuild.built Cases.town_layout).
Proof. apply (list_elem_of_lookup_2 _ 0%nat). vm_compute. reflexivity. Defined.


Lemma generate_buildings_by_roads_witness :
  CityBuild.valid_draws Cases.town_draws /\
  CityBuild.generate 8 7 Cases.town_draws = Some Cases.town_layout /\
  (0, 0) ∈ CityBuild.buildings (CityBuild.built Cases.town_layout) /\
  CityBuild._isAdjacentToRoad (CityBuild.built Cases.town_layout) (0, 0).1 (0, 0).2 = true.
Proof.
  split; [exact town_draws_valid |]. split; [exact town_generated |].
  split; [exact town_corner |].
  exact (generate_buildings_by_roads 8 7 Cases.town_draws Cases.town_layout (0, 0)
           town_draws_valid town_generated town_corner).
Defined.

Lemma generate_minimum_buildings_witness :
  CityBuild.valid_draws Cases.town_draws /\
  CityBuild.generate 8 7 Cases.town_draws = Some Cases.town_layout /\
  ((length (houses (CityBuild.built Cases.town_layout)) <= 4)%nat \/
   (2 <= length (businesses (CityBuild.built Cases.town_layout)) /\ 2 <= length (leisureSpots (CityBuild.built Cases.town_layout)) /\
    2 <= length (eateries (CityBuild.built Cases.town_layout)))%nat).
Proof.
  split; [exact town_draws_valid |]. split; [exact town_generated |].
  exact (generate_minimum_buildings 8 7 Cases.town_draws Cases.town_layout
           town_draws_valid town_generated).
Defined.

Lemma generate_names_buildings_witness :
  CityBuild.valid_draws Cases.town_draws /\
  CityBuild.generate 8 7 Cases.town_draws = Some Cases.town_layout /\
  (is_Some (getNameAt (CityBuild.built Cases.town_layout) 0 0) <-> (0, 0) ∈ CityBuild.buildings (CityBuild.built Cases.town_layout)).
Proof.
  split; [exact town_draws_valid |]. split; [exact town_generated |].
  exact (generate_names_buildings 8 7 Cases.town_draws Cases.town_layout 0 0
           town_draws_valid town_generated).
Defined.


(** ** Names *)

Lemma address_loop_first_free (used : gset string) (rs : nat -> Q * Q) (k : nat) :
  (k < 200)%nat ->
  (forall j, (j < k)%nat -> Names.candidate (rs j) ∈ used) ->
  Names.candidate (rs k) ∉ used \/ k = 199%nat ->
  forall fuel tries, (tries <= k)%nat -> (200 <= fuel + tries)%nat ->
  Names.address_loop fuel tries used rs = Names.candidate (rs k).
Proof.
  intros Hk Hused Hfree. induction fuel as [| fuel IH]; intros tries Hle Hfuel; [lia |].
  rewrite address_loop_S.
  destruct (decide (tries = k)) as [-> | Hne].
  - destruct Hfree as [Hfree | ->].
    + by rewrite bool_decide_false.
    + by rewrite andb_false_r.
  - rewrite bool_decide_true by (apply Hused; lia).
    destruct (Nat.ltb_spec (S tries) 200) as [_ | Hge]; [| lia].
    simpl. apply IH; lia.
Qed.

(** X27.  [generateAddress] returns the candidate of the first round whose
    candidate is not in use, and records it as used.  When the candidates of
    the first 199 rounds are all in use it returns the candidate of round
    200, in use or not: an address can be given twice. *)
Theorem generateAddress_first_free (used : gset string) (rs : nat -> Q * Q) (k : nat) :
  (k < 200)%nat ->
  (forall j, (j < k)%nat -> Names.candidate (rs j) ∈ used) ->
  Names.candidate (rs k) ∉ used \/ k = 199%nat ->
  Names.generateAddress used rs
  = (Names.candidate (rs k), {[Names.candidate (rs k)]} ∪ used).
Proof.
  intros Hk Hused Hfree. unfold Names.generateAddress.
  by rewrite (address_loop_first_free used rs k Hk Hused Hfree 200 0) by lia.
Qed.

Lemma names_pick_in_array (arr : list string) (r : Q) :
  arr <> [] -> unit_draw r -> exists s, Names._pick arr r = Some s /\ s ∈ arr.
Proof.
  intros Hne Hr. unfold Names._pick.
  assert (Hlen : 0 < Z.of_nat (length arr)) by (destruct arr; [done | simpl; lia]).
  pose proof (unit_draw_floor r _ Hlen Hr) as Hi.
  fold (Qz (Z.of_nat (length arr))) in Hi.
  destruct (Z.ltb_spec (Qfloor (r * Qz (Z.of_nat (length arr)))) 0) as [? | _]; [lia |].
  destruct (lookup_lt_is_Some_2 arr (Z.to_nat (Qfloor (r * Qz (Z.of_nat (length arr))))))
    as [s Hs]; [lia |].
  exists s. split; [done |]. by eapply list_elem_of_lookup_2.
Qed.

(** X28.  With numbers drawn by [Math.random()] every name comes from the
    tables: an address is a house number from 100 to 999 and a street of
    [STREET_NAMES], the name of a business, a leisure spot or an eatery is a
    prefix and a suffix of its kind; no part is [undefined]. *)
Theorem names_from_tables (r : Q * Q) :
  unit_draw r.1 -> unit_draw r.2 ->
  (exists n street, Names.candidate r = (Names.String_ n ++ " " ++ street)%string /\
     100 <= n <= 999 /\ street ∈ Names.STREET_NAMES) /\
  (exists p s, Names.generateName "business" r = (p ++ " " ++ s)%string /\
     p ∈ Names.BUSINESS_PREFIXES /\ s ∈ Names.BUSINESS_SUFFIXES) /\
  (exists p s, Names.generateName "leisure" r = (p ++ " " ++ s)%string /\
     p ∈ Names.LEISURE_PREFIXES /\ s ∈ Names.LEISURE_SUFFIXES) /\
  (exists p s, Names.generateName "eatery" r = (p ++ " " ++ s)%string /\
     p ∈ Names.EATERY_PREFIXES /\ s ∈ Names.EATERY_SUFFIXES).
Proof.
  intros H1 H2. split_and!.
  - destruct (names_pick_in_array Names.STREET_NAMES r.2 ltac:(done) H2) as (s & Hs & Hin).
    pose proof (unit_draw_floor r.1 900 ltac:(lia) H1) as Hn.
    change (inject_Z 900) with 900%Q in Hn.
    exists (100 + Qfloor (r.1 * 900)), s. unfold Names.candidate. rewrite Hs.
    split_and!; [done | lia | lia | done].
  - destruct (names_pick_in_array Names.BUSINESS_PREFIXES r.1 ltac:(done) H1) as (p & Hp & Hpin).
    destruct (names_pick_in_array Names.BUSINESS_SUFFIXES r.2 ltac:(done) H2) as (s & Hs & Hsin).
    exists p, s. unfold Names.generateName. rewrite Hp, Hs. by split_and!.
  - destruct (names_pick_in_array Names.LEISURE_PREFIXES r.1 ltac:(done) H1) as (p & Hp & Hpin).
    destruct (names_pick_in_array Names.LEISURE_SUFFIXES r.2 ltac:(done) H2) as (s & Hs & Hsin).
    exists p, s. unfold Names.generateName. rewrite Hp, Hs. by split_and!.
  - destruct (names_pick_in_array Names.EATERY_PREFIXES r.1 ltac:(done) H1) as (p & Hp & Hpin).
    destruct (names_pick_in_array Names.EATERY_SUFFIXES r.2 ltac:(done) H2) as (s & Hs & Hsin).
    exists p, s. unfold Names.generateName. rewrite Hp, Hs. by split_and!.
Qed.

Lemma generateAddress_first_free_witness :
  (2 < 200)%nat /\
  (forall j, (j < 2)%nat -> Names.candidate (Cases.counting j) ∈ Cases.taken) /\
  (Names.candidate (Cases.counting 2) ∉ Cases.taken \/ 2%nat = 199%nat) /\
  Names.generateAddress Cases.taken Cases.counting
  = (Names.candidate (Cases.counting 2), {[Names.candidate (Cases.counting 2)]} ∪ Cases.taken).
Proof.
  assert (H1 : (2 < 200)%nat) by lia.
  assert (H2 : forall j, (j < 2)%nat -> Names.candidate (Cases.counting j) ∈ Cases.taken).
  { intros [| [| j]] Hj; [by vm_compute | by vm_compute | lia]. }
  assert (H3 : Names.candidate (Cases.counting 2) ∉ Cases.taken \/ 2%nat = 199%nat).
  { left. by vm_compute. }
  split; [exact H1 |]. split; [exact H2 |]. split; [exact H3 |].
  exact (generateAddress_first_free Cases.taken Cases.counting 2 H1 H2 H3).
Defined.

Lemma names_from_tables_witness :
  unit_draw (1 # 2, 1 # 3).1 /\ unit_draw (1 # 2, 1 # 3).2 /\
  exists p s, Names.generateName "eatery" (1 # 2, 1 # 3) = (p ++ " " ++ s)%string /\
    p ∈ Names.EATERY_PREFIXES /\ s ∈ Names.EATERY_SUFFIXES.
Proof.
  assert (H1 : unit_draw (1 # 2, 1 # 3).1) by (split; [discriminate | reflexivity]).
  assert (H2 : unit_draw (1 # 2, 1 # 3).2) by (split; [discriminate | reflexivity]).
  split; [exact H1 |]. split; [exact H2 |].
  exact (proj2 (proj2 (proj2 (names_from_tables (1 # 2, 1 # 3) H1 H2)))).
Defined.

(** ** Pausing and replaying *)





Lemma seek_spec (cache : list Playback.recorded) (e : Q) (fuel : nat) :
  forall index, (index < length cache)%nat -> (length cache - 1 - index <= fuel)%nat ->
  (index <= Playback.seek fuel cache e index < length cache)%nat /\
  (forall j fr, (index < j <= Playback.seek fuel cache e index)%nat ->
     cache !! j = Some fr -> (Playback.realTime fr <= e)%Q) /\
  (forall fr, cache !! S (Playback.seek fuel cache e index) = Some fr ->
     (e < Playback.realTime fr)%Q).
Proof.
  induction fuel as [| fuel IH]; intros index Hlt Hfuel.
  - simpl. split; [lia |]. split; [intros; lia |].
    intros fr Hfr. apply lookup_lt_Some in Hfr. lia.
  - cbn [Playback.seek].
    destruct (Z.ltb_spec (Z.of_nat index) (Z.of_nat (length cache) - 1)) as [Hin | Hout];
      cbn [andb].
    + destruct (cache !! S index) as [next |] eqn:Hnext.
      * destruct (Qle_bool (Playback.realTime next) e) eqn:Hle.
        -- destruct (IH (S index)) as (Hr & Hbefore & Hafter); [lia | lia |].
           split; [lia |]. split; [| done].
           intros j fr Hj Hfr. destruct (decide (j = S index)) as [-> | Hne].
           ++ rewrite Hnext in Hfr. injection Hfr as <-. by apply Qle_bool_iff.
           ++ apply (Hbefore j); [lia | done].
        -- split; [lia |]. split; [intros; lia |].
           intros fr Hfr. rewrite Hnext in Hfr. injection Hfr as <-.
           apply Qnot_le_lt. intros Hc. apply Qle_bool_iff in Hc. congruence.
      * apply lookup_ge_None in Hnext. lia.
    + split; [lia |]. split; [intros; lia |].
      intros fr Hfr. apply lookup_lt_Some in Hfr. lia.
Qed.

Lemma list_find_id (agents : list Agent.t) (i : nat) (a : Agent.t) :
  NoDup (Agent.id <$> agents) -> agents !! i = Some a ->
  list_find (fun b => Agent.id b = Agent.id a) agents = Some (i, a).
Proof.
  intros Hnd Hi. apply list_find_Some. split; [done |]. split; [done |].
  intros j b Hj Hlt Heq.
  assert (j = i); [| lia].
  eapply NoDup_lookup; [exact Hnd | |].
  - rewrite list_lookup_fmap, Hj. simpl. by rewrite Heq.
  - by rewrite list_lookup_fmap, Hi.
Qed.

Lemma apply_agents_shown (agents : list Agent.t) (snaps : list Playback.agent_snap) :
  NoDup (Agent.id <$> agents) ->
  Playback.a_id <$> snaps = Agent.id <$> agents ->
  Forall2 Playback.shown_as snaps (foldl Playback.apply_agent agents snaps).
Proof.
  intros Hnd Hids.
  assert (Hlen : length snaps = length agents).
  { by rewrite <- (length_fmap Playback.a_id), Hids, length_fmap. }
  pose proof (foldl_inv Playback.apply_agent
    (fun n ags => Agent.id <$> ags = Agent.id <$> agents /\
       forall j snap a, (j < n)%nat -> snaps !! j = Some snap -> ags !! j = Some a ->
         Playback.shown_as snap a) snaps agents) as Hinv.
  destruct Hinv as [Hid Hshown].
  - split; [done |]. intros; lia.
  - intros n ags snap Hsnap [Hid Hshown].
    assert (Hn : (n < length ags)%nat).
    { apply lookup_lt_Some in Hsnap.
      rewrite <- (length_fmap Agent.id ags), Hid, length_fmap. lia. }
    destruct (lookup_lt_is_Some_2 ags n Hn) as [an Han].
    assert (Hidn : Agent.id an = Playback.a_id snap).
    { assert (H1 : (Agent.id <$> ags) !! n = Some (Agent.id an))
        by by rewrite list_lookup_fmap, Han.
      assert (H2 : (Playback.a_id <$> snaps) !! n = Some (Playback.a_id snap))
        by by rewrite list_lookup_fmap, Hsnap.
      rewrite Hid, <- Hids, H2 in H1. congruence. }
    unfold Playback.apply_agent. rewrite <- Hidn.
    rewrite (list_find_id ags n an) by (by rewrite Hid || done).
    split.
    + rewrite <- Hid. apply list_eq. intros j. rewrite !list_lookup_fmap.
      destruct (decide (j = n)) as [-> | Hne].
      * rewrite list_lookup_alter_eq, Han. done.
      * by rewrite list_lookup_alter_ne.
    + intros j snap' a Hj Hsnap' Ha.
      destruct (decide (j = n)) as [-> | Hne].
      * rewrite list_lookup_alter_eq, Han in Ha. simpl in Ha. injection Ha as <-.
        rewrite Hsnap in Hsnap'. injection Hsnap' as <-.
        unfold Playback.shown_as. simpl. by split_and!.
      * rewrite list_lookup_alter_ne in Ha by done. apply (Hshown j); [lia | done | done].
  - apply Forall2_same_length_lookup. split.
    + rewrite Hlen. rewrite <- (length_fmap Agent.id agents), <- Hid. by rewrite length_fmap.
    + intros j snap a Hsnap Ha. apply (Hshown j); [by eapply lookup_lt_Some | done | done].
Qed.

Lemma apply_agents_length (agents : list Agent.t) (snaps : list Playback.agent_snap) :
  length (foldl Playback.apply_agent agents snaps) = length agents.
Proof.
  revert agents. induction snaps as [| snap snaps IH]; intros agents; [done |].
  simpl. rewrite IH. unfold Playback.apply_agent.
  destruct (list_find _ agents) as [[i ?] |]; [by rewrite length_alter | done].
Qed.

Lemma apply_drivers_shown (drivers : list DeliveryDriver.t)
    (snaps : list Playback.driver_snap) :
  length snaps = length drivers ->
  Forall2 Playback.driver_shown_as snaps
    (foldl Playback.apply_driver drivers (imap pair snaps)).
Proof.
  intros Hlen.
  pose proof (foldl_inv Playback.apply_driver
    (fun n ds => length ds = length drivers /\
       forall j snap d, (j < n)%nat -> snaps !! j = Some snap -> ds !! j = Some d ->
         Playback.driver_shown_as snap d) (imap pair snaps) drivers) as Hinv.
  rewrite length_imap in Hinv.
  destruct Hinv as [Hl Hshown].
  - split; [done |]. intros; lia.
  - intros n ds [i snap] He [Hl Hshown].
    rewrite list_lookup_imap in He.
    destruct (snaps !! n) as [snap' |] eqn:Hsnap; [| done].
    simpl in He. injection He as <- <-.
    unfold Playback.apply_driver. simpl. split; [by rewrite length_alter |].
    intros j snap2 d Hj Hsnap2 Hd.
    destruct (decide (j = n)) as [-> | Hne].
    + rewrite list_lookup_alter_eq in Hd.
      destruct (ds !! n) as [dn |]; [| done]. simpl in Hd. injection Hd as <-.
      rewrite Hsnap in Hsnap2. injection Hsnap2 as <-. by split_and!.
    + rewrite list_lookup_alter_ne in Hd by done. apply (Hshown j); [lia | done | done].
  - apply Forall2_same_length_lookup. split; [lia |].
    intros j snap d Hsnap Hd. apply (Hshown j); [by eapply lookup_lt_Some | done | done].
Qed.

Lemma restore_shown {A} (set : A -> Agent.t -> Agent.t) (cached : option (list A))
    (agents : list Agent.t) (snaps : list Playback.agent_snap) :
  (forall v a, Agent.x (set v a) = Agent.x a /\ Agent.y (set v a) = Agent.y a /\
     Agent.state_ (set v a) = Agent.state_ a /\ Agent.id (set v a) = Agent.id a) ->
  (forall l, cached = Some l -> length l = length agents) ->
  Forall2 Playback.shown_as snaps agents ->
  exists agents', Playback.restore set cached agents = Some agents' /\
    length agents' = length agents /\
    Forall2 Playback.shown_as snaps agents'.
Proof.
  intros Hset Hlen Hshown. unfold Playback.restore.
  destruct cached as [l |]; [| by exists agents].
  specialize (Hlen l eq_refl). rewrite bool_decide_true by lia.
  eexists. split; [done |]. split; [rewrite length_zip_with; lia |].
  apply Forall2_same_length_lookup. split.
  - rewrite length_zip_with. apply Forall2_length in Hshown. lia.
  - intros j snap a Hsnap Ha.
    apply lookup_zip_with_Some in Ha as (a0 & v & -> & Ha0 & Hv).
    pose proof (Forall2_lookup_lr _ _ _ _ _ _ Hshown Hsnap Ha0) as (Hx & Hy & Hs & Hi).
    destruct (Hset v a0) as (Hx' & Hy' & Hs' & Hi'). unfold Playback.shown_as.
    by rewrite Hx', Hy', Hs', Hi'.
Qed.

(** X30.  A step of a replay shows a recorded frame.  When the frames of
    the cache are frames of the agents at hand, [_replayLoop] moves on to
    the last frame whose recorded time, going on from the frame shown
    before, is not after the time elapsed since [replay], and puts every
    agent and every courier where that frame recorded it; the replay goes
    on while a later frame is left. *)
Theorem replay_shows_recorded_frame (s : Playback.t) (now : Q) :
  Playback._replaying s = true ->
  (Playback._replayIndex s < length (Playback._frameCache s))%nat ->
  NoDup (Agent.id <$> Simulation.agents (Playback.sim s)) ->
  Playback.cache_of s -> Playback.cached_of s ->
  exists s' fr,
    Playback._replayLoop s now = Some s' /\
    Playback._frameCache s !! Playback._replayIndex s' = Some fr /\
    (Playback._replayIndex s <= Playback._replayIndex s')%nat /\
    (forall j fr', (Playback._replayIndex s < j <= Playback._replayIndex s')%nat ->
       Playback._frameCache s !! j = Some fr' ->
       (Playback.realTime fr' <= (now - Playback._replayStart s) / 1000)%Q) /\
    (forall fr', Playback._frameCache s !! S (Playback._replayIndex s') = Some fr' ->
       ((now - Playback._replayStart s) / 1000 < Playback.realTime fr')%Q) /\
    Forall2 Playback.shown_as (Playback.r_agents fr)
      (Simulation.agents (Playback.sim s')) /\
    Forall2 Playback.driver_shown_as (Playback.r_drivers fr)
      (Simulation.drivers (Playback.sim s')) /\
    Playback._replaying s'
    = bool_decide (S (Playback._replayIndex s') < length (Playback._frameCache s))%nat.
Proof.
  intros Hrep Hidx Hnd Hcache [Hlogs Hpaths].
  unfold Playback._replayLoop. rewrite Hrep. cbn [negb].
  set (e := ((now - Playback._replayStart s) / 1000)%Q).
  destruct (seek_spec (Playback._frameCache s) e (length (Playback._frameCache s))
              (Playback._replayIndex s) Hidx ltac:(lia)) as (Hrange & Hbefore & Hafter).
  set (idx := Playback.seek _ _ e _) in *.
  destruct (lookup_lt_is_Some_2 (Playback._frameCache s) idx) as [fr Hfr]; [lia |].
  rewrite Hfr.
  destruct (proj1 (Forall_lookup _ _) Hcache idx fr Hfr) as [Hids Hdl].
  pose proof (apply_agents_shown _ _ Hnd Hids) as Hshown.
  pose proof (apply_drivers_shown _ _ Hdl) as Hdshown.
  pose proof (apply_agents_length (Simulation.agents (Playback.sim s)) (Playback.r_agents fr))
    as Halen.
  destruct (Z.leb_spec (Z.of_nat (length (Playback._frameCache s)) - 1) (Z.of_nat idx))
    as [Hlast | Hmore].
  - cbn [Playback._applyFrame Playback.set_sim Playback.set_drivers Playback.set_agents
         Playback.sim Playback._cachedLogs Playback._cachedPaths Simulation.agents].
    destruct (restore_shown Agent.set_log (Playback._cachedLogs s) _ _
                ltac:(done) ltac:(intros l Hl; rewrite Halen; by apply Hlogs) Hshown)
      as (ags1 & -> & Hl1 & Hshown1).
    destruct (restore_shown Agent.set_pathHistory (Playback._cachedPaths s) _ _
                ltac:(done) ltac:(intros l Hl; rewrite Hl1, Halen; by apply Hpaths) Hshown1)
      as (ags2 & -> & Hl2 & Hshown2).
    eexists _, fr. split; [done |]. simpl.
    split_and!; try done; try lia.
    rewrite bool_decide_false by lia. done.
  - eexists _, fr. split; [done |]. simpl.
    split_and!; try done; try lia.
    rewrite bool_decide_true by lia. done.
Qed.

Lemma replay_shows_recorded_frame_witness :
  Playback._replaying Cases.replaying = true /\
  (Playback._replayIndex Cases.replaying < length (Playback._frameCache Cases.replaying))%nat /\
  NoDup (Agent.id <$> Simulation.agents (Playback.sim Cases.replaying)) /\
  Playback.cache_of Cases.replaying /\ Playback.cached_of Cases.replaying /\
  exists s' fr,
    Playback._replayLoop Cases.replaying 242000 = Some s' /\
    Playback._frameCache Cases.replaying !! Playback._replayIndex s' = Some fr /\
    Forall2 Playback.shown_as (Playback.r_agents fr)
      (Simulation.agents (Playback.sim s')).
Proof.
  assert (H1 : Playback._replaying Cases.replaying = true) by reflexivity.
  assert (H2 : (Playback._replayIndex Cases.replaying
                < length (Playback._frameCache Cases.replaying))%nat)
    by (vm_compute; lia).
  assert (H3 : NoDup (Agent.id <$> Simulation.agents (Playback.sim Cases.replaying))).
  { apply (bool_decide_unpack _). by vm_compute. }
  assert (H4 : Playback.cache_of Cases.replaying).
  { unfold Playback.cache_of. apply (bool_decide_unpack _). by vm_compute. }
  assert (H5 : Playback.cached_of Cases.replaying).
  { split; intros l Hl; vm_compute in Hl; discriminate. }
  split; [exact H1 |]. split; [exact H2 |]. split; [exact H3 |].
  split; [exact H4 |]. split; [exact H5 |].
  destruct (replay_shows_recorded_frame Cases.replaying 242000 H1 H2 H3 H4 H5)
    as (s' & fr & Hs' & Hfr & _ & _ & _ & Hshown & _).
  exists s', fr. split; [exact Hs' |]. split; [exact Hfr | exact Hshown].
Defined.
